(** * Event aggregation platform: scraping core

    A shallow embedding of the scraping and reconciliation subsystem
    (StatusManager, CircuitBreaker, ScrapingLog, ScraperEngine,
    ScheduledScraper) and the properties stated about it.

    Conventions of the embedding:
    - a JS [Date] is its epoch-millisecond instant, a [Z];
    - counters and lengths are [Z] or [nat] as the code uses them;
    - a function that can throw returns a [Res]: [Ok v] or [Throw e];
    - a [Map<string, _>] is a [gmap string _], an array is a [list]. *)

From Stdlib Require Import ZArith String Ascii List Bool Lia.
From stdpp Require Import gmap strings list sorting pretty.

Local Open Scope string_scope.
Local Open Scope list_scope.
Local Open Scope Z_scope.

(** ** JavaScript string primitives used by the code *)

Module Js.

(** [Array.prototype.join] on strings. *)
Fixpoint join (sep : string) (l : list string) : string :=
  match l with
  | [] => ""
  | [x] => x
  | x :: rest => x +:+ sep +:+ join sep rest
  end.

(** [String.prototype.startsWith]. *)
Fixpoint startsWith (p s : string) : bool :=
  match p, s with
  | EmptyString, _ => true
  | String a p', String b s' => if Ascii.eqb a b then startsWith p' s' else false
  | String _ _, EmptyString => false
  end.

(** [String.prototype.includes]. *)
Fixpoint includes (needle hay : string) : bool :=
  startsWith needle hay ||
  match hay with
  | EmptyString => false
  | String _ hay' => includes needle hay'
  end.

(** Strings are sequences of 8-bit characters (the Latin-1 range of the
    UTF-16 code units of JS). White space and line terminators below are
    those of ECMAScript inside that range. *)
Definition isWhiteSpace (c : ascii) : bool :=
  let n := nat_of_ascii c in
  ((9 <=? n) && (n <=? 13) || (n =? 32) || (n =? 160))%nat.

Definition isLineTerminator (c : ascii) : bool :=
  let n := nat_of_ascii c in ((n =? 10) || (n =? 13))%nat.

Fixpoint trimStart (s : string) : string :=
  match s with
  | String c s' => if isWhiteSpace c then trimStart s' else s
  | EmptyString => EmptyString
  end.

(** Drops trailing white space: a character is kept when something
    non-blank follows or it is itself non-blank. *)
Fixpoint trimEnd (s : string) : string :=
  match s with
  | EmptyString => EmptyString
  | String c s' =>
      match trimEnd s' with
      | EmptyString => if isWhiteSpace c then EmptyString else String c EmptyString
      | t => String c t
      end
  end.

(** [String.prototype.trim]. *)
Definition trim (s : string) : string := trimEnd (trimStart s).

Definition lowerChar (c : ascii) : ascii :=
  let n := nat_of_ascii c in
  if ((65 <=? n) && (n <=? 90) ||
      (192 <=? n) && (n <=? 222) && negb (n =? 215))%nat
  then ascii_of_nat (n + 32) else c.

(** [String.prototype.toLowerCase]. *)
Fixpoint toLowerCase (s : string) : string :=
  match s with
  | EmptyString => EmptyString
  | String c s' => String (lowerChar c) (toLowerCase s')
  end.

(** The tail of [s] after the prefix [p], when [s] starts with [p]. *)
Fixpoint afterPrefix (p s : string) : option string :=
  match p, s with
  | EmptyString, _ => Some s
  | String a p', String b s' => if Ascii.eqb a b then afterPrefix p' s' else None
  | String _ _, EmptyString => None
  end.

(** [/^https?:\/\/.+/.test(s)]: the scheme, then at least one character
    that is not a line terminator. *)
Definition httpUrlRegex_test (s : string) : bool :=
  let dotPlus rest :=
    match rest with
    | Some (String c _) => negb (isLineTerminator c)
    | _ => false
    end in
  dotPlus (afterPrefix "https://" s) || dotPlus (afterPrefix "http://" s).

(** JS truthiness of a string. *)
Definition truthy (s : string) : bool :=
  match s with EmptyString => false | _ => true end.

End Js.

(** ** Errors and fallible results *)

(** A thrown JS [Error]: the optional [code] and HTTP response status are the
    two extra properties the error classifier inspects. *)
Record Error := mkError {
  err_message : string;
  err_code : option string;
  err_responseStatus : option Z
}.

Definition newError (msg : string) : Error := mkError msg None None.

Inductive Res (A : Type) : Type :=
| Ok (v : A)
| Throw (e : Error).
Arguments Ok {A} v.
Arguments Throw {A} e.

Definition isOk {A} (r : Res A) : bool :=
  match r with Ok _ => true | Throw _ => false end.

(** ** types/index.ts: [EventStatus] *)

Inductive EventStatus := NEW | UPDATED | INACTIVE | IMPORTED.

#[global] Instance EventStatus_eq_dec : EqDecision EventStatus.
Proof. solve_decision. Defined.

(** The string value of each enum member. *)
Definition statusName (s : EventStatus) : string :=
  match s with
  | NEW => "new"
  | UPDATED => "updated"
  | INACTIVE => "inactive"
  | IMPORTED => "imported"
  end.

Definition EventStatus_eqb (a b : EventStatus) : bool := bool_decide (a = b).

(** ** scraping/StatusManager.ts: transition validation *)

Module Transition.

Record Validation := mkValidation {
  valid : bool;
  reason : option string
}.

(** The [validTransitions] record of [validateStatusTransition]. *)
Definition validTransitions (s : EventStatus) : list EventStatus :=
  match s with
  | NEW => [UPDATED; INACTIVE; IMPORTED]
  | UPDATED => [INACTIVE; IMPORTED]
  | INACTIVE => [IMPORTED]
  | IMPORTED => []
  end.

Definition validateStatusTransition (currentStatus newStatus : EventStatus)
  : Validation :=
  let allowedTransitions := validTransitions currentStatus in
  if existsb (EventStatus_eqb newStatus) allowedTransitions
  then mkValidation true None
  else mkValidation false
         (Some ("Invalid transition from " +:+ statusName currentStatus +:+
                " to " +:+ statusName newStatus +:+
                ". Allowed transitions: " +:+
                Js.join ", " (map statusName allowedTransitions))).

(** The transition table as the specification words it:
    new -> {updated, inactive, imported}, updated -> {inactive, imported},
    inactive -> {imported}, imported -> {}. *)
Inductive spec_table : EventStatus -> EventStatus -> Prop :=
| new_updated : spec_table NEW UPDATED
| new_inactive : spec_table NEW INACTIVE
| new_imported : spec_table NEW IMPORTED
| updated_inactive : spec_table UPDATED INACTIVE
| updated_imported : spec_table UPDATED IMPORTED
| inactive_imported : spec_table INACTIVE IMPORTED.

End Transition.

(** ** types/index.ts and models/Event.ts *)

Module Event.

(** An optional string property of a JS object: the key is absent, the
    key is there with the value [undefined], or it holds a string. A
    document never has an absent key: a path that is not set reads as
    [undefined]. *)
Inductive OptionalString :=
| Absent
| Undefined
| Str (s : string).

(** [EventData]: one scraped event. The same record gives the scraped
    fields of a document. *)
Record EventData := mkData {
  title : string;
  dateTime : Z;
  venueName : string;
  venueAddress : OptionalString;
  city : string;
  description : string;
  categoryTags : list string;
  imageUrl : OptionalString;
  sourceWebsite : string;
  originalEventUrl : string;
  lastScrapedAt : Z
}.

(** [IEvent]: a document of the events collection; its scraped fields
    are kept together in [doc]. The [timestamps] option of the schema
    (createdAt, updatedAt) is read by no code here and is left out. *)
Record IEvent := mkEvent {
  _id : nat;
  doc : EventData;
  status : EventStatus;
  importedAt : option Z;
  importedBy : option nat;
  importNotes : option string
}.

Definition set_doc (d : EventData) (e : IEvent) : IEvent :=
  mkEvent (_id e) d (status e) (importedAt e) (importedBy e) (importNotes e).

Definition set_status (s : EventStatus) (e : IEvent) : IEvent :=
  mkEvent (_id e) (doc e) s (importedAt e) (importedBy e) (importNotes e).

Definition set_lastScrapedAt (t : Z) (d : EventData) : EventData :=
  mkData (title d) (dateTime d) (venueName d) (venueAddress d) (city d)
    (description d) (categoryTags d) (imageUrl d) (sourceWebsite d)
    (originalEventUrl d) t.

Definition set_categoryTags (tags : list string) (d : EventData) : EventData :=
  mkData (title d) (dateTime d) (venueName d) (venueAddress d) (city d)
    (description d) tags (imageUrl d) (sourceWebsite d)
    (originalEventUrl d) (lastScrapedAt d).

Definition set_city (c : string) (d : EventData) : EventData :=
  mkData (title d) (dateTime d) (venueName d) (venueAddress d) c
    (description d) (categoryTags d) (imageUrl d) (sourceWebsite d)
    (originalEventUrl d) (lastScrapedAt d).

(** What assigning the optional property [given] leaves on a path that
    holds [held]: an absent key assigns nothing, [undefined] unsets the
    path, a string is set through the [trim: true] setter. *)
Definition assignOptional (held given : OptionalString) : OptionalString :=
  match given with
  | Absent => held
  | Undefined => Undefined
  | Str s => Str (Js.trim s)
  end.

(** [Object.assign(document, { ...d })]: every key of [d] is assigned to
    the document whose scraped fields are [held], the strings through the
    [trim: true] setters of the schema. *)
Definition assign (held d : EventData) : EventData :=
  mkData (Js.trim (title d)) (dateTime d) (Js.trim (venueName d))
    (assignOptional (venueAddress held) (venueAddress d)) (Js.trim (city d))
    (Js.trim (description d)) (categoryTags d)
    (assignOptional (imageUrl held) (imageUrl d)) (Js.trim (sourceWebsite d))
    (Js.trim (originalEventUrl d)) (lastScrapedAt d).

(** [new Event({ ...d })]: the same assignment to a document none of whose
    optional paths is set. *)
Definition applySetters (d : EventData) : EventData :=
  mkData (Js.trim (title d)) (dateTime d) (Js.trim (venueName d))
    (assignOptional Undefined (venueAddress d)) (Js.trim (city d))
    (Js.trim (description d)) (categoryTags d)
    (assignOptional Undefined (imageUrl d)) (Js.trim (sourceWebsite d))
    (Js.trim (originalEventUrl d)) (lastScrapedAt d).

Definition tooLong (limit : nat) (s : string) : bool :=
  (limit <? String.length s)%nat.

(** The field validators of [EventSchema], path by path: for each path the
    first validator that fails, with its message. *)
Definition titleErrors (d : EventData) : list (string * string) :=
  if negb (Js.truthy (title d)) then [("title", "Event title is required")]
  else if tooLong 200 (title d)
  then [("title", "Title cannot exceed 200 characters")]
  else [].

Definition venueNameErrors (d : EventData) : list (string * string) :=
  if negb (Js.truthy (venueName d)) then [("venueName", "Venue name is required")]
  else if tooLong 150 (venueName d)
  then [("venueName", "Venue name cannot exceed 150 characters")]
  else [].

Definition venueAddressErrors (d : EventData) : list (string * string) :=
  match venueAddress d with
  | Str a =>
      if tooLong 300 a
      then [("venueAddress", "Venue address cannot exceed 300 characters")]
      else []
  | _ => []
  end.

Definition cityErrors (d : EventData) : list (string * string) :=
  if negb (Js.truthy (city d)) then [("city", "Path `city` is required.")]
  else [].

Definition descriptionErrors (d : EventData) : list (string * string) :=
  if negb (Js.truthy (description d))
  then [("description", "Event description is required")]
  else if tooLong 2000 (description d)
  then [("description", "Description cannot exceed 2000 characters")]
  else [].

Definition categoryTagsErrors (d : EventData) : list (string * string) :=
  if (10 <? length (categoryTags d))%nat
  then [("categoryTags", "Cannot have more than 10 category tags")]
  else [].

Definition imageUrlErrors (d : EventData) : list (string * string) :=
  match imageUrl d with
  | Str u =>
      if Js.truthy u && negb (Js.httpUrlRegex_test u)
      then [("imageUrl", "Image URL must be a valid HTTP/HTTPS URL")]
      else []
  | _ => []
  end.

Definition sourceWebsiteErrors (d : EventData) : list (string * string) :=
  if negb (Js.truthy (sourceWebsite d))
  then [("sourceWebsite", "Source website is required")]
  else if negb (Js.httpUrlRegex_test (sourceWebsite d))
  then [("sourceWebsite", "Source website must be a valid HTTP/HTTPS URL")]
  else [].

Definition originalEventUrlErrors (d : EventData) : list (string * string) :=
  if negb (Js.truthy (originalEventUrl d))
  then [("originalEventUrl", "Original event URL is required")]
  else if negb (Js.httpUrlRegex_test (originalEventUrl d))
  then [("originalEventUrl", "Original event URL must be a valid HTTP/HTTPS URL")]
  else [].

(** The validation failures of the scraped fields. *)
Definition dataErrors (d : EventData) : list (string * string) :=
  titleErrors d ++ venueNameErrors d ++ venueAddressErrors d ++ cityErrors d ++
  descriptionErrors d ++ categoryTagsErrors d ++ imageUrlErrors d ++
  sourceWebsiteErrors d ++ originalEventUrlErrors d.

Definition importNotesErrors (notes : option string) : list (string * string) :=
  match notes with
  | Some n =>
      if tooLong 500 n
      then [("importNotes", "Import notes cannot exceed 500 characters")]
      else []
  | None => []
  end.

(** Validation as [save] runs it before the pre-save hook: all failures are
    reported in one error. Every path is checked; for a document read from a
    collection whose documents all pass, this is what checking the modified
    paths amounts to. *)
Definition validate (e : IEvent) : Res unit :=
  match dataErrors (doc e) ++ importNotesErrors (importNotes e) with
  | [] => Ok tt
  | failures =>
      Throw (newError
               ("Event validation failed: " +:+
                Js.join ", " (map (fun '(path, msg) => path +:+ ": " +:+ msg)
                                failures)))
  end.

(** [[...new Set(xs)]]: first occurrences, in order. *)
Fixpoint dedupe (seen xs : list string) : list string :=
  match xs with
  | [] => []
  | x :: rest =>
      if bool_decide (x ∈ seen) then dedupe seen rest
      else x :: dedupe (x :: seen) rest
  end.

Definition normalizeTags (tags : list string) : list string :=
  dedupe [] (map (fun tag => Js.toLowerCase (Js.trim tag)) tags).

(** [EventSchema.pre("save", ...)], on the scraped fields: the city default,
    then the tags trimmed, lowercased and deduplicated. *)
Definition preSaveData (d : EventData) : EventData :=
  let d1 := if Js.truthy (city d) then d else set_city "Sydney" d in
  match categoryTags d1 with
  | [] => d1
  | tags => set_categoryTags (normalizeTags tags) d1
  end.

Definition preSave (e : IEvent) : IEvent := set_doc (preSaveData (doc e)) e.

(** The events collection, in insertion order. *)
Definition Collection := list IEvent.

Definition sameKey (a b : IEvent) : bool :=
  String.eqb (originalEventUrl (doc a)) (originalEventUrl (doc b)) &&
  String.eqb (sourceWebsite (doc a)) (sourceWebsite (doc b)).

(** The unique index on (originalEventUrl, sourceWebsite): is the key of
    [e] held by another document? *)
Definition duplicateKey (e : IEvent) (coll : Collection) : bool :=
  existsb (fun d => negb (_id d =? _id e)%nat && sameKey d e) coll.

Definition duplicateKeyError : Error :=
  mkError "E11000 duplicate key error collection: events index: originalEventUrl_1_sourceWebsite_1"
    (Some "11000") None.

Definition documentNotFoundError : Error :=
  newError "No document found for query".

Definition replace (e : IEvent) (coll : Collection) : Collection :=
  map (fun d => if (_id d =? _id e)%nat then e else d) coll.

Definition hasId (i : nat) (coll : Collection) : bool :=
  existsb (fun d => (_id d =? i)%nat) coll.

(** [save()] of a document created with [new Event(...)]: validation, the
    pre-save hook, then the insert. The result carries the document as it
    is left in memory. The database itself is assumed reachable. *)
Definition saveNew (e : IEvent) (coll : Collection)
  : IEvent * Res unit * Collection :=
  match validate e with
  | Throw err => (e, Throw err, coll)
  | Ok _ =>
      let e1 := preSave e in
      if duplicateKey e1 coll || hasId (_id e1) coll
      then (e1, Throw duplicateKeyError, coll)
      else (e1, Ok tt, coll ++ [e1])
  end.

(** [save()] of a document read from the collection. *)
Definition saveExisting (e : IEvent) (coll : Collection)
  : IEvent * Res unit * Collection :=
  match validate e with
  | Throw err => (e, Throw err, coll)
  | Ok _ =>
      let e1 := preSave e in
      if negb (hasId (_id e1) coll)
      then (e1, Throw documentNotFoundError, coll)
      else if duplicateKey e1 coll
      then (e1, Throw duplicateKeyError, coll)
      else (e1, Ok tt, replace e1 coll)
  end.

(** A fresh [ObjectId]. *)
Definition freshId (coll : Collection) : nat :=
  S (fold_right Nat.max 0%nat (map _id coll)).

(** [Event.find({ sourceWebsite })]. The value of the filter is cast
    through the schema, whose [trim: true] setter trims it before the
    query is run. *)
Definition findBySource (website : string) (coll : Collection) : list IEvent :=
  List.filter (fun e => String.eqb (sourceWebsite (doc e)) (Js.trim website))
    coll.

(** [Event.findById(id)]. *)
Definition findById (i : nat) (coll : Collection) : option IEvent :=
  List.find (fun e => (_id e =? i)%nat) coll.

End Event.

Arguments Event.preSave : simpl never.
Arguments Event.preSaveData : simpl never.
Arguments Event.normalizeTags : simpl never.
Arguments Event.dataErrors : simpl never.
Arguments Event.validate : simpl never.
Arguments Event.saveExisting : simpl never.
Arguments Event.saveNew : simpl never.
Arguments Event.applySetters : simpl never.

(** ** scraping/StatusManager.ts: reconciliation *)

Module StatusManager.
Import Event Transition.

Inductive Metadata :=
| SourceMetadata (website : string)
| ImportMetadata (userId : nat) (notes : option string).

Record StatusChangeLog := mkChange {
  eventId : nat;
  previousStatus : EventStatus;
  newStatus : EventStatus;
  changeReason : string;
  timestamp : Z;
  metadata : Metadata
}.

(** [ChangeDetectionResult]. The documents of [updatedEvents] and
    [inactiveEvents] are the objects of the [existingEvents] array, so they
    show every later change made to those objects. *)
Record ChangeDetectionResult := mkResult {
  newEvents : list EventData;
  updatedEvents : list (IEvent * EventData);
  inactiveEvents : list IEvent;
  statusChanges : list StatusChangeLog
}.

(** The result while it is being built: a document is referred to by its
    position in the [existingEvents] array, which is how the aliasing of
    the JS objects is kept. *)
Record Detection := mkDetection {
  det_new : list EventData;
  det_updated : list (nat * EventData);
  det_inactive : list nat
}.

Definition noDetection : Detection := mkDetection [] [] [].

(** [detectEventChanges]: the six compared fields, in the order of
    [fieldsToCompare], then the tags. *)
Definition textOf (v : OptionalString) : string :=
  match v with Str s => s | _ => "" end.

Definition tagsDiffer (existingTags scrapedTags : list string) : bool :=
  negb (length existingTags =? length scrapedTags)%nat ||
  negb (forallb (fun '(index, tag) =>
                   bool_decide (scrapedTags !! index = Some tag))
          (imap pair existingTags)).

Definition detectEventChanges (existing : IEvent) (scraped : EventData) : bool :=
  let e := doc existing in
  if negb (String.eqb (title e) (title scraped)) then true
  else if negb (dateTime e =? dateTime scraped) then true
  else if negb (String.eqb (venueName e) (venueName scraped)) then true
  else if negb (String.eqb (textOf (venueAddress e))
                           (textOf (venueAddress scraped))) then true
  else if negb (String.eqb (description e) (description scraped)) then true
  else if negb (String.eqb (textOf (imageUrl e))
                           (textOf (imageUrl scraped))) then true
  else tagsDiffer (categoryTags e) (categoryTags scraped).

(** [existingEventMap]: url -> position of the document, later documents
    overwriting earlier ones under the same url. *)
Fixpoint indexEvents (i : nat) (events : list IEvent) (m : gmap string nat)
  : gmap string nat :=
  match events with
  | [] => m
  | event :: rest =>
      indexEvents (S i) rest (<[originalEventUrl (doc event) := i]> m)
  end.

(** [scrapedEventMap]. *)
Definition indexScraped (scraped : list EventData) : gmap string EventData :=
  fold_left (fun m event => <[originalEventUrl event := event]> m) scraped ∅.

Definition has {A} (m : gmap string A) (k : string) : bool :=
  bool_decide (is_Some (m !! k)).

(** The memory of one pass: the [existingEvents] array (documents are
    changed in place), the collection, and the manager's log. *)
Record Pass := mkPass {
  existingEvents : list IEvent;
  collection : Collection;
  statusChangeLogs : list StatusChangeLog
}.

(** [existingEventMap.get(url)]: the document object, with its position. *)
Definition lookupExisting (existingEventMap : gmap string nat)
           (existing : list IEvent) (url : string) : option (nat * IEvent) :=
  i ← existingEventMap !! url;
  event ← existing !! i;
  Some (i, event).

(** The body of the first loop of [processScrapedEvents]: classify one
    scraped event as new or updated. A matched event without changes has
    [lastScrapedAt] refreshed and is saved at once; a failure of that save
    is thrown. *)
Definition detectOne (now : Z) (existingEventMap : gmap string nat)
           (scrapedEvent : EventData) (p : Pass) (det : Detection)
  : Res Detection * Pass :=
  match lookupExisting existingEventMap (existingEvents p)
          (originalEventUrl scrapedEvent) with
  | None =>
      (Ok (mkDetection (det_new det ++ [scrapedEvent]) (det_updated det)
             (det_inactive det)), p)
  | Some (i, existingEvent) =>
      if detectEventChanges existingEvent scrapedEvent
      then
        (Ok (mkDetection (det_new det)
               (det_updated det ++ [(i, scrapedEvent)])
               (det_inactive det)), p)
      else
        let touched :=
          set_doc (set_lastScrapedAt now (doc existingEvent)) existingEvent in
        match saveExisting touched (collection p) with
        | (inMemory, saved, coll') =>
            (match saved with Ok _ => Ok det | Throw error => Throw error end,
             mkPass (<[i := inMemory]> (existingEvents p)) coll'
               (statusChangeLogs p))
        end
  end.

(** The first loop; it stops at the first throw. *)
Fixpoint detectNewAndUpdated (now : Z) (existingEventMap : gmap string nat)
         (scraped : list EventData) (p : Pass) (det : Detection)
  : Res Detection * Pass :=
  match scraped with
  | [] => (Ok det, p)
  | scrapedEvent :: rest =>
      match detectOne now existingEventMap scrapedEvent p det with
      | (Ok det', p') => detectNewAndUpdated now existingEventMap rest p' det'
      | (Throw error, p') => (Throw error, p')
      end
  end.

(** The second loop: existing events missing from the scraped data. *)
Definition detectInactive (scrapedEventMap : gmap string EventData)
           (existing : list IEvent) : list nat :=
  omap (fun '(i, existingEvent) =>
          if negb (has scrapedEventMap (originalEventUrl (doc existingEvent)))
             && negb (EventStatus_eqb (status existingEvent) INACTIVE)
             && negb (EventStatus_eqb (status existingEvent) IMPORTED)
          then Some i else None)
       (imap pair existing).

(** [applyStatusChanges], body of the first loop: create one new event.
    A failed save is caught and only logged to the console. *)
Definition applyNewOne (now : Z) (acc : Pass * list StatusChangeLog)
           (newEventData : EventData) : Pass * list StatusChangeLog :=
  let '(p, changes) := acc in
  let newEvent :=
    mkEvent (freshId (collection p)) (applySetters newEventData) NEW
      None None None in
  match saveNew newEvent (collection p) with
  | (saved, Ok _, coll') =>
      let statusChange :=
        mkChange (_id saved) NEW NEW "Event created from scraping" now
          (SourceMetadata (sourceWebsite newEventData)) in
      (mkPass (existingEvents p) coll' (statusChangeLogs p ++ [statusChange]),
       changes ++ [statusChange])
  | (_, Throw _, coll') =>
      (mkPass (existingEvents p) coll' (statusChangeLogs p), changes)
  end.

(** Body of the second loop: assign the scraped record to the matched
    event and mark it updated. An optional key the record does not have
    leaves the stored value. The object is changed before the save,
    whatever the save does. *)
Definition applyUpdatedOne (now : Z) (acc : Pass * list StatusChangeLog)
           (entry : nat * EventData) : Pass * list StatusChangeLog :=
  let '(p, changes) := acc in
  let '(i, updated) := entry in
  match existingEvents p !! i with
  | None => (p, changes)
  | Some existing =>
      let previous := status existing in
      let assigned :=
        set_status UPDATED
          (set_doc (assign (doc existing) (set_lastScrapedAt now updated))
             existing) in
      match saveExisting assigned (collection p) with
      | (inMemory, Ok _, coll') =>
          let statusChange :=
            mkChange (_id inMemory) previous UPDATED
              "Event data changed during scraping" now
              (SourceMetadata (sourceWebsite updated)) in
          (mkPass (<[i := inMemory]> (existingEvents p)) coll'
             (statusChangeLogs p ++ [statusChange]),
           changes ++ [statusChange])
      | (inMemory, Throw _, coll') =>
          (mkPass (<[i := inMemory]> (existingEvents p)) coll'
             (statusChangeLogs p),
           changes)
      end
  end.

(** Body of the third loop: mark one missing event inactive. *)
Definition applyInactiveOne (now : Z) (acc : Pass * list StatusChangeLog)
           (i : nat) : Pass * list StatusChangeLog :=
  let '(p, changes) := acc in
  match existingEvents p !! i with
  | None => (p, changes)
  | Some inactiveEvent =>
      let previous := status inactiveEvent in
      let assigned :=
        set_status INACTIVE
          (set_doc (set_lastScrapedAt now (doc inactiveEvent))
             inactiveEvent) in
      match saveExisting assigned (collection p) with
      | (inMemory, Ok _, coll') =>
          let statusChange :=
            mkChange (_id inMemory) previous INACTIVE
              "Event no longer found on source website" now
              (SourceMetadata (sourceWebsite (doc inMemory))) in
          (mkPass (<[i := inMemory]> (existingEvents p)) coll'
             (statusChangeLogs p ++ [statusChange]),
           changes ++ [statusChange])
      | (inMemory, Throw _, coll') =>
          (mkPass (<[i := inMemory]> (existingEvents p)) coll'
             (statusChangeLogs p),
           changes)
      end
  end.

Definition applyNew (now : Z) (news : list EventData)
           (acc : Pass * list StatusChangeLog) :=
  fold_left (applyNewOne now) news acc.

Definition applyUpdated (now : Z) (updates : list (nat * EventData))
           (acc : Pass * list StatusChangeLog) :=
  fold_left (applyUpdatedOne now) updates acc.

Definition applyInactive (now : Z) (inactive : list nat)
           (acc : Pass * list StatusChangeLog) :=
  fold_left (applyInactiveOne now) inactive acc.

Definition applyStatusChanges (now : Z) (det : Detection) (p : Pass)
  : Pass * list StatusChangeLog :=
  applyInactive now (det_inactive det)
    (applyUpdated now (det_updated det)
       (applyNew now (det_new det) (p, []))).

(** The result as the caller sees it: references resolved against the
    documents as they are when the pass ends. *)
Definition resolve (existing : list IEvent) (det : Detection)
           (changes : list StatusChangeLog) : ChangeDetectionResult :=
  mkResult (det_new det)
    (omap (fun '(i, updated) =>
             (fun e => (e, updated)) <$> existing !! i) (det_updated det))
    (omap (fun i => existing !! i) (det_inactive det))
    changes.

(** The state a pass leaves behind: the collection and the manager's
    in-memory change log. *)
Record State := mkState {
  events : Collection;
  changeLog : list StatusChangeLog
}.

(** The detection part of [processScrapedEvents], up to (excluding)
    [applyStatusChanges]. *)
Definition detect (now : Z) (scrapedEvents : list EventData)
           (website : string) (st : State) : Res Detection * Pass :=
  let existing := findBySource website (events st) in
  let existingEventMap := indexEvents 0 existing ∅ in
  let scrapedEventMap := indexScraped scrapedEvents in
  match detectNewAndUpdated now existingEventMap scrapedEvents
          (mkPass existing (events st) (changeLog st)) noDetection with
  | (Throw error, p) => (Throw error, p)
  | (Ok det, p) =>
      (Ok (mkDetection (det_new det) (det_updated det)
             (detectInactive scrapedEventMap (existingEvents p))), p)
  end.

(** [processScrapedEvents]; [now] is the instant every [new Date()] of the
    pass reads. *)
Definition processScrapedEvents (now : Z) (scrapedEvents : list EventData)
           (website : string) (st : State)
  : Res ChangeDetectionResult * State :=
  match detect now scrapedEvents website st with
  | (Throw error, p) =>
      (Throw error, mkState (collection p) (statusChangeLogs p))
  | (Ok det, p) =>
      let '(p', changes) := applyStatusChanges now det p in
      (Ok (resolve (existingEvents p') det changes),
       mkState (collection p') (statusChangeLogs p'))
  end.

Record ImportResult := mkImport {
  success : bool;
  error : option string
}.

(** [importEvent]. *)
Definition importEvent (now : Z) (id userId : nat) (notes : option string)
           (st : State) : ImportResult * State :=
  match findById id (events st) with
  | None => (mkImport false (Some "Event not found"), st)
  | Some event =>
      let validation := validateStatusTransition (status event) IMPORTED in
      if negb (valid validation)
      then (mkImport false (reason validation), st)
      else
        let previous := status event in
        let notes' :=
          match notes with
          | Some n => if Js.truthy n then Some (Js.trim n) else importNotes event
          | None => importNotes event
          end in
        let assigned :=
          mkEvent (_id event) (doc event) IMPORTED (Some now) (Some userId)
            notes' in
        match saveExisting assigned (events st) with
        | (inMemory, Ok _, coll') =>
            let statusChange :=
              mkChange (_id inMemory) previous IMPORTED
                "Event manually imported by admin" now
                (ImportMetadata userId notes) in
            (mkImport true None,
             mkState coll' (changeLog st ++ [statusChange]))
        | (_, Throw e, coll') =>
            (mkImport false
               (Some ("Error importing event: " +:+ err_message e)),
             mkState coll' (changeLog st))
        end
  end.

(** [Array.prototype.sort] with the comparator
    [(a, b) => b.timestamp.getTime() - a.timestamp.getTime()]. The sort is
    stable, which fixes its result: newest first, entries of the same
    instant in the order they had. It is written here as the insertion of
    each entry, from the last to the first, in front of the first entry
    that is not newer. *)
Fixpoint insertByTimestamp (entry : StatusChangeLog)
         (sorted : list StatusChangeLog) : list StatusChangeLog :=
  match sorted with
  | [] => [entry]
  | other :: rest =>
      if timestamp other <=? timestamp entry
      then entry :: other :: rest
      else other :: insertByTimestamp entry rest
  end.

Definition sortNewestFirst (logs : list StatusChangeLog)
  : list StatusChangeLog :=
  fold_right insertByTimestamp [] logs.

(** [array.slice(0, end)] for an integer [end]: a negative [end] counts
    from the end of the array. *)
Definition slice0 {A} (end_ : Z) (l : list A) : list A :=
  let len := Z.of_nat (length l) in
  let final := if end_ <? 0 then Z.max (len + end_) 0 else Z.min end_ len in
  take (Z.to_nat final) l.

(** [getStatusChangeLogs(limit?)] on the manager's log; [limit] is an
    integer when given, and [limit ? ... : logs] takes 0 as no limit. *)
Definition getStatusChangeLogs (limit : option Z)
           (statusChangeLogs : list StatusChangeLog) : list StatusChangeLog :=
  let logs := sortNewestFirst statusChangeLogs in
  match limit with
  | Some n => if n =? 0 then logs else slice0 n logs
  | None => logs
  end.

(** [clearStatusChangeLogs]. *)
Definition clearStatusChangeLogs (st : State) : State := mkState (events st) [].

(** The [$group] stage of [getStatusStatistics]: one result per status that
    occurs in the collection, with the number of its documents. *)
Fixpoint countInGroup (s : EventStatus) (groups : list (EventStatus * Z))
  : list (EventStatus * Z) :=
  match groups with
  | [] => [(s, 1)]
  | (s', count) :: rest =>
      if EventStatus_eqb s' s then (s', count + 1) :: rest
      else (s', count) :: countInGroup s rest
  end.

Definition groupByStatus (coll : Collection) : list (EventStatus * Z) :=
  fold_left (fun groups e => countInGroup (status e) groups) coll [].

(** [Record<EventStatus, number>]. *)
Definition StatusStatistics := EventStatus -> Z.

(** [getStatusStatistics]: every status starts at 0, then each result of
    the aggregation is written under its status. *)
Definition getStatusStatistics (coll : Collection) : StatusStatistics :=
  fold_left
    (fun (stats : StatusStatistics) '(s, count) =>
       fun s' => if EventStatus_eqb s' s then count else stats s')
    (groupByStatus coll) (fun _ => 0).

(** *** Notions used in the statements *)

Definition creationReason : string := "Event created from scraping".

(** Is this log entry the one [applyStatusChanges] writes for a creation? *)
Definition isCreation (c : StatusChangeLog) : bool :=
  String.eqb (changeReason c) creationReason.

(** What a pass has appended so far, relative to where it started: the
    entries [cs], and one new document id per creation entry. *)
Definition appended (coll0 : Collection) (logs0 changes0 : list StatusChangeLog)
           (acc : Pass * list StatusChangeLog) : Prop :=
  exists cs,
    snd acc = changes0 ++ cs /\
    statusChangeLogs (fst acc) = logs0 ++ cs /\
    map _id (collection (fst acc)) =
      map _id coll0 ++ map eventId (List.filter isCreation cs) /\
    Forall (fun c => isCreation c = true ->
                     previousStatus c = NEW /\ newStatus c = NEW) cs.

(** The documents in memory are those first read, as far as their ids go
    ([sameIds]), and as far as ids and statuses go ([sameIdsAndStatus]). *)
Definition sameIds (existing0 mem : list IEvent) : Prop :=
  Forall2 (fun x0 x => _id x = _id x0) existing0 mem.

Definition sameIdsAndStatus (existing0 mem : list IEvent) : Prop :=
  Forall2 (fun x0 x => _id x = _id x0 /\ status x = status x0) existing0 mem.

(** Position [i] of the array read at the start holds a document other than
    [protected]. *)
Definition safeIndex (protected : IEvent) (existing0 : list IEvent) (i : nat)
  : Prop :=
  forall x0, existing0 !! i = Some x0 -> _id x0 <> _id protected.

(** A pass that has so far left the document [protected] alone: it is still
    stored as it was, and no appended log entry is about it. *)
Definition guarded (protected : IEvent) (existing0 : list IEvent)
           (logs0 changes0 : list StatusChangeLog)
           (acc : Pass * list StatusChangeLog) : Prop :=
  In protected (collection (fst acc)) /\
  sameIds existing0 (existingEvents (fst acc)) /\
  exists cs,
    snd acc = changes0 ++ cs /\
    statusChangeLogs (fst acc) = logs0 ++ cs /\
    Forall (fun c => eventId c <> _id protected) cs.

(** The natural key of a document. *)
Definition key (e : IEvent) : string * string :=
  (originalEventUrl (doc e), sourceWebsite (doc e)).

(** A collection as the application's own saves keep it: ids and natural
    keys are unique (the primary and the unique index) and every document
    passes the schema validation. *)
Definition wellFormed (coll : Collection) : Prop :=
  NoDup (map _id coll) /\ NoDup (map key coll) /\
  Forall (fun e => validate e = Ok tt) coll.

(** A scraped record in the form the collection stores it: the setters and
    the pre-save hook leave it as it is, and it passes the validation. *)
Definition canonical (d : EventData) : Prop :=
  applySetters d = d /\ preSaveData d = d /\ dataErrors d = [].

(** [e] with [lastScrapedAt] refreshed. *)
Definition touch (t : Z) (e : IEvent) : IEvent :=
  set_doc (set_lastScrapedAt t (doc e)) e.

Definition terminal (s : EventStatus) : Prop := s = INACTIVE \/ s = IMPORTED.

(** The stored document [e] is the counterpart of the scraped record [b] for
    [website], and shows no difference to it. *)
Definition matches (website : string) (b : EventData) (e : IEvent) : Prop :=
  sourceWebsite (doc e) = website /\
  originalEventUrl (doc e) = originalEventUrl b /\
  detectEventChanges e b = false.

(** The collection agrees with the batch: every scraped record has its
    stored counterpart, and every other document of the source is inactive
    or imported. *)
Definition reconciled (batch : list EventData) (website : string)
           (coll : Collection) : Prop :=
  wellFormed coll /\
  (forall b, In b batch -> exists e, In e coll /\ matches website b e) /\
  (forall e, In e coll -> sourceWebsite (doc e) = website ->
             In (originalEventUrl (doc e)) (map originalEventUrl batch) \/
             terminal (status e)).

(** [d'] is [d], or [d] with [lastScrapedAt] set to [t], the latter only
    for a document of [website] whose url is in the batch. *)
Definition refreshed (t : Z) (batch : list EventData) (website : string)
           (d d' : IEvent) : Prop :=
  d' = d \/
  (d' = touch t d /\ sourceWebsite (doc d) = website /\
   In (originalEventUrl (doc d)) (map originalEventUrl batch)).

(** A pass over a reconciled collection [coll1], part way through its first
    loop: the documents in memory and in the collection are those of
    [coll1], some with [lastScrapedAt] refreshed; every document in memory
    is the stored one; the collection is well formed. *)
Definition inStep (now : Z) (batch : list EventData) (website : string)
           (coll1 : Collection) (p : Pass) : Prop :=
  Forall2 (fun x0 x => x = x0 \/ x = touch now x0)
    (findBySource website coll1) (existingEvents p) /\
  Forall2 (refreshed now batch website) coll1 (collection p) /\
  (forall i x, existingEvents p !! i = Some x -> In x (collection p)) /\
  wellFormed (collection p).

(** A slot of the [existingEvents] array still holds the document first
    read into it: same id, same url, of the source being reconciled, and
    valid. *)
Definition sameSlot (website : string) (x0 x : IEvent) : Prop :=
  _id x = _id x0 /\
  originalEventUrl (doc x) = originalEventUrl (doc x0) /\
  sourceWebsite (doc x) = website /\
  validate x = Ok tt.

(** A pass all of whose saves have succeeded so far: the collection is well
    formed; memory and collection agree; and the documents of the source are
    those in memory plus the ones inserted under the urls [inserted]. *)
Definition consistent (website : string) (existing0 : list IEvent)
           (inserted : list string) (p : Pass) : Prop :=
  wellFormed (collection p) /\
  Forall2 (sameSlot website) existing0 (existingEvents p) /\
  (forall i x, existingEvents p !! i = Some x -> In x (collection p)) /\
  (forall d, In d (collection p) -> sourceWebsite (doc d) = website ->
             (exists i, existingEvents p !! i = Some d) \/
             In (originalEventUrl (doc d)) inserted).

(** The scraped record [b] has its unchanged counterpart in [coll]. *)
Definition stored (website : string) (coll : Collection) (b : EventData)
  : Prop :=
  exists e, In e coll /\ matches website b e.

(** The notes an import leaves on the document. *)
Definition notesAfterImport (notes : option string) (e : IEvent)
  : option string :=
  match notes with
  | Some n => if Js.truthy n then Some (Js.trim n) else importNotes e
  | None => importNotes e
  end.

(** The document an import stores. *)
Definition importedEvent (now : Z) (userId : nat) (notes : option string)
           (e : IEvent) : IEvent :=
  mkEvent (_id e) (preSaveData (doc e)) IMPORTED (Some now) (Some userId)
    (notesAfterImport notes e).

(** Every document in memory has its url in [urls], or is inactive or
    imported, or sits at a position still [pending] to be marked inactive. *)
Definition slotsSettled (urls : list string) (pending : list nat)
           (mem : list IEvent) : Prop :=
  forall i x, mem !! i = Some x ->
    In (originalEventUrl (doc x)) urls \/ terminal (status x) \/ In i pending.

End StatusManager.

Arguments StatusManager.applyStatusChanges : simpl never.
Arguments StatusManager.detectInactive : simpl never.
Arguments StatusManager.indexScraped : simpl never.

(** ** utils/CircuitBreaker.ts *)

Module CircuitBreaker.

Inductive CircuitBreakerState := CLOSED | OPEN | HALF_OPEN.

#[global] Instance CircuitBreakerState_eq_dec : EqDecision CircuitBreakerState.
Proof. solve_decision. Defined.

Record CircuitBreakerConfig := mkConfig {
  failureThreshold : Z;
  recoveryTimeout : Z;
  monitoringPeriod : Z;
  successThreshold : Z
}.

Record CircuitBreaker := mkBreaker {
  name : string;
  config : CircuitBreakerConfig;
  state : CircuitBreakerState;
  failures : Z;
  successes : Z;
  lastFailureTime : Z;
  failureTimes : list Z
}.

(** [new CircuitBreaker(name, config)]. *)
Definition create (nm : string) (cfg : CircuitBreakerConfig) : CircuitBreaker :=
  mkBreaker nm cfg CLOSED 0 0 0 [].

Definition set_state (st : CircuitBreakerState) (cb : CircuitBreaker) :=
  mkBreaker (name cb) (config cb) st (failures cb) (successes cb)
    (lastFailureTime cb) (failureTimes cb).

Definition onSuccess (cb : CircuitBreaker) : CircuitBreaker :=
  match state cb with
  | HALF_OPEN =>
      let successes' := successes cb + 1 in
      if successThreshold (config cb) <=? successes'
      then mkBreaker (name cb) (config cb) CLOSED 0 0 (lastFailureTime cb) []
      else mkBreaker (name cb) (config cb) HALF_OPEN 0 successes'
             (lastFailureTime cb) []
  | st => mkBreaker (name cb) (config cb) st 0 (successes cb)
            (lastFailureTime cb) []
  end.

(** [now] is the value of [Date.now()] read at the start of [onFailure]. *)
Definition onFailure (now : Z) (cb : CircuitBreaker) : CircuitBreaker :=
  let failures' := failures cb + 1 in
  let failureTimes' :=
    filter (fun time => now - time <= monitoringPeriod (config cb))
           (failureTimes cb ++ [now]) in
  match state cb with
  | HALF_OPEN =>
      mkBreaker (name cb) (config cb) OPEN failures' 0 now failureTimes'
  | CLOSED =>
      if failureThreshold (config cb) <=? Z.of_nat (length failureTimes')
      then mkBreaker (name cb) (config cb) OPEN failures' (successes cb) now
             failureTimes'
      else mkBreaker (name cb) (config cb) CLOSED failures' (successes cb) now
             failureTimes'
  | OPEN =>
      mkBreaker (name cb) (config cb) OPEN failures' (successes cb) now
        failureTimes'
  end.

Definition shouldAttemptReset (now : Z) (cb : CircuitBreaker) : bool :=
  recoveryTimeout (config cb) <=? now - lastFailureTime cb.

Definition circuitOpenError (cb : CircuitBreaker) : Error :=
  newError ("Circuit breaker " +:+ name cb +:+ " is OPEN").

Definition reset (cb : CircuitBreaker) : CircuitBreaker :=
  mkBreaker (name cb) (config cb) CLOSED 0 0 0 [].

Definition isOpen (cb : CircuitBreaker) : bool := bool_decide (state cb = OPEN).
Definition isClosed (cb : CircuitBreaker) : bool := bool_decide (state cb = CLOSED).

Section Execute.
(** The wrapped operation runs in some world [W] whose clock [dateNow]
    is what [Date.now()] reads; it returns a value or throws, and leaves
    the world changed. *)
Context {W T : Type} (dateNow : W -> Z).

Definition execute (operation : W -> Res T * W) (cb : CircuitBreaker) (w : W)
  : Res T * CircuitBreaker * W :=
  let gate :=
    match state cb with
    | OPEN =>
        if shouldAttemptReset (dateNow w) cb
        then Some (set_state HALF_OPEN cb)
        else None
    | _ => Some cb
    end in
  match gate with
  | None => (Throw (circuitOpenError cb), cb, w)
  | Some cb1 =>
      match operation w with
      | (Ok result, w') => (Ok result, onSuccess cb1, w')
      | (Throw error, w') => (Throw error, onFailure (dateNow w') cb1, w')
      end
  end.
End Execute.

(** A call of [execute] seen from outside: the clock when the call is
    made, what the wrapped operation would do, and the clock when it
    returns. *)
Record Call := mkCall {
  at_call : Z;
  succeeds : bool;
  at_return : Z
}.

Definition operationFailed : Error := newError "operation failed".

Definition call_operation (c : Call) (_ : Z) : Res unit * Z :=
  (if succeeds c then Ok tt else Throw operationFailed, at_return c).

(** One call, the world being the clock alone. *)
Definition executeCall (cb : CircuitBreaker) (c : Call) : CircuitBreaker :=
  snd (fst (execute (fun t => t) (call_operation c) cb (at_call c))).

Definition executeCalls (cb : CircuitBreaker) (cs : list Call) : CircuitBreaker :=
  fold_left executeCall cs cb.

(** *** Invariants used in the proofs *)

(** Outside HALF_OPEN the success counter is zero. *)
Definition quiet (cb : CircuitBreaker) : Prop :=
  state cb <> HALF_OPEN -> successes cb = 0.

(** Number of recorded failure instants not older than [lo]. *)
Definition recentFailures (lo : Z) (cb : CircuitBreaker) : nat :=
  length (filter (fun t => lo <= t) (failureTimes cb)).

(** The configuration [ScraperEngine.scrapeSourceResilient] gives every
    source breaker. *)
Definition scraperConfig : CircuitBreakerConfig := mkConfig 3 300000 900000 2.

End CircuitBreaker.

(** ** utils/CircuitBreaker.ts: [CircuitBreakerManager] *)

Module CircuitBreakerManager.
Import CircuitBreaker.

(** The [circuitBreakers] map of the singleton. *)
Definition Registry := gmap string CircuitBreaker.

Definition defaultConfig : CircuitBreakerConfig := mkConfig 5 60000 300000 3.

(** [getCircuitBreaker(name, config?)]: the breaker returned and the
    registry afterwards. *)
Definition getCircuitBreaker (nm : string) (cfg : option CircuitBreakerConfig)
           (reg : Registry) : CircuitBreaker * Registry :=
  match reg !! nm with
  | Some cb => (cb, reg)
  | None =>
      let cb := create nm (default defaultConfig cfg) in
      (cb, <[nm := cb]> reg)
  end.

(** The result of [CircuitBreaker.getStatus]. *)
Record Status := mkStatus {
  st_name : string;
  st_state : CircuitBreakerState;
  st_failures : Z;
  st_successes : Z;
  st_lastFailureTime : Z;
  isHealthy : bool
}.

Definition getStatus (cb : CircuitBreaker) : Status :=
  mkStatus (name cb) (state cb) (failures cb) (successes cb)
    (lastFailureTime cb) (bool_decide (state cb = CLOSED)).

(** [resetAll]. *)
Definition resetAll (reg : Registry) : Registry := reset <$> reg.

Record HealthSummary := mkSummary {
  total : Z;
  healthy : Z;
  unhealthy : Z;
  overallHealthy : bool
}.

(** [getHealthSummary]. It reads the array of [getAllStatuses()], one
    status per registered breaker, only through its length and the number
    of its healthy entries. Neither depends on the order of that array
    (the registration order of the JS [Map], which a [gmap] does not
    keep), so the statuses are counted here as the map lists them. *)
Definition getHealthSummary (reg : Registry) : HealthSummary :=
  let statuses := (fun entry => getStatus (snd entry)) <$> map_to_list reg in
  let healthy := Z.of_nat (length (List.filter isHealthy statuses)) in
  let total := Z.of_nat (length statuses) in
  mkSummary total healthy (total - healthy) (healthy =? total).

End CircuitBreakerManager.

(** ** middleware/errorHandler.ts: [ServiceCircuitBreaker] *)

Module ServiceCircuitBreaker.

Inductive BreakerState := CLOSED | OPEN | HALF_OPEN.

#[global] Instance BreakerState_eq_dec : EqDecision BreakerState.
Proof. solve_decision. Defined.

Record ServiceCircuitBreaker := mkService {
  serviceName : string;
  failureThreshold : Z;
  recoveryTimeout : Z;
  failures : Z;
  lastFailureTime : Z;
  state : BreakerState
}.

(** [new ServiceCircuitBreaker(serviceName)], as [getInstance] creates it. *)
Definition create (nm : string) : ServiceCircuitBreaker :=
  mkService nm 5 60000 0 0 CLOSED.

Definition onSuccess (cb : ServiceCircuitBreaker) : ServiceCircuitBreaker :=
  mkService (serviceName cb) (failureThreshold cb) (recoveryTimeout cb) 0
    (lastFailureTime cb)
    (match state cb with HALF_OPEN => CLOSED | st => st end).

(** [now] is the value of [Date.now()] read in [onFailure]. *)
Definition onFailure (now : Z) (cb : ServiceCircuitBreaker)
  : ServiceCircuitBreaker :=
  let failures' := failures cb + 1 in
  mkService (serviceName cb) (failureThreshold cb) (recoveryTimeout cb)
    failures' now
    (if bool_decide (state cb = HALF_OPEN) ||
        (failureThreshold cb <=? failures')
     then OPEN else state cb).

Definition unavailableError (cb : ServiceCircuitBreaker) : Error :=
  newError ("Service " +:+ serviceName cb +:+
            " is currently unavailable (circuit breaker OPEN)").

Definition set_state (st : BreakerState) (cb : ServiceCircuitBreaker)
  : ServiceCircuitBreaker :=
  mkService (serviceName cb) (failureThreshold cb) (recoveryTimeout cb)
    (failures cb) (lastFailureTime cb) st.

Section Execute.
Context {W T : Type} (dateNow : W -> Z).

(** [execute(operation)]. *)
Definition execute (operation : W -> Res T * W) (cb : ServiceCircuitBreaker)
           (w : W) : Res T * ServiceCircuitBreaker * W :=
  let gate :=
    match state cb with
    | OPEN =>
        if recoveryTimeout cb <=? dateNow w - lastFailureTime cb
        then Some (set_state HALF_OPEN cb)
        else None
    | _ => Some cb
    end in
  match gate with
  | None => (Throw (unavailableError cb), cb, w)
  | Some cb1 =>
      match operation w with
      | (Ok result, w') => (Ok result, onSuccess cb1, w')
      | (Throw error, w') => (Throw error, onFailure (dateNow w') cb1, w')
      end
  end.
End Execute.

(** A sequence of calls seen from outside, as for [CircuitBreaker]. *)
Definition executeCall (cb : ServiceCircuitBreaker) (c : CircuitBreaker.Call)
  : ServiceCircuitBreaker :=
  snd (fst (execute (fun t => t) (CircuitBreaker.call_operation c) cb
              (CircuitBreaker.at_call c))).

Definition executeCalls (cb : ServiceCircuitBreaker)
           (cs : list CircuitBreaker.Call) : ServiceCircuitBreaker :=
  fold_left executeCall cs cb.

End ServiceCircuitBreaker.

(** ** middleware/globalErrorHandler.ts: [SystemDegradationManager] *)

Module SystemDegradationManager.

Inductive DegradationLevel := NONE | MINOR | MODERATE | SEVERE.

#[global] Instance DegradationLevel_eq_dec : EqDecision DegradationLevel.
Proof. solve_decision. Defined.

(** The manager object. The [Set<string>] of degraded services is the list
    of its members in insertion order. *)
Record Manager := mkManager {
  degradationLevel : DegradationLevel;
  degradedServices : list string;
  lastDegradationCheck : Z
}.

(** The singleton when it is first made, at instant [now]. *)
Definition create (now : Z) : Manager := mkManager NONE [] now.

(** [Set.prototype.add] and [Set.prototype.delete]. *)
Definition setAdd (x : string) (members : list string) : list string :=
  if bool_decide (x ∈ members) then members else members ++ [x].

Definition setDelete (x : string) (members : list string) : list string :=
  List.filter (fun y => negb (String.eqb y x)) members.

Definition updateDegradationLevel (m : Manager) : Manager :=
  let serviceCount := length (degradedServices m) in
  mkManager
    (if (serviceCount =? 0)%nat then NONE
     else if (serviceCount <=? 2)%nat then MINOR
     else if (serviceCount <=? 4)%nat then MODERATE
     else SEVERE)
    (degradedServices m) (lastDegradationCheck m).

(** [reportServiceDegradation(serviceName, severity)] at instant [now]. *)
Definition reportServiceDegradation (now : Z) (serviceName : string)
           (severity : DegradationLevel) (m : Manager) : Manager :=
  let m1 :=
    updateDegradationLevel
      (mkManager (degradationLevel m) (setAdd serviceName (degradedServices m))
         (lastDegradationCheck m)) in
  mkManager (degradationLevel m1) (degradedServices m1) now.

(** [reportServiceRecovery(serviceName)] at instant [now]. *)
Definition reportServiceRecovery (now : Z) (serviceName : string)
           (m : Manager) : Manager :=
  let m1 :=
    updateDegradationLevel
      (mkManager (degradationLevel m)
         (setDelete serviceName (degradedServices m))
         (lastDegradationCheck m)) in
  mkManager (degradationLevel m1) (degradedServices m1) now.

Record SystemStatus := mkSystemStatus {
  status_level : DegradationLevel;
  status_services : list string;
  status_isHealthy : bool;
  status_lastCheck : Z
}.

(** [getSystemStatus]. *)
Definition getSystemStatus (m : Manager) : SystemStatus :=
  mkSystemStatus (degradationLevel m) (degradedServices m)
    (bool_decide (degradationLevel m = NONE)) (lastDegradationCheck m).

(** [isServiceDegraded]. *)
Definition isServiceDegraded (serviceName : string) (m : Manager) : bool :=
  bool_decide (serviceName ∈ degradedServices m).

(** The reports the application makes, as a sequence. *)
Inductive Report :=
| Degraded (serviceName : string) (severity : DegradationLevel)
| Recovered (serviceName : string).

Definition reportedName (r : Report) : string :=
  match r with Degraded n _ => n | Recovered n => n end.

(** One report, made at the instant it carries. *)
Definition report (m : Manager) (r : Z * Report) : Manager :=
  match snd r with
  | Degraded n severity => reportServiceDegradation (fst r) n severity m
  | Recovered n => reportServiceRecovery (fst r) n m
  end.

Definition reports (m : Manager) (rs : list (Z * Report)) : Manager :=
  fold_left report rs m.

End SystemDegradationManager.

(** ** services/ResilienceService.ts: [getHealthRecommendations] *)

Module ResilienceService.
Import SystemDegradationManager.

(** [getHealthRecommendations(systemStatus, scraperStatus)], on the two
    fields it reads. *)
Definition getHealthRecommendations (level : DegradationLevel)
           (scraperIsHealthy : bool) : list string :=
  let recommendations :=
    match level with
    | SEVERE =>
        ["System is experiencing significant issues";
         "Some features may be temporarily unavailable"]
    | MODERATE =>
        ["System is running with reduced functionality";
         "Event data may be slightly delayed"]
    | MINOR =>
        ["Minor service issues detected"; "All core features remain available"]
    | NONE => []
    end ++
    (if negb scraperIsHealthy
     then ["Event scraping service is experiencing issues";
           "Existing events remain accessible";
           "New event updates may be delayed"]
     else []) in
  match recommendations with
  | [] => ["All systems operating normally"]
  | _ => recommendations
  end.

End ResilienceService.

(** ** models/ScrapingLog.ts *)

Module ScrapingLog.

Inductive LogStatus := running | completed | failed.

#[global] Instance LogStatus_eq_dec : EqDecision LogStatus.
Proof. solve_decision. Defined.

(** A run-log document. The [timestamps] option of the schema (createdAt,
    updatedAt) is not read by any code here and is left out. *)
Record IScrapingLog := mkLog {
  _id : nat;
  sourceWebsite : string;
  startTime : Z;
  endTime : option Z;
  eventsFound : Z;
  eventsProcessed : Z;
  scrapingErrors : list string;
  status : LogStatus
}.

(** The field validators of the schema, path by path in the order of the
    schema: for each path the first validator that fails, with its message.
    The [trim] setter has been applied when the field was assigned; a start
    time, the counts and the status are always there. *)
Definition sourceWebsiteErrors (doc : IScrapingLog) : list (string * string) :=
  if negb (Js.truthy (sourceWebsite doc))
  then [("sourceWebsite", "Source website is required")]
  else if negb (Js.httpUrlRegex_test (sourceWebsite doc))
  then [("sourceWebsite", "Source website must be a valid HTTP/HTTPS URL")]
  else [].

Definition eventsFoundErrors (doc : IScrapingLog) : list (string * string) :=
  if eventsFound doc <? 0
  then [("eventsFound", "Events found cannot be negative")]
  else [].

Definition eventsProcessedErrors (doc : IScrapingLog) : list (string * string) :=
  if eventsProcessed doc <? 0
  then [("eventsProcessed", "Events processed cannot be negative")]
  else [].

Definition scrapingErrorsErrors (doc : IScrapingLog) : list (string * string) :=
  if (100 <? length (scrapingErrors doc))%nat
  then [("scrapingErrors", "Cannot store more than 100 error messages")]
  else [].

Definition fieldErrors (doc : IScrapingLog) : list (string * string) :=
  sourceWebsiteErrors doc ++ eventsFoundErrors doc ++
  eventsProcessedErrors doc ++ scrapingErrorsErrors doc.

(** Validation as [save] runs it before the pre-save hook: every failing
    path is reported, all in one error. *)
Definition validate (doc : IScrapingLog) : Res unit :=
  match fieldErrors doc with
  | [] => Ok tt
  | failures =>
      Throw (newError
               ("ScrapingLog validation failed: " +:+
                Js.join ", " (map (fun '(path, msg) => path +:+ ": " +:+ msg)
                                failures)))
  end.

Definition set_endTime (t : option Z) (doc : IScrapingLog) : IScrapingLog :=
  mkLog (_id doc) (sourceWebsite doc) (startTime doc) t (eventsFound doc)
    (eventsProcessed doc) (scrapingErrors doc) (status doc).

(** [ScrapingLogSchema.pre("save", ...)]: the document the hook leaves in
    memory, and whether it called [next()] with an error. *)
Definition preSave (now : Z) (doc : IScrapingLog) : IScrapingLog * Res unit :=
  if match endTime doc with
     | Some e => e <? startTime doc
     | None => false
     end
  then (doc, Throw (newError "End time cannot be before start time"))
  else
    let doc1 :=
      match status doc, endTime doc with
      | (completed | failed), None => set_endTime (Some now) doc
      | _, _ => doc
      end in
    if eventsFound doc1 <? eventsProcessed doc1
    then (doc1, Throw (newError "Events processed cannot exceed events found"))
    else (doc1, Ok tt).

(** The collection, in insertion order. *)
Definition Collection := list IScrapingLog.

(** Writes [doc] under its [_id]: replaces the stored version or appends. *)
Fixpoint store (doc : IScrapingLog) (coll : Collection) : Collection :=
  match coll with
  | [] => [doc]
  | d :: rest =>
      if (_id d =? _id doc)%nat then doc :: rest else d :: store doc rest
  end.

(** [doc.save()]: validation, then the pre-save hook, then the write. The
    database itself is assumed reachable. *)
Definition save (now : Z) (doc : IScrapingLog) (coll : Collection)
  : IScrapingLog * Res unit * Collection :=
  match validate doc with
  | Throw e => (doc, Throw e, coll)
  | Ok _ =>
      match preSave now doc with
      | (doc1, Throw e) => (doc1, Throw e, coll)
      | (doc1, Ok _) => (doc1, Ok tt, store doc1 coll)
      end
  end.

(** A fresh [ObjectId]. *)
Definition freshId (coll : Collection) : nat :=
  S (fold_right Nat.max 0%nat (map _id coll)).

(** [ScrapingLog.createLog(sourceWebsite)]. *)
Definition createLog (now : Z) (website : string) (coll : Collection)
  : Res IScrapingLog * Collection :=
  let doc := mkLog (freshId coll) (Js.trim website) now None 0 0 [] running in
  match save now doc coll with
  | (doc1, Ok _, coll') => (Ok doc1, coll')
  | (_, Throw e, coll') => (Throw e, coll')
  end.

(** [addError]. *)
Definition addError (now : Z) (error : string) (doc : IScrapingLog)
           (coll : Collection) : IScrapingLog * Res unit * Collection :=
  let doc1 :=
    if (length (scrapingErrors doc) <? 100)%nat
    then mkLog (_id doc) (sourceWebsite doc) (startTime doc) (endTime doc)
           (eventsFound doc) (eventsProcessed doc)
           (scrapingErrors doc ++ [error]) (status doc)
    else doc in
  save now doc1 coll.

(** [markCompleted]. *)
Definition markCompleted (now : Z) (found processed : Z) (doc : IScrapingLog)
           (coll : Collection) : IScrapingLog * Res unit * Collection :=
  save now
    (mkLog (_id doc) (sourceWebsite doc) (startTime doc) (Some now)
       found processed (scrapingErrors doc) completed)
    coll.

(** The error of a [save()] called while another [save()] of the same
    document is in flight. *)
Definition parallelSaveError (doc : IScrapingLog) : Error :=
  mkError ("Can't save() the same doc multiple times in parallel. Document: " +:+
           pretty (_id doc))
    None None.

(** [markFailed]. With a message, [addError] has started a save that is
    not awaited when [markFailed] calls [save()] itself: that second call is
    rejected as a parallel save, and this rejection is what the caller
    gets. The first save runs to its end, so the document and the
    collection are as it leaves them. Without a message there is one save. *)
Definition markFailed (now : Z) (error : string) (doc : IScrapingLog)
           (coll : Collection) : IScrapingLog * Res unit * Collection :=
  let doc1 :=
    mkLog (_id doc) (sourceWebsite doc) (startTime doc) (Some now)
      (eventsFound doc) (eventsProcessed doc) (scrapingErrors doc) failed in
  if Js.truthy error
  then
    match addError now error doc1 coll with
    | (doc2, _, coll2) => (doc2, Throw (parallelSaveError doc2), coll2)
    end
  else save now doc1 coll.

(** [getDuration]: [null] while the run has no end time. *)
Definition getDuration (doc : IScrapingLog) : option Z :=
  match endTime doc with
  | None => None
  | Some e => Some (e - startTime doc)
  end.

(** What the schema promises of every stored entry. *)
Definition consistent (doc : IScrapingLog) : Prop :=
  eventsProcessed doc <= eventsFound doc /\
  (status doc = completed \/ status doc = failed -> endTime doc <> None).

End ScrapingLog.

(** ** scraping/ErrorHandler.ts *)

Module ErrorHandler.

Inductive ErrorCategory := NETWORK | PARSING | VALIDATION | TIMEOUT | RATE_LIMIT | UNKNOWN.

Inductive Severity := low | medium | high.

Record Classification := mkClass {
  category : ErrorCategory;
  retryable : bool;
  severity : Severity
}.

(** [ScrapingError]; the stack trace is left out. A categorized error
    carries its classification. *)
Record ScrapingError := mkScrapingError {
  message : string;
  errorUrl : option string;
  errorTimestamp : Z;
  classification : option Classification
}.

Definition codeIn (codes : list string) (error : Error) : bool :=
  match err_code error with
  | Some code => Js.truthy code && existsb (String.eqb code) codes
  | None => false
  end.

Definition messageHas (needles : list string) (error : Error) : bool :=
  let message := Js.toLowerCase (err_message error) in
  existsb (fun msg => Js.includes msg message) needles.

Definition isNetworkError (error : Error) : bool :=
  codeIn ["ECONNREFUSED"; "ENOTFOUND"; "ECONNRESET"; "ETIMEDOUT"] error ||
  messageHas ["network error"; "connection failed"; "dns lookup failed"] error.

Definition isTimeoutError (error : Error) : bool :=
  codeIn ["ETIMEDOUT"; "ESOCKETTIMEDOUT"] error ||
  messageHas ["timeout"; "timed out"] error.

Definition isRateLimitError (error : Error) : bool :=
  messageHas ["rate limit"; "too many requests"; "429"; "throttled"] error ||
  match err_responseStatus error with
  | Some st => st =? 429
  | None => false
  end.

Definition isParsingError (error : Error) : bool :=
  messageHas ["parsing error"; "invalid html"; "selector not found"; "cheerio"]
    error.

Definition isValidationError (error : Error) : bool :=
  messageHas ["validation error"; "invalid data"; "missing required";
              "invalid format"] error.

Definition classify (error : Error) : Classification :=
  if isNetworkError error then mkClass NETWORK true high
  else if isTimeoutError error then mkClass TIMEOUT true medium
  else if isRateLimitError error then mkClass RATE_LIMIT true high
  else if isParsingError error then mkClass PARSING false low
  else if isValidationError error then mkClass VALIDATION false low
  else mkClass UNKNOWN false medium.

(** [categorizeError(error, url)], read at instant [now]. *)
Definition categorizeError (now : Z) (error : Error) (url : option string)
  : ScrapingError :=
  mkScrapingError (err_message error) url now (Some (classify error)).

#[global] Instance ErrorCategory_eq_dec : EqDecision ErrorCategory.
Proof. solve_decision. Defined.

#[global] Instance Severity_eq_dec : EqDecision Severity.
Proof. solve_decision. Defined.

(** The defaults of [withRetry]. *)
Definition RETRY_DELAYS : list Z := [1000; 2000; 5000; 10000].
Definition MAX_RETRIES : nat := 3.

(** The result of [createErrorSummary]. *)
Record ErrorSummary := mkErrorSummary {
  total : Z;
  byCategory : ErrorCategory -> Z;
  bySeverity : Severity -> Z;
  retryableCount : Z
}.

(** [createErrorSummary(errors)]. Of a [CategorizedScrapingError] it reads
    the category, the severity and the retryable flag, which is how an
    error is given here. *)
Definition createErrorSummary (errors : list Classification) : ErrorSummary :=
  fold_left
    (fun summary e =>
       mkErrorSummary (total summary)
         (fun c => if bool_decide (c = category e)
                   then byCategory summary c + 1 else byCategory summary c)
         (fun s => if bool_decide (s = severity e)
                   then bySeverity summary s + 1 else bySeverity summary s)
         (if retryable e then retryableCount summary + 1
          else retryableCount summary))
    errors
    (mkErrorSummary (Z.of_nat (length errors)) (fun _ => 0) (fun _ => 0) 0).

(** [shouldContinueScraping(errors)]. *)
Definition shouldContinueScraping (errors : list Classification) : bool :=
  let summary := createErrorSummary errors in
  if 5 <? bySeverity summary high then false
  else if 10 <? byCategory summary NETWORK then false
  else true.

End ErrorHandler.

(** ** The world the scraper runs in *)

Module Engine.
Import Event StatusManager ErrorHandler.

(** [ScrapingSourceConfig]. The selectors and the date format only feed the
    cheerio extraction, which is part of the environment below. *)
Record ScrapingSourceConfig := mkSource {
  name : string;
  url : string;
  baseUrl : option string
}.

(** What [extractSingleEvent] does on one container element: returns an
    event, returns null (the event fails [validateEventData]), or throws. *)
Inductive Element :=
| Extracted (event : EventData)
| Rejected
| Malformed (error : Error).

(** What one fetch of a source meets: [axios.get] fails, loading or
    selecting with cheerio throws, or the page yields container elements. *)
Inductive Page :=
| FetchFails (error : Error)
| ExtractionFails (error : Error)
| Html (elements : list Element).

Record Response := mkResponse {
  elapsed : Z;
  page : Page
}.

(** The process state and its environment: the clock, the two collections,
    the status manager's log, the breaker registry (a process-wide
    singleton), and the web, which answers a scrape of a source at an
    instant. Time passes only while a request is in flight or during a
    retry delay. *)
Record World := mkWorld {
  w_now : Z;
  w_events : Event.Collection;
  w_changeLog : list StatusChangeLog;
  w_scrapingLogs : ScrapingLog.Collection;
  w_breakers : gmap string CircuitBreaker.CircuitBreaker;
  w_web : ScrapingSourceConfig -> Z -> Response
}.

(** Computations that read and change the world and may throw. *)
Definition M (A : Type) : Type := World -> Res A * World.

Definition ret {A} (a : A) : M A := fun w => (Ok a, w).

Definition throw {A} (e : Error) : M A := fun w => (Throw e, w).

Definition bind {A B} (c : M A) (k : A -> M B) : M B :=
  fun w =>
    match c w with
    | (Ok a, w') => k a w'
    | (Throw e, w') => (Throw e, w')
    end.

(** [try { c } catch (error) { handler }]. *)
Definition tryCatch {A} (c : M A) (handler : Error -> M A) : M A :=
  fun w =>
    match c w with
    | (Ok a, w') => (Ok a, w')
    | (Throw e, w') => handler e w'
    end.

Notation "'let*' x := c 'in' k" := (bind c (fun x => k))
  (at level 10, x name, c at level 100, k at level 200).

Definition dateNow : M Z := fun w => (Ok (w_now w), w).

Definition advance (dt : Z) (w : World) : World :=
  mkWorld (w_now w + Z.max 0 dt) (w_events w) (w_changeLog w)
    (w_scrapingLogs w) (w_breakers w) (w_web w).

(** [sleep(ms)]. *)
Definition sleep (ms : Z) : M unit := fun w => (Ok tt, advance ms w).

(** [axios.get(source.url)] followed by the cheerio load: the page, or the
    error thrown. *)
Definition fetch (source : ScrapingSourceConfig) : M (list Element) :=
  fun w =>
    let response := w_web w source (w_now w) in
    let w' := advance (elapsed response) w in
    match page response with
    | FetchFails e => (Throw e, w')
    | ExtractionFails e => (Throw e, w')
    | Html elements => (Ok elements, w')
    end.

(** [ScrapingResult] and [EnhancedScrapingResult]. *)
Record ScrapingResult := mkScraping {
  events : list EventData;
  scrapingErrors : list ScrapingError;
  sourceUrl : string;
  scrapedAt : Z;
  changeDetection : option ChangeDetectionResult
}.

(** [extractEvents]: the loop over the container elements, each in its own
    try/catch. [index] counts from 0. *)
Fixpoint extractEvents (now : Z) (source : ScrapingSourceConfig) (index : nat)
         (elements : list Element)
  : list EventData * list ScrapingError :=
  match elements with
  | [] => ([], [])
  | element :: rest =>
      let '(events, errors) := extractEvents now source (S index) rest in
      match element with
      | Extracted eventData => (eventData :: events, errors)
      | Rejected => (events, errors)
      | Malformed error =>
          (events,
           mkScrapingError
             ("Error extracting event " +:+ pretty (S index) +:+ " from " +:+
              name source +:+ ": " +:+ err_message error)
             (Some (url source)) now None :: errors)
      end
  end.

(** [scrapeSource]. *)
Definition scrapeSource (source : ScrapingSourceConfig) : M ScrapingResult :=
  let* scrapedAt := dateNow in
  tryCatch
    (let* elements := fetch source in
     let* now := dateNow in
     let '(events, scrapingErrors) := extractEvents now source 0 elements in
     ret (mkScraping events scrapingErrors (url source) scrapedAt None))
    (fun error =>
       let* now := dateNow in
       ret (mkScraping []
              [mkScrapingError
                 ("Network error fetching " +:+ url source +:+ ": " +:+
                  err_message error)
                 (Some (url source)) now None]
              (url source) scrapedAt None)).

(** [statusManager.processScrapedEvents] run against the world. *)
Definition processScrapedEvents (scraped : list EventData) (website : string)
  : M ChangeDetectionResult :=
  fun w =>
    match StatusManager.processScrapedEvents (w_now w) scraped website
            (mkState (w_events w) (w_changeLog w)) with
    | (r, st) =>
        (r, mkWorld (w_now w) (StatusManager.events st) (changeLog st)
              (w_scrapingLogs w) (w_breakers w) (w_web w))
    end.

(** [scrapeSourceWithStatusManagement]. *)
Definition scrapeSourceWithStatusManagement (source : ScrapingSourceConfig)
  : M ScrapingResult :=
  let* basicResult := scrapeSource source in
  match events basicResult with
  | [] => ret basicResult
  | _ =>
      tryCatch
        (let* detection :=
           processScrapedEvents (events basicResult) (name source) in
         ret (mkScraping (events basicResult) (scrapingErrors basicResult)
                (sourceUrl basicResult) (scrapedAt basicResult)
                (Some detection)))
        (fun _ => ret basicResult)
  end.

(** [ErrorHandler.withRetry(operation, maxRetries, delays)]: [attempt]
    counts up to [maxRetries]; [remaining] is [maxRetries - attempt]. *)
Fixpoint withRetryFrom {A} (operation : M A) (attempt : nat) (remaining : nat)
         (delays : list Z) : M A :=
  tryCatch operation
    (fun error =>
       match remaining with
       | O => throw error
       | S remaining' =>
           if negb (retryable (classify error)) then throw error
           else
             let* _ :=
               sleep (default 0
                        (delays !! Nat.min attempt (length delays - 1))) in
             withRetryFrom operation (S attempt) remaining' delays
       end).

Definition withRetry {A} (operation : M A) (maxRetries : nat) (delays : list Z)
  : M A :=
  withRetryFrom operation 0 maxRetries delays.

(** [CircuitBreakerManager.getCircuitBreaker(name, config)]. *)
Definition getCircuitBreaker (nm : string)
           (config : CircuitBreaker.CircuitBreakerConfig)
  : M CircuitBreaker.CircuitBreaker :=
  fun w =>
    match w_breakers w !! nm with
    | Some cb => (Ok cb, w)
    | None =>
        let cb := CircuitBreaker.create nm config in
        (Ok cb, mkWorld (w_now w) (w_events w) (w_changeLog w)
                  (w_scrapingLogs w) (<[nm := cb]> (w_breakers w)) (w_web w))
    end.

(** The breaker registered under [nm] is changed in place: the registry
    holds its new state under the same key. *)
Definition putCircuitBreaker (nm : string) (cb : CircuitBreaker.CircuitBreaker)
           (w : World) : World :=
  mkWorld (w_now w) (w_events w) (w_changeLog w) (w_scrapingLogs w)
    (<[nm := cb]> (w_breakers w)) (w_web w).

(** [scrapeSourceResilient]: the breaker object of the source wraps the
    retried scrape; its new state is that of the registered object. *)
Definition scrapeSourceResilient (source : ScrapingSourceConfig)
  : M ScrapingResult :=
  let nm := "scraper-" +:+ name source in
  let* circuitBreaker := getCircuitBreaker nm CircuitBreaker.scraperConfig in
  fun w =>
    match CircuitBreaker.execute w_now
            (withRetry (scrapeSourceWithStatusManagement source) 2 [2000; 5000])
            circuitBreaker w with
    | (r, circuitBreaker', w') => (r, putCircuitBreaker nm circuitBreaker' w')
    end.

(** [scrapeAll]. *)
Fixpoint scrapeAll (sources : list ScrapingSourceConfig)
  : M (list ScrapingResult) :=
  match sources with
  | [] => ret []
  | source :: rest =>
      let* result :=
        tryCatch (scrapeSource source)
          (fun error =>
             let* now := dateNow in
             ret (mkScraping []
                    [mkScrapingError
                       ("Failed to scrape source " +:+ name source +:+ ": " +:+
                        err_message error)
                       (Some (url source)) now None]
                    (url source) now None)) in
      let* results := scrapeAll rest in
      ret (result :: results)
  end.

(** [scrapeAllResilient]; the error summary computed at the end is only
    logged. *)
Fixpoint scrapeAllResilient (sources : list ScrapingSourceConfig)
  : M (list ScrapingResult) :=
  match sources with
  | [] => ret []
  | source :: rest =>
      let* result :=
        tryCatch (scrapeSourceResilient source)
          (fun error =>
             let* now := dateNow in
             ret (mkScraping []
                    [categorizeError now error (Some (url source))]
                    (url source) now None)) in
      let* results := scrapeAllResilient rest in
      ret (result :: results)
  end.

(** [addSource] and [removeSource], on the [sources] array of the engine. *)
Definition addSource (source : ScrapingSourceConfig)
           (sources : list ScrapingSourceConfig) : list ScrapingSourceConfig :=
  sources ++ [source].

Definition removeSource (nm : string) (sources : list ScrapingSourceConfig)
  : bool * list ScrapingSourceConfig :=
  let initialLength := length sources in
  let sources' :=
    List.filter (fun source => negb (String.eqb (name source) nm)) sources in
  ((length sources' <? initialLength)%nat, sources').

(** [a || b] for an attribute value that may be undefined. *)
Definition orElse (a : option string) (b : string) : string :=
  match a with
  | Some s => if Js.truthy s then s else b
  | None => b
  end.

(** [extractUrl($element, selector, baseUrl)]. [matched] is what the
    selector picks, the first matching descendant or else the element
    itself, given by its [href] and [src] attributes; [None] when neither
    matches. *)
Definition extractUrl (matched : option (option string * option string))
           (baseUrl : option string) : string :=
  let url :=
    match matched with
    | Some (href, src) => orElse href (orElse src "")
    | None => ""
    end in
  match baseUrl with
  | Some base =>
      if Js.truthy url && Js.truthy base && negb (Js.startsWith "http" url)
      then if Js.startsWith "/" url then base +:+ url
           else base +:+ "/" +:+ url
      else url
  | None => url
  end.

(** [resetCircuitBreakers]: the breaker of every source is fetched from the
    manager, without a configuration, and reset. *)
Definition resetCircuitBreakers (sources : list ScrapingSourceConfig)
           (reg : CircuitBreakerManager.Registry)
  : CircuitBreakerManager.Registry :=
  fold_left
    (fun reg source =>
       let nm := "scraper-" +:+ name source in
       let '(circuitBreaker, reg') :=
         CircuitBreakerManager.getCircuitBreaker nm None reg in
       <[nm := CircuitBreaker.reset circuitBreaker]> reg')
    sources reg.

(** The delay [withRetry] sleeps after the failed attempt number
    [attempt]. *)
Definition retryDelay (delays : list Z) (attempt : nat) : Z :=
  default 0 (delays !! Nat.min attempt (length delays - 1)).

(** The time [withRetry] sleeps in all when attempts [attempt],
    [attempt + 1], ... fail and [retries] retries are left. *)
Fixpoint totalDelay (delays : list Z) (attempt retries : nat) : Z :=
  match retries with
  | O => 0
  | S retries' =>
      Z.max 0 (retryDelay delays attempt) + totalDelay delays (S attempt) retries'
  end.

(** What a scrape of [source] returns when it meets [response] at [t]. *)
Definition outcomeOf (source : ScrapingSourceConfig) (t : Z)
           (response : Response) : list EventData * list ScrapingError :=
  let done := t + Z.max 0 (elapsed response) in
  match page response with
  | FetchFails e | ExtractionFails e =>
      ([],
       [mkScrapingError
          ("Network error fetching " +:+ url source +:+ ": " +:+ err_message e)
          (Some (url source)) done None])
  | Html elements => extractEvents done source 0 elements
  end.

(** The fetch or the extraction of [source] fails at instant [t]. *)
Definition failsAt (web : ScrapingSourceConfig -> Z -> Response)
           (source : ScrapingSourceConfig) (t : Z) : Prop :=
  match page (web source t) with Html _ => False | _ => True end.

(** The result is the one of this source: it carries the source's url, and
    its events and errors are what a scrape of this source alone yields at
    the instant the result says it was scraped. *)
Definition ownOutcome (web : ScrapingSourceConfig -> Z -> Response)
           (source : ScrapingSourceConfig) (result : ScrapingResult) : Prop :=
  sourceUrl result = url source /\
  (events result, scrapingErrors result) =
    outcomeOf source (scrapedAt result) (web source (scrapedAt result)).

(** The breaker is open and, at instant [t], still refuses calls. *)
Definition refusesAt (t : Z) (cb : CircuitBreaker.CircuitBreaker) : bool :=
  bool_decide (CircuitBreaker.state cb = CircuitBreaker.OPEN) &&
  negb (CircuitBreaker.shouldAttemptReset t cb).

(** The failed result [scrapeAllResilient] makes at instant [t] for a
    source whose breaker [cb] refuses the call. *)
Definition refusedResult (cb : CircuitBreaker.CircuitBreaker)
           (source : ScrapingSourceConfig) (t : Z) : ScrapingResult :=
  mkScraping []
    [categorizeError t (CircuitBreaker.circuitOpenError cb) (Some (url source))]
    (url source) t None.

(** The result is the source's own outcome, or the failed result of the
    source's own breaker: the breaker registered for this source when the
    run started, at [start], was open and refusing calls, and at a later
    instant [t] it still refuses. *)
Definition ownOutcomeOrRefused (web : ScrapingSourceConfig -> Z -> Response)
           (breakers : gmap string CircuitBreaker.CircuitBreaker) (start : Z)
           (source : ScrapingSourceConfig) (result : ScrapingResult) : Prop :=
  ownOutcome web source result \/
  exists cb t,
    breakers !! ("scraper-" +:+ name source) = Some cb /\
    refusesAt start cb = true /\ start <= t /\ refusesAt t cb = true /\
    result = refusedResult cb source t.

(** The source's fetch or extraction fails at every instant. *)
Definition alwaysFails (web : ScrapingSourceConfig -> Z -> Response)
           (source : ScrapingSourceConfig) : Prop :=
  forall t, failsAt web source t.

End Engine.

(** ** scraping/ScheduledScraper.ts *)

Module ScheduledScraper.
Import Engine.

Record SourceResult := mkSourceResult {
  sourceName : string;
  success : bool;
  eventsFound : Z;
  errors : Z;
  sourceDuration : Z
}.

Record OrchestrationResult := mkOrchestration {
  totalSources : Z;
  successfulSources : Z;
  failedSources : Z;
  totalEvents : Z;
  totalErrors : Z;
  duration : Z;
  startTime : Z;
  endTime : Z;
  sourceResults : list SourceResult
}.

(** The scheduler object, as far as a cycle reads and writes it: the
    sources of its engine, the in-progress flag and the last result. The
    cron job handle plays no part in a cycle. *)
Record Scheduler := mkScheduler {
  sources : list ScrapingSourceConfig;
  isRunning : bool;
  lastRunResult : option OrchestrationResult
}.

Definition createEmptyResult (now : Z) : OrchestrationResult :=
  mkOrchestration 0 0 0 0 0 0 now now [].

(** The run-log operations against the world's collection and clock. Each
    returns the log document as it is left in memory. *)
Definition createLog (website : string) (w : World)
  : Res ScrapingLog.IScrapingLog * World :=
  match ScrapingLog.createLog (w_now w) website (w_scrapingLogs w) with
  | (r, coll) =>
      (r, mkWorld (w_now w) (w_events w) (w_changeLog w) coll (w_breakers w)
            (w_web w))
  end.

Definition onLog
           (operation : Z -> ScrapingLog.IScrapingLog -> ScrapingLog.Collection ->
                        ScrapingLog.IScrapingLog * Res unit * ScrapingLog.Collection)
           (log : ScrapingLog.IScrapingLog) (w : World)
  : ScrapingLog.IScrapingLog * Res unit * World :=
  match operation (w_now w) log (w_scrapingLogs w) with
  | (log', r, coll) =>
      (log', r,
       mkWorld (w_now w) (w_events w) (w_changeLog w) coll (w_breakers w)
         (w_web w))
  end.

(** [for (const error of result.scrapingErrors) await scrapingLog.addError(...)]. *)
Fixpoint addErrors (messages : list string) (log : ScrapingLog.IScrapingLog)
         (w : World) : ScrapingLog.IScrapingLog * Res unit * World :=
  match messages with
  | [] => (log, Ok tt, w)
  | msg :: rest =>
      match onLog (fun now => ScrapingLog.addError now msg) log w with
      | (log', Ok _, w') => addErrors rest log' w'
      | (log', Throw e, w') => (log', Throw e, w')
      end
  end.

(** The running totals of [orchestrateScrapingSources]. *)
Record Totals := mkTotals {
  t_sourceResults : list SourceResult;
  t_totalEvents : Z;
  t_totalErrors : Z;
  t_successfulSources : Z
}.

(** The [catch] block of the loop body: [scrapingLog] is the log document
    if it had been created when the error was thrown. A failure of
    [markFailed] leaves the loop. *)
Definition sourceFailed (source : ScrapingSourceConfig) (sourceStartTime : Z)
           (scrapingLog : option ScrapingLog.IScrapingLog) (error : Error)
           (totals : Totals) : M Totals :=
  fun w =>
    let sourceEndTime := w_now w in
    let failedTotals :=
      mkTotals
        (t_sourceResults totals ++
         [mkSourceResult (name source) false 0 1 (sourceEndTime - sourceStartTime)])
        (t_totalEvents totals) (t_totalErrors totals + 1)
        (t_successfulSources totals) in
    match scrapingLog with
    | None => (Ok failedTotals, w)
    | Some log =>
        match onLog (fun now => ScrapingLog.markFailed now (err_message error))
                log w with
        | (_, Ok _, w') => (Ok failedTotals, w')
        | (_, Throw e, w') => (Throw e, w')
        end
    end.

(** The body of the loop of [orchestrateScrapingSources]. *)
Definition orchestrateOne (source : ScrapingSourceConfig) (totals : Totals)
  : M Totals :=
  fun w =>
    let sourceStartTime := w_now w in
    match createLog (url source) w with
    | (Throw error, w1) => sourceFailed source sourceStartTime None error totals w1
    | (Ok scrapingLog, w1) =>
        match scrapeSourceWithStatusManagement source w1 with
        | (Throw error, w2) =>
            sourceFailed source sourceStartTime (Some scrapingLog) error totals w2
        | (Ok result, w2) =>
            let sourceEndTime := w_now w2 in
            let found := Z.of_nat (length (events result)) in
            let failures := Z.of_nat (length (scrapingErrors result)) in
            match onLog (fun now => ScrapingLog.markCompleted now found found)
                    scrapingLog w2 with
            | (log1, Throw error, w3) =>
                sourceFailed source sourceStartTime (Some log1) error totals w3
            | (log1, Ok _, w3) =>
                match addErrors (map ErrorHandler.message (scrapingErrors result))
                        log1 w3 with
                | (log2, Throw error, w4) =>
                    sourceFailed source sourceStartTime (Some log2) error totals w4
                | (_, Ok _, w4) =>
                    (Ok (mkTotals
                           (t_sourceResults totals ++
                            [mkSourceResult (name source) true found failures
                               (sourceEndTime - sourceStartTime)])
                           (t_totalEvents totals + found)
                           (t_totalErrors totals + failures)
                           (t_successfulSources totals + 1)),
                     w4)
                end
            end
        end
    end.

Fixpoint orchestrateLoop (remaining : list ScrapingSourceConfig) (totals : Totals)
  : M Totals :=
  match remaining with
  | [] => ret totals
  | source :: rest =>
      let* totals' := orchestrateOne source totals in
      orchestrateLoop rest totals'
  end.

(** [orchestrateScrapingSources]. *)
Definition orchestrateScrapingSources (srcs : list ScrapingSourceConfig)
  : M OrchestrationResult :=
  let* startTime := dateNow in
  match srcs with
  | [] => ret (createEmptyResult startTime)
  | _ =>
      let* totals := orchestrateLoop srcs (mkTotals [] 0 0 0) in
      let* endTime := dateNow in
      let n := Z.of_nat (length srcs) in
      ret (mkOrchestration n (t_successfulSources totals)
             (n - t_successfulSources totals) (t_totalEvents totals)
             (t_totalErrors totals) (endTime - startTime) startTime endTime
             (t_sourceResults totals))
  end.

(** The scheduler while its cycle is suspended on an await: the flag is
    set, the last result is still the previous one. *)
Definition enterCycle (s : Scheduler) : Scheduler :=
  mkScheduler (sources s) true (lastRunResult s).

(** The scheduler when its cycle ends with [result]. *)
Definition leaveCycle (s : Scheduler) (result : OrchestrationResult)
  : Scheduler :=
  mkScheduler (sources s) false (Some result).

(** [executeScrapingCycle]: the result, the scheduler and the world when
    the returned promise settles. *)
Definition executeScrapingCycle (s : Scheduler) (w : World)
  : OrchestrationResult * Scheduler * World :=
  if isRunning s
  then (default (createEmptyResult (w_now w)) (lastRunResult s), s, w)
  else
    let running := enterCycle s in
    let startTime := w_now w in
    match orchestrateScrapingSources (sources running) w with
    | (Ok result, w') => (result, leaveCycle running result, w')
    | (Throw _, w') =>
        let endTime := w_now w' in
        let n := Z.of_nat (length (sources running)) in
        let failedResult :=
          mkOrchestration n 0 n 0 1 (endTime - startTime) startTime endTime [] in
        (failedResult, leaveCycle running failedResult, w')
    end.

(** [executeManualScraping]. *)
Definition executeManualScraping := executeScrapingCycle.

(** *** The cycle between its awaits

    [executeScrapingCycle] is an async function: it runs until it awaits,
    and other calls of it may run before it resumes. Below, a call is taken
    apart at the awaits of the loop of [orchestrateScrapingSources], the
    body of the loop for one source being one step (the calls that overlap
    it find the scheduler as the step before left it). *)

(** A cycle suspended at an await: the sources and the start instant it
    read when it began, the sources it has still to scrape, and its
    running totals. *)
Record Cycle := mkCycle {
  c_sources : list ScrapingSourceConfig;
  c_startTime : Z;
  c_remaining : list ScrapingSourceConfig;
  c_totals : Totals
}.

(** What a call of [executeScrapingCycle] has done when it first gives up
    control: it has returned a result without running anything, or it has
    started a cycle, which is now suspended. *)
Inductive Triggered :=
| Skipped (result : OrchestrationResult)
| Started (cycle : Cycle).

(** [executeScrapingCycle] from its call to its first await. *)
Definition beginCycle (s : Scheduler) (w : World) : Triggered * Scheduler :=
  if isRunning s
  then (Skipped (default (createEmptyResult (w_now w)) (lastRunResult s)), s)
  else
    (Started (mkCycle (sources s) (w_now w) (sources s) (mkTotals [] 0 0 0)),
     enterCycle s).

(** The result of [orchestrateScrapingSources] when the loop is through. *)
Definition orchestrated (c : Cycle) (endTime : Z) : OrchestrationResult :=
  match c_sources c with
  | [] => createEmptyResult (c_startTime c)
  | _ =>
      let n := Z.of_nat (length (c_sources c)) in
      let totals := c_totals c in
      mkOrchestration n (t_successfulSources totals)
        (n - t_successfulSources totals) (t_totalEvents totals)
        (t_totalErrors totals) (endTime - c_startTime c) (c_startTime c) endTime
        (t_sourceResults totals)
  end.

(** A suspended cycle resumes and runs to its next await, or to its end:
    the body of the loop for the next source, or, when no source is left
    or the body has thrown, the rest of [executeScrapingCycle], which
    stores the result and clears the flag. [s] is the scheduler as the
    resumed cycle finds it. *)
Definition resumeCycle (c : Cycle) (s : Scheduler) (w : World)
  : (Cycle + OrchestrationResult) * Scheduler * World :=
  match c_remaining c with
  | source :: rest =>
      match orchestrateOne source (c_totals c) w with
      | (Ok totals', w') =>
          (inl (mkCycle (c_sources c) (c_startTime c) rest totals'), s, w')
      | (Throw _, w') =>
          let endTime := w_now w' in
          let n := Z.of_nat (length (sources s)) in
          let failedResult :=
            mkOrchestration n 0 n 0 1 (endTime - c_startTime c) (c_startTime c)
              endTime [] in
          (inr failedResult, leaveCycle s failedResult, w')
      end
  | [] =>
      let result := orchestrated c (w_now w) in
      (inr result, leaveCycle s result, w)
  end.

(** The scheduler, the world, the cycles that are suspended, and the
    results the calls have returned so far, in the order they returned. *)
Record System := mkSystem {
  sys_scheduler : Scheduler;
  sys_world : World;
  sys_active : list Cycle;
  sys_returned : list OrchestrationResult
}.

(** What happens next: [executeScrapingCycle] is called (by the timer or
    by hand), or the suspended cycle number [i] resumes. *)
Inductive Action :=
| Trigger
| Resume (i : nat).

Definition act (sys : System) (a : Action) : System :=
  match a with
  | Trigger =>
      match beginCycle (sys_scheduler sys) (sys_world sys) with
      | (Skipped result, s') =>
          mkSystem s' (sys_world sys) (sys_active sys)
            (sys_returned sys ++ [result])
      | (Started cycle, s') =>
          mkSystem s' (sys_world sys) (sys_active sys ++ [cycle])
            (sys_returned sys)
      end
  | Resume i =>
      match sys_active sys !! i with
      | None => sys
      | Some c =>
          match resumeCycle c (sys_scheduler sys) (sys_world sys) with
          | (inl c', s', w') =>
              mkSystem s' w' (<[i := c']> (sys_active sys)) (sys_returned sys)
          | (inr result, s', w') =>
              mkSystem s' w' (delete i (sys_active sys))
                (sys_returned sys ++ [result])
          end
      end
  end.

Definition run (sys : System) (actions : list Action) : System :=
  fold_left act actions sys.

(** A scheduler at rest in a world. *)
Definition atRest (s : Scheduler) (w : World) : System := mkSystem s w [] [].

(** One cycle from its start to its end, with [gaps] giving, for each of
    its awaits in turn, how many further calls arrive while it is
    suspended there. *)
Fixpoint overlapped (gaps : list nat) : list Action :=
  match gaps with
  | [] => []
  | n :: rest => replicate n Trigger ++ Resume 0 :: overlapped rest
  end.

End ScheduledScraper.

(** ** scraping/ScraperOrchestrator.ts *)

Module ScraperOrchestrator.
Import Engine ScheduledScraper.

(** The orchestrator and the scheduler objects it can refer to. [objects]
    gives the state of every scheduler object by its reference; the map
    holds references, so an object registered under two names is one
    object. The configuration is read for [maxConcurrentScrapers] only; the
    health timer and the cron handles of the schedulers play no part in
    the operations below. *)
Record Orchestrator := mkOrchestrator {
  objects : nat -> Scheduler;
  scheduledScrapers : gmap string nat;
  maxConcurrentScrapers : Z;
  consecutiveFailures : Z;
  lastSuccessfulRun : option Z;
  lastFailedRun : option Z
}.

(** [addScheduledScraper(name, scheduledScraper)]. *)
Definition addScheduledScraper (nm : string) (scheduledScraper : nat)
           (o : Orchestrator) : Res unit * Orchestrator :=
  if bool_decide (is_Some (scheduledScrapers o !! nm))
  then (Throw (newError ("Scheduled scraper with name '" +:+ nm +:+
                         "' already exists")), o)
  else if maxConcurrentScrapers o <=? Z.of_nat (size (scheduledScrapers o))
  then (Throw (newError ("Maximum number of concurrent scrapers (" +:+
                         pretty (maxConcurrentScrapers o) +:+ ") reached")), o)
  else (Ok tt,
        mkOrchestrator (objects o) (<[nm := scheduledScraper]> (scheduledScrapers o))
          (maxConcurrentScrapers o) (consecutiveFailures o)
          (lastSuccessfulRun o) (lastFailedRun o)).

(** [removeScheduledScraper(name)]. *)
Definition removeScheduledScraper (nm : string) (o : Orchestrator)
  : bool * Orchestrator :=
  match scheduledScrapers o !! nm with
  | None => (false, o)
  | Some _ =>
      (true,
       mkOrchestrator (objects o) (delete nm (scheduledScrapers o))
         (maxConcurrentScrapers o) (consecutiveFailures o)
         (lastSuccessfulRun o) (lastFailedRun o))
  end.

(** [executeManualScraping(scraperName)]: [None] is the [null] returned for
    an unknown name. The scheduler's own [executeManualScraping] never
    rejects, so the [catch] block is not entered. *)
Definition executeManualScraping (scraperName : string) (o : Orchestrator)
           (w : World) : option OrchestrationResult * Orchestrator * World :=
  match scheduledScrapers o !! scraperName with
  | None => (None, o, w)
  | Some scraper =>
      match ScheduledScraper.executeManualScraping (objects o scraper) w with
      | (result, scraper', w') =>
          let objects' :=
            fun r => if (r =? scraper)%nat then scraper' else objects o r in
          if 0 <? successfulSources result
          then (Some result,
                mkOrchestrator objects' (scheduledScrapers o)
                  (maxConcurrentScrapers o) 0 (Some (w_now w')) (lastFailedRun o),
                w')
          else (Some result,
                mkOrchestrator objects' (scheduledScrapers o)
                  (maxConcurrentScrapers o) (consecutiveFailures o + 1)
                  (lastSuccessfulRun o) (Some (w_now w')),
                w')
      end
  end.

(** A request to change the set of scrapers. *)
Inductive Request :=
| AddScraper (nm : string) (scheduledScraper : nat)
| RemoveScraper (nm : string).

Definition serve (o : Orchestrator) (request : Request) : Orchestrator :=
  match request with
  | AddScraper nm scheduledScraper =>
      snd (addScheduledScraper nm scheduledScraper o)
  | RemoveScraper nm => snd (removeScheduledScraper nm o)
  end.

Definition serveAll (o : Orchestrator) (requests : list Request) : Orchestrator :=
  fold_left serve requests o.

End ScraperOrchestrator.

(** ** Sample data used in the evaluations below *)

Module Sample.
Import Event StatusManager.

Definition site : string := "https://events.example".

Definition scraped (t url descr : string) (tags : list string) : EventData :=
  mkData t 1900000000000 "Town Hall" Undefined "Sydney" descr tags Undefined
    site url 50.

Definition urlA : string := "https://events.example/e/a".
Definition urlB : string := "https://events.example/e/b".
Definition urlC : string := "https://events.example/e/c".

(** One stored event that an operator has imported. *)
Definition importedStore : State :=
  mkState
    [mkEvent 1 (scraped "Jazz night" urlA "An evening of jazz" ["music"])
       IMPORTED (Some 40) (Some 9%nat) (Some "approved")]
    [].

(** The same event scraped again with a changed description. *)
Definition changedBatch : list EventData :=
  [scraped "Jazz night" urlA "An evening of jazz, now with dinner" ["music"]].

(** Two sources: the first is unreachable, the second lists three events. *)
Definition broken : Engine.ScrapingSourceConfig :=
  Engine.mkSource "https://broken.example" "https://broken.example/events" None.

Definition healthy : Engine.ScrapingSourceConfig :=
  Engine.mkSource site "https://events.example/listing" None.

Definition connectionRefused : Error :=
  mkError "connect ECONNREFUSED 203.0.113.7:443" (Some "ECONNREFUSED") None.

Definition web (source : Engine.ScrapingSourceConfig) (t : Z) : Engine.Response :=
  if String.eqb (Engine.url source) (Engine.url broken)
  then Engine.mkResponse 30 (Engine.FetchFails connectionRefused)
  else Engine.mkResponse 120
         (Engine.Html
            [Engine.Extracted (scraped "Jazz night" urlA "An evening of jazz" ["music"]);
             Engine.Extracted (scraped "Film club" urlB "Weekly film" []);
             Engine.Extracted (scraped "Book fair" urlC "Second-hand books" ["books"])]).

(** A process that has just started: empty collections, no breaker. *)
Definition freshWorld : Engine.World :=
  Engine.mkWorld 1000 [] [] [] ∅ web.

(** The same process when the breaker of the unreachable source opened
    shortly before: it refuses calls for five minutes. *)
Definition brokenOpenWorld : Engine.World :=
  Engine.mkWorld 1000 [] [] []
    {["scraper-https://broken.example" :=
        CircuitBreaker.mkBreaker "scraper-https://broken.example"
          CircuitBreaker.scraperConfig CircuitBreaker.OPEN 3 0 900
          [700; 800; 900]]}
    web.

Definition twoSources : ScheduledScraper.Scheduler :=
  ScheduledScraper.mkScheduler [broken; healthy] false None.

(** The three events of the healthy listing, as a batch for the manager. *)
Definition listing : list EventData :=
  [scraped "Jazz night" urlA "An evening of jazz" ["music"];
   scraped "Film club" urlB "Weekly film" [];
   scraped "Book fair" urlC "Second-hand books" ["books"]].

(** A store that knows the first event under an older description, and an
    event the listing no longer shows. *)
Definition olderStore : State :=
  mkState
    [mkEvent 1 (scraped "Jazz night" urlA "Jazz" ["music"]) NEW None None None;
     mkEvent 2 (scraped "Craft market" "https://events.example/e/d" "Stalls" [])
       NEW None None None]
    [].

Definition emptyStore : State := mkState [] [].

(** One event whose tag the site prints with a capital letter. *)
Definition capitalTagBatch : list EventData :=
  [scraped "Jazz night" urlA "An evening of jazz" ["Music"]].

(** An orchestrator with room for two scrapers that holds one, under the
    name default. *)
Definition orchestrator : ScraperOrchestrator.Orchestrator :=
  ScraperOrchestrator.mkOrchestrator (fun _ => twoSources) {["default" := 0%nat]}
    2 4 None (Some 900).

End Sample.

(** * Properties *)

Section JsStrings.

(** The string is empty or starts with a character that is not blank. *)
Local Abbreviation startsNonBlank s :=
  (match s with
   | String c _ => Js.isWhiteSpace c = false
   | EmptyString => True
   end).

Lemma lowerChar_idem c : Js.lowerChar (Js.lowerChar c) = Js.lowerChar c.
Proof. destruct c as [[] [] [] [] [] [] [] []]; reflexivity. Qed.

Lemma isWhiteSpace_lowerChar c :
  Js.isWhiteSpace (Js.lowerChar c) = Js.isWhiteSpace c.
Proof. destruct c as [[] [] [] [] [] [] [] []]; reflexivity. Qed.

Lemma toLowerCase_idem s : Js.toLowerCase (Js.toLowerCase s) = Js.toLowerCase s.
Proof.
  induction s as [|c s IH]; [reflexivity|]. cbn. rewrite lowerChar_idem, IH.
  reflexivity.
Qed.

Lemma trimStart_toLowerCase s :
  Js.trimStart (Js.toLowerCase s) = Js.toLowerCase (Js.trimStart s).
Proof.
  induction s as [|c s IH]; [reflexivity|].
  cbn [Js.toLowerCase Js.trimStart]. rewrite isWhiteSpace_lowerChar.
  destruct (Js.isWhiteSpace c); [exact IH | reflexivity].
Qed.

Lemma trimEnd_toLowerCase s :
  Js.trimEnd (Js.toLowerCase s) = Js.toLowerCase (Js.trimEnd s).
Proof.
  induction s as [|c s IH]; [reflexivity|].
  cbn [Js.toLowerCase Js.trimEnd]. rewrite IH, isWhiteSpace_lowerChar.
  destruct (Js.trimEnd s); cbn [Js.toLowerCase];
    [destruct (Js.isWhiteSpace c)|]; reflexivity.
Qed.

Lemma trim_toLowerCase s : Js.trim (Js.toLowerCase s) = Js.toLowerCase (Js.trim s).
Proof. unfold Js.trim. rewrite trimStart_toLowerCase. apply trimEnd_toLowerCase. Qed.

Lemma trimEnd_idem s : Js.trimEnd (Js.trimEnd s) = Js.trimEnd s.
Proof.
  induction s as [|c s IH]; [reflexivity|]. cbn [Js.trimEnd].
  destruct (Js.trimEnd s) as [|c' t] eqn:Ht.
  - destruct (Js.isWhiteSpace c) eqn:Hc; [reflexivity|]. cbn. rewrite Hc.
    reflexivity.
  - cbn [Js.trimEnd] in *. rewrite IH. reflexivity.
Qed.

Lemma trimStart_startsNonBlank s : startsNonBlank (Js.trimStart s).
Proof.
  induction s as [|c s IH]; [exact I|]. cbn [Js.trimStart].
  destruct (Js.isWhiteSpace c) eqn:Hc; [exact IH | exact Hc].
Qed.

Lemma trimEnd_startsNonBlank s : startsNonBlank s -> startsNonBlank (Js.trimEnd s).
Proof.
  destruct s as [|c s]; [intros _; exact I|]. intros Hc. cbn [Js.trimEnd].
  destruct (Js.trimEnd s); [rewrite Hc|]; exact Hc.
Qed.

Lemma trimStart_fixed s : startsNonBlank s -> Js.trimStart s = s.
Proof. destruct s as [|c s]; [reflexivity|]. intros Hc. cbn. rewrite Hc. reflexivity. Qed.

Lemma trim_idem s : Js.trim (Js.trim s) = Js.trim s.
Proof.
  unfold Js.trim. rewrite trimStart_fixed.
  - apply trimEnd_idem.
  - apply trimEnd_startsNonBlank, trimStart_startsNonBlank.
Qed.

End JsStrings.

Section TransitionTable.
Import Transition.

Lemma spec_table_imported_terminal next : ~ spec_table IMPORTED next.
Proof. inversion 1. Qed.

(** C2. [validateStatusTransition] answers valid exactly on the pairs of the
    transition table; on every other pair it answers invalid with a reason
    that names the current and the requested status. *)
Theorem validateStatusTransition_table (current next : EventStatus) :
  (valid (validateStatusTransition current next) = true <->
   spec_table current next) /\
  (~ spec_table current next ->
   valid (validateStatusTransition current next) = false /\
   exists r,
     reason (validateStatusTransition current next) = Some r /\
     Js.startsWith
       ("Invalid transition from " +:+ statusName current +:+
        " to " +:+ statusName next +:+ ".") r = true /\
     Js.includes (statusName current) r = true /\
     Js.includes (statusName next) r = true).
Proof.
  split.
  - split.
    + destruct current, next; cbn; intros H; try discriminate H; constructor.
    + destruct 1; reflexivity.
  - intros Hno.
    destruct current, next;
      try (exfalso; apply Hno; constructor);
      (split; [reflexivity | eexists; split; [reflexivity | ]]);
      repeat split; vm_compute; reflexivity.
Qed.

Lemma validateStatusTransition_table_witness :
  ~ spec_table IMPORTED UPDATED /\
  valid (validateStatusTransition IMPORTED UPDATED) = false.
Proof.
  split; [inversion 1|].
  apply (proj2 (validateStatusTransition_table IMPORTED UPDATED)).
  inversion 1.
Defined.

End TransitionTable.

Section CircuitBreakerLifecycle.
Import CircuitBreaker.

Lemma executeCall_config cb c : config (executeCall cb c) = config cb.
Proof.
  unfold executeCall, execute, call_operation, onSuccess, onFailure.
  destruct (state cb) eqn:Hs; cbn;
    repeat (match goal with
            | |- context [if ?b then _ else _] => destruct b eqn:?
            end; cbn; rewrite ?Hs; cbn); reflexivity.
Qed.

Lemma executeCalls_config cs : forall cb, config (executeCalls cb cs) = config cb.
Proof.
  induction cs as [|c cs IH]; intros cb; cbn; [reflexivity|].
  unfold executeCalls in IH. rewrite IH. apply executeCall_config.
Qed.

Lemma executeCall_quiet cb c : quiet cb -> quiet (executeCall cb c).
Proof.
  unfold quiet, executeCall, execute, call_operation, onSuccess, onFailure.
  intros Hq.
  destruct (state cb) eqn:Hs; cbn;
    repeat (match goal with
            | |- context [if ?b then _ else _] => destruct b eqn:?
            end; cbn; rewrite ?Hs; cbn);
    intros H; try reflexivity; try (apply Hq; congruence); congruence.
Qed.

Lemma executeCalls_quiet cs : forall cb, quiet cb -> quiet (executeCalls cb cs).
Proof.
  induction cs as [|c cs IH]; intros cb Hq; cbn; [exact Hq|].
  apply IH, executeCall_quiet, Hq.
Qed.

Lemma create_quiet nm cfg : quiet (create nm cfg).
Proof. intros _. reflexivity. Qed.

(** *** Fast failure and trial *)

Lemma execute_open_fast_fail {W T} (dateNow : W -> Z)
      (operation : W -> Res T * W) cb w :
  state cb = OPEN ->
  dateNow w - lastFailureTime cb < recoveryTimeout (config cb) ->
  execute dateNow operation cb w = (Throw (circuitOpenError cb), cb, w).
Proof.
  intros Hs Ht. unfold execute, shouldAttemptReset. rewrite Hs.
  destruct (Z.leb_spec (recoveryTimeout (config cb))
              (dateNow w - lastFailureTime cb)); [lia | reflexivity].
Qed.

Lemma execute_open_trial {W T} (dateNow : W -> Z)
      (operation : W -> Res T * W) cb w :
  state cb = OPEN ->
  recoveryTimeout (config cb) <= dateNow w - lastFailureTime cb ->
  execute dateNow operation cb w =
    match operation w with
    | (Ok result, w') => (Ok result, onSuccess (set_state HALF_OPEN cb), w')
    | (Throw error, w') =>
        (Throw error, onFailure (dateNow w') (set_state HALF_OPEN cb), w')
    end.
Proof.
  intros Hs Ht. unfold execute, shouldAttemptReset. rewrite Hs.
  destruct (Z.leb_spec (recoveryTimeout (config cb))
              (dateNow w - lastFailureTime cb)); [reflexivity | lia].
Qed.

Lemma onFailure_half_open now cb :
  state cb = HALF_OPEN -> state (onFailure now cb) = OPEN.
Proof. intros Hs. unfold onFailure. rewrite Hs. reflexivity. Qed.

Lemma execute_half_open_failure {W T} (dateNow : W -> Z)
      (operation : W -> Res T * W) cb w e w' :
  state cb = HALF_OPEN ->
  operation w = (Throw e, w') ->
  execute dateNow operation cb w =
    (Throw e, onFailure (dateNow w') cb, w') /\
  state (onFailure (dateNow w') cb) = OPEN.
Proof.
  intros Hs Hop. split; [|apply onFailure_half_open, Hs].
  unfold execute. rewrite Hs, Hop. reflexivity.
Qed.

(** *** Closing from HALF_OPEN *)

Lemma executeCall_half_open_success cb c :
  state cb = HALF_OPEN -> succeeds c = true ->
  executeCall cb c = onSuccess cb.
Proof.
  intros Hs Hc. unfold executeCall, execute, call_operation.
  rewrite Hs, Hc. reflexivity.
Qed.

Lemma half_open_successes cs : forall cb,
  state cb = HALF_OPEN ->
  Forall (fun c => succeeds c = true) cs ->
  successes cb + Z.of_nat (length cs) <= successThreshold (config cb) ->
  let cb' := executeCalls cb cs in
  if successes cb + Z.of_nat (length cs) <? successThreshold (config cb)
  then state cb' = HALF_OPEN /\
       successes cb' = successes cb + Z.of_nat (length cs)
  else cs <> [] -> state cb' = CLOSED.
Proof.
  induction cs as [|c cs IH]; intros cb Hs Hall Hle; cbn zeta.
  - cbn. rewrite Z.add_0_r.
    destruct (Z.ltb_spec (successes cb) (successThreshold (config cb)));
      [split; [exact Hs | reflexivity] | congruence].
  - inversion Hall as [|? ? Hc Hall']; subst.
    change (executeCalls cb (c :: cs)) with (executeCalls (executeCall cb c) cs).
    rewrite executeCall_half_open_success by assumption.
    rewrite length_cons, Nat2Z.inj_succ in *.
    destruct cs as [|c2 cs].
    + cbn [length executeCalls fold_left] in *. unfold onSuccess. rewrite Hs.
      destruct (Z.ltb_spec (successes cb + Z.succ (Z.of_nat 0))
                  (successThreshold (config cb)));
        destruct (Z.leb_spec (successThreshold (config cb)) (successes cb + 1));
        try lia; cbn; intros; try split; try reflexivity; lia.
    + assert (Hlt : successes cb + 1 < successThreshold (config cb)).
      { cbn [length] in Hle. lia. }
      assert (Hon : onSuccess cb =
                    mkBreaker (name cb) (config cb) HALF_OPEN 0
                      (successes cb + 1) (lastFailureTime cb) []).
      { unfold onSuccess. rewrite Hs.
        destruct (Z.leb_spec (successThreshold (config cb)) (successes cb + 1));
          [lia | reflexivity]. }
      specialize (IH (onSuccess cb)). rewrite Hon in IH |- *. cbn in IH.
      specialize (IH eq_refl Hall').
      replace (successes cb + Z.succ (Z.of_nat (length (c2 :: cs))))
        with (successes cb + 1 + Z.of_nat (length (c2 :: cs))) by lia.
      cbn [length] in *.
      destruct (successes cb + 1 + Z.of_nat (S (length cs)) <?
                successThreshold (config cb)) eqn:E.
      * apply IH. lia.
      * intros _. apply IH; [lia | discriminate].
Qed.

(** *** Opening on failures inside one monitoring window *)

Lemma recent_survive_filter (lo now mp : Z) (l : list Z) :
  now <= lo + mp ->
  length (filter (fun t => lo <= t) (filter (fun t => now - t <= mp) l)) =
  length (filter (fun t => lo <= t) l).
Proof.
  intros Hw. induction l as [|t l IH]; [reflexivity|].
  rewrite !filter_cons.
  destruct (decide (lo <= t)) as [Hlo|Hlo].
  - destruct (decide (now - t <= mp)) as [_|Hn]; [|lia].
    rewrite filter_cons. destruct (decide (lo <= t)); [|lia].
    cbn. rewrite IH. reflexivity.
  - destruct (decide (now - t <= mp)); [|exact IH].
    rewrite filter_cons. destruct (decide (lo <= t)); [lia | exact IH].
Qed.

Lemma executeCall_failure cb c lo (k : nat) :
  succeeds c = false ->
  lo <= at_return c <= lo + monitoringPeriod (config cb) ->
  (state cb = CLOSED -> (k <= recentFailures lo cb)%nat) ->
  let cb' := executeCall cb c in
  state cb' = OPEN \/
  (state cb' = CLOSED /\ (S k <= recentFailures lo cb')%nat /\
   Z.of_nat (length (failureTimes cb')) < failureThreshold (config cb)).
Proof.
  intros Hc [Hlo Hhi] Hk. cbn zeta.
  unfold executeCall, execute, call_operation. rewrite Hc.
  destruct (state cb) eqn:Hs; cbn.
  - (* CLOSED *)
    unfold onFailure. rewrite Hs.
    set (ft := filter _ (failureTimes cb ++ [at_return c])).
    assert (Hcnt : (S k <= length (filter (fun t => (lo <= t)%Z) ft))%nat).
    { subst ft. rewrite recent_survive_filter by lia.
      rewrite filter_app, length_app.
      rewrite (filter_cons _ (at_return c) []).
      destruct (decide (lo <= at_return c)); [|lia].
      cbn. specialize (Hk eq_refl). unfold recentFailures in Hk. lia. }
    destruct (Z.leb_spec (failureThreshold (config cb)) (Z.of_nat (length ft)));
      cbn; [left; reflexivity | right].
    split; [reflexivity | split; [exact Hcnt | lia]].
  - (* OPEN *)
    destruct (shouldAttemptReset (at_call c) cb); cbn; [|left; exact Hs].
    left. reflexivity.
  - (* HALF_OPEN *)
    left. unfold onFailure. rewrite Hs. reflexivity.
Qed.

Lemma failing_calls cs : forall cb lo (k : nat),
  Forall (fun c => succeeds c = false /\
                   lo <= at_return c <= lo + monitoringPeriod (config cb)) cs ->
  (state cb = CLOSED -> (k <= recentFailures lo cb)%nat) ->
  cs <> [] ->
  let cb' := executeCalls cb cs in
  state cb' = OPEN \/
  (state cb' = CLOSED /\
   Z.of_nat (k + length cs) <= Z.of_nat (length (failureTimes cb')) /\
   Z.of_nat (length (failureTimes cb')) < failureThreshold (config cb)).
Proof.
  induction cs as [|c cs IH]; intros cb lo k Hall Hk Hne; [congruence|].
  inversion Hall as [|? ? [Hc Hw] Hall']; subst. cbn zeta.
  change (executeCalls cb (c :: cs)) with (executeCalls (executeCall cb c) cs).
  pose proof (executeCall_failure cb c lo k Hc Hw Hk) as Hstep. cbn zeta in Hstep.
  destruct cs as [|c2 cs].
  - cbn. destruct Hstep as [Ho | (Hcl & Hcnt & Hlt)]; [left; exact Ho | right].
    split; [exact Hcl | split; [|exact Hlt]].
    unfold recentFailures in Hcnt.
    pose proof (length_filter (fun t => lo <= t)
                  (failureTimes (executeCall cb c))). lia.
  - specialize (IH (executeCall cb c) lo (S k)).
    rewrite executeCall_config in IH.
    assert (Hk' : state (executeCall cb c) = CLOSED ->
                  (S k <= recentFailures lo (executeCall cb c))%nat).
    { intros Hcl. destruct Hstep as [Ho | (_ & Hcnt & _)];
        [congruence | exact Hcnt]. }
    specialize (IH Hall' Hk' ltac:(discriminate)). cbn zeta in IH.
    destruct IH as [Ho | (Hcl & Hcnt & Hlt)]; [left; exact Ho | right].
    split; [exact Hcl | split; [|exact Hlt]].
    cbn [length] in *. lia.
Qed.

Lemma executeCall_open_trial_success cb c :
  state cb = OPEN ->
  recoveryTimeout (config cb) <= at_call c - lastFailureTime cb ->
  succeeds c = true ->
  executeCall cb c = executeCall (set_state HALF_OPEN cb) c.
Proof.
  intros Hs Ht Hc. unfold executeCall.
  rewrite execute_open_trial by assumption.
  unfold execute, call_operation. rewrite Hc. reflexivity.
Qed.

(** C4, as stated, fails: [failureThreshold] consecutive failures that are
    spread over more than [monitoringPeriod] leave the breaker CLOSED. *)
Lemma spread_failures_stay_closed :
  ~ (forall nm cfg cs,
       1 <= failureThreshold cfg ->
       Z.of_nat (length cs) = failureThreshold cfg ->
       Forall (fun c => succeeds c = false) cs ->
       state (executeCalls (create nm cfg) cs) = OPEN).
Proof.
  intros H.
  specialize (H "scraper-a" scraperConfig
                [mkCall 0 false 100; mkCall 1000000 false 1000100;
                 mkCall 2000000 false 2000100]).
  cbn in H.
  specialize (H ltac:(lia) eq_refl
                ltac:(repeat constructor)).
  vm_compute in H. discriminate H.
Qed.

(** C4 (amended). For a breaker in any state reached from a fresh one:
    (a) [failureThreshold] consecutive failures whose instants all lie in
        one window of length [monitoringPeriod] leave it OPEN;
    (b) while OPEN and before [recoveryTimeout] has elapsed since the last
        failure, [execute] throws the circuit-open error and neither the
        operation runs nor anything changes;
    (c) once [recoveryTimeout] has elapsed, [execute] on an OPEN breaker
        moves to HALF_OPEN and runs the operation;
    (d) [successThreshold] consecutive successes starting with that trial
        leave it CLOSED;
    (e) a failure in HALF_OPEN leaves it OPEN. *)
Theorem circuit_breaker_lifecycle (nm : string) (cfg : CircuitBreakerConfig)
        (history : list Call) :
  let cb := executeCalls (create nm cfg) history in
  (forall cs lo,
      1 <= failureThreshold cfg ->
      Z.of_nat (length cs) = failureThreshold cfg ->
      Forall (fun c => succeeds c = false /\
                       lo <= at_return c <= lo + monitoringPeriod cfg) cs ->
      state (executeCalls cb cs) = OPEN) /\
  (forall (W T : Type) (dateNow : W -> Z) (operation : W -> Res T * W) w,
      state cb = OPEN ->
      dateNow w - lastFailureTime cb < recoveryTimeout cfg ->
      execute dateNow operation cb w = (Throw (circuitOpenError cb), cb, w)) /\
  (forall (W T : Type) (dateNow : W -> Z) (operation : W -> Res T * W) w,
      state cb = OPEN ->
      recoveryTimeout cfg <= dateNow w - lastFailureTime cb ->
      execute dateNow operation cb w =
        match operation w with
        | (Ok result, w') =>
            (Ok result, onSuccess (set_state HALF_OPEN cb), w')
        | (Throw error, w') =>
            (Throw error, onFailure (dateNow w') (set_state HALF_OPEN cb), w')
        end) /\
  (forall c cs,
      1 <= successThreshold cfg ->
      Z.of_nat (length (c :: cs)) = successThreshold cfg ->
      state cb = OPEN ->
      recoveryTimeout cfg <= at_call c - lastFailureTime cb ->
      Forall (fun c => succeeds c = true) (c :: cs) ->
      state (executeCalls cb (c :: cs)) = CLOSED) /\
  (forall (W T : Type) (dateNow : W -> Z) (operation : W -> Res T * W) w e w',
      state cb = HALF_OPEN ->
      operation w = (Throw e, w') ->
      state (snd (fst (execute dateNow operation cb w))) = OPEN).
Proof.
  intros cb.
  assert (Hcfg : config cb = cfg).
  { subst cb. rewrite executeCalls_config. reflexivity. }
  assert (Hq : quiet cb).
  { subst cb. apply executeCalls_quiet, create_quiet. }
  repeat split.
  - intros cs lo Hthr Hlen Hall.
    assert (Hne : cs <> []).
    { destruct cs; [cbn in Hlen; lia | discriminate]. }
    destruct (failing_calls cs cb lo 0) as [Ho | (_ & Hcnt & Hlt)];
      [rewrite Hcfg; exact Hall | intros _; apply Nat.le_0_l | exact Hne
      | exact Ho | ].
    rewrite Hcfg in Hlt. cbn in Hcnt. lia.
  - intros W T dateNow operation w Hs Ht.
    apply execute_open_fast_fail; [exact Hs | rewrite Hcfg; exact Ht].
  - intros W T dateNow operation w Hs Ht.
    apply execute_open_trial; [exact Hs | rewrite Hcfg; exact Ht].
  - intros c cs Hthr Hlen Hs Ht Hall.
    change (executeCalls cb (c :: cs)) with (executeCalls (executeCall cb c) cs).
    rewrite executeCall_open_trial_success;
      [ | exact Hs | rewrite Hcfg; exact Ht
        | inversion Hall; assumption ].
    change (executeCalls (executeCall (set_state HALF_OPEN cb) c) cs)
      with (executeCalls (set_state HALF_OPEN cb) (c :: cs)).
    pose proof (half_open_successes (c :: cs) (set_state HALF_OPEN cb)
                  eq_refl Hall) as Hh.
    cbn [set_state successes config] in Hh.
    rewrite Hcfg, (Hq ltac:(congruence)) in Hh.
    cbn zeta in Hh.
    destruct (Z.ltb_spec (0 + Z.of_nat (length (c :: cs)))
                (successThreshold cfg)); [lia|].
    apply Hh; [lia | discriminate].
  - intros W T dateNow operation w e w' Hs Hop.
    destruct (execute_half_open_failure dateNow operation cb w e w' Hs Hop)
      as [-> Ho]. exact Ho.
Qed.

Lemma circuit_breaker_lifecycle_witness :
  let tripped :=
    executeCalls (create "scraper-a" scraperConfig)
      [mkCall 0 false 100; mkCall 1000 false 1100; mkCall 2000 false 2100] in
  state tripped = OPEN /\
  state (executeCalls tripped
           [mkCall 400000 true 400100; mkCall 401000 true 401100]) = CLOSED.
Proof.
  split.
  - apply (proj1 (circuit_breaker_lifecycle "scraper-a" scraperConfig [])
             [mkCall 0 false 100; mkCall 1000 false 1100;
              mkCall 2000 false 2100] 0).
    + cbn; lia.
    + reflexivity.
    + repeat constructor; cbn; lia.
  - apply (proj1 (proj2 (proj2 (proj2
             (circuit_breaker_lifecycle "scraper-a" scraperConfig
                [mkCall 0 false 100; mkCall 1000 false 1100;
                 mkCall 2000 false 2100]))))).
    + cbn; lia.
    + reflexivity.
    + reflexivity.
    + vm_compute. discriminate.
    + repeat constructor.
Defined.

End CircuitBreakerLifecycle.

Section ScrapingLogInvariant.
Import ScrapingLog.

Lemma store_In doc coll : In doc (store doc coll).
Proof.
  induction coll as [|d rest IH]; cbn; [left; reflexivity|].
  destruct (_id d =? _id doc)%nat; [left; reflexivity | right; exact IH].
Qed.

Lemma store_Forall (P : IScrapingLog -> Prop) doc coll :
  P doc -> Forall P coll -> Forall P (store doc coll).
Proof.
  intros Hd. induction 1 as [|d rest Hx Hrest IH]; cbn.
  - constructor; [exact Hd | constructor].
  - destruct (_id d =? _id doc)%nat; constructor; assumption.
Qed.

Lemma preSave_ok now doc doc1 :
  preSave now doc = (doc1, Ok tt) ->
  consistent doc1 /\
  (endTime doc = None -> status doc = completed \/ status doc = failed ->
   endTime doc1 = Some now).
Proof.
  unfold preSave, consistent.
  destruct (endTime doc) as [e|] eqn:He.
  - destruct (e <? startTime doc); [discriminate|].
    assert (Hd : (match status doc with
                  | running => doc | _ => doc end) = doc)
      by (destruct (status doc); reflexivity).
    rewrite Hd.
    destruct (Z.ltb_spec (eventsFound doc) (eventsProcessed doc));
      [discriminate|].
    intros [= <-]. rewrite He. repeat split; [lia | discriminate | discriminate].
  - destruct (status doc) eqn:Hst; cbn;
      match goal with
      | |- context [if ?b then _ else _] => destruct b eqn:Hcmp
      end; try discriminate;
      intros [= <-]; cbn; rewrite ?He, ?Hst;
      apply Z.ltb_ge in Hcmp; cbn in Hcmp;
      (split; [split; [exact Hcmp | ] | ]);
      try (intros [?|?]; discriminate); try reflexivity;
      try (intros _ [?|?]; discriminate); intros; discriminate.
Qed.

Lemma preSave_rejects now doc :
  eventsFound doc < eventsProcessed doc ->
  exists doc1 e, preSave now doc = (doc1, Throw e).
Proof.
  intros Hlt. unfold preSave.
  destruct (match endTime doc with Some e => e <? startTime doc | None => false end);
    [eauto|].
  match goal with
  | |- context [if eventsFound ?d <? eventsProcessed ?d then _ else _] =>
      assert (Hf : eventsFound d = eventsFound doc /\
                   eventsProcessed d = eventsProcessed doc)
        by (destruct (status doc), (endTime doc); split; reflexivity);
      destruct Hf as [Hf Hp];
      destruct (Z.ltb_spec (eventsFound d) (eventsProcessed d));
      [eauto | lia]
  end.
Qed.

(** C8. A successful [save] of a run-log entry leaves an entry with
    [eventsProcessed <= eventsFound] whose [endTime] is set when its status
    is completed or failed (set to the current instant when it was still
    missing); a write with [eventsProcessed > eventsFound] is rejected with
    an error and stores nothing; so every entry of the collection keeps
    both properties. *)
Theorem scrapingLog_save_invariant (now : Z) (doc : IScrapingLog)
        (coll : Collection) :
  (forall doc' coll',
      save now doc coll = (doc', Ok tt, coll') ->
      consistent doc' /\ In doc' coll' /\
      (status doc = completed \/ status doc = failed ->
       endTime doc = None -> endTime doc' = Some now)) /\
  (eventsFound doc < eventsProcessed doc ->
   exists doc' e, save now doc coll = (doc', Throw e, coll)) /\
  (Forall consistent coll -> Forall consistent (snd (save now doc coll))).
Proof.
  unfold save. split; [|split].
  - intros doc' coll'.
    destruct (validate doc); [|discriminate].
    destruct (preSave now doc) as [doc1 [[]|e]] eqn:Hp; [|discriminate].
    intros [= <- <-]. destruct (preSave_ok _ _ _ Hp) as [Hc Ht].
    split; [exact Hc | split; [apply store_In | ]].
    intros Hst He. apply Ht; assumption.
  - intros Hlt. destruct (validate doc); [|eauto].
    destruct (preSave_rejects now doc Hlt) as (doc1 & e & ->). eauto.
  - intros Hall. destruct (validate doc); [|exact Hall].
    destruct (preSave now doc) as [doc1 [[]|e]] eqn:Hp; [|exact Hall].
    cbn. apply store_Forall; [|exact Hall]. apply (preSave_ok _ _ _ Hp).
Qed.

Lemma scrapingLog_save_invariant_witness :
  let doc := mkLog 1 "https://example.com/events" 1000 None 3 3 [] completed in
  ScrapingLog.consistent
    (fst (fst (save 2000 doc []))) /\
  endTime (fst (fst (save 2000 doc []))) = Some 2000 /\
  (exists doc' e,
      save 2000 (mkLog 1 "https://example.com/events" 1000 None 3 4 [] running) []
      = (doc', Throw e, [])).
Proof.
  cbn zeta.
  pose proof (proj1 (scrapingLog_save_invariant 2000
                (mkLog 1 "https://example.com/events" 1000 None 3 3 [] completed)
                []) _ _ eq_refl) as (Hc & _ & Ht).
  split; [exact Hc | split].
  - apply Ht; [left; reflexivity | reflexivity].
  - apply (proj1 (proj2 (scrapingLog_save_invariant 2000
                (mkLog 1 "https://example.com/events" 1000 None 3 4 [] running)
                []))).
    cbn. lia.
Defined.

End ScrapingLogInvariant.

Section EventSaves.
Import Event StatusManager.

Lemma preSave_id e : _id (preSave e) = _id e.
Proof. reflexivity. Qed.

Lemma preSave_status e : status (preSave e) = status e.
Proof. reflexivity. Qed.

Lemma preSave_url e :
  originalEventUrl (doc (preSave e)) = originalEventUrl (doc e).
Proof.
  unfold preSave, preSaveData. destruct (Js.truthy (city (doc e))); cbn;
    destruct (categoryTags (doc e)); reflexivity.
Qed.

Lemma preSave_source e :
  sourceWebsite (doc (preSave e)) = sourceWebsite (doc e).
Proof.
  unfold preSave, preSaveData. destruct (Js.truthy (city (doc e))); cbn;
    destruct (categoryTags (doc e)); reflexivity.
Qed.

Lemma replace_ids e coll : map _id (replace e coll) = map _id coll.
Proof.
  unfold replace. induction coll as [|d rest IH]; [reflexivity|].
  cbn. rewrite IH. destruct (Nat.eqb_spec (_id d) (_id e)) as [->|]; reflexivity.
Qed.

Lemma replace_other e d coll :
  In d coll -> _id d <> _id e -> In d (replace e coll).
Proof.
  intros Hin Hne. unfold replace. apply in_map_iff. exists d.
  split; [|exact Hin].
  destruct (Nat.eqb_spec (_id d) (_id e)); [contradiction | reflexivity].
Qed.

Lemma replace_In e d coll :
  In d (replace e coll) -> d = e \/ (In d coll /\ _id d <> _id e).
Proof.
  unfold replace. intros Hin. apply in_map_iff in Hin as (x & Hx & Hin).
  destruct (Nat.eqb_spec (_id x) (_id e)); subst; auto.
Qed.

Lemma hasId_In i coll : hasId i coll = true <-> In i (map _id coll).
Proof.
  unfold hasId. rewrite existsb_exists, in_map_iff. split.
  - intros (x & Hin & Heq). apply Nat.eqb_eq in Heq. eauto.
  - intros (x & Heq & Hin). exists x. split; [exact Hin | apply Nat.eqb_eq, Heq].
Qed.

Lemma replace_self e coll : hasId (_id e) coll = true -> In e (replace e coll).
Proof.
  intros H. apply hasId_In, in_map_iff in H as (x & Heq & Hin).
  unfold replace. apply in_map_iff. exists x. split; [|exact Hin].
  rewrite Heq, Nat.eqb_refl. reflexivity.
Qed.

(** What [saveExisting] can do: fail and leave the collection alone, or
    write the hooked document over the stored one. *)
Lemma saveExisting_cases e coll :
  (exists err x, saveExisting e coll = (x, Throw err, coll) /\
                 (x = e \/ x = preSave e)) \/
  (saveExisting e coll = (preSave e, Ok tt, replace (preSave e) coll) /\
   validate e = Ok tt /\ hasId (_id e) coll = true /\
   duplicateKey (preSave e) coll = false).
Proof.
  unfold saveExisting. destruct (validate e) as [[]|err] eqn:Hv.
  - rewrite preSave_id.
    destruct (hasId (_id e) coll) eqn:Hh; cbn.
    + destruct (duplicateKey (preSave e) coll) eqn:Hd; [left | right]; eauto 6.
    + left. eauto.
  - left. eauto.
Qed.

Lemma saveNew_cases e coll :
  (exists err x, saveNew e coll = (x, Throw err, coll) /\
                 (x = e \/ x = preSave e)) \/
  (saveNew e coll = (preSave e, Ok tt, coll ++ [preSave e]) /\
   validate e = Ok tt /\ hasId (_id e) coll = false /\
   duplicateKey (preSave e) coll = false).
Proof.
  unfold saveNew. destruct (validate e) as [[]|err] eqn:Hv.
  - rewrite preSave_id.
    destruct (duplicateKey (preSave e) coll) eqn:Hd; cbn; [left; eauto|].
    destruct (hasId (_id e) coll) eqn:Hh; [left | right]; eauto 6.
  - left. eauto.
Qed.

Lemma freshId_above coll : forall e, In e coll -> (_id e < freshId coll)%nat.
Proof.
  unfold freshId. induction coll as [|d rest IH]; intros e Hin; [destruct Hin|].
  cbn. destruct Hin as [->|Hin]; [lia|]. specialize (IH e Hin). lia.
Qed.

Lemma freshId_fresh coll : hasId (freshId coll) coll = false.
Proof.
  destruct (hasId (freshId coll) coll) eqn:H; [|reflexivity].
  apply hasId_In, in_map_iff in H as (x & Heq & Hin).
  pose proof (freshId_above coll x Hin). lia.
Qed.

Lemma ids_injective coll a b :
  NoDup (map _id coll) -> In a coll -> In b coll -> _id a = _id b -> a = b.
Proof.
  induction coll as [|d rest IH]; intros Hnd Ha Hb Heq; [destruct Ha|].
  cbn in Hnd. apply NoDup_cons in Hnd as [Hnotin Hnd].
  rewrite list_elem_of_In in Hnotin.
  assert (Hmem : forall x, In x rest -> In (_id x) (map _id rest))
    by (intros x Hx; apply in_map, Hx).
  destruct Ha as [<-|Ha], Hb as [<-|Hb]; [reflexivity | | | auto].
  - exfalso. apply Hnotin. rewrite Heq. auto.
  - exfalso. apply Hnotin. rewrite <- Heq. auto.
Qed.

(** *** Validation and the pre-save hook *)

Lemma validate_ok e :
  validate e = Ok tt <->
  dataErrors (doc e) = [] /\ importNotesErrors (importNotes e) = [].
Proof.
  unfold validate. split.
  - intros H. apply app_eq_nil.
    destruct (dataErrors (doc e) ++ importNotesErrors (importNotes e));
      [reflexivity | discriminate H].
  - intros [-> ->]. reflexivity.
Qed.

Lemma dedupe_length xs : forall seen, (length (dedupe seen xs) <= length xs)%nat.
Proof.
  induction xs as [|x rest IH]; intros seen; cbn; [lia|].
  destruct (bool_decide (x ∈ seen)); cbn.
  - specialize (IH seen). lia.
  - specialize (IH (x :: seen)). lia.
Qed.

Lemma normalizeTags_length tags : (length (normalizeTags tags) <= length tags)%nat.
Proof.
  unfold normalizeTags.
  pose proof (dedupe_length (map (fun tag => Js.toLowerCase (Js.trim tag)) tags) []) as H.
  rewrite length_map in H. exact H.
Qed.

Lemma dataErrors_nil d :
  dataErrors d = [] <->
  titleErrors d = [] /\ venueNameErrors d = [] /\ venueAddressErrors d = [] /\
  cityErrors d = [] /\ descriptionErrors d = [] /\ categoryTagsErrors d = [] /\
  imageUrlErrors d = [] /\ sourceWebsiteErrors d = [] /\
  originalEventUrlErrors d = [].
Proof.
  unfold dataErrors. split.
  - intros H. repeat (apply app_eq_nil in H as [? H]). auto 10.
  - intros (-> & -> & -> & -> & -> & -> & -> & -> & ->). reflexivity.
Qed.

Lemma cityErrors_truthy d : cityErrors d = [] -> Js.truthy (city d) = true.
Proof. unfold cityErrors. destruct (Js.truthy (city d)); [reflexivity | discriminate]. Qed.

Lemma dataErrors_set_categoryTags tags d :
  dataErrors d = [] -> (length tags <= length (categoryTags d))%nat ->
  dataErrors (set_categoryTags tags d) = [].
Proof.
  rewrite !dataErrors_nil. intros (? & ? & ? & ? & ? & Htags & ? & ? & ?) Hlen.
  repeat split; try assumption.
  unfold categoryTagsErrors in *. cbn [categoryTags set_categoryTags].
  destruct (Nat.ltb_spec 10 (length (categoryTags d))); [discriminate|].
  destruct (Nat.ltb_spec 10 (length tags)); [lia | reflexivity].
Qed.

Lemma preSaveData_valid d : dataErrors d = [] -> dataErrors (preSaveData d) = [].
Proof.
  intros H. unfold preSaveData.
  pose proof (proj1 (dataErrors_nil d) H) as (_ & _ & _ & Hcity & _).
  rewrite (cityErrors_truthy d Hcity).
  destruct (categoryTags d) as [|tag tags] eqn:Ht; [exact H|].
  apply dataErrors_set_categoryTags; [exact H|].
  rewrite Ht. apply normalizeTags_length.
Qed.

Lemma validate_preSave e : validate e = Ok tt -> validate (preSave e) = Ok tt.
Proof.
  rewrite !validate_ok. intros [Hd Hn]. split; [|exact Hn].
  apply preSaveData_valid, Hd.
Qed.

(** *** The unique index *)

Lemma keys_injective coll a b :
  NoDup (map key coll) -> In a coll -> In b coll -> key a = key b -> a = b.
Proof.
  induction coll as [|d rest IH]; intros Hnd Ha Hb Heq; [destruct Ha|].
  cbn in Hnd. apply NoDup_cons in Hnd as [Hnotin Hnd].
  rewrite list_elem_of_In in Hnotin.
  assert (Hmem : forall x, In x rest -> In (key x) (map key rest))
    by (intros x Hx; apply in_map, Hx).
  destruct Ha as [<-|Ha], Hb as [<-|Hb]; [reflexivity | | | auto].
  - exfalso. apply Hnotin. rewrite Heq. auto.
  - exfalso. apply Hnotin. rewrite <- Heq. auto.
Qed.

Lemma sameKey_key a b : sameKey a b = true <-> key a = key b.
Proof.
  unfold sameKey, key. rewrite andb_true_iff, !String.eqb_eq. split.
  - intros [-> ->]. reflexivity.
  - intros [= -> ->]. auto.
Qed.

Lemma duplicateKey_false e coll :
  duplicateKey e coll = false <->
  forall d, In d coll -> _id d <> _id e -> key d <> key e.
Proof.
  unfold duplicateKey. split.
  - intros H d Hin Hid Hkey.
    assert (Hex : existsb (fun d => negb (_id d =? _id e)%nat && sameKey d e) coll = true).
    { apply existsb_exists. exists d. split; [exact Hin|].
      apply andb_true_iff. split; [|apply sameKey_key, Hkey].
      apply negb_true_iff, Nat.eqb_neq, Hid. }
    congruence.
  - intros H. apply not_true_is_false. intros Hex.
    apply existsb_exists in Hex as (d & Hin & Hd).
    apply andb_true_iff in Hd as [Hid Hkey].
    apply negb_true_iff, Nat.eqb_neq in Hid. apply sameKey_key in Hkey.
    exact (H d Hin Hid Hkey).
Qed.

Lemma replace_absent e coll :
  ~ In (_id e) (map _id coll) -> replace e coll = coll.
Proof.
  unfold replace. induction coll as [|d rest IH]; intros H; [reflexivity|].
  cbn in *. destruct (Nat.eqb_spec (_id d) (_id e)) as [Heq|Hne].
  - exfalso. apply H. left. exact Heq.
  - rewrite IH; [reflexivity | tauto].
Qed.

Lemma replace_keys e coll :
  NoDup (map _id coll) -> NoDup (map key coll) ->
  duplicateKey e coll = false -> NoDup (map key (replace e coll)).
Proof.
  rewrite duplicateKey_false.
  induction coll as [|d rest IH]; intros Hids Hkeys Hdup; [constructor|].
  cbn in Hids, Hkeys.
  apply NoDup_cons in Hids as [Hid Hids]. apply NoDup_cons in Hkeys as [Hk Hkeys].
  rewrite list_elem_of_In in Hid. rewrite list_elem_of_In in Hk.
  unfold replace. cbn. fold (replace e rest).
  destruct (Nat.eqb_spec (_id d) (_id e)) as [Heq|Hne].
  - rewrite replace_absent by (rewrite <- Heq; exact Hid).
    apply NoDup_cons. split; [|exact Hkeys].
    rewrite list_elem_of_In, in_map_iff. intros (x & Hx & Hin).
    apply (Hdup x); [right; exact Hin | | exact Hx].
    intros Hxe. apply Hid. rewrite Heq, <- Hxe. apply in_map, Hin.
  - apply NoDup_cons. split.
    + rewrite list_elem_of_In, in_map_iff. intros (x & Hx & Hin).
      apply replace_In in Hin as [-> | [Hin _]].
      * apply (Hdup d); [left; reflexivity | exact Hne | symmetry; exact Hx].
      * apply Hk. rewrite <- Hx. apply in_map, Hin.
    + apply IH; [exact Hids | exact Hkeys |].
      intros x Hin. apply Hdup. right. exact Hin.
Qed.

Lemma wellFormed_replace e coll :
  wellFormed coll -> validate e = Ok tt -> duplicateKey e coll = false ->
  wellFormed (replace e coll).
Proof.
  intros (Hids & Hkeys & Hval) He Hdup. split; [|split].
  - rewrite replace_ids. exact Hids.
  - apply replace_keys; assumption.
  - unfold replace. apply Forall_forall. intros x Hx.
    apply list_elem_of_In, in_map_iff in Hx as (d & <- & Hd).
    destruct (_id d =? _id e)%nat; [exact He|].
    rewrite Forall_forall in Hval. apply Hval, list_elem_of_In, Hd.
Qed.

Lemma wellFormed_append e coll :
  wellFormed coll -> validate e = Ok tt -> hasId (_id e) coll = false ->
  duplicateKey e coll = false -> wellFormed (coll ++ [e]).
Proof.
  intros (Hids & Hkeys & Hval) He Hfresh Hdup.
  assert (Hnot : ~ In (_id e) (map _id coll)).
  { intros H. apply hasId_In in H. congruence. }
  rewrite duplicateKey_false in Hdup.
  split; [|split].
  - rewrite map_app. apply NoDup_app. split; [exact Hids | split].
    + intros i Hi Hi'. apply list_elem_of_In in Hi, Hi'.
      destruct Hi' as [<- | []]. exact (Hnot Hi).
    + cbn. apply NoDup_singleton.
  - rewrite map_app. apply NoDup_app. split; [exact Hkeys | split].
    + intros k Hk Hk'. apply list_elem_of_In in Hk, Hk'.
      destruct Hk' as [<- | []].
      apply in_map_iff in Hk as (x & Hx & Hin).
      apply (Hdup x Hin); [|exact Hx].
      intros Hxe. apply Hnot. rewrite <- Hxe. apply in_map, Hin.
    + cbn. apply NoDup_singleton.
  - apply Forall_app. split; [exact Hval | repeat constructor; exact He].
Qed.

(** Every save keeps the collection well formed, whether it succeeds or
    not. *)
Lemma saveExisting_wellFormed e coll :
  wellFormed coll -> wellFormed (snd (saveExisting e coll)).
Proof.
  intros Hwf.
  destruct (saveExisting_cases e coll)
    as [(err & x & -> & _) | (-> & Hv & _ & Hdup)]; cbn; [exact Hwf|].
  apply wellFormed_replace; [exact Hwf | apply validate_preSave, Hv | exact Hdup].
Qed.

Lemma saveNew_wellFormed e coll :
  wellFormed coll -> wellFormed (snd (saveNew e coll)).
Proof.
  intros Hwf.
  destruct (saveNew_cases e coll)
    as [(err & x & -> & _) | (-> & Hv & Hh & Hdup)]; cbn; [exact Hwf|].
  apply wellFormed_append;
    [exact Hwf | apply validate_preSave, Hv | rewrite preSave_id; exact Hh
    | exact Hdup].
Qed.

(** A document that keeps its id and key and passes validation is written
    over its stored version. *)
Lemma saveExisting_succeeds coll x x' :
  wellFormed coll -> In x coll -> _id x' = _id x -> key x' = key x ->
  validate x' = Ok tt ->
  saveExisting x' coll = (preSave x', Ok tt, replace (preSave x') coll).
Proof.
  intros (Hids & Hkeys & _) Hin Hid Hkey Hv.
  destruct (saveExisting_cases x' coll)
    as [(err & y & Hsave & _) | (Hsave & _)]; [|exact Hsave].
  exfalso. unfold saveExisting in Hsave. rewrite Hv in Hsave.
  assert (Hh : hasId (_id (preSave x')) coll = true).
  { apply hasId_In. rewrite preSave_id, Hid. apply in_map, Hin. }
  rewrite Hh in Hsave. cbn in Hsave.
  assert (Hd : duplicateKey (preSave x') coll = false).
  { apply duplicateKey_false. intros d Hd Hne Hk.
    assert (d = x).
    { apply (keys_injective coll); try assumption.
      rewrite Hk. unfold key. rewrite preSave_url, preSave_source. exact Hkey. }
    subst d. apply Hne. rewrite preSave_id. symmetry. exact Hid. }
  rewrite Hd in Hsave. discriminate Hsave.
Qed.

End EventSaves.

Section Reconciliation.
Import Event Transition StatusManager.

(** C1 (evaluation at the failing input). An imported event whose scraped
    description changed is written back with status [updated] and a log
    entry (imported, updated), although [validateStatusTransition] rejects
    that pair: [applyStatusChanges] never consults it. *)
Theorem reconcile_overwrites_imported :
  let r := processScrapedEvents 77 Sample.changedBatch Sample.site
             Sample.importedStore in
  valid (validateStatusTransition IMPORTED UPDATED) = false /\
  isOk (fst r) = true /\
  map status (events (snd r)) = [UPDATED] /\
  map (fun c => (eventId c, previousStatus c, newStatus c))
      (changeLog (snd r)) = [(1%nat, IMPORTED, UPDATED)].
Proof. vm_compute. repeat split. Qed.

(** *** Loop invariants *)

Lemma fold_left_invariant {A B} (f : A -> B -> A) (I : A -> Prop)
      (P : B -> Prop) (l : list B) :
  (forall a b, P b -> I a -> I (f a b)) ->
  Forall P l -> forall a, I a -> I (fold_left f l a).
Proof.
  intros Hstep Hall. induction Hall as [|b l Hb _ IH]; intros a Ha; cbn.
  - exact Ha.
  - apply IH, Hstep; assumption.
Qed.

Lemma Forall_True {B} (l : list B) : Forall (fun _ => True) l.
Proof. induction l; constructor; auto. Qed.

Lemma appended_refl coll logs changes p :
  collection p = coll -> statusChangeLogs p = logs ->
  appended coll logs changes (p, changes).
Proof.
  intros <- <-. exists []. cbn. rewrite !app_nil_r. repeat split; constructor.
Qed.

Lemma appended_entry coll0 logs0 changes0 p changes c existing coll' :
  appended coll0 logs0 changes0 (p, changes) ->
  map _id coll' =
    map _id (collection p) ++ (if isCreation c then [eventId c] else []) ->
  (isCreation c = true -> previousStatus c = NEW /\ newStatus c = NEW) ->
  appended coll0 logs0 changes0
    (mkPass existing coll' (statusChangeLogs p ++ [c]), changes ++ [c]).
Proof.
  intros (cs & Hc & Hl & Hids & Hall) Hcoll Hnew. cbn in *.
  exists (cs ++ [c]). cbn. repeat split.
  - rewrite Hc, app_assoc. reflexivity.
  - rewrite Hl, app_assoc. reflexivity.
  - rewrite Hcoll, Hids, List.filter_app, map_app, <- app_assoc. cbn.
    destruct (isCreation c); reflexivity.
  - apply Forall_app. split; [exact Hall | constructor; [exact Hnew | constructor]].
Qed.

Lemma appended_silent coll0 logs0 changes0 p changes existing coll' :
  appended coll0 logs0 changes0 (p, changes) ->
  map _id coll' = map _id (collection p) ->
  appended coll0 logs0 changes0
    (mkPass existing coll' (statusChangeLogs p), changes).
Proof.
  intros (cs & Hc & Hl & Hids & Hall) Hcoll. cbn in *.
  exists cs. cbn. rewrite Hcoll. auto.
Qed.

Lemma saveExisting_ids e coll :
  map _id (snd (saveExisting e coll)) = map _id coll.
Proof.
  destruct (saveExisting_cases e coll) as [(err & x & -> & _) | (-> & _)];
    [reflexivity | apply replace_ids].
Qed.

Lemma applyNewOne_appended now coll0 logs0 changes0 acc data :
  appended coll0 logs0 changes0 acc ->
  appended coll0 logs0 changes0 (applyNewOne now acc data).
Proof.
  destruct acc as [p changes]. intros Happ. unfold applyNewOne.
  destruct (saveNew_cases
              (mkEvent (freshId (collection p)) (applySetters data) NEW
                 None None None) (collection p))
    as [(err & x & -> & _) | (-> & _)].
  - apply appended_silent; [exact Happ | reflexivity].
  - apply appended_entry; [exact Happ | | intros _; split; reflexivity].
    rewrite map_app. reflexivity.
Qed.

Lemma applyUpdatedOne_appended now coll0 logs0 changes0 acc entry :
  appended coll0 logs0 changes0 acc ->
  appended coll0 logs0 changes0 (applyUpdatedOne now acc entry).
Proof.
  destruct acc as [p changes], entry as [i updated]. intros Happ.
  unfold applyUpdatedOne.
  destruct (existingEvents p !! i) as [existing|]; [|exact Happ].
  match goal with
  | |- context [saveExisting ?e ?c] =>
      pose proof (saveExisting_ids e c) as Hids;
      destruct (saveExisting e c) as [[inMemory [[]|err]] coll']
  end; cbn in Hids.
  - apply appended_entry; [exact Happ | | intros H; discriminate H].
    rewrite Hids, app_nil_r. reflexivity.
  - apply appended_silent; assumption.
Qed.

Lemma applyInactiveOne_appended now coll0 logs0 changes0 acc i :
  appended coll0 logs0 changes0 acc ->
  appended coll0 logs0 changes0 (applyInactiveOne now acc i).
Proof.
  destruct acc as [p changes]. intros Happ. unfold applyInactiveOne.
  destruct (existingEvents p !! i) as [existing|]; [|exact Happ].
  match goal with
  | |- context [saveExisting ?e ?c] =>
      pose proof (saveExisting_ids e c) as Hids;
      destruct (saveExisting e c) as [[inMemory [[]|err]] coll']
  end; cbn in Hids.
  - apply appended_entry; [exact Happ | | intros H; discriminate H].
    rewrite Hids, app_nil_r. reflexivity.
  - apply appended_silent; assumption.
Qed.

Lemma applyStatusChanges_appended now det p :
  appended (collection p) (statusChangeLogs p) []
    (applyStatusChanges now det p).
Proof.
  unfold applyStatusChanges, applyInactive, applyUpdated, applyNew.
  apply (fold_left_invariant _ _ (fun _ => True));
    [intros; apply applyInactiveOne_appended; assumption | apply Forall_True |].
  apply (fold_left_invariant _ _ (fun _ => True));
    [intros; apply applyUpdatedOne_appended; assumption | apply Forall_True |].
  apply (fold_left_invariant _ _ (fun _ => True));
    [intros; apply applyNewOne_appended; assumption | apply Forall_True |].
  apply appended_refl; reflexivity.
Qed.

(** The first loop writes no log entry and creates no document. *)
Lemma detectOne_frame now m scrapedEvent p det :
  let r := detectOne now m scrapedEvent p det in
  statusChangeLogs (snd r) = statusChangeLogs p /\
  map _id (collection (snd r)) = map _id (collection p).
Proof.
  unfold detectOne.
  destruct (lookupExisting m (existingEvents p) (originalEventUrl scrapedEvent))
    as [[i existingEvent]|]; [|auto].
  destruct (detectEventChanges existingEvent scrapedEvent); [auto|].
  match goal with
  | |- context [saveExisting ?e ?c] =>
      pose proof (saveExisting_ids e c) as Hids;
      destruct (saveExisting e c) as [[inMemory saved] coll']
  end. cbn in *. auto.
Qed.

Lemma detectNewAndUpdated_frame now m scraped : forall p det,
  let r := detectNewAndUpdated now m scraped p det in
  statusChangeLogs (snd r) = statusChangeLogs p /\
  map _id (collection (snd r)) = map _id (collection p).
Proof.
  induction scraped as [|scrapedEvent rest IH]; intros p det; cbn; [auto|].
  pose proof (detectOne_frame now m scrapedEvent p det) as [Hl Hc].
  destruct (detectOne now m scrapedEvent p det) as [[det'|err] p']; cbn in *.
  - destruct (IH p' det') as [Hl' Hc']. rewrite <- Hl, <- Hc. auto.
  - auto.
Qed.

(** C10. Whatever a pass is given, the entries it appends to the change
    log and the documents it adds to the collection correspond: the new
    document ids are exactly the [eventId]s of the creation entries, and
    every creation entry records the pair (new, new), which is not a pair
    of the transition table and which [validateStatusTransition] rejects. *)
Theorem creation_entries_record_new_new (now : Z) (scrapedEvents : list EventData)
        (website : string) (st : State) :
  let r := processScrapedEvents now scrapedEvents website st in
  (exists cs,
      changeLog (snd r) = changeLog st ++ cs /\
      (forall res, fst r = Ok res -> statusChanges res = cs) /\
      map _id (events (snd r)) =
        map _id (events st) ++ map eventId (List.filter isCreation cs) /\
      Forall (fun c => isCreation c = true ->
                       previousStatus c = NEW /\ newStatus c = NEW) cs) /\
  ~ spec_table NEW NEW /\
  valid (validateStatusTransition NEW NEW) = false.
Proof.
  cbn zeta. split; [|split; [inversion 1 | reflexivity]].
  unfold processScrapedEvents, detect.
  set (existing := findBySource website (events st)).
  pose proof (detectNewAndUpdated_frame now (indexEvents 0 existing ∅)
                scrapedEvents (mkPass existing (events st) (changeLog st))
                noDetection) as [Hl Hc].
  destruct (detectNewAndUpdated now (indexEvents 0 existing ∅) scrapedEvents
              (mkPass existing (events st) (changeLog st)) noDetection)
    as [[det|err] p]; cbn in Hl, Hc.
  - match goal with
    | |- context [applyStatusChanges now ?d p] =>
        pose proof (applyStatusChanges_appended now d p)
          as (cs & Hcs & Hlogs & Hids & Hall);
        destruct (applyStatusChanges now d p) as [p' changes]
    end.
    cbn in *. exists cs. rewrite Hlogs, Hl, Hids, Hc.
    repeat split; [ | exact Hall].
    intros res [= <-]. exact Hcs.
  - exists []. cbn. rewrite Hl, Hc, !app_nil_r.
    repeat split; [discriminate | constructor].
Qed.

(** *** The index built over the existing events *)

Lemma indexEvents_lookup events : forall i0 (m : gmap string nat) k i,
  indexEvents i0 events m !! k = Some i ->
  m !! k = Some i \/
  exists x, events !! (i - i0)%nat = Some x /\ (i0 <= i)%nat /\
            originalEventUrl (doc x) = k.
Proof.
  induction events as [|event rest IH]; intros i0 m k i H; cbn in H; [auto|].
  apply IH in H as [H | (x & Hx & Hle & Hk)].
  - destruct (decide (originalEventUrl (doc event) = k)) as [<-|Hne].
    + rewrite lookup_insert_eq in H. injection H as <-.
      right. exists event. rewrite Nat.sub_diag. auto.
    + rewrite lookup_insert_ne in H by exact Hne. auto.
  - right. exists x. split; [|split; [lia | exact Hk]].
    replace (i - i0)%nat with (S (i - S i0)) by lia. exact Hx.
Qed.

Lemma lookupExisting_Some m existing mem url i x :
  m = indexEvents 0 existing ∅ ->
  lookupExisting m mem url = Some (i, x) ->
  mem !! i = Some x /\
  exists x0, existing !! i = Some x0 /\ originalEventUrl (doc x0) = url.
Proof.
  intros -> H. unfold lookupExisting in H.
  destruct (indexEvents 0 existing ∅ !! url) as [j|] eqn:Hj; [|discriminate].
  cbn in H. destruct (mem !! j) as [y|] eqn:Hy; [|discriminate].
  cbn in H. injection H as <- <-. split; [exact Hy|].
  apply indexEvents_lookup in Hj as [Hj | (x0 & Hx0 & _ & Hk)];
    [rewrite lookup_empty in Hj; discriminate|].
  rewrite Nat.sub_0_r in Hx0. eauto.
Qed.

Lemma detectInactive_In smap mem i :
  In i (detectInactive smap mem) ->
  exists x, mem !! i = Some x /\
            has smap (originalEventUrl (doc x)) = false /\
            status x <> INACTIVE /\ status x <> IMPORTED.
Proof.
  unfold detectInactive. rewrite <- list_elem_of_In, list_elem_of_omap.
  intros ([j x] & Hin & Hf).
  apply elem_of_lookup_imap in Hin as (j' & x' & [= -> ->] & Hx).
  unfold EventStatus_eqb in Hf.
  destruct (has smap (originalEventUrl (doc x'))) eqn:Hh; [discriminate|].
  destruct (bool_decide_reflect (status x' = INACTIVE)); [discriminate|].
  destruct (bool_decide_reflect (status x' = IMPORTED)); [discriminate|].
  cbn in Hf. injection Hf as <-. eauto.
Qed.

End Reconciliation.

Section TerminalProtection.
Import Event Transition StatusManager.

Context (now : Z) (website : string) (protected : IEvent) (coll0 : Collection).
Hypothesis coll0_ids : NoDup (map _id coll0).
Hypothesis protected_stored : In protected coll0.

Let existing0 := findBySource website coll0.

Lemma existing0_stored i x0 :
  existing0 !! i = Some x0 ->
  In x0 coll0 /\ sourceWebsite (doc x0) = Js.trim website.
Proof.
  intros H. apply list_elem_of_lookup_2, list_elem_of_In in H.
  unfold existing0, findBySource in H. apply filter_In in H as [Hin Heq].
  split; [exact Hin | apply String.eqb_eq, Heq].
Qed.

Lemma safeIndex_of_differs i :
  (forall x0, existing0 !! i = Some x0 -> x0 <> protected) ->
  safeIndex protected existing0 i.
Proof.
  intros H x0 Hx0 Heq. apply (H x0 Hx0).
  apply (ids_injective coll0); auto. apply (existing0_stored i), Hx0.
Qed.

Lemma sameIds_lookup mem i x :
  sameIds existing0 mem -> mem !! i = Some x ->
  exists x0, existing0 !! i = Some x0 /\ _id x = _id x0.
Proof.
  intros Hs Hx. destruct (Forall2_lookup_r _ _ _ _ _ Hs Hx) as (x0 & Hx0 & Heq).
  eauto.
Qed.

Lemma sameIds_insert mem i x y :
  sameIds existing0 mem -> mem !! i = Some x -> _id y = _id x ->
  sameIds existing0 (<[i := y]> mem).
Proof.
  intros Hs Hx Heq. destruct (sameIds_lookup _ _ _ Hs Hx) as (x0 & Hx0 & Hid).
  rewrite <- (list_insert_id existing0 i x0 Hx0).
  apply Forall2_insert; [exact Hs | congruence].
Qed.

Lemma saveExisting_inMemory e coll :
  let x := fst (fst (saveExisting e coll)) in
  _id x = _id e /\ status x = status e /\
  originalEventUrl (doc x) = originalEventUrl (doc e) /\
  sourceWebsite (doc x) = sourceWebsite (doc e).
Proof.
  cbn zeta.
  destruct (saveExisting_cases e coll) as [(err & x & -> & [-> | ->]) | (-> & _)];
    cbn; repeat split; rewrite ?preSave_url, ?preSave_source; reflexivity.
Qed.

Lemma saveExisting_keeps e coll :
  _id e <> _id protected -> In protected coll ->
  In protected (snd (saveExisting e coll)).
Proof.
  intros Hne Hin.
  destruct (saveExisting_cases e coll) as [(err & x & -> & _) | (-> & _)]; cbn;
    [exact Hin|].
  apply replace_other; [exact Hin | rewrite preSave_id; congruence].
Qed.

Lemma guarded_entry logs0 changes0 p changes c mem coll' :
  guarded protected existing0 logs0 changes0 (p, changes) ->
  In protected coll' -> sameIds existing0 mem ->
  eventId c <> _id protected ->
  guarded protected existing0 logs0 changes0
    (mkPass mem coll' (statusChangeLogs p ++ [c]), changes ++ [c]).
Proof.
  intros (_ & _ & cs & Hc & Hl & Hall) Hin Hs Hne. cbn in *.
  split; [exact Hin | split; [exact Hs|]].
  exists (cs ++ [c]). rewrite Hc, Hl, <- !app_assoc.
  repeat split. apply Forall_app. split; [exact Hall | repeat constructor; exact Hne].
Qed.

Lemma guarded_silent logs0 changes0 p changes mem coll' :
  guarded protected existing0 logs0 changes0 (p, changes) ->
  In protected coll' -> sameIds existing0 mem ->
  guarded protected existing0 logs0 changes0
    (mkPass mem coll' (statusChangeLogs p), changes).
Proof.
  intros (_ & _ & cs & Hc & Hl & Hall) Hin Hs. cbn in *.
  split; [exact Hin | split; [exact Hs|]]. exists cs. auto.
Qed.

Lemma applyNewOne_guarded logs0 changes0 acc data :
  guarded protected existing0 logs0 changes0 acc ->
  guarded protected existing0 logs0 changes0 (applyNewOne now acc data).
Proof.
  destruct acc as [p changes]. intros Hg.
  pose proof Hg as (Hin & Hs & _). cbn in Hin, Hs. unfold applyNewOne.
  destruct (saveNew_cases
              (mkEvent (freshId (collection p)) (applySetters data) NEW
                 None None None) (collection p))
    as [(err & x & -> & _) | (-> & _)].
  - apply guarded_silent; assumption.
  - apply guarded_entry; [exact Hg | apply in_or_app; auto | exact Hs |].
    cbn. rewrite preSave_id. cbn. pose proof (freshId_above _ _ Hin). lia.
Qed.

Lemma applyUpdatedOne_guarded logs0 changes0 acc entry :
  safeIndex protected existing0 (fst entry) ->
  guarded protected existing0 logs0 changes0 acc ->
  guarded protected existing0 logs0 changes0 (applyUpdatedOne now acc entry).
Proof.
  destruct acc as [p changes], entry as [i updated]. intros Hsafe Hg.
  pose proof Hg as (Hin & Hs & _). cbn in Hin, Hs, Hsafe. unfold applyUpdatedOne.
  destruct (existingEvents p !! i) as [existing|] eqn:Hi; [|exact Hg].
  destruct (sameIds_lookup _ _ _ Hs Hi) as (x0 & Hx0 & Hid).
  specialize (Hsafe x0 Hx0).
  match goal with
  | |- context [saveExisting ?e ?c] =>
      pose proof (saveExisting_inMemory e c) as (Hid' & _);
      pose proof (saveExisting_keeps e c) as Hkeep;
      destruct (saveExisting e c) as [[inMemory [[]|err]] coll']
  end; cbn in Hid', Hkeep.
  - apply guarded_entry;
      [exact Hg | apply Hkeep; [congruence | exact Hin]
      | eapply sameIds_insert; eauto | cbn; congruence].
  - apply guarded_silent;
      [exact Hg | apply Hkeep; [congruence | exact Hin]
      | eapply sameIds_insert; eauto].
Qed.

Lemma applyInactiveOne_guarded logs0 changes0 acc i :
  safeIndex protected existing0 i ->
  guarded protected existing0 logs0 changes0 acc ->
  guarded protected existing0 logs0 changes0 (applyInactiveOne now acc i).
Proof.
  destruct acc as [p changes]. intros Hsafe Hg.
  pose proof Hg as (Hin & Hs & _). cbn in Hin, Hs. unfold applyInactiveOne.
  destruct (existingEvents p !! i) as [existing|] eqn:Hi; [|exact Hg].
  destruct (sameIds_lookup _ _ _ Hs Hi) as (x0 & Hx0 & Hid).
  specialize (Hsafe x0 Hx0).
  match goal with
  | |- context [saveExisting ?e ?c] =>
      pose proof (saveExisting_inMemory e c) as (Hid' & _);
      pose proof (saveExisting_keeps e c) as Hkeep;
      destruct (saveExisting e c) as [[inMemory [[]|err]] coll']
  end; cbn in Hid', Hkeep.
  - apply guarded_entry;
      [exact Hg | apply Hkeep; [congruence | exact Hin]
      | eapply sameIds_insert; eauto | cbn; congruence].
  - apply guarded_silent;
      [exact Hg | apply Hkeep; [congruence | exact Hin]
      | eapply sameIds_insert; eauto].
Qed.

Lemma applyStatusChanges_guarded det p :
  In protected (collection p) ->
  sameIds existing0 (existingEvents p) ->
  Forall (fun entry => safeIndex protected existing0 (fst entry)) (det_updated det) ->
  Forall (safeIndex protected existing0) (det_inactive det) ->
  guarded protected existing0 (statusChangeLogs p) []
    (applyStatusChanges now det p).
Proof.
  intros Hin Hs Hup Hina.
  unfold applyStatusChanges, applyInactive, applyUpdated, applyNew.
  apply (fold_left_invariant _ _ _ _
           (fun a b Hb => applyInactiveOne_guarded _ _ a b Hb) Hina).
  apply (fold_left_invariant _ _ _ _
           (fun a b Hb => applyUpdatedOne_guarded _ _ a b Hb) Hup).
  apply (fold_left_invariant _ _ (fun _ => True));
    [intros; apply applyNewOne_guarded; assumption | apply Forall_True |].
  split; [exact Hin | split; [exact Hs|]].
  exists []. cbn. rewrite app_nil_r. repeat split. constructor.
Qed.

Lemma sameIdsAndStatus_sameIds mem :
  sameIdsAndStatus existing0 mem -> sameIds existing0 mem.
Proof.
  intros H. eapply Forall2_impl; [exact H|]. intros x0 x [Hid _]. exact Hid.
Qed.

Lemma sameIdsAndStatus_insert mem i x y :
  sameIdsAndStatus existing0 mem -> mem !! i = Some x ->
  _id y = _id x -> status y = status x ->
  sameIdsAndStatus existing0 (<[i := y]> mem).
Proof.
  intros Hs Hx Hid Hst.
  destruct (Forall2_lookup_r _ _ _ _ _ Hs Hx) as (x0 & Hx0 & Hid0 & Hst0).
  rewrite <- (list_insert_id existing0 i x0 Hx0).
  apply Forall2_insert; [exact Hs | split; congruence].
Qed.

(** The first loop leaves [protected] alone when no scraped event has its
    url, and registers only positions of other documents as updated. *)
Lemma detectNewAndUpdated_guard scraped : forall p det,
  ~ In (originalEventUrl (doc protected)) (map originalEventUrl scraped) ->
  In protected (collection p) ->
  sameIdsAndStatus existing0 (existingEvents p) ->
  Forall (fun entry => safeIndex protected existing0 (fst entry)) (det_updated det) ->
  let r := detectNewAndUpdated now (indexEvents 0 existing0 ∅) scraped p det in
  In protected (collection (snd r)) /\
  sameIdsAndStatus existing0 (existingEvents (snd r)) /\
  forall det', fst r = Ok det' ->
    Forall (fun entry => safeIndex protected existing0 (fst entry))
      (det_updated det').
Proof.
  induction scraped as [|scrapedEvent rest IH]; intros p det Hurl Hin Hs Hup.
  - cbn. repeat split; try assumption. intros det' [= <-]. exact Hup.
  - cbn [detectNewAndUpdated]. cbn in Hurl.
    assert (Hne : originalEventUrl scrapedEvent <> originalEventUrl (doc protected))
      by (intros Heq; apply Hurl; left; exact Heq).
    assert (Hrest : ~ In (originalEventUrl (doc protected))
                      (map originalEventUrl rest))
      by (intros H; apply Hurl; right; exact H).
    unfold detectOne.
    destruct (lookupExisting (indexEvents 0 existing0 ∅) (existingEvents p)
                (originalEventUrl scrapedEvent)) as [[i x]|] eqn:Hlook.
    + destruct (lookupExisting_Some _ _ _ _ _ _ eq_refl Hlook)
        as (Hx & x0 & Hx0 & Hk).
      assert (Hsafe : safeIndex protected existing0 i).
      { apply safeIndex_of_differs. intros x0' Hx0' ->.
        rewrite Hx0 in Hx0'. injection Hx0' as ->. apply Hne. symmetry. exact Hk. }
      destruct (detectEventChanges x scrapedEvent).
      * apply IH; try assumption. cbn.
        apply Forall_app. split; [exact Hup | repeat constructor; exact Hsafe].
      * match goal with
        | |- context [saveExisting ?e ?c] =>
            pose proof (saveExisting_inMemory e c) as (Hid' & Hst' & _);
            pose proof (saveExisting_keeps e c) as Hkeep;
            destruct (saveExisting e c) as [[inMemory saved] coll']
        end; cbn in Hid', Hst', Hkeep.
        destruct (Forall2_lookup_r _ _ _ _ _ Hs Hx) as (x0' & Hx0' & Hid0 & _).
        assert (Hin' : In protected coll').
        { apply Hkeep; [|exact Hin]. rewrite Hid0. apply Hsafe, Hx0'. }
        assert (Hs' : sameIdsAndStatus existing0 (<[i := inMemory]> (existingEvents p)))
          by (eapply sameIdsAndStatus_insert; eauto).
        destruct saved as [[]|err].
        -- apply IH; assumption.
        -- cbn. repeat split; try assumption. discriminate.
    + apply IH; assumption.
Qed.

(** C3. A stored record whose status is imported (or already inactive) and
    whose url is missing from the scraped batch is left exactly as it is by
    a reconciliation pass: it is still in the collection unchanged, it is not
    among the events classified inactive, and no status-change entry about
    it is written. *)
Theorem absent_terminal_record_untouched (scrapedEvents : list EventData)
        (logs0 : list StatusChangeLog) :
  (status protected = IMPORTED \/ status protected = INACTIVE) ->
  ~ In (originalEventUrl (doc protected)) (map originalEventUrl scrapedEvents) ->
  let r := processScrapedEvents now scrapedEvents website
             (mkState coll0 logs0) in
  In protected (events (snd r)) /\
  (exists cs, changeLog (snd r) = logs0 ++ cs /\
              Forall (fun c => eventId c <> _id protected) cs) /\
  (forall res, fst r = Ok res ->
     (forall x, In x (inactiveEvents res) -> _id x <> _id protected) /\
     (forall c, In c (statusChanges res) -> eventId c <> _id protected)).
Proof.
  intros Hstatus Habsent. cbn zeta.
  unfold processScrapedEvents, detect. cbn [events changeLog].
  fold existing0.
  assert (Hs0 : sameIdsAndStatus existing0 existing0).
  { apply Forall2_same_length_lookup. split; [reflexivity|].
    intros i x y Hx Hy. rewrite Hx in Hy. injection Hy as ->. auto. }
  pose proof (detectNewAndUpdated_guard scrapedEvents
                (mkPass existing0 coll0 logs0) noDetection Habsent
                protected_stored Hs0 ltac:(constructor)) as (Hin & Hs & Hup).
  pose proof (detectNewAndUpdated_frame now (indexEvents 0 existing0 ∅)
                scrapedEvents (mkPass existing0 coll0 logs0) noDetection)
    as [Hl _].
  destruct (detectNewAndUpdated now (indexEvents 0 existing0 ∅) scrapedEvents
              (mkPass existing0 coll0 logs0) noDetection) as [[det|err] p];
    cbn in Hin, Hs, Hup, Hl |- *.
  - specialize (Hup det eq_refl).
    set (det' := mkDetection (det_new det) (det_updated det)
                   (detectInactive (indexScraped scrapedEvents)
                      (existingEvents p))).
    assert (Hina : Forall (safeIndex protected existing0) (det_inactive det')).
    { apply Forall_forall. intros i Hi. apply list_elem_of_In in Hi. cbn in Hi.
      apply detectInactive_In in Hi as (x & Hx & _ & Hn1 & Hn2).
      destruct (Forall2_lookup_r _ _ _ _ _ Hs Hx) as (x0 & Hx0 & _ & Hst).
      apply safeIndex_of_differs. intros x0' Hx0' ->.
      rewrite Hx0 in Hx0'. injection Hx0' as ->.
      destruct Hstatus; congruence. }
    pose proof (applyStatusChanges_guarded det' p Hin
                  (sameIdsAndStatus_sameIds _ Hs) Hup Hina)
      as (Hin' & Hs' & cs & Hcs & Hlogs & Hall).
    destruct (applyStatusChanges now det' p) as [p' changes].
    cbn in *. subst changes.
    split; [exact Hin' | split].
    + exists cs. rewrite Hlogs, Hl. auto.
    + intros res [= <-]. cbn. split.
      * intros x Hx. apply list_elem_of_In, list_elem_of_omap in Hx
          as (i & Hi & Hlook).
        destruct (sameIds_lookup _ _ _ Hs' Hlook) as (x0 & Hx0 & ->).
        rewrite Forall_forall in Hina. apply (Hina i Hi x0 Hx0).
      * intros c Hc. apply list_elem_of_In in Hc.
        rewrite Forall_forall in Hall. apply Hall, Hc.
  - split; [exact Hin | split].
    + exists []. rewrite app_nil_r. split; [exact Hl | constructor].
    + discriminate.
Qed.

End TerminalProtection.

Section TerminalProtectionWitness.
Import Event StatusManager.

Lemma absent_terminal_record_untouched_witness :
  let kept :=
    mkEvent 1 (Sample.scraped "Jazz night" Sample.urlA "An evening of jazz"
                 ["music"]) IMPORTED (Some 40) (Some 9%nat) (Some "approved") in
  In kept
     (events (snd (processScrapedEvents 77
                     [Sample.scraped "Film club" Sample.urlB "Weekly film" []]
                     Sample.site Sample.importedStore))).
Proof.
  cbn zeta.
  refine (proj1 (absent_terminal_record_untouched 77 Sample.site _
                   (events Sample.importedStore) _ _
                   [Sample.scraped "Film club" Sample.urlB "Weekly film" []]
                   [] _ _)).
  - repeat constructor. intros H. apply list_elem_of_In in H. destruct H.
  - left. reflexivity.
  - left. reflexivity.
  - cbn. intros [H | []]. discriminate H.
Defined.

End TerminalProtectionWitness.


Section SchedulerCycle.
Import Engine ScheduledScraper.

(** C7 (evaluation at the failing input). Two sources, the first refusing
    every connection, the second listing three events: [scrapeSource]
    swallows the fetch error into its result, so the cycle counts both
    sources as successful. *)
Theorem failing_fetch_counted_successful :
  let result := fst (fst (executeScrapingCycle Sample.twoSources Sample.freshWorld)) in
  alwaysFails Sample.web Sample.broken /\
  successfulSources result = 2 /\
  failedSources result = 0 /\
  totalEvents result = 3 /\
  totalErrors result = 1 /\
  map success (sourceResults result) = [true; true].
Proof.
  split; [intros t; exact I|]. vm_compute. repeat split.
Qed.

(** C5, as stated, fails: a trigger that arrives while a cycle is in
    progress does not get that cycle's result. *)
Lemma overlapping_trigger_gets_stale_result :
  ~ (forall s w wmid,
       isRunning s = false ->
       fst (fst (executeScrapingCycle (enterCycle s) wmid)) =
       fst (fst (executeScrapingCycle s w))).
Proof.
  intros H.
  specialize (H Sample.twoSources Sample.freshWorld Sample.freshWorld eq_refl).
  vm_compute in H. discriminate H.
Qed.

End SchedulerCycle.

Section SourceIsolation.
Import Engine.

Lemma scrapeSource_spec source w :
  let response := w_web w source (w_now w) in
  scrapeSource source w =
    (Ok (mkScraping (fst (outcomeOf source (w_now w) response))
           (snd (outcomeOf source (w_now w) response))
           (url source) (w_now w) None),
     advance (elapsed response) w).
Proof.
  cbn zeta. unfold scrapeSource, bind, dateNow, tryCatch, fetch, ret, outcomeOf.
  destruct (page (w_web w source (w_now w))) as [e|e|elements]; cbn;
    try reflexivity.
  destruct (extractEvents _ source 0 elements) as [evs errs]. reflexivity.
Qed.

Lemma scrapeSource_own source w :
  exists result,
    scrapeSource source w =
      (Ok result, advance (elapsed (w_web w source (w_now w))) w) /\
    ownOutcome (w_web w) source result /\ changeDetection result = None.
Proof.
  eexists. split; [apply scrapeSource_spec|]. split; [|reflexivity].
  split; [reflexivity|]. cbn.
  destruct (outcomeOf source (w_now w) (w_web w source (w_now w))). reflexivity.
Qed.

(** [scrapeSourceWithStatusManagement] never throws; reconciliation changes
    neither the events and errors of the result, nor the web, nor the
    breakers. *)
Lemma scrapeSourceWithStatusManagement_own source w :
  exists result w',
    scrapeSourceWithStatusManagement source w = (Ok result, w') /\
    ownOutcome (w_web w) source result /\
    w_web w' = w_web w /\ w_breakers w' = w_breakers w.
Proof.
  unfold scrapeSourceWithStatusManagement, bind.
  destruct (scrapeSource_own source w) as (basic & -> & Hown & _).
  destruct (events basic) as [|event rest] eqn:Hev.
  - unfold ret. eauto 6.
  - unfold tryCatch, bind, processScrapedEvents, ret.
    destruct (StatusManager.processScrapedEvents _ _ _ _) as [[detection|err] st];
      cbn; eexists; eexists; (split; [reflexivity|]); cbn;
      (split; [|split; reflexivity]); [|exact Hown].
    destruct Hown as [Hurl Hout]. rewrite Hev in Hout.
    split; [exact Hurl | exact Hout].
Qed.

Lemma withRetryFrom_ok {A} (operation : M A) attempt remaining delays w a w' :
  operation w = (Ok a, w') ->
  withRetryFrom operation attempt remaining delays w = (Ok a, w').
Proof.
  intros H. destruct remaining; cbn; unfold tryCatch; rewrite H; reflexivity.
Qed.

Lemma scrapeSourceWithStatusManagement_later source w :
  w_now w <= w_now (snd (scrapeSourceWithStatusManagement source w)).
Proof.
  unfold scrapeSourceWithStatusManagement, bind.
  rewrite scrapeSource_spec. cbn zeta.
  set (basic := mkScraping _ _ _ _ _).
  destruct (events basic) as [|event rest].
  - unfold ret. cbn. lia.
  - unfold tryCatch, bind, processScrapedEvents, ret.
    destruct (StatusManager.processScrapedEvents _ _ _ _) as [[detection|err] st];
      cbn; lia.
Qed.

Lemma onSuccess_not_open cb :
  CircuitBreaker.state cb <> CircuitBreaker.OPEN ->
  CircuitBreaker.state (CircuitBreaker.onSuccess cb) <> CircuitBreaker.OPEN.
Proof.
  intros Hs. unfold CircuitBreaker.onSuccess.
  destruct (CircuitBreaker.state cb) eqn:Hst; cbn; try discriminate;
    [contradiction|].
  destruct (_ <=? _); cbn; discriminate.
Qed.

(** One call of [scrapeSourceResilient]. Either the source's breaker is
    open and refuses: the circuit-open error is thrown at once and nothing
    changes. Or the scrape runs and returns the source's own outcome,
    leaving the breaker not open. Breakers under other names are not
    touched. *)
Lemma scrapeSourceResilient_cases source w :
  exists w',
    w_web w' = w_web w /\ w_now w <= w_now w' /\
    (forall k, k <> "scraper-" +:+ name source ->
               w_breakers w' !! k = w_breakers w !! k) /\
    ((exists cb,
         w_breakers w !! ("scraper-" +:+ name source) = Some cb /\
         refusesAt (w_now w) cb = true /\
         scrapeSourceResilient source w =
           (Throw (CircuitBreaker.circuitOpenError cb), w') /\
         w_breakers w' !! ("scraper-" +:+ name source) = Some cb /\
         w_now w' = w_now w) \/
     (exists result cb',
         scrapeSourceResilient source w = (Ok result, w') /\
         ownOutcome (w_web w) source result /\
         w_breakers w' !! ("scraper-" +:+ name source) = Some cb' /\
         CircuitBreaker.state cb' <> CircuitBreaker.OPEN)).
Proof.
  unfold scrapeSourceResilient, bind, getCircuitBreaker. cbn zeta.
  set (nm := "scraper-" +:+ name source).
  assert (Hruns : forall cb w1,
            w_web w1 = w_web w -> w_now w1 = w_now w ->
            (forall k, k <> nm -> w_breakers w1 !! k = w_breakers w !! k) ->
            CircuitBreaker.state cb <> CircuitBreaker.OPEN ->
            exists w' result cb',
              (let '(r, cb1, w2) :=
                 match withRetry (scrapeSourceWithStatusManagement source) 2
                         [2000; 5000] w1 with
                 | (Ok result, w2) => (Ok result, CircuitBreaker.onSuccess cb, w2)
                 | (Throw error, w2) =>
                     (Throw error, CircuitBreaker.onFailure (w_now w2) cb, w2)
                 end in
               (r, putCircuitBreaker nm cb1 w2)) = (Ok result, w') /\
              w_web w' = w_web w /\ w_now w <= w_now w' /\
              (forall k, k <> nm -> w_breakers w' !! k = w_breakers w !! k) /\
              ownOutcome (w_web w) source result /\
              w_breakers w' !! nm = Some cb' /\
              CircuitBreaker.state cb' <> CircuitBreaker.OPEN).
  { intros cb w1 Hweb Hnow Hothers Hcb.
    pose proof (scrapeSourceWithStatusManagement_later source w1) as Hlater.
    destruct (scrapeSourceWithStatusManagement_own source w1)
      as (result & w2 & Hrun & Hown & Hweb2 & Hbr2).
    rewrite Hrun in Hlater. cbn in Hlater.
    pose proof (withRetryFrom_ok _ 0 2 [2000; 5000] _ _ _ Hrun) as Hretry.
    fold (withRetry (scrapeSourceWithStatusManagement source) 2 [2000; 5000])
      in Hretry.
    rewrite Hretry. rewrite Hweb in Hown.
    exists (putCircuitBreaker nm (CircuitBreaker.onSuccess cb) w2), result,
      (CircuitBreaker.onSuccess cb).
    split; [reflexivity|]. cbn.
    split; [congruence|]. split; [lia|]. split.
    - intros k Hk. rewrite lookup_insert_ne by congruence.
      rewrite Hbr2. apply Hothers, Hk.
    - split; [exact Hown|]. split; [apply lookup_insert_eq|].
      apply onSuccess_not_open, Hcb. }
  destruct (w_breakers w !! nm) as [cb|] eqn:Hlook.
  - unfold CircuitBreaker.execute.
    destruct (CircuitBreaker.state cb) eqn:Hst.
    + destruct (Hruns cb w eq_refl eq_refl ltac:(auto) ltac:(congruence))
        as (w' & result & cb' & Hrun & Hweb & Hnow & Hothers & Hrest).
      exists w'. split; [exact Hweb|]. split; [exact Hnow|].
      split; [exact Hothers|]. right. exists result, cb'. split; [exact Hrun | exact Hrest].
    + destruct (CircuitBreaker.shouldAttemptReset (w_now w) cb) eqn:Hdue.
      * destruct (Hruns (CircuitBreaker.set_state CircuitBreaker.HALF_OPEN cb) w
                    eq_refl eq_refl ltac:(auto) ltac:(cbn; discriminate))
          as (w' & result & cb' & Hrun & Hweb & Hnow & Hothers & Hrest).
        exists w'. split; [exact Hweb|]. split; [exact Hnow|].
        split; [exact Hothers|]. right. exists result, cb'.
        split; [exact Hrun | exact Hrest].
      * exists (putCircuitBreaker nm cb w). cbn.
        split; [reflexivity|]. split; [lia|]. split.
        { intros k Hk. apply lookup_insert_ne. congruence. }
        left. exists cb. split; [reflexivity|]. split.
        { unfold refusesAt. rewrite Hdue. case_bool_decide; [reflexivity | contradiction]. }
        split; [reflexivity|]. split; [apply lookup_insert_eq | reflexivity].
    + destruct (Hruns cb w eq_refl eq_refl ltac:(auto) ltac:(congruence))
        as (w' & result & cb' & Hrun & Hweb & Hnow & Hothers & Hrest).
      exists w'. split; [exact Hweb|]. split; [exact Hnow|].
      split; [exact Hothers|]. right. exists result, cb'. split; [exact Hrun | exact Hrest].
  - unfold CircuitBreaker.execute. cbn [CircuitBreaker.state CircuitBreaker.create].
    match goal with
    | |- context [withRetry _ 2 [2000; 5000] ?w1] =>
        destruct (Hruns (CircuitBreaker.create nm CircuitBreaker.scraperConfig) w1
                    eq_refl eq_refl
                    ltac:(intros k Hk; cbn; apply lookup_insert_ne; congruence)
                    ltac:(cbn; discriminate))
          as (w' & result & cb' & Hrun & Hweb & Hnow & Hothers & Hrest)
    end.
    exists w'. split; [exact Hweb|]. split; [exact Hnow|].
    split; [exact Hothers|]. right. exists result, cb'. split; [exact Hrun | exact Hrest].
Qed.

Lemma scrapeAll_own sources : forall w,
  exists results w',
    scrapeAll sources w = (Ok results, w') /\ w_web w' = w_web w /\
    Forall2 (ownOutcome (w_web w)) sources results.
Proof.
  induction sources as [|source rest IH]; intros w; cbn.
  - unfold ret. eauto using Forall2_nil.
  - unfold bind, tryCatch.
    destruct (scrapeSource_own source w) as (result & -> & Hown & _).
    destruct (IH (advance (elapsed (w_web w source (w_now w))) w))
      as (results & w' & -> & Hweb & Hall).
    unfold ret. exists (result :: results), w'. cbn in Hweb, Hall.
    repeat split; [exact Hweb | constructor; assumption].
Qed.

Lemma refusesAt_earlier t0 t cb :
  t0 <= t -> refusesAt t cb = true -> refusesAt t0 cb = true.
Proof.
  unfold refusesAt, CircuitBreaker.shouldAttemptReset. intros Hle.
  case_bool_decide; [|discriminate]. cbn.
  destruct (Z.leb_spec (CircuitBreaker.recoveryTimeout (CircuitBreaker.config cb))
              (t - CircuitBreaker.lastFailureTime cb)); [discriminate|].
  destruct (Z.leb_spec (CircuitBreaker.recoveryTimeout (CircuitBreaker.config cb))
              (t0 - CircuitBreaker.lastFailureTime cb)); [lia | reflexivity].
Qed.

(** The loop of [scrapeAllResilient], started at [start] with the
    registry [breakers0]: when it reaches a source, every breaker is as
    it was at the start or is not open. *)
Lemma scrapeAllResilient_isolated web breakers0 start sources : forall w,
  w_web w = web -> start <= w_now w ->
  (forall k, w_breakers w !! k = breakers0 !! k \/
             exists cb, w_breakers w !! k = Some cb /\
                        CircuitBreaker.state cb <> CircuitBreaker.OPEN) ->
  exists results w',
    scrapeAllResilient sources w = (Ok results, w') /\
    Forall2 (ownOutcomeOrRefused web breakers0 start) sources results.
Proof.
  induction sources as [|source rest IH]; intros w Hweb Hstart Hsettled; cbn.
  - unfold ret. eauto using Forall2_nil.
  - unfold bind, tryCatch.
    destruct (scrapeSourceResilient_cases source w)
      as (w1 & Hweb1 & Hnow1 & Hothers
          & [(cb & Hlook & Hrefuses & -> & Hkept & Hsame)
            | (result & cb' & -> & Hown & Hlook' & Hnot)]).
    + unfold dateNow, ret. cbn.
      destruct (IH w1) as (results & w' & -> & Hall).
      * congruence.
      * lia.
      * intros k. destruct (decide (k = "scraper-" +:+ name source)) as [-> | Hk].
        -- destruct (Hsettled ("scraper-" +:+ name source)) as [Heq | (cb2 & H2 & Hn)].
           ++ left. congruence.
           ++ right. exists cb2. split; [congruence | exact Hn].
        -- rewrite (Hothers k Hk). apply Hsettled.
      * eexists; eexists. split; [reflexivity|]. constructor; [|exact Hall].
        right. exists cb, (w_now w1).
        destruct (Hsettled ("scraper-" +:+ name source)) as [Heq | (cb2 & H2 & Hn)].
        -- rewrite Hsame. split; [congruence|].
           split; [apply (refusesAt_earlier start (w_now w)); assumption|].
           split; [exact Hstart|]. split; [exact Hrefuses | reflexivity].
        -- exfalso. rewrite Hlook in H2. injection H2 as <-.
           unfold refusesAt in Hrefuses.
           case_bool_decide; [contradiction | discriminate].
    + destruct (IH w1) as (results & w' & -> & Hall).
      * congruence.
      * lia.
      * intros k. destruct (decide (k = "scraper-" +:+ name source)) as [-> | Hk].
        -- right. exists cb'. split; assumption.
        -- rewrite (Hothers k Hk). apply Hsettled.
      * unfold ret. exists (result :: results), w'. split; [reflexivity|].
        constructor; [|exact Hall]. left. rewrite <- Hweb. exact Hown.
Qed.

(** C9. [scrapeAll] and [scrapeAllResilient] return normally with one
    result per configured source, in configuration order. Each result of
    [scrapeAll] is the outcome of its own source alone. Each result of
    [scrapeAllResilient] is the outcome of its own source alone, or the
    failed result made for a source whose own breaker was registered open
    when the run started and still refuses calls: so a source whose breaker
    is not registered, or is not refusing calls at the start, gets its own
    outcome whatever the other sources and their breakers do. A source
    whose fetch or extraction fails gives a result with no events and at
    least one error. *)
Theorem scrape_all_isolates_sources (sources : list ScrapingSourceConfig)
        (w : World) :
  (exists results w',
      scrapeAll sources w = (Ok results, w') /\
      Forall2 (ownOutcome (w_web w)) sources results) /\
  (exists results w',
      scrapeAllResilient sources w = (Ok results, w') /\
      Forall2 (ownOutcomeOrRefused (w_web w) (w_breakers w) (w_now w))
        sources results) /\
  (forall source result,
      ownOutcomeOrRefused (w_web w) (w_breakers w) (w_now w) source result ->
      (forall cb, w_breakers w !! ("scraper-" +:+ name source) = Some cb ->
                  refusesAt (w_now w) cb = false) ->
      ownOutcome (w_web w) source result) /\
  (forall source result,
      ownOutcomeOrRefused (w_web w) (w_breakers w) (w_now w) source result ->
      failsAt (w_web w) source (scrapedAt result) ->
      events result = [] /\ (1 <= length (scrapingErrors result))%nat) /\
  (forall source result,
      ownOutcome (w_web w) source result ->
      ownOutcomeOrRefused (w_web w) (w_breakers w) (w_now w) source result).
Proof.
  split; [|split; [|split; [|split]]].
  - destruct (scrapeAll_own sources w) as (results & w' & H & _ & Hall). eauto.
  - apply scrapeAllResilient_isolated; [reflexivity | lia | auto].
  - intros source result [Hown | (cb & t & Hlook & Hrefuses & _)] Hfree;
      [exact Hown|].
    rewrite (Hfree cb Hlook) in Hrefuses. discriminate.
  - intros source result [[_ Hout] | (cb & t & _ & _ & _ & _ & ->)] Hfail.
    + unfold failsAt in Hfail. unfold outcomeOf in Hout.
      destruct (page (w_web w source (scrapedAt result))); try contradiction;
        injection Hout as -> ->; split; [reflexivity | cbn; lia | reflexivity | cbn; lia].
    + split; [reflexivity | cbn; lia].
  - intros source result Hown. left. exact Hown.
Qed.

Lemma scrape_all_isolates_sources_witness :
  exists results w',
    scrapeAllResilient [Sample.broken; Sample.healthy] Sample.brokenOpenWorld
      = (Ok results, w') /\
    Forall2 (ownOutcomeOrRefused Sample.web (w_breakers Sample.brokenOpenWorld)
               1000)
      [Sample.broken; Sample.healthy] results /\
    map (fun result => length (events result)) results = [0; 3]%nat.
Proof.
  destruct (proj1 (proj2 (scrape_all_isolates_sources
                            [Sample.broken; Sample.healthy]
                            Sample.brokenOpenWorld)))
    as (results & w' & Hrun & Hall).
  exists results, w'. split; [exact Hrun|]. split; [exact Hall|].
  assert (Hcount :
            map (fun result => length (events result))
              (match fst (scrapeAllResilient [Sample.broken; Sample.healthy]
                            Sample.brokenOpenWorld) with
               | Ok rs => rs
               | Throw _ => []
               end) = [0; 3]%nat) by (vm_compute; reflexivity).
  rewrite Hrun in Hcount. exact Hcount.
Defined.

End SourceIsolation.

Section ReconciliationFacts.
Import Event Transition StatusManager.

(** *** Reading the collection *)

Lemma findBySource_In website coll e :
  In e (findBySource website coll) <->
  In e coll /\ sourceWebsite (doc e) = Js.trim website.
Proof.
  unfold findBySource. rewrite filter_In, String.eqb_eq. reflexivity.
Qed.

Lemma findBySource_lookup website coll i e :
  findBySource website coll !! i = Some e ->
  In e coll /\ sourceWebsite (doc e) = Js.trim website.
Proof.
  intros H. apply findBySource_In, list_elem_of_In.
  apply list_elem_of_lookup_2 in H. exact H.
Qed.

(** The same for a source name that is already trimmed. *)
Lemma findBySource_In_t website (trimmed : Js.trim website = website) coll e :
  In e (findBySource website coll) <->
  In e coll /\ sourceWebsite (doc e) = website.
Proof. rewrite findBySource_In, trimmed. reflexivity. Qed.

Lemma findBySource_lookup_t website (trimmed : Js.trim website = website)
      coll i e :
  findBySource website coll !! i = Some e ->
  In e coll /\ sourceWebsite (doc e) = website.
Proof. intros H. apply findBySource_lookup in H. rewrite trimmed in H. exact H. Qed.

(** The query does not tell a source name from its trimmed form, and so
    neither does a reconciliation pass. *)
Lemma findBySource_trim website coll :
  findBySource (Js.trim website) coll = findBySource website coll.
Proof. unfold findBySource. rewrite trim_idem. reflexivity. Qed.

Lemma processScrapedEvents_trim now scrapedEvents website st :
  processScrapedEvents now scrapedEvents (Js.trim website) st =
  processScrapedEvents now scrapedEvents website st.
Proof.
  unfold processScrapedEvents, detect. rewrite findBySource_trim. reflexivity.
Qed.

Lemma filter_map_NoDup {A B} `{EqDecision B} (f : A -> B) (p : A -> bool)
      (l : list A) :
  NoDup (map f l) -> NoDup (map f (List.filter p l)).
Proof.
  induction l as [|x l IH]; intros H; [constructor|].
  cbn in H. apply NoDup_cons in H as [Hx H]. cbn.
  destruct (p x); [|apply IH, H].
  cbn. apply NoDup_cons. split; [|apply IH, H].
  intros Hin. apply Hx. apply list_elem_of_In in Hin.
  apply in_map_iff in Hin as (y & Hy & Hin). apply filter_In in Hin as [Hin _].
  apply list_elem_of_In. rewrite <- Hy. apply in_map, Hin.
Qed.

Lemma findBySource_ids website coll :
  NoDup (map _id coll) -> NoDup (map _id (findBySource website coll)).
Proof. apply filter_map_NoDup. Qed.

Lemma same_source_urls website (l : list IEvent) :
  Forall (fun e => sourceWebsite (doc e) = website) l ->
  NoDup (map key l) ->
  NoDup (map (fun e => originalEventUrl (doc e)) l).
Proof.
  induction 1 as [|e l He Hall IH]; intros H; [constructor|].
  cbn in *. apply NoDup_cons in H as [Hx H]. apply NoDup_cons.
  split; [|apply IH, H].
  intros Hin. apply Hx. apply list_elem_of_In in Hin.
  apply in_map_iff in Hin as (y & Hy & Hin).
  apply list_elem_of_In, in_map_iff. exists y. split; [|exact Hin].
  rewrite Forall_forall in Hall.
  unfold key. rewrite Hy, He, (Hall y); [reflexivity|].
  apply list_elem_of_In, Hin.
Qed.

Lemma findBySource_urls website coll :
  NoDup (map key coll) ->
  NoDup (map (fun e => originalEventUrl (doc e)) (findBySource website coll)).
Proof.
  intros H. apply (same_source_urls (Js.trim website)).
  - apply Forall_forall. intros e He.
    apply list_elem_of_In, findBySource_In in He. apply He.
  - apply filter_map_NoDup, H.
Qed.

(** *** The two url indexes *)

Lemma indexEvents_notin events : forall i0 (m : gmap string nat) k,
  (forall x, In x events -> originalEventUrl (doc x) <> k) ->
  indexEvents i0 events m !! k = m !! k.
Proof.
  induction events as [|event rest IH]; intros i0 m k H; cbn; [reflexivity|].
  rewrite IH by (intros x Hx; apply H; right; exact Hx).
  apply lookup_insert_ne, H. left. reflexivity.
Qed.

Lemma indexEvents_in events : forall i0 (m : gmap string nat) j x,
  NoDup (map (fun e => originalEventUrl (doc e)) events) ->
  events !! j = Some x ->
  indexEvents i0 events m !! originalEventUrl (doc x) = Some (i0 + j)%nat.
Proof.
  induction events as [|event rest IH]; intros i0 m j x Hnd Hj; [discriminate|].
  cbn in Hnd. apply NoDup_cons in Hnd as [Hfirst Hnd]. cbn.
  destruct j as [|j]; cbn in Hj.
  - injection Hj as ->. rewrite indexEvents_notin.
    + rewrite lookup_insert_eq, Nat.add_0_r. reflexivity.
    + intros y Hy Heq. apply Hfirst, list_elem_of_In, in_map_iff. eauto.
  - rewrite (IH (S i0) _ j x Hnd Hj). f_equal. lia.
Qed.

Lemma indexScraped_has_from (scraped : list EventData) :
  forall (m : gmap string EventData) k,
    is_Some (fold_left (fun m event => <[originalEventUrl event := event]> m)
               scraped m !! k) <->
    is_Some (m !! k) \/ In k (map originalEventUrl scraped).
Proof.
  induction scraped as [|event rest IH]; intros m k; cbn; [tauto|].
  rewrite IH. destruct (decide (originalEventUrl event = k)) as [->|Hne].
  - rewrite lookup_insert_eq. split; [auto | intros _; left; eauto].
  - rewrite lookup_insert_ne by exact Hne. tauto.
Qed.

Lemma indexScraped_has scraped k :
  has (indexScraped scraped) k = true <-> In k (map originalEventUrl scraped).
Proof.
  unfold has, indexScraped. rewrite bool_decide_eq_true, indexScraped_has_from.
  rewrite lookup_empty. split; [intros [[? H]|H]; [discriminate H | exact H] | auto].
Qed.

(** *** Change detection *)

Lemma tagsDiffer_false a b : tagsDiffer a b = false -> a = b.
Proof.
  unfold tagsDiffer. intros H. apply orb_false_iff in H as [Hlen Hall].
  apply negb_false_iff, Nat.eqb_eq in Hlen. apply negb_false_iff in Hall.
  rewrite forallb_forall in Hall.
  apply list_eq_same_length with (n := length a); [congruence | reflexivity |].
  intros i x y _ Hx Hy.
  specialize (Hall (i, x)). cbn in Hall.
  rewrite bool_decide_eq_true in Hall.
  assert (Hin : In (i, x) (imap pair a)).
  { apply list_elem_of_In, elem_of_lookup_imap. eauto. }
  specialize (Hall Hin). congruence.
Qed.

Lemma tagsDiffer_refl a : tagsDiffer a a = false.
Proof.
  unfold tagsDiffer. rewrite Nat.eqb_refl. cbn. apply negb_false_iff.
  apply forallb_forall. intros [i x] Hin.
  apply list_elem_of_In, elem_of_lookup_imap in Hin as (j & y & [= -> ->] & Hy).
  apply bool_decide_eq_true. exact Hy.
Qed.

Lemma detectEventChanges_tags e b :
  detectEventChanges e b = false -> categoryTags (doc e) = categoryTags b.
Proof.
  unfold detectEventChanges. intros H.
  repeat match type of H with
         | (if ?c then true else _) = false => destruct c; [discriminate H|]
         end.
  apply tagsDiffer_false, H.
Qed.

(** A document whose scraped fields are those of [b], whatever its
    [lastScrapedAt], shows no change against [b]. *)
Lemma detectEventChanges_same e b t :
  doc e = set_lastScrapedAt t b -> detectEventChanges e b = false.
Proof.
  intros H. unfold detectEventChanges. rewrite H. cbn.
  rewrite !String.eqb_refl, Z.eqb_refl. cbn. apply tagsDiffer_refl.
Qed.

Lemma detectEventChanges_touch t e b :
  detectEventChanges (touch t e) b = detectEventChanges e b.
Proof. reflexivity. Qed.

Lemma touch_touch t e : touch t (touch t e) = touch t e.
Proof. reflexivity. Qed.

Lemma dataErrors_set_lastScrapedAt t d :
  dataErrors (set_lastScrapedAt t d) = dataErrors d.
Proof. reflexivity. Qed.

Lemma validate_touch t e : validate (touch t e) = validate e.
Proof. reflexivity. Qed.

(** *** The pre-save hook on records in stored form *)

Lemma preSaveData_tags d :
  categoryTags (preSaveData d) =
  match categoryTags d with [] => [] | tags => normalizeTags tags end.
Proof.
  unfold preSaveData. destruct (Js.truthy (city d)); cbn;
    destruct (categoryTags d) eqn:E; cbn; rewrite ?E; reflexivity.
Qed.

Lemma preSaveData_fixed b d :
  preSaveData b = b -> Js.truthy (city d) = true ->
  categoryTags d = categoryTags b -> preSaveData d = d.
Proof.
  intros Hb Hcity Htags.
  pose proof (preSaveData_tags b) as Hn. rewrite Hb in Hn.
  unfold preSaveData. rewrite Hcity, Htags.
  destruct (categoryTags b) as [|tag tags] eqn:Ht; [reflexivity|].
  rewrite <- Hn. destruct d; unfold set_categoryTags; cbn in *. congruence.
Qed.

Lemma valid_city e : validate e = Ok tt -> Js.truthy (city (doc e)) = true.
Proof.
  intros H. apply validate_ok in H as [H _].
  apply dataErrors_nil in H as (_ & _ & _ & H & _). apply cityErrors_truthy, H.
Qed.

End ReconciliationFacts.

Section SecondPass.
Import Event Transition StatusManager.

Context (now : Z) (website : string) (batch : list EventData)
        (coll1 : Collection).
Hypothesis website_trimmed : Js.trim website = website.
Hypothesis coll1_reconciled : reconciled batch website coll1.
Hypothesis batch_canonical : Forall canonical batch.

Local Abbreviation existing0 := (findBySource website coll1).

Lemma refreshed_id d d' : refreshed now batch website d d' -> _id d' = _id d.
Proof. intros [-> | [-> _]]; reflexivity. Qed.

Lemma refreshed_replace coll e :
  Forall2 (refreshed now batch website) coll1 coll ->
  In e coll1 -> sourceWebsite (doc e) = website ->
  In (originalEventUrl (doc e)) (map originalEventUrl batch) ->
  Forall2 (refreshed now batch website) coll1 (replace (touch now e) coll).
Proof.
  intros Hall He Hsrc Hurl.
  destruct coll1_reconciled as ((Hids & _) & _).
  apply Forall2_same_length_lookup. split.
  - unfold replace. rewrite length_map. apply (Forall2_length _ _ _ Hall).
  - intros i c1 c' Hc1 Hc'. unfold replace in Hc'.
    change (map ?f ?l) with (f <$> l) in Hc'.
    rewrite list_lookup_fmap in Hc'.
    destruct (coll !! i) as [c|] eqn:Hc; [|discriminate].
    cbn in Hc'. injection Hc' as <-.
    pose proof (Forall2_lookup_lr _ _ _ _ _ _ Hall Hc1 Hc) as Hr.
    cbn [_id touch set_doc].
    destruct (Nat.eqb_spec (_id c) (_id e)) as [Heq|Hne]; [|exact Hr].
    assert (c1 = e).
    { apply (ids_injective coll1); try assumption.
      - apply list_elem_of_In, list_elem_of_lookup_2 with i, Hc1.
      - rewrite <- (refreshed_id _ _ Hr). exact Heq. }
    subst c1. right. auto.
Qed.

Lemma inStep_start logs :
  inStep now batch website coll1 (mkPass existing0 coll1 logs).
Proof.
  destruct coll1_reconciled as (Hwf & _).
  split; [|split; [|split]]; cbn.
  - apply Forall_Forall2_diag, Forall_forall. intros x _. left. reflexivity.
  - apply Forall_Forall2_diag, Forall_forall. intros x _. left. reflexivity.
  - intros i x Hx. apply (findBySource_lookup_t website website_trimmed coll1 i x Hx).
  - exact Hwf.
Qed.

(** On a reconciled collection the first loop finds every scraped record
    unchanged: it refreshes [lastScrapedAt], saves, and registers nothing. *)
Lemma detectOne_stable b p det :
  In b batch -> inStep now batch website coll1 p ->
  exists p',
    detectOne now (indexEvents 0 existing0 ∅) b p det = (Ok det, p') /\
    inStep now batch website coll1 p' /\
    statusChangeLogs p' = statusChangeLogs p.
Proof.
  intros Hb (Hmem & Hcoll & Hsync & Hwf).
  destruct coll1_reconciled as (Hwf1 & Hmatch & _).
  destruct (Hmatch b Hb) as (e & He & Hsrc & Hurl & Hsame).
  assert (He0 : In e existing0) by (apply (findBySource_In_t website website_trimmed); auto).
  apply list_elem_of_In, list_elem_of_lookup in He0 as [i Hi].
  assert (Hidx : indexEvents 0 existing0 ∅ !! originalEventUrl b = Some i).
  { rewrite <- Hurl. apply (indexEvents_in existing0 0 ∅ i e); [|exact Hi].
    apply findBySource_urls, Hwf1. }
  destruct (Forall2_lookup_l _ _ _ _ _ Hmem Hi) as (x & Hx & Hxe).
  unfold detectOne, lookupExisting. rewrite Hidx. cbn. rewrite Hx. cbn.
  assert (Hchanges : detectEventChanges x b = false)
    by (destruct Hxe as [-> | ->]; exact Hsame).
  rewrite Hchanges.
  assert (Htouch : set_doc (set_lastScrapedAt now (doc x)) x = touch now e)
    by (destruct Hxe as [-> | ->]; reflexivity).
  rewrite Htouch.
  assert (Hvalid : validate e = Ok tt).
  { destruct Hwf1 as (_ & _ & Hv). rewrite Forall_forall in Hv.
    apply Hv, list_elem_of_In, He. }
  assert (Hhook : preSave (touch now e) = touch now e).
  { unfold preSave, touch. cbn.
    rewrite (preSaveData_fixed b); [reflexivity | | |].
    - rewrite Forall_forall in batch_canonical.
      apply (batch_canonical b), list_elem_of_In, Hb.
    - cbn. apply valid_city, Hvalid.
    - cbn. apply detectEventChanges_tags, Hsame. }
  rewrite (saveExisting_succeeds (collection p) x (touch now e));
    [ | exact Hwf | apply (Hsync i), Hx
      | destruct Hxe as [-> | ->]; reflexivity
      | destruct Hxe as [-> | ->]; reflexivity
      | rewrite validate_touch; exact Hvalid ].
  rewrite Hhook. eexists. split; [reflexivity|]. cbn. split; [|reflexivity].
  assert (Hhas : hasId (_id (touch now e)) (collection p) = true).
  { apply hasId_In. replace (_id (touch now e)) with (_id x)
      by (destruct Hxe as [-> | ->]; reflexivity).
    apply in_map, (Hsync i), Hx. }
  split; [|split; [|split]]; cbn.
  - rewrite <- (list_insert_id existing0 i e Hi).
    apply Forall2_insert; [exact Hmem | right; reflexivity].
  - apply refreshed_replace; try assumption.
    rewrite Hurl. apply in_map, Hb.
  - intros j y Hy. destruct (decide (j = i)) as [->|Hne].
    + rewrite list_lookup_insert_eq in Hy
        by (apply lookup_lt_Some with x, Hx).
      injection Hy as <-. apply replace_self, Hhas.
    + rewrite list_lookup_insert_ne in Hy by congruence.
      apply replace_other; [apply (Hsync j), Hy|].
      destruct (Forall2_lookup_r _ _ _ _ _ Hmem Hy) as (y0 & Hy0 & Hyy).
      assert (Hids : NoDup (map _id existing0))
        by (apply findBySource_ids, Hwf1).
      intros Heq. apply Hne.
      apply (NoDup_lookup _ j i (_id y0) Hids).
      * change (map _id existing0) with (_id <$> existing0).
        rewrite list_lookup_fmap, Hy0. reflexivity.
      * change (map _id existing0) with (_id <$> existing0).
        rewrite list_lookup_fmap, Hi. cbn. f_equal.
        destruct Hyy as [-> | ->]; cbn in Heq; congruence.
  - apply wellFormed_replace; [exact Hwf | rewrite validate_touch; exact Hvalid |].
    apply duplicateKey_false. intros d Hd Hne Hk.
    assert (d = x).
    { destruct Hwf as (_ & Hkeys & _).
      apply (keys_injective (collection p)); try assumption.
      - apply (Hsync i), Hx.
      - rewrite Hk. destruct Hxe as [-> | ->]; reflexivity. }
    subst d. apply Hne. destruct Hxe as [-> | ->]; reflexivity.
Qed.

Lemma detectNewAndUpdated_stable scraped : forall p det,
  Forall (fun b => In b batch) scraped ->
  inStep now batch website coll1 p ->
  exists p',
    detectNewAndUpdated now (indexEvents 0 existing0 ∅) scraped p det
      = (Ok det, p') /\
    inStep now batch website coll1 p' /\
    statusChangeLogs p' = statusChangeLogs p.
Proof.
  induction scraped as [|b rest IH]; intros p det Hall Hp.
  - exists p. cbn. auto.
  - inversion Hall as [|? ? Hb Hrest]; subst.
    destruct (detectOne_stable b p det Hb Hp) as (p1 & Hone & Hp1 & Hl1).
    destruct (IH p1 det Hrest Hp1) as (p' & Hloop & Hp' & Hl').
    exists p'. cbn. rewrite Hone, Hloop. split; [reflexivity|].
    split; [exact Hp' | congruence].
Qed.

(** No document of a reconciled collection is classified inactive. *)
Lemma detectInactive_none p :
  inStep now batch website coll1 p ->
  detectInactive (indexScraped batch) (existingEvents p) = [].
Proof.
  intros (Hmem & _).
  destruct coll1_reconciled as (_ & _ & Hrest).
  destruct (detectInactive (indexScraped batch) (existingEvents p))
    as [|i rest] eqn:Hdet; [reflexivity|].
  exfalso.
  assert (Hin : In i (detectInactive (indexScraped batch) (existingEvents p)))
    by (rewrite Hdet; left; reflexivity).
  apply detectInactive_In in Hin as (x & Hx & Hhas & Hn1 & Hn2).
  destruct (Forall2_lookup_r _ _ _ _ _ Hmem Hx) as (x0 & Hx0 & Hxx).
  apply (findBySource_lookup_t website website_trimmed) in Hx0 as [Hin0 Hsrc0].
  assert (Hurl : originalEventUrl (doc x) = originalEventUrl (doc x0))
    by (destruct Hxx as [-> | ->]; reflexivity).
  assert (Hst : status x = status x0)
    by (destruct Hxx as [-> | ->]; reflexivity).
  destruct (Hrest x0 Hin0 Hsrc0) as [Hk | [Ht | Ht]].
  - rewrite <- Hurl in Hk. apply indexScraped_has in Hk. congruence.
  - congruence.
  - congruence.
Qed.

(** On a reconciled collection a pass with the same batch returns the empty
    result, writes no log entry, and changes nothing but [lastScrapedAt] of
    the matched documents. *)
Lemma pass_on_reconciled logs :
  exists coll2,
    processScrapedEvents now batch website (mkState coll1 logs) =
      (Ok (mkResult [] [] [] []), mkState coll2 logs) /\
    Forall2 (refreshed now batch website) coll1 coll2.
Proof.
  unfold processScrapedEvents, detect. cbn [events changeLog].
  destruct (detectNewAndUpdated_stable batch (mkPass existing0 coll1 logs)
              noDetection) as (p & Hloop & Hp & Hl).
  { apply Forall_forall. intros b Hb. apply list_elem_of_In, Hb. }
  { apply inStep_start. }
  rewrite Hloop. cbn [det_new det_updated noDetection].
  rewrite (detectInactive_none p Hp).
  unfold applyStatusChanges. cbn.
  exists (collection p). cbn in Hl. rewrite Hl. split; [reflexivity|].
  apply Hp.
Qed.

End SecondPass.

Section FirstPass.
Import Event Transition StatusManager.

Context (now : Z) (website : string) (coll0 : Collection)
        (batch : list EventData).
Hypothesis website_trimmed : Js.trim website = website.
Hypothesis coll0_wellFormed : wellFormed coll0.
Hypothesis batch_distinct : NoDup (map originalEventUrl batch).
Hypothesis batch_canonical :
  Forall (fun b => canonical b /\ sourceWebsite b = website) batch.

Local Abbreviation existing0 := (findBySource website coll0).
Local Abbreviation urlOf := (fun e : IEvent => originalEventUrl (doc e)).

Lemma existing0_ids : NoDup (map _id existing0).
Proof. apply findBySource_ids, coll0_wellFormed. Qed.

Lemma existing0_urls : NoDup (map (fun e => originalEventUrl (doc e)) existing0).
Proof. apply findBySource_urls, coll0_wellFormed. Qed.

Lemma consistent_start logs :
  consistent website existing0 [] (mkPass existing0 coll0 logs).
Proof.
  split; [exact coll0_wellFormed | split; [|split]]; cbn.
  - apply Forall_Forall2_diag, Forall_forall. intros x Hx.
    apply list_elem_of_In, (findBySource_In_t website website_trimmed) in Hx as [Hin Hsrc].
    repeat split; try assumption.
    destruct coll0_wellFormed as (_ & _ & Hv). rewrite Forall_forall in Hv.
    apply Hv, list_elem_of_In, Hin.
  - intros i x Hx. apply (findBySource_lookup_t website website_trimmed coll0 i x Hx).
  - intros d Hd Hsrc. left. apply list_elem_of_lookup, list_elem_of_In.
    apply (findBySource_In_t website website_trimmed). auto.
Qed.

(** Two slots with the same id are the same slot. *)
Lemma slot_by_id mem i j x y :
  Forall2 (sameSlot website) existing0 mem ->
  mem !! i = Some x -> mem !! j = Some y -> _id x = _id y -> i = j.
Proof.
  intros Hmem Hx Hy Heq.
  destruct (Forall2_lookup_r _ _ _ _ _ Hmem Hx) as (x0 & Hx0 & Hxid & _).
  destruct (Forall2_lookup_r _ _ _ _ _ Hmem Hy) as (y0 & Hy0 & Hyid & _).
  apply (NoDup_lookup _ i j (_id x0) existing0_ids).
  - change (map _id existing0) with (_id <$> existing0).
    rewrite list_lookup_fmap, Hx0. reflexivity.
  - change (map _id existing0) with (_id <$> existing0).
    rewrite list_lookup_fmap, Hy0. cbn. f_equal. congruence.
Qed.

(** Writing slot [i]: a document with the id, url and source of the one in
    the slot, and valid, is saved over it, and the pass stays consistent. *)
Lemma consistent_write inserted p i x x' logs' :
  consistent website existing0 inserted p ->
  existingEvents p !! i = Some x ->
  _id x' = _id x ->
  originalEventUrl (doc x') = originalEventUrl (doc x) ->
  sourceWebsite (doc x') = website ->
  validate x' = Ok tt ->
  saveExisting x' (collection p) =
    (preSave x', Ok tt, replace (preSave x') (collection p)) /\
  hasId (_id (preSave x')) (collection p) = true /\
  consistent website existing0 inserted
    (mkPass (<[i := preSave x']> (existingEvents p))
       (replace (preSave x') (collection p)) logs').
Proof.
  intros (Hwf & Hmem & Hsync & Hcomplete) Hx Hid Hurl Hsrc Hv.
  destruct (Forall2_lookup_r _ _ _ _ _ Hmem Hx) as (x0 & Hx0 & Hx0id & Hx0url & Hxsrc & _).
  assert (Hin : In x (collection p)) by (apply (Hsync i), Hx).
  assert (Hkey : key x' = key x) by (unfold key; congruence).
  assert (Hsave := saveExisting_succeeds (collection p) x x' Hwf Hin Hid Hkey Hv).
  assert (Hhas : hasId (_id (preSave x')) (collection p) = true).
  { apply hasId_In. rewrite preSave_id, Hid. apply in_map, Hin. }
  split; [exact Hsave | split; [exact Hhas|]].
  split; [|split; [|split]]; cbn.
  - pose proof (saveExisting_wellFormed x' (collection p) Hwf) as H.
    rewrite Hsave in H. exact H.
  - rewrite <- (list_insert_id existing0 i x0 Hx0).
    apply Forall2_insert; [exact Hmem|].
    repeat split.
    + rewrite preSave_id. congruence.
    + rewrite preSave_url. congruence.
    + rewrite preSave_source. exact Hsrc.
    + apply validate_preSave, Hv.
  - intros j y Hy. destruct (decide (j = i)) as [->|Hne].
    + rewrite list_lookup_insert_eq in Hy by (apply lookup_lt_Some with x, Hx).
      injection Hy as <-. apply replace_self, Hhas.
    + rewrite list_lookup_insert_ne in Hy by congruence.
      apply replace_other; [apply (Hsync j), Hy|].
      rewrite preSave_id, Hid. intros Heq. apply Hne.
      apply (slot_by_id _ j i y x Hmem Hy Hx Heq).
  - intros d Hd Hdsrc. apply replace_In in Hd as [-> | [Hd Hdid]].
    + left. exists i. apply list_lookup_insert_eq, lookup_lt_Some with x, Hx.
    + destruct (Hcomplete d Hd Hdsrc) as [[j Hj] | Hins]; [left | right; exact Hins].
      exists j. rewrite list_lookup_insert_ne; [exact Hj|].
      intros ->. rewrite Hx in Hj. injection Hj as ->.
      apply Hdid. rewrite preSave_id. symmetry. exact Hid.
Qed.

(** A write to a slot with another url keeps the counterpart of [b]. *)
Lemma stored_write coll b x x' :
  wellFormed coll -> In x coll -> _id x' = _id x ->
  originalEventUrl (doc x) <> originalEventUrl b ->
  stored website coll b -> stored website (replace x' coll) b.
Proof.
  intros (Hids & _) Hin Hid Hurl (e & He & Hm).
  exists e. split; [|exact Hm].
  apply replace_other; [exact He|].
  intros Heq. apply Hurl.
  assert (e = x) by (apply (ids_injective coll); congruence).
  subst e. apply Hm.
Qed.

Lemma stored_write_self coll b x' :
  hasId (_id x') coll = true -> matches website b x' ->
  stored website (replace x' coll) b.
Proof. intros Hhas Hm. exists x'. split; [apply replace_self, Hhas | exact Hm]. Qed.

Lemma lookupExisting_None inserted p url :
  consistent website existing0 inserted p ->
  lookupExisting (indexEvents 0 existing0 ∅) (existingEvents p) url = None ->
  forall x0, In x0 existing0 -> urlOf x0 <> url.
Proof.
  intros (_ & Hmem & _) Hnone x0 Hx0 Heq.
  apply list_elem_of_In, list_elem_of_lookup in Hx0 as [j Hj].
  pose proof (indexEvents_in existing0 0 ∅ j x0 existing0_urls Hj) as Hidx.
  destruct (Forall2_lookup_l _ _ _ _ _ Hmem Hj) as (x & Hx & _).
  unfold lookupExisting in Hnone. cbn in Heq. rewrite <- Heq, Hidx in Hnone.
  cbn in Hnone. rewrite Hx in Hnone. discriminate Hnone.
Qed.

Lemma matches_written b x :
  canonical b -> validate x = Ok tt ->
  sourceWebsite (doc x) = website ->
  originalEventUrl (doc x) = originalEventUrl b ->
  detectEventChanges x b = false ->
  preSave x = x /\ matches website b (preSave x).
Proof.
  intros (_ & Hhook & _) Hv Hsrc Hurl Hsame.
  assert (Hfix : preSave x = x).
  { unfold preSave.
    rewrite (preSaveData_fixed b (doc x) Hhook (valid_city x Hv)
               (detectEventChanges_tags x b Hsame)).
    destruct x; reflexivity. }
  rewrite Hfix. repeat split; assumption.
Qed.

(** The three things the first loop can do with a scraped record in stored
    form, on a consistent pass. *)
Lemma detectOne_first b p det :
  consistent website existing0 [] p ->
  canonical b -> sourceWebsite b = website ->
  (detectOne now (indexEvents 0 existing0 ∅) b p det =
     (Ok (mkDetection (det_new det ++ [b]) (det_updated det) (det_inactive det)),
      p) /\
   forall x0, In x0 existing0 -> urlOf x0 <> originalEventUrl b) \/
  (exists i x0,
      detectOne now (indexEvents 0 existing0 ∅) b p det =
        (Ok (mkDetection (det_new det) (det_updated det ++ [(i, b)])
               (det_inactive det)), p) /\
      existing0 !! i = Some x0 /\ urlOf x0 = originalEventUrl b) \/
  (exists p',
      detectOne now (indexEvents 0 existing0 ∅) b p det = (Ok det, p') /\
      consistent website existing0 [] p' /\
      stored website (collection p') b /\
      forall b', originalEventUrl b' <> originalEventUrl b ->
                 stored website (collection p) b' ->
                 stored website (collection p') b').
Proof.
  intros Hp Hcanon Hsrc.
  destruct (lookupExisting (indexEvents 0 existing0 ∅) (existingEvents p)
              (originalEventUrl b)) as [[i x]|] eqn:Hlook.
  - destruct (lookupExisting_Some _ _ _ _ _ _ eq_refl Hlook)
      as (Hx & x0 & Hx0 & Hurl0).
    unfold detectOne. rewrite Hlook.
    destruct (detectEventChanges x b) eqn:Hchanges.
    + right. left. exists i, x0. auto.
    + right. right.
      pose proof Hp as (Hwf & Hmem & Hsync & _).
      destruct (Forall2_lookup_lr _ _ _ _ _ _ Hmem Hx0 Hx)
        as (Hid & Hurl & Hxsrc & Hv).
      destruct (consistent_write [] p i x (touch now x) (statusChangeLogs p)
                  Hp Hx eq_refl eq_refl Hxsrc Hv) as (Hsave & Hhas & Hp').
      fold (touch now x). rewrite Hsave.
      destruct (matches_written b (touch now x) Hcanon Hv Hxsrc)
        as [Hfix Hm]; [cbn; congruence | exact Hchanges |].
      eexists. split; [reflexivity|]. split; [exact Hp' | split].
      * cbn. apply stored_write_self; assumption.
      * intros b' Hne Hstored. cbn.
        apply (stored_write (collection p) b' x); try assumption.
        -- apply (Hsync i), Hx.
        -- reflexivity.
        -- cbn in Hurl0. congruence.
  - left. split.
    + unfold detectOne. rewrite Hlook. reflexivity.
    + apply (lookupExisting_None [] p); assumption.
Qed.

(** The first loop over scraped records in stored form with distinct urls:
    it returns normally; each record is registered as new (no document of the
    source has its url), registered as updated (with the slot of its
    document), or has its unchanged counterpart stored. *)
Lemma detectNewAndUpdated_first scraped : forall p det,
  consistent website existing0 [] p ->
  Forall (fun b => canonical b /\ sourceWebsite b = website) scraped ->
  NoDup (map originalEventUrl scraped) ->
  exists news upds p',
    detectNewAndUpdated now (indexEvents 0 existing0 ∅) scraped p det =
      (Ok (mkDetection (det_new det ++ news) (det_updated det ++ upds)
             (det_inactive det)), p') /\
    consistent website existing0 [] p' /\
    Forall (fun b => In b scraped /\
                     forall x0, In x0 existing0 -> urlOf x0 <> originalEventUrl b)
      news /\
    Forall (fun entry => In (snd entry) scraped /\
                         exists x0, existing0 !! fst entry = Some x0 /\
                                    urlOf x0 = originalEventUrl (snd entry))
      upds /\
    NoDup (map originalEventUrl news) /\
    NoDup (map (fun entry => originalEventUrl (snd entry)) upds) /\
    (forall b, In b scraped ->
               In b news \/ In b (map snd upds) \/
               stored website (collection p') b) /\
    (forall b', ~ In (originalEventUrl b') (map originalEventUrl scraped) ->
                stored website (collection p) b' ->
                stored website (collection p') b').
Proof.
  induction scraped as [|b rest IH]; intros p det Hp Hall Hnd.
  - exists [], [], p. cbn. rewrite !app_nil_r. destruct det.
    split; [reflexivity|]. split; [exact Hp|].
    split; [constructor|]. split; [constructor|].
    split; [constructor|]. split; [constructor|].
    split; [intros ? [] | intros ? _ H; exact H].
  - apply Forall_cons in Hall as [[Hcanon Hsrc] Hrest].
    cbn in Hnd. apply NoDup_cons in Hnd as [Hfirst Hnd].
    rewrite list_elem_of_In in Hfirst.
    assert (Hweaken : forall (P : EventData -> Prop) l,
               Forall (fun b0 => In b0 rest /\ P b0) l ->
               Forall (fun b0 => In b0 (b :: rest) /\ P b0) l).
    { intros P l H. eapply Forall_impl; [exact H|].
      intros b0 [? ?]. split; [right|]; assumption. }
    assert (Hfresh : forall l, Forall (fun b0 => In b0 rest) l ->
               ~ In (originalEventUrl b) (map originalEventUrl l)).
    { intros l Hl Hin. apply Hfirst. apply in_map_iff in Hin as (y & Hy & Hin).
      rewrite Forall_forall in Hl. rewrite <- Hy. apply in_map, Hl, list_elem_of_In, Hin. }
    cbn [detectNewAndUpdated].
    destruct (detectOne_first b p det Hp Hcanon Hsrc)
      as [[Hone Hnew] | [(i & x0 & Hone & Hx0 & Hurl0) | (p1 & Hone & Hp1 & Hst & Hkeep)]];
      rewrite Hone.
    + destruct (IH p (mkDetection (det_new det ++ [b]) (det_updated det)
                        (det_inactive det)) Hp Hrest Hnd)
        as (news & upds & p' & Hloop & Hp' & Hnews & Hupds & Hn1 & Hn2 & Hcls & Hk).
      exists (b :: news), upds, p'. cbn [det_new det_updated det_inactive] in Hloop.
      rewrite <- app_assoc in Hloop. split; [exact Hloop|].
      split; [exact Hp'|]. split; [|split; [|split; [|split; [|split]]]].
      * constructor; [split; [left; reflexivity | exact Hnew]|].
        apply Hweaken, Hnews.
      * eapply Forall_impl; [exact Hupds|]. intros e [? ?]. split; [right|]; assumption.
      * cbn. apply NoDup_cons. split; [|exact Hn1].
        rewrite list_elem_of_In. apply Hfresh.
        eapply Forall_impl; [exact Hnews|]. intros ? [? _]. assumption.
      * exact Hn2.
      * intros b0 [<- | Hb0]; [left; left; reflexivity|].
        destruct (Hcls b0 Hb0) as [? | [? | ?]]; [left; right | right; left | right; right];
          assumption.
      * intros b' Hb'. apply Hk. intros H. apply Hb'. right. exact H.
    + destruct (IH p (mkDetection (det_new det) (det_updated det ++ [(i, b)])
                        (det_inactive det)) Hp Hrest Hnd)
        as (news & upds & p' & Hloop & Hp' & Hnews & Hupds & Hn1 & Hn2 & Hcls & Hk).
      exists news, ((i, b) :: upds), p'. cbn [det_new det_updated det_inactive] in Hloop.
      rewrite <- app_assoc in Hloop. split; [exact Hloop|].
      split; [exact Hp'|]. split; [|split; [|split; [|split; [|split]]]].
      * apply Hweaken, Hnews.
      * constructor; [split; [left; reflexivity | eauto]|].
        eapply Forall_impl; [exact Hupds|]. intros e [? ?]. split; [right|]; assumption.
      * exact Hn1.
      * cbn. apply NoDup_cons. split; [|exact Hn2].
        rewrite list_elem_of_In. intros Hin.
        apply in_map_iff in Hin as (e & He & Hin). apply Hfirst.
        rewrite Forall_forall in Hupds.
        destruct (Hupds e (proj2 (list_elem_of_In _ _) Hin)) as [Hine _].
        rewrite <- He. apply in_map, Hine.
      * intros b0 [<- | Hb0]; [right; left; left; reflexivity|].
        destruct (Hcls b0 Hb0) as [? | [? | ?]]; [left | right; left; right | right; right];
          assumption.
      * intros b' Hb'. apply Hk. intros H. apply Hb'. right. exact H.
    + destruct (IH p1 det Hp1 Hrest Hnd)
        as (news & upds & p' & Hloop & Hp' & Hnews & Hupds & Hn1 & Hn2 & Hcls & Hk).
      exists news, upds, p'. split; [exact Hloop|].
      split; [exact Hp'|]. split; [|split; [|split; [|split; [|split]]]].
      * apply Hweaken, Hnews.
      * eapply Forall_impl; [exact Hupds|]. intros e [? ?]. split; [right|]; assumption.
      * exact Hn1.
      * exact Hn2.
      * intros b0 [<- | Hb0].
        -- right. right. apply Hk; [exact Hfirst | exact Hst].
        -- destruct (Hcls b0 Hb0) as [? | [? | ?]]; [left | right; left | right; right];
             assumption.
      * intros b' Hb' Hstored. apply Hk.
        -- intros H. apply Hb'. right. exact H.
        -- apply Hkeep; [|exact Hstored]. intros Heq. apply Hb'. left. congruence.
Qed.

(** *** Creating the new events *)

Lemma data_as_stored (b : EventData) : b = set_lastScrapedAt (lastScrapedAt b) b.
Proof. destruct b; reflexivity. Qed.

Lemma applyNewOne_first b inserted p changes :
  consistent website existing0 inserted p ->
  canonical b -> sourceWebsite b = website ->
  (forall x0, In x0 existing0 -> urlOf x0 <> originalEventUrl b) ->
  ~ In (originalEventUrl b) inserted ->
  exists e changes',
    applyNewOne now (p, changes) b =
      (mkPass (existingEvents p) (collection p ++ [e])
         (statusChangeLogs p ++ [mkChange (_id e) NEW NEW creationReason now
                                   (SourceMetadata (sourceWebsite b))]),
       changes') /\
    matches website b e /\
    consistent website existing0 (inserted ++ [originalEventUrl b])
      (mkPass (existingEvents p) (collection p ++ [e])
         (statusChangeLogs p ++ [mkChange (_id e) NEW NEW creationReason now
                                   (SourceMetadata (sourceWebsite b))])).
Proof.
  intros (Hwf & Hmem & Hsync & Hcomplete) (Hset & Hhook & Hvalid) Hsrc Hnone Hfresh.
  set (e := mkEvent (freshId (collection p)) b NEW None None None).
  assert (Hv : validate e = Ok tt) by (apply validate_ok; split; [exact Hvalid | reflexivity]).
  assert (Hfix : preSave e = e) by (unfold preSave, e; cbn; rewrite Hhook; reflexivity).
  assert (Hdup : duplicateKey e (collection p) = false).
  { apply duplicateKey_false. intros d Hd _ Hk. unfold key in Hk. cbn in Hk.
    injection Hk as Hurl Hdsrc. rewrite Hsrc in Hdsrc.
    destruct (Hcomplete d Hd Hdsrc) as [[i Hi] | Hins].
    - destruct (Forall2_lookup_r _ _ _ _ _ Hmem Hi) as (x0 & Hx0 & _ & Hx0url & _).
      apply (Hnone x0); [apply list_elem_of_In, list_elem_of_lookup_2 with i, Hx0|].
      cbn. congruence.
    - apply Hfresh. rewrite <- Hurl. exact Hins. }
  assert (Hnew : hasId (_id e) (collection p) = false) by apply freshId_fresh.
  assert (Hsave : saveNew e (collection p) = (e, Ok tt, collection p ++ [e])).
  { unfold saveNew. rewrite Hv, Hfix, Hdup, Hnew. reflexivity. }
  exists e. unfold applyNewOne. rewrite Hset. fold e. rewrite Hsave.
  eexists. split; [reflexivity|].
  assert (Hm : matches website b e).
  { repeat split; [exact Hsrc|]. apply (detectEventChanges_same e b (lastScrapedAt b)).
    apply data_as_stored. }
  split; [exact Hm|].
  split; [|split; [|split]]; cbn.
  - apply wellFormed_append; assumption.
  - exact Hmem.
  - intros i x Hx. apply in_or_app. left. apply (Hsync i), Hx.
  - intros d Hd Hdsrc. apply in_app_or in Hd as [Hd | [<- | []]].
    + destruct (Hcomplete d Hd Hdsrc) as [? | ?]; [left; assumption|].
      right. apply in_or_app. left. assumption.
    + right. apply in_or_app. right. left. reflexivity.
Qed.

Lemma stored_append coll l b :
  stored website coll b -> stored website (coll ++ l) b.
Proof. intros (e & He & Hm). exists e. split; [apply in_or_app; left; exact He | exact Hm]. Qed.

Lemma applyNew_first news : forall inserted p changes,
  consistent website existing0 inserted p ->
  Forall (fun b => canonical b /\ sourceWebsite b = website /\
                   forall x0, In x0 existing0 -> urlOf x0 <> originalEventUrl b)
    news ->
  NoDup (map originalEventUrl news) ->
  (forall b, In b news -> ~ In (originalEventUrl b) inserted) ->
  exists p' changes',
    applyNew now news (p, changes) = (p', changes') /\
    consistent website existing0 (inserted ++ map originalEventUrl news) p' /\
    existingEvents p' = existingEvents p /\
    (forall b, In b news -> stored website (collection p') b) /\
    (forall b', stored website (collection p) b' ->
                stored website (collection p') b').
Proof.
  induction news as [|b rest IH]; intros inserted p changes Hp Hall Hnd Hfresh.
  - exists p, changes. cbn. rewrite app_nil_r.
    split; [reflexivity|]. split; [exact Hp|]. split; [reflexivity|].
    split; [intros ? []|auto].
  - apply Forall_cons in Hall as [(Hcanon & Hsrc & Hnone) Hrest].
    cbn in Hnd. apply NoDup_cons in Hnd as [Hfirst Hnd].
    rewrite list_elem_of_In in Hfirst.
    destruct (applyNewOne_first b inserted p changes Hp Hcanon Hsrc Hnone)
      as (e & changes1 & Hone & Hm & Hp1).
    { apply Hfresh. left. reflexivity. }
    destruct (IH _ _ changes1 Hp1 Hrest Hnd)
      as (p' & changes' & Hloop & Hp' & Hmem' & Hst & Hkeep).
    { intros b0 Hb0 Hin. apply in_app_or in Hin as [Hin | [Heq | []]].
      - apply (Hfresh b0); [right; exact Hb0 | exact Hin].
      - apply Hfirst. rewrite Heq. apply in_map, Hb0. }
    exists p', changes'. unfold applyNew in *. cbn [fold_left].
    rewrite Hone, Hloop. split; [reflexivity|].
    rewrite <- app_assoc in Hp'. split; [exact Hp'|].
    split; [exact Hmem'|]. cbn in Hkeep. split.
    + intros b0 [<- | Hb0]; [|apply Hst, Hb0].
      apply Hkeep. exists e. split; [apply in_or_app; right; left; reflexivity | exact Hm].
    + intros b' Hb'. apply Hkeep, stored_append, Hb'.
Qed.

(** *** Overwriting the updated events *)

Lemma slotsSettled_insert urls pending mem i y :
  slotsSettled urls pending mem ->
  In (originalEventUrl (doc y)) urls \/ terminal (status y) ->
  slotsSettled urls pending (<[i := y]> mem).
Proof.
  intros Hs Hy j x Hx. destruct (decide (j = i)) as [->|Hne].
  - apply list_lookup_insert_Some in Hx as [(_ & <- & _) | (Hbad & _)]; [|congruence].
    destruct Hy; auto.
  - rewrite list_lookup_insert_ne in Hx by congruence. apply (Hs j x Hx).
Qed.

Lemma assign_stored_form (held d : EventData) :
  applySetters d = d -> assign held d = d.
Proof.
  destruct d as [t dt vn va c ds tags img sw ou ls].
  unfold applySetters, assign. cbn. intros [= Ht Hvn Hva Hc Hds Himg Hsw Hou].
  destruct va, img; cbn in *; try discriminate; congruence.
Qed.

Lemma applyUpdatedOne_first i b x0 inserted p changes :
  consistent website existing0 inserted p ->
  canonical b -> sourceWebsite b = website ->
  existing0 !! i = Some x0 -> urlOf x0 = originalEventUrl b ->
  exists p' changes',
    applyUpdatedOne now (p, changes) (i, b) = (p', changes') /\
    consistent website existing0 inserted p' /\
    stored website (collection p') b /\
    (forall b', originalEventUrl b' <> originalEventUrl b ->
                stored website (collection p) b' ->
                stored website (collection p') b') /\
    (forall urls pending,
        In (originalEventUrl b) urls ->
        slotsSettled urls pending (existingEvents p) ->
        slotsSettled urls pending (existingEvents p')).
Proof.
  intros Hp Hcanon Hsrc Hx0 Hurl0.
  pose proof Hp as (Hwf & Hmem & Hsync & _).
  pose proof Hcanon as (Hset & Hhook & Hvalid).
  destruct (Forall2_lookup_l _ _ _ _ _ Hmem Hx0) as (x & Hx & Hid & Hurl & Hxsrc & Hv).
  set (assigned := set_status UPDATED (set_doc (set_lastScrapedAt now b) x)).
  assert (Hassigned :
            set_status UPDATED
              (set_doc (assign (doc x) (set_lastScrapedAt now b)) x) = assigned).
  { unfold assigned. f_equal. f_equal.
    change (assign (doc x) (set_lastScrapedAt now b))
      with (set_lastScrapedAt now (assign (doc x) b)).
    rewrite (assign_stored_form (doc x) b Hset). reflexivity. }
  assert (Hva : validate assigned = Ok tt).
  { apply validate_ok. split; [exact Hvalid|]. apply validate_ok in Hv. apply Hv. }
  assert (Hau : originalEventUrl (doc assigned) = originalEventUrl (doc x))
    by (cbn in *; congruence).
  destruct (consistent_write inserted p i x assigned
              (statusChangeLogs p ++
               [mkChange (_id assigned) (status x) UPDATED
                  "Event data changed during scraping" now
                  (SourceMetadata (sourceWebsite b))])
              Hp Hx eq_refl Hau Hsrc Hva) as (Hsave & Hhas & Hp').
  destruct (matches_written b assigned Hcanon Hva Hsrc eq_refl) as [Hfix Hm].
  { apply (detectEventChanges_same assigned b now). reflexivity. }
  unfold applyUpdatedOne. rewrite Hx, Hassigned, Hsave.
  eexists. eexists. split; [reflexivity|].
  split; [exact Hp' | split; [|split]].
  - cbn. apply stored_write_self; assumption.
  - intros b' Hne Hstored. cbn.
    apply (stored_write (collection p) b' x); try assumption.
    + apply (Hsync i), Hx.
    + reflexivity.
    + cbn in Hurl0. congruence.
  - intros urls pending Hin Hs. cbn. apply slotsSettled_insert; [exact Hs|].
    left. rewrite preSave_url. exact Hin.
Qed.

Lemma applyUpdated_first upds : forall inserted p changes,
  consistent website existing0 inserted p ->
  Forall (fun entry => canonical (snd entry) /\ sourceWebsite (snd entry) = website /\
                       exists x0, existing0 !! fst entry = Some x0 /\
                                  urlOf x0 = originalEventUrl (snd entry)) upds ->
  NoDup (map (fun entry => originalEventUrl (snd entry)) upds) ->
  exists p' changes',
    applyUpdated now upds (p, changes) = (p', changes') /\
    consistent website existing0 inserted p' /\
    (forall b, In b (map snd upds) -> stored website (collection p') b) /\
    (forall b', ~ In (originalEventUrl b')
                    (map (fun entry => originalEventUrl (snd entry)) upds) ->
                stored website (collection p) b' ->
                stored website (collection p') b') /\
    (forall urls pending,
        (forall b, In b (map snd upds) -> In (originalEventUrl b) urls) ->
        slotsSettled urls pending (existingEvents p) ->
        slotsSettled urls pending (existingEvents p')).
Proof.
  induction upds as [|[i b] rest IH]; intros inserted p changes Hp Hall Hnd.
  - exists p, changes. cbn.
    split; [reflexivity|]. split; [exact Hp|]. split; [intros ? []|]. split; auto.
  - apply Forall_cons in Hall as [(Hcanon & Hsrc & x0 & Hx0 & Hurl0) Hrest].
    cbn in Hnd. apply NoDup_cons in Hnd as [Hfirst Hnd].
    rewrite list_elem_of_In in Hfirst. cbn in Hcanon, Hsrc, Hx0, Hurl0.
    destruct (applyUpdatedOne_first i b x0 inserted p changes Hp Hcanon Hsrc Hx0 Hurl0)
      as (p1 & changes1 & Hone & Hp1 & Hst1 & Hkeep1 & Hslots1).
    destruct (IH inserted p1 changes1 Hp1 Hrest Hnd)
      as (p' & changes' & Hloop & Hp' & Hst & Hkeep & Hslots).
    exists p', changes'. unfold applyUpdated in *. cbn [fold_left].
    rewrite Hone, Hloop. split; [reflexivity|]. split; [exact Hp'|].
    split; [|split].
    + intros b0 [<- | Hb0]; [|apply Hst, Hb0]. apply Hkeep; assumption.
    + intros b' Hb' Hstored. apply Hkeep.
      * intros H. apply Hb'. right. exact H.
      * apply Hkeep1; [|exact Hstored]. intros Heq. apply Hb'. left. cbn. congruence.
    + intros urls pending Hurls Hs. apply Hslots.
      * intros b0 Hb0. apply Hurls. right. exact Hb0.
      * apply Hslots1; [|exact Hs]. apply Hurls. left. reflexivity.
Qed.

(** *** Marking the missing events inactive *)

Lemma applyInactiveOne_first i x0 inserted p changes :
  consistent website existing0 inserted p ->
  existing0 !! i = Some x0 ->
  exists p' changes',
    applyInactiveOne now (p, changes) i = (p', changes') /\
    consistent website existing0 inserted p' /\
    (forall b', originalEventUrl b' <> urlOf x0 ->
                stored website (collection p) b' ->
                stored website (collection p') b') /\
    (forall urls pending,
        slotsSettled urls (i :: pending) (existingEvents p) ->
        slotsSettled urls pending (existingEvents p')).
Proof.
  intros Hp Hx0.
  pose proof Hp as (Hwf & Hmem & Hsync & _).
  destruct (Forall2_lookup_l _ _ _ _ _ Hmem Hx0) as (x & Hx & Hid & Hurl & Hxsrc & Hv).
  set (assigned := set_status INACTIVE (set_doc (set_lastScrapedAt now (doc x)) x)).
  assert (Hva : validate assigned = Ok tt) by exact Hv.
  destruct (consistent_write inserted p i x assigned
              (statusChangeLogs p ++
               [mkChange (_id (preSave assigned)) (status x) INACTIVE
                  "Event no longer found on source website" now
                  (SourceMetadata (sourceWebsite (doc (preSave assigned))))])
              Hp Hx eq_refl eq_refl Hxsrc Hva) as (Hsave & Hhas & Hp').
  unfold applyInactiveOne. rewrite Hx. fold assigned. rewrite Hsave.
  eexists. eexists. split; [reflexivity|].
  split; [exact Hp' | split].
  - intros b' Hne Hstored. cbn.
    apply (stored_write (collection p) b' x); try assumption.
    + apply (Hsync i), Hx.
    + reflexivity.
    + cbn in Hurl. congruence.
  - intros urls pending Hs j y Hy. cbn in Hy.
    destruct (decide (j = i)) as [->|Hne].
    + apply list_lookup_insert_Some in Hy as [(_ & <- & _) | (Hbad & _)]; [|congruence].
      right. left. left. rewrite preSave_status. reflexivity.
    + rewrite list_lookup_insert_ne in Hy by congruence.
      destruct (Hs j y Hy) as [? | [? | [? | ?]]]; auto. congruence.
Qed.

Lemma applyInactive_first inactive : forall inserted p changes,
  consistent website existing0 inserted p ->
  Forall (fun i => exists x0, existing0 !! i = Some x0) inactive ->
  exists p' changes',
    applyInactive now inactive (p, changes) = (p', changes') /\
    consistent website existing0 inserted p' /\
    (forall b',
        Forall (fun i => forall x0, existing0 !! i = Some x0 ->
                                    originalEventUrl b' <> urlOf x0) inactive ->
        stored website (collection p) b' ->
        stored website (collection p') b') /\
    (forall urls,
        slotsSettled urls inactive (existingEvents p) ->
        slotsSettled urls [] (existingEvents p')).
Proof.
  induction inactive as [|i rest IH]; intros inserted p changes Hp Hall.
  - exists p, changes. cbn.
    split; [reflexivity|]. split; [exact Hp|]. split; auto.
  - apply Forall_cons in Hall as [(x0 & Hx0) Hrest].
    destruct (applyInactiveOne_first i x0 inserted p changes Hp Hx0)
      as (p1 & changes1 & Hone & Hp1 & Hkeep1 & Hslots1).
    destruct (IH inserted p1 changes1 Hp1 Hrest)
      as (p' & changes' & Hloop & Hp' & Hkeep & Hslots).
    exists p', changes'. unfold applyInactive in *. cbn [fold_left].
    rewrite Hone, Hloop. split; [reflexivity|]. split; [exact Hp'|]. split.
    + intros b' Hb' Hstored. apply Forall_cons in Hb' as [Hhere Hthere].
      apply Hkeep; [exact Hthere|]. apply Hkeep1; [|exact Hstored].
      apply (Hhere x0 Hx0).
    + intros urls Hs. apply Hslots, Hslots1, Hs.
Qed.

(** *** The whole pass *)

Lemma detectInactive_complete smap mem i x :
  mem !! i = Some x ->
  has smap (urlOf x) = false ->
  status x <> INACTIVE -> status x <> IMPORTED ->
  In i (detectInactive smap mem).
Proof.
  intros Hx Hh Hn1 Hn2. unfold detectInactive.
  rewrite <- list_elem_of_In, list_elem_of_omap.
  exists (i, x). split; [apply elem_of_lookup_imap; eauto|].
  cbn in *. rewrite Hh. unfold EventStatus_eqb.
  rewrite !bool_decide_eq_false_2 by assumption. reflexivity.
Qed.

Lemma slotsSettled_detect mem :
  slotsSettled (map originalEventUrl batch)
    (detectInactive (indexScraped batch) mem) mem.
Proof.
  intros i x Hx.
  destruct (has (indexScraped batch) (urlOf x)) eqn:Hh.
  - left. apply indexScraped_has, Hh.
  - destruct (status x) eqn:Hs;
      try (right; left; unfold terminal; auto; fail);
      right; right; apply (detectInactive_complete _ _ i x Hx Hh); congruence.
Qed.

Lemma batch_by_url b b' :
  In b batch -> In b' batch -> originalEventUrl b = originalEventUrl b' -> b = b'.
Proof.
  intros Hb Hb' Heq.
  apply list_elem_of_In, list_elem_of_lookup in Hb as [i Hi].
  apply list_elem_of_In, list_elem_of_lookup in Hb' as [j Hj].
  assert (i = j).
  { apply (NoDup_lookup (map originalEventUrl batch) i j (originalEventUrl b)).
    - exact batch_distinct.
    - change (map originalEventUrl batch) with (originalEventUrl <$> batch).
      rewrite list_lookup_fmap, Hi. reflexivity.
    - change (map originalEventUrl batch) with (originalEventUrl <$> batch).
      rewrite list_lookup_fmap, Hj. cbn. congruence. }
  congruence.
Qed.

(** A pass from a well-formed collection succeeds and leaves the collection
    reconciled with the batch. *)
Lemma first_pass_reconciles logs :
  exists res st1,
    processScrapedEvents now batch website (mkState coll0 logs) = (Ok res, st1) /\
    reconciled batch website (events st1).
Proof.
  unfold processScrapedEvents, detect. cbn [events changeLog].
  destruct (detectNewAndUpdated_first batch (mkPass existing0 coll0 logs)
              noDetection (consistent_start logs) batch_canonical batch_distinct)
    as (news & upds & p1 & Hloop & Hp1 & Hnews & Hupds & Hndn & Hndu & Htri & _).
  rewrite Hloop. cbn [det_new det_updated det_inactive noDetection app].
  unfold applyStatusChanges. cbn [det_new det_updated det_inactive].
  pose proof batch_canonical as Hbatch. rewrite Forall_forall in Hbatch.
  rewrite Forall_forall in Hnews. rewrite Forall_forall in Hupds.
  destruct (applyNew_first news [] p1 [] Hp1) as (p2 & ch2 & Hn & Hp2 & Hmem2 & Hst2 & Hkeep2).
  { apply Forall_forall. intros b Hb. destruct (Hnews b Hb) as [Hin Hnone].
    destruct (Hbatch b (proj2 (list_elem_of_In _ _) Hin)) as [Hc Hs]. auto. }
  { exact Hndn. }
  { intros ? _ []. }
  rewrite Hn. cbn [app] in Hp2.
  destruct (applyUpdated_first upds _ p2 ch2 Hp2) as (p3 & ch3 & Hu & Hp3 & Hst3 & Hkeep3 & Hslots3).
  { apply Forall_forall. intros entry He. destruct (Hupds entry He) as [Hin Hx0].
    destruct (Hbatch _ (proj2 (list_elem_of_In _ _) Hin)) as [Hc Hs]. auto. }
  { exact Hndu. }
  rewrite Hu.
  set (inactive := detectInactive (indexScraped batch) (existingEvents p1)).
  assert (Hinactive : forall i, In i inactive ->
            exists x0, existing0 !! i = Some x0 /\
                       ~ In (urlOf x0) (map originalEventUrl batch)).
  { intros i Hi. apply detectInactive_In in Hi as (x & Hx & Hh & _).
    destruct Hp1 as (_ & Hmem & _).
    destruct (Forall2_lookup_r _ _ _ _ _ Hmem Hx) as (x0 & Hx0 & _ & Hurl & _).
    exists x0. split; [exact Hx0|]. intros Hin. cbn in Hurl. rewrite <- Hurl in Hin.
    apply indexScraped_has in Hin. congruence. }
  destruct (applyInactive_first inactive _ p3 ch3 Hp3) as (p4 & ch4 & Hi & Hp4 & Hkeep4 & Hslots4).
  { apply Forall_forall. intros i Hi%list_elem_of_In.
    destruct (Hinactive i Hi) as (x0 & Hx0 & _). eauto. }
  rewrite Hi. eexists. eexists. split; [reflexivity|]. cbn [events].
  assert (Hsettled : slotsSettled (map originalEventUrl batch) [] (existingEvents p4)).
  { apply Hslots4, Hslots3.
    - intros b Hb. apply in_map_iff in Hb as (entry & <- & He).
      apply in_map. apply (Hupds entry), list_elem_of_In, He.
    - rewrite Hmem2. apply slotsSettled_detect. }
  split; [apply Hp4 | split].
  - intros b Hb. apply Hkeep4.
    { apply Forall_forall. intros i Hi'%list_elem_of_In x0 Hx0 Heq.
      destruct (Hinactive i Hi') as (x0' & Hx0' & Hnot).
      apply Hnot. replace x0' with x0 by congruence.
      rewrite <- Heq. apply in_map, Hb. }
    destruct (in_dec string_dec (originalEventUrl b)
                (map (fun entry => originalEventUrl (snd entry)) upds)) as [Hin | Hout].
    + apply Hst3. apply in_map_iff in Hin as (entry & Heq & He).
      apply in_map_iff. exists entry. split; [|exact He].
      apply batch_by_url; [|exact Hb|exact Heq].
      apply (Hupds entry), list_elem_of_In, He.
    + apply Hkeep3; [exact Hout|].
      destruct (Htri b Hb) as [Hnew | [Hupd | Hstored]].
      * apply Hst2, Hnew.
      * exfalso. apply Hout. apply in_map_iff in Hupd as (entry & <- & He).
        apply in_map_iff. eauto.
      * apply Hkeep2, Hstored.
  - intros e He Hsrc. destruct Hp4 as (_ & _ & _ & Hcomplete).
    destruct (Hcomplete e He Hsrc) as [[i Hi'] | Hins].
    + destruct (Hsettled i e Hi') as [? | [? | []]]; auto.
    + left. apply in_map_iff in Hins as (b & <- & Hb).
      apply in_map. apply (Hnews b), list_elem_of_In, Hb.
Qed.

End FirstPass.

Section Idempotence.
Import Event Transition StatusManager.

(** C6 (evaluation at the failing input). A second pass with the same
    batch is not free of changes. The site prints the tag as Music; the
    pre-save hook stores it as music; [detectEventChanges] compares the
    stored tag with the scraped one, so the second pass classifies the
    unchanged event as updated, logs a change from new to updated and
    stores the status updated. *)
Theorem capital_tag_updated_on_second_pass :
  let first :=
    processScrapedEvents 1000 Sample.capitalTagBatch Sample.site Sample.emptyStore in
  let second :=
    processScrapedEvents 2000 Sample.capitalTagBatch Sample.site (snd first) in
  isOk (fst first) = true /\
  exists res2,
    fst second = Ok res2 /\
    newEvents res2 = [] /\
    map snd (updatedEvents res2) = Sample.capitalTagBatch /\
    inactiveEvents res2 = [] /\
    statusChanges res2 =
      [mkChange 1 NEW UPDATED "Event data changed during scraping" 2000
         (SourceMetadata Sample.site)] /\
    map status (events (snd second)) = [UPDATED].
Proof.
  split; [vm_compute; reflexivity|].
  eexists. split; [vm_compute; reflexivity|].
  repeat split; vm_compute; reflexivity.
Qed.

(** X30. Reconciliation is idempotent on batches in stored form. Take a
    well-formed store, and a batch for one source whose records have
    pairwise distinct urls, carry that source as their [sourceWebsite],
    and are in the form the store keeps them (valid, every optional key
    present, and unchanged by the setters and the pre-save hook). Then the
    first pass succeeds, and a second pass with the same batch on the
    store it leaves returns zero new, updated and inactive events and no
    status change, appends nothing to the change log, and changes the
    collection only by setting [lastScrapedAt] on documents of the source
    whose url is in the batch. *)
Theorem reconcile_twice_is_stable (now1 now2 : Z) (batch : list EventData)
        (website : string) (st : State) :
  wellFormed (events st) ->
  NoDup (map originalEventUrl batch) ->
  Forall (fun b => canonical b /\ sourceWebsite b = website) batch ->
  exists res1 st1 st2,
    processScrapedEvents now1 batch website st = (Ok res1, st1) /\
    processScrapedEvents now2 batch website st1 =
      (Ok (mkResult [] [] [] []), st2) /\
    changeLog st2 = changeLog st1 /\
    Forall2 (refreshed now2 batch website) (events st1) (events st2).
Proof.
  intros Hwf Hnd Hbatch. destruct st as [coll0 logs0]. cbn in Hwf.
  assert (Htrimmed :
            forall name,
              Js.trim name = name ->
              Forall (fun b => canonical b /\ sourceWebsite b = name) batch ->
              exists res1 st1 st2,
                processScrapedEvents now1 batch name (mkState coll0 logs0) =
                  (Ok res1, st1) /\
                processScrapedEvents now2 batch name st1 =
                  (Ok (mkResult [] [] [] []), st2) /\
                changeLog st2 = changeLog st1 /\
                Forall2 (refreshed now2 batch name) (events st1) (events st2)).
  { intros name Hname Hall.
    destruct (first_pass_reconciles now1 name coll0 batch Hname Hwf Hnd Hall logs0)
      as (res1 & [coll1 logs1] & Hfirst & Hrec).
    cbn in Hrec.
    assert (Hcanon : Forall canonical batch).
    { eapply Forall_impl; [exact Hall|]. intros b [Hc _]. exact Hc. }
    destruct (pass_on_reconciled now2 name batch coll1 Hname Hrec Hcanon logs1)
      as (coll2 & Hsecond & Hsame).
    exists res1, (mkState coll1 logs1), (mkState coll2 logs1).
    repeat split; assumption. }
  destruct batch as [|b rest].
  - destruct (Htrimmed (Js.trim website) (trim_idem website) (List.Forall_nil _))
      as (res1 & st1 & st2 & Hfirst & Hsecond & Hlog & Hsame).
    rewrite processScrapedEvents_trim in Hfirst, Hsecond.
    exists res1, st1, st2. repeat split; try assumption.
    eapply Forall2_impl; [exact Hsame|].
    intros d d' [-> | (_ & _ & [])]. left. reflexivity.
  - apply Htrimmed; [|exact Hbatch].
    apply Forall_cons in Hbatch as [[(Hset & _) Hsrc] _].
    rewrite <- Hsrc. exact (f_equal sourceWebsite Hset).
Qed.

Lemma reconcile_twice_is_stable_witness :
  wellFormed (events Sample.olderStore) /\
  NoDup (map originalEventUrl Sample.listing) /\
  Forall (fun b => canonical b /\ sourceWebsite b = Sample.site) Sample.listing /\
  exists res1 st1 st2,
    processScrapedEvents 1000 Sample.listing Sample.site Sample.olderStore =
      (Ok res1, st1) /\
    processScrapedEvents 2000 Sample.listing Sample.site st1 =
      (Ok (mkResult [] [] [] []), st2) /\
    changeLog st2 = changeLog st1 /\
    Forall2 (refreshed 2000 Sample.listing Sample.site) (events st1) (events st2).
Proof.
  assert (Hwf : wellFormed (events Sample.olderStore)).
  { split; [|split].
    - apply (bool_decide_unpack _). vm_compute. reflexivity.
    - apply (bool_decide_unpack _). vm_compute. reflexivity.
    - repeat (constructor; [vm_compute; reflexivity|]). constructor. }
  assert (Hnd : NoDup (map originalEventUrl Sample.listing)).
  { apply (bool_decide_unpack _). vm_compute. reflexivity. }
  assert (Hbatch : Forall (fun b => canonical b /\ sourceWebsite b = Sample.site)
                     Sample.listing).
  { repeat (constructor; [repeat split; vm_compute; reflexivity|]). constructor. }
  split; [exact Hwf | split; [exact Hnd | split; [exact Hbatch|]]].
  apply (reconcile_twice_is_stable 1000 2000 Sample.listing Sample.site
           Sample.olderStore Hwf Hnd Hbatch).
Defined.

End Idempotence.

Section ImportEvent.
Import Event Transition StatusManager.

Lemma findById_Some i coll e :
  findById i coll = Some e -> In e coll /\ _id e = i.
Proof.
  unfold findById. intros H. apply find_some in H as [Hin Heq].
  split; [exact Hin | apply Nat.eqb_eq, Heq].
Qed.

Lemma findById_first e coll :
  NoDup (map _id coll) -> In e coll -> findById (_id e) coll = Some e.
Proof.
  unfold findById. induction coll as [|d rest IH]; intros Hnd Hin; [destruct Hin|].
  cbn in Hnd. apply NoDup_cons in Hnd as [Hfirst Hnd]. cbn.
  destruct (Nat.eqb_spec (_id d) (_id e)) as [Heq|Hne].
  - destruct Hin as [-> | Hin]; [reflexivity|].
    exfalso. apply Hfirst. rewrite Heq. apply list_elem_of_In, in_map, Hin.
  - destruct Hin as [-> | Hin]; [congruence | apply IH; assumption].
Qed.

Lemma valid_to_imported s :
  valid (validateStatusTransition s IMPORTED) = negb (EventStatus_eqb s IMPORTED).
Proof. destruct s; reflexivity. Qed.

Lemma importEvent_stores now id userId notes st e :
  wellFormed (events st) ->
  findById id (events st) = Some e ->
  status e <> IMPORTED ->
  (forall n, notes = Some n -> (String.length (Js.trim n) <= 500)%nat) ->
  importEvent now id userId notes st =
    (mkImport true None,
     mkState (replace (importedEvent now userId notes e) (events st))
       (changeLog st ++
        [mkChange id (status e) IMPORTED "Event manually imported by admin" now
           (ImportMetadata userId notes)])).
Proof.
  intros Hwf Hfind Hst Hnotes.
  destruct (findById_Some _ _ _ Hfind) as [Hin Hid].
  unfold importEvent. rewrite Hfind, valid_to_imported.
  unfold EventStatus_eqb. rewrite bool_decide_eq_false_2 by exact Hst. cbn [negb].
  fold (notesAfterImport notes e).
  set (assigned := mkEvent (_id e) (doc e) IMPORTED (Some now) (Some userId)
                     (notesAfterImport notes e)).
  assert (He : validate e = Ok tt).
  { destruct Hwf as (_ & _ & Hv). rewrite Forall_forall in Hv.
    apply Hv, list_elem_of_In, Hin. }
  apply validate_ok in He as [Hdata Hold].
  assert (Hv : validate assigned = Ok tt).
  { apply validate_ok. split; [exact Hdata|]. cbn. unfold notesAfterImport.
    destruct notes as [n|]; [|exact Hold].
    destruct (Js.truthy n); [|exact Hold].
    unfold importNotesErrors, tooLong.
    specialize (Hnotes n eq_refl).
    destruct (Nat.ltb_spec 500 (String.length (Js.trim n))); [lia | reflexivity]. }
  rewrite (saveExisting_succeeds (events st) e assigned Hwf Hin eq_refl eq_refl Hv).
  rewrite preSave_id. cbn [_id assigned]. rewrite Hid. reflexivity.
Qed.

(** X1. A refused or failed [importEvent] changes nothing: whenever it
    answers [success: false] (unknown id, transition not allowed, or the
    save throws), the collection and the change log are as they were. *)
Theorem importEvent_failure_changes_nothing (now : Z) (id userId : nat)
        (notes : option string) (st : State) :
  success (fst (importEvent now id userId notes st)) = false ->
  snd (importEvent now id userId notes st) = st.
Proof.
  unfold importEvent. destruct (findById id (events st)) as [e|]; [|reflexivity].
  destruct (negb (valid (validateStatusTransition (status e) IMPORTED)));
    [reflexivity|].
  match goal with
  | |- context [saveExisting ?a ?c] =>
      destruct (saveExisting_cases a c) as [(err & x & -> & _) | (-> & _)]
  end.
  - intros _. destruct st; reflexivity.
  - cbn. discriminate.
Qed.

Lemma importEvent_failure_changes_nothing_witness :
  snd (importEvent 90 1 7 None Sample.importedStore) = Sample.importedStore.
Proof.
  apply (importEvent_failure_changes_nothing 90 1 7 None Sample.importedStore).
  vm_compute. reflexivity.
Defined.

(** X2. In a well-formed collection, importing an event that is not yet
    imported, with notes of at most 500 characters after trimming,
    succeeds: the event is stored with status imported, the import instant
    and the user; every other document stays as it was; and exactly one
    entry (previous status, imported) is appended to the change log. *)
Theorem importEvent_imports (now : Z) (id userId : nat) (notes : option string)
        (st : State) (e : IEvent) :
  wellFormed (events st) ->
  findById id (events st) = Some e ->
  status e <> IMPORTED ->
  (forall n, notes = Some n -> (String.length (Js.trim n) <= 500)%nat) ->
  let r := importEvent now id userId notes st in
  fst r = mkImport true None /\
  (exists stored,
      findById id (events (snd r)) = Some stored /\
      status stored = IMPORTED /\ importedAt stored = Some now /\
      importedBy stored = Some userId /\
      originalEventUrl (doc stored) = originalEventUrl (doc e) /\
      sourceWebsite (doc stored) = sourceWebsite (doc e)) /\
  (forall d, In d (events st) -> _id d <> id -> In d (events (snd r))) /\
  map _id (events (snd r)) = map _id (events st) /\
  changeLog (snd r) =
    changeLog st ++
    [mkChange id (status e) IMPORTED "Event manually imported by admin" now
       (ImportMetadata userId notes)].
Proof.
  intros Hwf Hfind Hst Hnotes r. subst r.
  rewrite (importEvent_stores now id userId notes st e Hwf Hfind Hst Hnotes).
  destruct (findById_Some _ _ _ Hfind) as [Hin Hid].
  cbn [fst snd events changeLog].
  split; [reflexivity|]. split; [|split; [|split; [|reflexivity]]].
  - exists (importedEvent now userId notes e).
    split; [|repeat split].
    + rewrite <- Hid.
      change (_id e) with (_id (importedEvent now userId notes e)).
      apply findById_first.
      * rewrite replace_ids. apply Hwf.
      * apply replace_self. apply hasId_In. cbn. apply in_map, Hin.
    + apply (preSave_url e).
    + apply (preSave_source e).
  - intros d Hd Hne. apply replace_other; [exact Hd|]. cbn. congruence.
  - apply replace_ids.
Qed.

Lemma importEvent_imports_witness :
  fst (importEvent 90 2 7 (Some " checked ") Sample.olderStore) =
    mkImport true None /\
  map _id (events (snd (importEvent 90 2 7 (Some " checked ") Sample.olderStore)))
    = [1; 2]%nat.
Proof.
  assert (Hwf : wellFormed (events Sample.olderStore)).
  { split; [|split].
    - apply (bool_decide_unpack _). vm_compute. reflexivity.
    - apply (bool_decide_unpack _). vm_compute. reflexivity.
    - repeat (constructor; [vm_compute; reflexivity|]). constructor. }
  destruct (importEvent_imports 90 2 7 (Some " checked ") Sample.olderStore
              (mkEvent 2 (Sample.scraped "Craft market"
                            "https://events.example/e/d" "Stalls" [])
                 NEW None None None) Hwf eq_refl)
    as (Hok & _ & _ & Hids & _).
  - discriminate.
  - intros n [= <-]. vm_compute. lia.
  - split; [exact Hok | exact Hids].
Defined.

(** X3. An import cannot be repeated: after a successful [importEvent], a
    second one for the same event, by any user with any notes, is refused
    with the reason of the transition table and leaves the store and the
    log as the first import left them. *)
Theorem importEvent_twice_refused (now1 now2 : Z) (id user1 user2 : nat)
        (notes1 notes2 : option string) (st : State) (e : IEvent) :
  wellFormed (events st) ->
  findById id (events st) = Some e ->
  status e <> IMPORTED ->
  (forall n, notes1 = Some n -> (String.length (Js.trim n) <= 500)%nat) ->
  let st1 := snd (importEvent now1 id user1 notes1 st) in
  importEvent now2 id user2 notes2 st1 =
    (mkImport false
       (Some "Invalid transition from imported to imported. Allowed transitions: "),
     st1).
Proof.
  intros Hwf Hfind Hst Hnotes st1. subst st1.
  rewrite (importEvent_stores now1 id user1 notes1 st e Hwf Hfind Hst Hnotes).
  destruct (findById_Some _ _ _ Hfind) as [Hin Hid].
  cbn [snd]. unfold importEvent at 1. cbn [events].
  assert (Hfound : findById id (replace (importedEvent now1 user1 notes1 e)
                                  (events st)) =
                   Some (importedEvent now1 user1 notes1 e)).
  { rewrite <- Hid.
    change (_id e) with (_id (importedEvent now1 user1 notes1 e)).
    apply findById_first.
    - rewrite replace_ids. apply Hwf.
    - apply replace_self. apply hasId_In. cbn. apply in_map, Hin. }
  rewrite Hfound. reflexivity.
Qed.

Lemma importEvent_twice_refused_witness :
  success
    (fst (importEvent 95 2 8 None
            (snd (importEvent 90 2 7 None Sample.olderStore)))) = false.
Proof.
  assert (Hwf : wellFormed (events Sample.olderStore)).
  { split; [|split].
    - apply (bool_decide_unpack _). vm_compute. reflexivity.
    - apply (bool_decide_unpack _). vm_compute. reflexivity.
    - repeat (constructor; [vm_compute; reflexivity|]). constructor. }
  rewrite (importEvent_twice_refused 90 95 2 7 8 None None Sample.olderStore
             (mkEvent 2 (Sample.scraped "Craft market"
                           "https://events.example/e/d" "Stalls" [])
                NEW None None None) Hwf eq_refl).
  - reflexivity.
  - discriminate.
  - discriminate.
Defined.

End ImportEvent.

Section ChangeLogQueries.
Import Event StatusManager.

Local Abbreviation notOlder :=
  (fun a b : StatusChangeLog => timestamp b <= timestamp a).

Lemma insertByTimestamp_perm c l : insertByTimestamp c l ≡ₚ c :: l.
Proof.
  induction l as [|d rest IH]; cbn; [reflexivity|].
  destruct (timestamp d <=? timestamp c); [reflexivity|].
  rewrite IH. apply Permutation_swap.
Qed.

Lemma sortNewestFirst_perm l : sortNewestFirst l ≡ₚ l.
Proof.
  induction l as [|c rest IH]; cbn; [reflexivity|].
  rewrite insertByTimestamp_perm, IH. reflexivity.
Qed.

Lemma insertByTimestamp_sorted c l :
  StronglySorted notOlder l -> StronglySorted notOlder (insertByTimestamp c l).
Proof.
  induction 1 as [|d rest Hs IH Hd]; cbn; [repeat constructor|].
  destruct (Z.leb_spec (timestamp d) (timestamp c)) as [Hle|Hlt].
  - constructor; [constructor; assumption|].
    constructor; [exact Hle|].
    eapply Forall_impl; [exact Hd|]. cbn. intros x Hx. lia.
  - constructor; [exact IH|].
    rewrite insertByTimestamp_perm. constructor; [cbn; lia | exact Hd].
Qed.

Lemma sortNewestFirst_sorted l : StronglySorted notOlder (sortNewestFirst l).
Proof.
  induction l as [|c rest IH]; cbn; [constructor|].
  apply insertByTimestamp_sorted, IH.
Qed.

Lemma insertByTimestamp_stable t c l :
  List.filter (fun x => timestamp x =? t) (insertByTimestamp c l) =
  List.filter (fun x => timestamp x =? t) (c :: l).
Proof.
  induction l as [|d rest IH]; [reflexivity|]. cbn [insertByTimestamp].
  destruct (Z.leb_spec (timestamp d) (timestamp c)) as [Hle|Hlt]; [reflexivity|].
  cbn [List.filter] in *. rewrite IH.
  destruct (Z.eqb_spec (timestamp d) t), (Z.eqb_spec (timestamp c) t);
    try reflexivity. lia.
Qed.

Lemma sortNewestFirst_stable t l :
  List.filter (fun x => timestamp x =? t) (sortNewestFirst l) =
  List.filter (fun x => timestamp x =? t) l.
Proof.
  induction l as [|c rest IH]; [reflexivity|].
  cbn [sortNewestFirst fold_right]. rewrite insertByTimestamp_stable.
  cbn [List.filter]. unfold sortNewestFirst in IH. rewrite IH. reflexivity.
Qed.

(** X4. [getStatusChangeLogs] without a limit returns the whole log newest
    first, entries of one instant in the order they were logged. A limit
    of 0 is no limit. A positive limit n returns the first n of that list
    (all of it when n exceeds its length), so no omitted entry is newer
    than a returned one. A negative limit -k leaves out the k oldest. *)
Theorem getStatusChangeLogs_newest_first (logs : list StatusChangeLog) :
  let sorted := getStatusChangeLogs None logs in
  sorted ≡ₚ logs /\
  StronglySorted (fun a b => timestamp b <= timestamp a) sorted /\
  (forall t, List.filter (fun c => timestamp c =? t) sorted =
             List.filter (fun c => timestamp c =? t) logs) /\
  getStatusChangeLogs (Some 0) logs = sorted /\
  (forall n : positive,
      getStatusChangeLogs (Some (Z.pos n)) logs = take (Pos.to_nat n) sorted) /\
  (forall k : positive,
      getStatusChangeLogs (Some (Z.neg k)) logs =
        take (length logs - Pos.to_nat k) sorted) /\
  (forall (n : nat) returned omitted,
      In returned (take n sorted) -> In omitted (drop n sorted) ->
      timestamp omitted <= timestamp returned).
Proof.
  cbn zeta. unfold getStatusChangeLogs.
  pose proof (sortNewestFirst_perm logs) as Hperm.
  pose proof (sortNewestFirst_sorted logs) as Hsorted.
  assert (Hlen : length (sortNewestFirst logs) = length logs)
    by (rewrite Hperm; reflexivity).
  split; [exact Hperm|]. split; [exact Hsorted|].
  split; [intros t; apply sortNewestFirst_stable|]. split; [reflexivity|].
  split; [|split].
  - intros n. cbn [Z.eqb]. unfold slice0. cbn [Z.ltb Z.compare].
    destruct (Z.min_spec (Z.pos n) (Z.of_nat (length (sortNewestFirst logs))))
      as [[_ ->] | [Hge ->]].
    + rewrite Z2Nat.inj_pos. reflexivity.
    + rewrite Nat2Z.id, !take_ge by lia. reflexivity.
  - intros k. cbn [Z.eqb]. unfold slice0. cbn [Z.ltb Z.compare].
    f_equal. rewrite Hlen. lia.
  - intros n returned omitted Hr Ho.
    rewrite <- (take_drop n (sortNewestFirst logs)) in Hsorted.
    apply (StronglySorted_app_1_elem_of _ _ _ returned omitted Hsorted);
      apply list_elem_of_In; assumption.
Qed.

Lemma getStatusChangeLogs_newest_first_witness :
  let older := mkChange 1 NEW UPDATED "Event data changed during scraping" 10
                 (SourceMetadata Sample.site) in
  let newer := mkChange 2 NEW INACTIVE "Event no longer found on source website"
                 20 (SourceMetadata Sample.site) in
  timestamp older <= timestamp newer /\
  getStatusChangeLogs (Some 1) [older; newer] = [newer].
Proof.
  cbn zeta. split.
  - apply (proj2 (proj2 (proj2 (proj2 (proj2 (proj2
             (getStatusChangeLogs_newest_first
                [mkChange 1 NEW UPDATED "Event data changed during scraping" 10
                   (SourceMetadata Sample.site);
                 mkChange 2 NEW INACTIVE
                   "Event no longer found on source website" 20
                   (SourceMetadata Sample.site)])))))) 1%nat).
    + left. reflexivity.
    + left. reflexivity.
  - reflexivity.
Defined.

Lemma EventStatus_eqb_spec a b : reflect (a = b) (EventStatus_eqb a b).
Proof. apply bool_decide_reflect. Qed.

Lemma countInGroup_lookup s groups s' :
  NoDup (map fst groups) ->
  default 0 (snd <$> List.find (fun g => EventStatus_eqb (fst g) s')
                       (countInGroup s groups)) =
  default 0 (snd <$> List.find (fun g => EventStatus_eqb (fst g) s') groups) +
  (if EventStatus_eqb s' s then 1 else 0).
Proof.
  induction groups as [|[s0 n] rest IH]; intros Hnd; cbn.
  - destruct (EventStatus_eqb_spec s s'), (EventStatus_eqb_spec s' s);
      cbn; congruence || lia.
  - cbn in Hnd. apply NoDup_cons in Hnd as [Hfirst Hnd].
    destruct (EventStatus_eqb_spec s0 s) as [->|Hne]; cbn.
    + destruct (EventStatus_eqb_spec s s') as [->|Hne'].
      * destruct (EventStatus_eqb_spec s' s'); [cbn; reflexivity | congruence].
      * destruct (EventStatus_eqb_spec s' s); [congruence | lia].
    + destruct (EventStatus_eqb_spec s0 s') as [->|Hne'].
      * destruct (EventStatus_eqb_spec s' s); [congruence | cbn; lia].
      * apply IH, Hnd.
Qed.

Lemma countInGroup_In s groups g :
  In g (countInGroup s groups) -> fst g = s \/ In (fst g) (map fst groups).
Proof.
  induction groups as [|[s2 n2] rest IH]; cbn.
  - intros [<-|[]]. left. reflexivity.
  - destruct (EventStatus_eqb s2 s).
    + intros [<- | Hin]; [right; left; reflexivity|].
      right. right. apply in_map, Hin.
    + intros [<- | Hin]; [right; left; reflexivity|].
      destruct (IH Hin); auto.
Qed.

Lemma countInGroup_keys s groups :
  NoDup (map fst groups) -> NoDup (map fst (countInGroup s groups)).
Proof.
  induction groups as [|[s0 n] rest IH]; intros Hnd; cbn.
  - apply NoDup_singleton.
  - cbn in Hnd. apply NoDup_cons in Hnd as [Hfirst Hnd].
    destruct (EventStatus_eqb_spec s0 s); cbn.
    + apply NoDup_cons. split; assumption.
    + apply NoDup_cons. split; [|apply IH, Hnd].
      intros Hin. apply list_elem_of_In, in_map_iff in Hin as (g & Heq & Hin).
      destruct (countInGroup_In _ _ _ Hin) as [Hs | Hin']; [congruence|].
      apply Hfirst, list_elem_of_In. rewrite <- Heq. exact Hin'.
Qed.

Lemma groupByStatus_from coll : forall groups s',
  NoDup (map fst groups) ->
  let result := fold_left (fun groups e => countInGroup (status e) groups)
                  coll groups in
  NoDup (map fst result) /\
  default 0 (snd <$> List.find (fun g => EventStatus_eqb (fst g) s') result) =
  default 0 (snd <$> List.find (fun g => EventStatus_eqb (fst g) s') groups) +
  Z.of_nat (length (List.filter (fun e => EventStatus_eqb s' (status e)) coll)).
Proof.
  induction coll as [|e rest IH]; intros groups s' Hnd; cbn zeta.
  - cbn. split; [exact Hnd | lia].
  - cbn [fold_left List.filter].
    destruct (IH (countInGroup (status e) groups) s'
                (countInGroup_keys _ _ Hnd)) as [Hkeys Hcount].
    split; [exact Hkeys|]. rewrite Hcount, countInGroup_lookup by exact Hnd.
    destruct (EventStatus_eqb s' (status e)); cbn [length]; lia.
Qed.

Lemma fill_statistics groups : forall (stats : StatusStatistics) s',
  NoDup (map fst groups) ->
  fold_left
    (fun (stats : StatusStatistics) '(s, count) =>
       fun s' => if EventStatus_eqb s' s then count else stats s')
    groups stats s' =
  match List.find (fun g => EventStatus_eqb (fst g) s') groups with
  | Some g => snd g
  | None => stats s'
  end.
Proof.
  induction groups as [|[s0 n] rest IH]; intros stats s' Hnd; [reflexivity|].
  cbn in Hnd. apply NoDup_cons in Hnd as [Hfirst Hnd].
  cbn [fold_left List.find fst snd]. rewrite IH by exact Hnd.
  destruct (EventStatus_eqb_spec s0 s') as [->|Hne].
  - destruct (List.find _ rest) as [g|] eqn:Hfind.
    + apply find_some in Hfind as [Hin Heq].
      destruct (EventStatus_eqb_spec (fst g) s') as [Hg|]; [|discriminate].
      exfalso. apply Hfirst.
      rewrite <- Hg. apply list_elem_of_In, in_map, Hin.
    + destruct (EventStatus_eqb_spec s' s'); [reflexivity | congruence].
  - destruct (List.find _ rest); [reflexivity|].
    destruct (EventStatus_eqb_spec s' s0); [congruence | reflexivity].
Qed.

(** X5. [getStatusStatistics] gives, for each status, the number of
    documents of the collection with that status (0 for a status that does
    not occur), so the four numbers add up to the size of the collection. *)
Theorem getStatusStatistics_counts (coll : Collection) :
  (forall s,
      getStatusStatistics coll s =
      Z.of_nat (length (List.filter (fun e => EventStatus_eqb s (status e)) coll))) /\
  getStatusStatistics coll NEW + getStatusStatistics coll UPDATED +
  getStatusStatistics coll INACTIVE + getStatusStatistics coll IMPORTED =
  Z.of_nat (length coll).
Proof.
  assert (Hcount : forall s,
             getStatusStatistics coll s =
             Z.of_nat (length (List.filter
                                 (fun e => EventStatus_eqb s (status e)) coll))).
  { intros s. unfold getStatusStatistics, groupByStatus.
    destruct (groupByStatus_from coll [] s (NoDup_nil_2)) as [Hkeys Hfind].
    cbn zeta in Hkeys, Hfind. rewrite fill_statistics by exact Hkeys.
    cbn [List.find fmap option_fmap option_map default] in Hfind.
    rewrite Z.add_0_l in Hfind. rewrite <- Hfind.
    destruct (List.find _ _); reflexivity. }
  split; [exact Hcount|]. rewrite !Hcount. clear Hcount.
  induction coll as [|e rest IH]; [reflexivity|].
  cbn [List.filter].
  destruct (status e);
    repeat match goal with
           | |- context [EventStatus_eqb ?a ?b] =>
               destruct (EventStatus_eqb_spec a b); [try discriminate|try congruence]
           end;
    cbn [length] in *; lia.
Qed.

End ChangeLogQueries.

Section PassInvariants.
Import Event StatusManager.

Context (I : Collection -> Prop).
Hypothesis saveNew_keeps : forall e coll, I coll -> I (snd (saveNew e coll)).
Hypothesis saveExisting_keeps_I :
  forall e coll, I coll -> I (snd (saveExisting e coll)).

Lemma detectOne_invariant now m scrapedEvent p det :
  I (collection p) -> I (collection (snd (detectOne now m scrapedEvent p det))).
Proof.
  intros Hp. unfold detectOne.
  destruct (lookupExisting m (existingEvents p) (originalEventUrl scrapedEvent))
    as [[i x]|]; [|exact Hp].
  destruct (detectEventChanges x scrapedEvent); [exact Hp|].
  match goal with
  | |- context [saveExisting ?e ?c] =>
      pose proof (saveExisting_keeps_I e c Hp) as Hk;
      destruct (saveExisting e c) as [[inMemory saved] coll']
  end.
  exact Hk.
Qed.

Lemma detectNewAndUpdated_invariant now m scraped : forall p det,
  I (collection p) ->
  I (collection (snd (detectNewAndUpdated now m scraped p det))).
Proof.
  induction scraped as [|b rest IH]; intros p det Hp; [exact Hp|].
  cbn [detectNewAndUpdated].
  pose proof (detectOne_invariant now m b p det Hp) as Hone.
  destruct (detectOne now m b p det) as [[det'|err] p']; [|exact Hone].
  apply IH, Hone.
Qed.

Lemma applyStatusChanges_invariant now det p :
  I (collection p) -> I (collection (fst (applyStatusChanges now det p))).
Proof.
  intros Hp. unfold applyStatusChanges, applyInactive, applyUpdated, applyNew.
  apply (fold_left_invariant (applyInactiveOne now)
           (fun acc => I (collection (fst acc))) (fun _ => True));
    [| apply Forall_True |].
  { intros [q changes] i _ Hq. unfold applyInactiveOne. cbn in Hq.
    destruct (existingEvents q !! i) as [x|]; [|exact Hq].
    match goal with
    | |- context [saveExisting ?e ?c] =>
        pose proof (saveExisting_keeps_I e c Hq) as Hk;
        destruct (saveExisting e c) as [[inMemory [[]|err]] coll']
    end; exact Hk. }
  apply (fold_left_invariant (applyUpdatedOne now)
           (fun acc => I (collection (fst acc))) (fun _ => True));
    [| apply Forall_True |].
  { intros [q changes] [i updated] _ Hq. unfold applyUpdatedOne. cbn in Hq.
    destruct (existingEvents q !! i) as [x|]; [|exact Hq].
    match goal with
    | |- context [saveExisting ?e ?c] =>
        pose proof (saveExisting_keeps_I e c Hq) as Hk;
        destruct (saveExisting e c) as [[inMemory [[]|err]] coll']
    end; exact Hk. }
  apply (fold_left_invariant (applyNewOne now)
           (fun acc => I (collection (fst acc))) (fun _ => True));
    [| apply Forall_True | exact Hp].
  intros [q changes] data _ Hq. unfold applyNewOne. cbn in Hq.
  match goal with
  | |- context [saveNew ?e ?c] =>
      pose proof (saveNew_keeps e c Hq) as Hk;
      destruct (saveNew e c) as [[saved [[]|err]] coll']
  end; exact Hk.
Qed.

Lemma processScrapedEvents_invariant now scrapedEvents website st :
  I (events st) ->
  I (events (snd (processScrapedEvents now scrapedEvents website st))).
Proof.
  intros Hst. unfold processScrapedEvents, detect.
  match goal with
  | |- context [detectNewAndUpdated ?n ?m ?s ?p ?d] =>
      pose proof (detectNewAndUpdated_invariant n m s p d Hst) as Hloop;
      destruct (detectNewAndUpdated n m s p d) as [[det|err] p1]
  end; [|exact Hloop].
  cbn in Hloop.
  match goal with
  | |- context [applyStatusChanges ?n ?d ?p] =>
      pose proof (applyStatusChanges_invariant n d p Hloop) as Happly;
      destruct (applyStatusChanges n d p) as [p2 changes]
  end.
  exact Happly.
Qed.

Lemma importEvent_invariant now id userId notes st :
  I (events st) -> I (events (snd (importEvent now id userId notes st))).
Proof.
  intros Hst. unfold importEvent.
  destruct (findById id (events st)) as [e|]; [|exact Hst].
  destruct (negb (Transition.valid
                    (Transition.validateStatusTransition (status e) IMPORTED)));
    [exact Hst|].
  match goal with
  | |- context [saveExisting ?a ?c] =>
      pose proof (saveExisting_keeps_I a c Hst) as Hk;
      destruct (saveExisting a c) as [[inMemory [[]|err]] coll']
  end; exact Hk.
Qed.

End PassInvariants.

Section StoreInvariant.
Import Event StatusManager.

(** X6. The collection stays well formed: whatever the batch, the source,
    the event id or the notes, a reconciliation pass and an import leave a
    collection with unique ids, unique (url, source) keys and only valid
    documents as such a collection, also when the call fails. *)
Theorem store_stays_wellFormed (now : Z) (st : State) :
  wellFormed (events st) ->
  (forall scrapedEvents website,
      wellFormed
        (events (snd (processScrapedEvents now scrapedEvents website st)))) /\
  (forall id userId notes,
      wellFormed (events (snd (importEvent now id userId notes st)))).
Proof.
  intros Hwf. split.
  - intros scrapedEvents website.
    apply (processScrapedEvents_invariant wellFormed);
      [apply saveNew_wellFormed | apply saveExisting_wellFormed | exact Hwf].
  - intros id userId notes.
    apply (importEvent_invariant wellFormed);
      [apply saveExisting_wellFormed | exact Hwf].
Qed.

Lemma store_stays_wellFormed_witness :
  wellFormed
    (events (snd (processScrapedEvents 1000 Sample.capitalTagBatch Sample.site
                    Sample.olderStore))).
Proof.
  apply (proj1 (store_stays_wellFormed 1000 Sample.olderStore
                  ltac:(split; [|split];
                        [apply (bool_decide_unpack _); vm_compute; reflexivity
                        |apply (bool_decide_unpack _); vm_compute; reflexivity
                        |repeat (constructor; [vm_compute; reflexivity|]);
                         constructor]))).
Defined.

(** X8. Reconciling an empty batch retires the source: on a well-formed
    collection the pass succeeds, and afterwards every document of that
    source (the documents stored under the source name as the query takes
    it, trimmed) is inactive or imported. *)
Theorem empty_batch_retires_source (now : Z) (website : string)
        (coll0 : Collection) (logs : list StatusChangeLog) :
  wellFormed coll0 ->
  exists res st1,
    processScrapedEvents now [] website (mkState coll0 logs) = (Ok res, st1) /\
    newEvents res = [] /\ updatedEvents res = [] /\
    forall e, In e (events st1) -> sourceWebsite (doc e) = Js.trim website ->
              status e = INACTIVE \/ status e = IMPORTED.
Proof.
  intros Hwf.
  destruct (first_pass_reconciles now (Js.trim website) coll0 []
              (trim_idem website) Hwf
              ltac:(constructor) ltac:(constructor) logs)
    as (res & st1 & Hpass & _ & _ & Hrest).
  rewrite processScrapedEvents_trim in Hpass.
  exists res, st1. split; [exact Hpass|].
  assert (Hres : newEvents res = [] /\ updatedEvents res = []).
  { revert Hpass. unfold processScrapedEvents, detect.
    cbn [detectNewAndUpdated noDetection det_new det_updated].
    destruct (applyStatusChanges _ _ _) as [p' changes].
    intros [= <- _]. split; reflexivity. }
  destruct Hres as [Hn Hu]. split; [exact Hn|]. split; [exact Hu|].
  intros e He Hsrc. destruct (Hrest e He Hsrc) as [[] | Ht]. exact Ht.
Qed.

Lemma empty_batch_retires_source_witness :
  exists res st1,
    processScrapedEvents 1000 [] Sample.site Sample.olderStore = (Ok res, st1) /\
    map status (events st1) = [INACTIVE; INACTIVE].
Proof.
  destruct (empty_batch_retires_source 1000 Sample.site
              (events Sample.olderStore) []) as (res & st1 & Hpass & _).
  - split; [|split].
    + apply (bool_decide_unpack _). vm_compute. reflexivity.
    + apply (bool_decide_unpack _). vm_compute. reflexivity.
    + repeat (constructor; [vm_compute; reflexivity|]). constructor.
  - exists res, st1. split; [exact Hpass|].
    change (mkState (events Sample.olderStore) []) with Sample.olderStore in Hpass.
    replace st1 with
      (snd (processScrapedEvents 1000 [] Sample.site Sample.olderStore))
      by (rewrite Hpass; reflexivity).
    vm_compute. reflexivity.
Defined.

End StoreInvariant.

Section OtherSources.
Import Event Transition StatusManager.

Context (now : Z) (website : string) (other : IEvent) (coll0 : Collection).
Hypothesis coll0_ids : NoDup (map _id coll0).
Hypothesis other_stored : In other coll0.
Hypothesis other_source : sourceWebsite (doc other) <> Js.trim website.

Local Abbreviation existing0 := (findBySource website coll0).

Lemma every_index_safe i : safeIndex other existing0 i.
Proof.
  apply (safeIndex_of_differs website other coll0 coll0_ids other_stored).
  intros x0 Hx0 ->. apply existing0_stored in Hx0 as [_ Hsrc].
  apply other_source, Hsrc.
Qed.

Lemma detectNewAndUpdated_other scraped : forall p det,
  In other (collection p) ->
  sameIds existing0 (existingEvents p) ->
  let r := detectNewAndUpdated now (indexEvents 0 existing0 ∅) scraped p det in
  In other (collection (snd r)) /\ sameIds existing0 (existingEvents (snd r)).
Proof.
  induction scraped as [|scrapedEvent rest IH]; intros p det Hin Hs.
  - cbn. split; assumption.
  - cbn [detectNewAndUpdated]. unfold detectOne.
    destruct (lookupExisting (indexEvents 0 existing0 ∅) (existingEvents p)
                (originalEventUrl scrapedEvent)) as [[i x]|] eqn:Hlook.
    + destruct (lookupExisting_Some _ _ _ _ _ _ eq_refl Hlook)
        as (Hx & x0 & Hx0 & Hk).
      destruct (detectEventChanges x scrapedEvent); [apply IH; assumption|].
      match goal with
      | |- context [saveExisting ?e ?c] =>
          pose proof (saveExisting_inMemory e c) as (Hid' & _);
          pose proof (saveExisting_keeps other e c) as Hkeep;
          destruct (saveExisting e c) as [[inMemory saved] coll']
      end; cbn in Hid', Hkeep.
      destruct (Forall2_lookup_r _ _ _ _ _ Hs Hx) as (x0' & Hx0' & Hid0).
      assert (Hin' : In other coll').
      { apply Hkeep; [|exact Hin]. rewrite Hid0.
        apply (every_index_safe i), Hx0'. }
      assert (Hs' : sameIds existing0 (<[i := inMemory]> (existingEvents p))).
      { apply (sameIds_insert website coll0 _ i x inMemory Hs Hx). exact Hid'. }
      destruct saved as [[]|err]; [apply IH; assumption|].
      cbn. split; assumption.
    + apply IH; assumption.
Qed.

(** X7. A reconciliation pass for one source leaves the documents of every
    other source alone: in a collection with unique ids, a document whose
    [sourceWebsite] differs from the name of the source being reconciled,
    trimmed as the query takes it, is still stored unchanged after the
    pass, is not among the updated or inactive events of the result, and
    no appended change-log entry is about it. *)
Theorem other_sources_untouched (scrapedEvents : list EventData)
        (logs0 : list StatusChangeLog) :
  let r := processScrapedEvents now scrapedEvents website
             (mkState coll0 logs0) in
  In other (events (snd r)) /\
  (exists cs, changeLog (snd r) = logs0 ++ cs /\
              Forall (fun c => eventId c <> _id other) cs) /\
  (forall res, fst r = Ok res ->
     (forall entry, In entry (updatedEvents res) -> _id (fst entry) <> _id other) /\
     (forall x, In x (inactiveEvents res) -> _id x <> _id other)).
Proof.
  cbn zeta. unfold processScrapedEvents, detect. cbn [events changeLog].
  assert (Hs0 : sameIds existing0 existing0).
  { apply Forall2_same_length_lookup. split; [reflexivity|].
    intros i x y Hx Hy. rewrite Hx in Hy. injection Hy as ->. reflexivity. }
  pose proof (detectNewAndUpdated_other scrapedEvents
                (mkPass existing0 coll0 logs0) noDetection other_stored Hs0)
    as (Hin & Hs).
  pose proof (detectNewAndUpdated_frame now (indexEvents 0 existing0 ∅)
                scrapedEvents (mkPass existing0 coll0 logs0) noDetection)
    as [Hl _].
  destruct (detectNewAndUpdated now (indexEvents 0 existing0 ∅) scrapedEvents
              (mkPass existing0 coll0 logs0) noDetection) as [[det|err] p];
    cbn in Hin, Hs, Hl |- *.
  - set (det' := mkDetection (det_new det) (det_updated det)
                   (detectInactive (indexScraped scrapedEvents)
                      (existingEvents p))).
    pose proof (applyStatusChanges_guarded now website other coll0 det' p Hin Hs
                  ltac:(apply Forall_forall; intros; apply every_index_safe)
                  ltac:(apply Forall_forall; intros; apply every_index_safe))
      as (Hin' & Hs' & cs & Hcs & Hlogs & Hall).
    destruct (applyStatusChanges now det' p) as [p' changes].
    cbn in *. subst changes.
    split; [exact Hin' | split].
    + exists cs. rewrite Hlogs, Hl. auto.
    + intros res [= <-]. cbn. split.
      * intros entry Hentry.
        apply list_elem_of_In, list_elem_of_omap in Hentry
          as ([i updated] & Hi & Hlook).
        destruct (existingEvents p' !! i) as [x|] eqn:Hx; [|discriminate].
        cbn in Hlook. injection Hlook as <-. cbn.
        destruct (sameIds_lookup _ _ _ _ _ Hs' Hx) as (x0 & Hx0 & ->).
        apply (every_index_safe i x0 Hx0).
      * intros x Hx. apply list_elem_of_In, list_elem_of_omap in Hx
          as (i & Hi & Hlook).
        destruct (sameIds_lookup _ _ _ _ _ Hs' Hlook) as (x0 & Hx0 & ->).
        apply (every_index_safe i x0 Hx0).
  - split; [exact Hin | split].
    + exists []. rewrite app_nil_r. split; [exact Hl | constructor].
    + discriminate.
Qed.

End OtherSources.

Section OtherSourcesWitness.
Import Event StatusManager.

Lemma other_sources_untouched_witness :
  let kept := mkEvent 2 (Sample.scraped "Craft market"
                           "https://events.example/e/d" "Stalls" [])
                NEW None None None in
  In kept
     (events (snd (processScrapedEvents 1000 Sample.listing
                     "https://elsewhere.example" Sample.olderStore))).
Proof.
  cbn zeta.
  apply (other_sources_untouched 1000 "https://elsewhere.example"
           (mkEvent 2 (Sample.scraped "Craft market"
                         "https://events.example/e/d" "Stalls" [])
              NEW None None None)
           (events Sample.olderStore)).
  - apply (bool_decide_unpack _). vm_compute. reflexivity.
  - right. left. reflexivity.
  - vm_compute. discriminate.
Defined.

End OtherSourcesWitness.

Section EngineFacts.
Import Event StatusManager ErrorHandler Engine.

(** X9. A scrape that yields no event leaves the store alone: when the
    fetch fails, the extraction throws, or no element gives an event,
    [scrapeSourceWithStatusManagement] returns the result without change
    detection and changes neither the events collection nor the change
    log; no stored event of the source is marked inactive. *)
Theorem scrape_without_events_leaves_store (source : ScrapingSourceConfig)
        (w : World) :
  fst (outcomeOf source (w_now w) (w_web w source (w_now w))) = [] ->
  exists result w',
    scrapeSourceWithStatusManagement source w = (Ok result, w') /\
    events result = [] /\ changeDetection result = None /\
    w_events w' = w_events w /\ w_changeLog w' = w_changeLog w.
Proof.
  intros Hempty. unfold scrapeSourceWithStatusManagement, bind.
  rewrite scrapeSource_spec. cbn zeta.
  set (out := outcomeOf source (w_now w) (w_web w source (w_now w))) in *.
  simpl. eexists. eexists. split; [rewrite Hempty; reflexivity|].
  repeat split.
Qed.

Lemma scrape_without_events_leaves_store_witness :
  exists result w',
    scrapeSourceWithStatusManagement Sample.broken
      (mkWorld 1000 (StatusManager.events Sample.olderStore) [] [] ∅ Sample.web)
      = (Ok result, w') /\
    w_events w' = StatusManager.events Sample.olderStore.
Proof.
  destruct (scrape_without_events_leaves_store Sample.broken
              (mkWorld 1000 (StatusManager.events Sample.olderStore) [] [] ∅
                 Sample.web) eq_refl)
    as (result & w' & Hrun & _ & _ & Hev & _).
  exists result, w'. split; [exact Hrun | exact Hev].
Defined.

Local Abbreviation allClosed :=
  (map_Forall (fun (_ : string) cb =>
                 CircuitBreaker.state cb = CircuitBreaker.CLOSED)).

Lemma onSuccess_closed cb :
  CircuitBreaker.state cb = CircuitBreaker.CLOSED ->
  CircuitBreaker.state (CircuitBreaker.onSuccess cb) = CircuitBreaker.CLOSED.
Proof. intros Hs. unfold CircuitBreaker.onSuccess. rewrite Hs. reflexivity. Qed.

Lemma scrapeSourceResilient_closed source w :
  allClosed (w_breakers w) ->
  exists result w',
    scrapeSourceResilient source w = (Ok result, w') /\
    ownOutcome (w_web w) source result /\
    w_web w' = w_web w /\ allClosed (w_breakers w').
Proof.
  intros Hall. unfold scrapeSourceResilient, bind, getCircuitBreaker.
  set (nm := "scraper-" +:+ name source).
  assert (Hexec : forall cb w1,
            w_web w1 = w_web w -> allClosed (w_breakers w1) ->
            CircuitBreaker.state cb = CircuitBreaker.CLOSED ->
            exists result w',
              (let '(r, cb', w2) :=
                 CircuitBreaker.execute w_now
                   (withRetry (scrapeSourceWithStatusManagement source) 2
                      [2000; 5000]) cb w1 in
               (r, putCircuitBreaker nm cb' w2)) = (Ok result, w') /\
              ownOutcome (w_web w) source result /\
              w_web w' = w_web w /\ allClosed (w_breakers w')).
  { intros cb w1 Hweb Hreg Hcb. unfold CircuitBreaker.execute. rewrite Hcb.
    destruct (scrapeSourceWithStatusManagement_own source w1)
      as (result & w2 & Hrun & Hown & Hweb2 & Hbr2).
    pose proof (withRetryFrom_ok _ 0 2 [2000; 5000] _ _ _ Hrun) as Hretry.
    fold (withRetry (scrapeSourceWithStatusManagement source) 2 [2000; 5000])
      in Hretry.
    rewrite Hretry. rewrite Hweb in Hown.
    eexists. eexists. split; [reflexivity|]. split; [exact Hown|].
    split; [cbn; congruence|]. cbn. rewrite Hbr2.
    apply map_Forall_insert_2; [apply onSuccess_closed, Hcb | exact Hreg]. }
  destruct (w_breakers w !! nm) as [cb|] eqn:Hlook.
  - apply Hexec; [reflexivity | exact Hall | apply (Hall nm cb Hlook)].
  - apply Hexec; [reflexivity | | reflexivity].
    cbn. apply map_Forall_insert_2; [reflexivity | exact Hall].
Qed.

(** X10. The breakers of the scraper never open through scraping: since a
    scrape reports its failures in its result instead of throwing, every
    call through a CLOSED breaker counts as a success. From a registry
    whose breakers are all CLOSED (a fresh process has none),
    [scrapeAllResilient] returns for every source its own scrape result,
    never the failed result of an open circuit, and leaves every breaker
    CLOSED, whatever the sites answer. *)
Theorem resilient_scraping_never_opens_a_breaker
        (sources : list ScrapingSourceConfig) (w : World) :
  map_Forall (fun (_ : string) cb =>
                CircuitBreaker.state cb = CircuitBreaker.CLOSED)
    (w_breakers w) ->
  exists results w',
    scrapeAllResilient sources w = (Ok results, w') /\
    Forall2 (ownOutcome (w_web w)) sources results /\
    map_Forall (fun (_ : string) cb =>
                  CircuitBreaker.state cb = CircuitBreaker.CLOSED)
      (w_breakers w').
Proof.
  revert w. induction sources as [|source rest IH]; intros w Hall; cbn.
  - unfold ret. exists [], w. repeat split; [constructor | exact Hall].
  - unfold bind, tryCatch.
    destruct (scrapeSourceResilient_closed source w Hall)
      as (result & w1 & -> & Hown & Hweb1 & Hall1).
    destruct (IH w1 Hall1) as (results & w' & -> & Hrest & Hall').
    unfold ret. exists (result :: results), w'. rewrite Hweb1 in Hrest.
    split; [reflexivity|]. split; [constructor; assumption | exact Hall'].
Qed.

Lemma resilient_scraping_never_opens_a_breaker_witness :
  exists results w',
    scrapeAllResilient [Sample.broken; Sample.broken; Sample.broken;
                        Sample.broken] Sample.freshWorld = (Ok results, w') /\
    map_Forall (fun (_ : string) cb =>
                  CircuitBreaker.state cb = CircuitBreaker.CLOSED)
      (w_breakers w').
Proof.
  destruct (resilient_scraping_never_opens_a_breaker
              [Sample.broken; Sample.broken; Sample.broken; Sample.broken]
              Sample.freshWorld) as (results & w' & Hrun & _ & Hall).
  - apply map_Forall_empty.
  - exists results, w'. split; [exact Hrun | exact Hall].
Defined.

Lemma withRetryFrom_persistent {A} (operation : M A) delays :
  (forall w0, exists e w1,
      operation w0 = (Throw e, w1) /\ retryable (classify e) = true /\
      w_now w0 <= w_now w1) ->
  forall remaining attempt w,
  exists e w',
    withRetryFrom operation attempt remaining delays w = (Throw e, w') /\
    w_now w + totalDelay delays attempt remaining <= w_now w'.
Proof.
  intros Hfail. induction remaining as [|remaining IH]; intros attempt w.
  - destruct (Hfail w) as (e & w1 & Hop & _ & Ht).
    exists e, w1. cbn. unfold tryCatch, throw. rewrite Hop.
    split; [reflexivity | lia].
  - destruct (Hfail w) as (e & w1 & Hop & Hretry & Ht).
    cbn [withRetryFrom]. unfold tryCatch at 1. rewrite Hop, Hretry.
    cbn [negb]. unfold bind at 1, sleep.
    destruct (IH (S attempt)
                (advance (default 0 (delays !! Nat.min attempt (length delays - 1)))
                   w1)) as (e' & w' & -> & Ht').
    exists e', w'. split; [reflexivity|].
    cbn [totalDelay]. unfold retryDelay. cbn [advance w_now] in Ht'. lia.
Qed.

(** X11. [withRetry] gives up at once on an error that is not retryable
    and passes a success through: in both cases the result and the world
    are those of the first attempt, and nothing is slept. When every
    attempt fails with a retryable error (network, timeout, rate limit) it
    throws such an error after all [maxRetries] retries, having slept at
    least the delays of the schedule, the last delay repeated when the
    schedule is shorter than the number of retries. *)
Theorem withRetry_outcomes {A : Type} (operation : M A) (maxRetries : nat)
        (delays : list Z) (w : World) :
  (forall a w1, operation w = (Ok a, w1) ->
                withRetry operation maxRetries delays w = (Ok a, w1)) /\
  (forall e w1, operation w = (Throw e, w1) ->
                retryable (classify e) = false ->
                withRetry operation maxRetries delays w = (Throw e, w1)) /\
  ((forall w0, exists e w1,
       operation w0 = (Throw e, w1) /\ retryable (classify e) = true /\
       w_now w0 <= w_now w1) ->
   exists e w',
     withRetry operation maxRetries delays w = (Throw e, w') /\
     retryable (classify e) = true /\
     w_now w + totalDelay delays 0 maxRetries <= w_now w').
Proof.
  split; [|split].
  - intros a w1 Hop. apply withRetryFrom_ok, Hop.
  - intros e w1 Hop Hno. unfold withRetry.
    destruct maxRetries; cbn [withRetryFrom]; unfold tryCatch, throw;
      rewrite Hop; [reflexivity|]. rewrite Hno. reflexivity.
  - intros Hfail.
    destruct (withRetryFrom_persistent operation delays Hfail maxRetries 0%nat w)
      as (e & w' & Hrun & Ht).
    exists e, w'. split; [exact Hrun|]. split; [|exact Ht].
    clear Ht. revert Hrun. unfold withRetry. generalize 0%nat. revert w.
    induction maxRetries as [|n IH]; intros w0 attempt; cbn [withRetryFrom];
      unfold tryCatch at 1;
      destruct (Hfail w0) as (e0 & w1 & -> & Hretry & _).
    + unfold throw. intros [= <- _]. exact Hretry.
    + rewrite Hretry. cbn [negb]. unfold bind at 1, sleep. apply IH.
Qed.

Lemma withRetry_outcomes_witness :
  exists e w',
    withRetry (fun w => (@Throw unit Sample.connectionRefused, w)) 2 [2000; 5000]
      Sample.freshWorld = (Throw e, w') /\
    1000 + 7000 <= w_now w'.
Proof.
  destruct (proj2 (proj2 (withRetry_outcomes
                            (fun w => (@Throw unit Sample.connectionRefused, w))
                            2 [2000; 5000] Sample.freshWorld)))
    as (e & w' & Hrun & _ & Ht).
  - intros w0. exists Sample.connectionRefused, w0.
    split; [reflexivity|]. split; [vm_compute; reflexivity | lia].
  - exists e, w'. split; [exact Hrun | exact Ht].
Defined.

(** X12. [removeSource] removes by name: it answers true exactly when
    some configured source has that name; afterwards no source has it (all
    of that name are removed, not only the first), while the sources of
    other names stay, in their order; when it answers false the list is
    unchanged; and removing the name of a source just added to a list that
    did not have that name gives the list back. *)
Theorem removeSource_by_name (nm : string)
        (sources : list ScrapingSourceConfig) :
  (fst (removeSource nm sources) = true <->
   exists source, In source sources /\ name source = nm) /\
  (forall source, In source (snd (removeSource nm sources)) <->
                  In source sources /\ name source <> nm) /\
  snd (removeSource nm sources) =
    List.filter (fun source => negb (String.eqb (name source) nm)) sources /\
  (fst (removeSource nm sources) = false ->
   snd (removeSource nm sources) = sources) /\
  (forall source,
      name source = nm ->
      (forall other, In other sources -> name other <> nm) ->
      removeSource nm (addSource source sources) = (true, sources)).
Proof.
  assert (Hlen : forall l : list ScrapingSourceConfig,
             (length (List.filter (fun s => negb (String.eqb (name s) nm)) l)
              < length l)%nat <->
             exists s, In s l /\ name s = nm).
  { induction l as [|s l IH]; cbn.
    - split; [lia | intros (s & [] & _)].
    - destruct (String.eqb_spec (name s) nm) as [Heq|Hne]; cbn.
      + split; [intros _; exists s; auto|]. intros _.
        pose proof (List.filter_length_le
                      (fun s => negb (String.eqb (name s) nm)) l). lia.
      + rewrite <- Nat.succ_lt_mono, IH. split.
        * intros (s' & Hin & Heq). exists s'. auto.
        * intros (s' & [<- | Hin] & Heq); [congruence | exists s'; auto]. }
  assert (Hsame : forall l : list ScrapingSourceConfig,
             (forall s, In s l -> name s <> nm) ->
             List.filter (fun s => negb (String.eqb (name s) nm)) l = l).
  { induction l as [|s l IH]; intros Hall; [reflexivity|]. cbn.
    destruct (String.eqb_spec (name s) nm) as [Heq|Hne]; cbn.
    - exfalso. apply (Hall s); [left; reflexivity | exact Heq].
    - f_equal. apply IH. intros s' Hs'. apply Hall. right. exact Hs'. }
  unfold removeSource. cbn [fst snd].
  split; [|split; [|split; [|split]]].
  - rewrite Nat.ltb_lt. apply Hlen.
  - intros source. rewrite filter_In.
    destruct (String.eqb_spec (name source) nm); cbn; intuition congruence.
  - reflexivity.
  - intros Hno. apply Hsame. intros s Hs Heq.
    apply Nat.ltb_ge in Hno. apply Nat.le_ngt in Hno. apply Hno, Hlen. eauto.
  - intros source Hname Hfresh. unfold addSource.
    rewrite List.filter_app, (Hsame sources Hfresh). cbn.
    rewrite Hname, String.eqb_refl. cbn. rewrite app_nil_r.
    f_equal. apply Nat.ltb_lt. rewrite length_app. cbn. lia.
Qed.

Lemma removeSource_by_name_witness :
  removeSource (name Sample.broken) [Sample.healthy; Sample.broken] =
    (true, [Sample.healthy]).
Proof.
  apply (proj2 (proj2 (proj2 (proj2
           (removeSource_by_name (name Sample.broken) [Sample.healthy]))))
           Sample.broken eq_refl).
  intros other [<- | []]. vm_compute. discriminate.
Defined.

End EngineFacts.

Section UrlExtraction.
Import Engine.

Lemma startsWith_app p s t :
  Js.startsWith p s = true -> Js.startsWith p (s +:+ t) = true.
Proof.
  revert s. induction p as [|a p IH]; intros s H; [reflexivity|].
  destruct s as [|b s]; [discriminate|].
  change (String b s +:+ t) with (String b (s +:+ t)). cbn in *.
  destruct (Ascii.eqb a b); [apply IH, H | discriminate].
Qed.

Lemma truthy_nonempty s : Js.truthy s = true <-> s <> "".
Proof. destruct s; cbn; split; congruence. Qed.

(** X13. [extractUrl] resolves against the base url only what needs it.
    With a non-empty base url: an empty url stays empty; a url that starts
    with http is returned as it is; any other url is appended to the base
    url, with a slash put between them exactly when the url does not start
    with one. So when the base url itself starts with http, every non-empty
    result does. Without a base url the url is returned as found. *)
Theorem extractUrl_resolution (matched : option (option string * option string))
        (base : string) :
  Js.truthy base = true ->
  let url := extractUrl matched None in
  let resolved := extractUrl matched (Some base) in
  (url = "" -> resolved = "") /\
  (Js.startsWith "http" url = true -> resolved = url) /\
  (url <> "" -> Js.startsWith "http" url = false ->
   resolved = if Js.startsWith "/" url then base +:+ url
              else base +:+ "/" +:+ url) /\
  (Js.startsWith "http" base = true -> resolved <> "" ->
   Js.startsWith "http" resolved = true) /\
  extractUrl matched (Some "") = url.
Proof.
  intros Hbase. cbn zeta. unfold extractUrl.
  set (url := match matched with
              | Some (href, src) => orElse href (orElse src "")
              | None => ""
              end).
  rewrite Hbase, andb_true_r.
  split; [|split; [|split; [|split]]].
  - intros ->. reflexivity.
  - intros ->. rewrite andb_false_r. reflexivity.
  - intros Hne Hrel. apply truthy_nonempty in Hne. rewrite Hne, Hrel.
    reflexivity.
  - intros Hhttp.
    destruct (Js.truthy url) eqn:Ht; cbn [andb negb].
    + destruct (Js.startsWith "http" url) eqn:Hs; cbn [negb]; [auto|].
      intros _. destruct (Js.startsWith "/" url); apply startsWith_app, Hhttp.
    + destruct url; [congruence | discriminate].
  - cbn. rewrite andb_false_r. reflexivity.
Qed.

Lemma extractUrl_resolution_witness :
  extractUrl (Some (Some "e/42", None)) (Some "https://events.example") =
    "https://events.example/e/42" /\
  Js.startsWith "http"
    (extractUrl (Some (Some "e/42", None)) (Some "https://events.example"))
    = true.
Proof.
  pose proof (extractUrl_resolution (Some (Some "e/42", None))
                "https://events.example" eq_refl)
    as (_ & _ & Hrel & Hhttp & _).
  split.
  - apply Hrel; [discriminate | reflexivity].
  - apply Hhttp; [reflexivity | vm_compute; discriminate].
Defined.

End UrlExtraction.

Section BreakerRegistry.
Import CircuitBreaker CircuitBreakerManager.

Lemma healthy_count (l : list (string * CircuitBreaker)) :
  (length (List.filter isHealthy ((fun entry => getStatus (snd entry)) <$> l))
   <= length ((fun entry => getStatus (snd entry)) <$> l))%nat /\
  (length (List.filter isHealthy ((fun entry => getStatus (snd entry)) <$> l))
   = length ((fun entry => getStatus (snd entry)) <$> l) <->
   Forall (fun entry => state (snd entry) = CLOSED) l).
Proof.
  induction l as [|[k cb] l [IHle IHeq]]; cbn.
  - split; [lia | split; [constructor | reflexivity]].
  - destruct (bool_decide_reflect (state cb = CLOSED)) as [Hc|Hc]; cbn.
    + split; [lia|]. rewrite Forall_cons. cbn. split.
      * intros Heq. split; [exact Hc | apply IHeq; lia].
      * intros [_ Hall]. f_equal. apply IHeq, Hall.
    + split; [lia|]. rewrite Forall_cons. cbn. split; [lia | tauto].
Qed.

(** X14. [getHealthSummary] counts every registered breaker once: the
    total is the number of breakers, healthy and unhealthy add up to it,
    and [overallHealthy] holds exactly when every breaker is CLOSED, so it
    holds for an empty registry and after [resetAll]. *)
Theorem getHealthSummary_counts (reg : Registry) :
  let summary := getHealthSummary reg in
  total summary = Z.of_nat (size reg) /\
  0 <= healthy summary <= total summary /\
  healthy summary + unhealthy summary = total summary /\
  (overallHealthy summary = true <->
   map_Forall (fun (_ : string) cb => state cb = CLOSED) reg) /\
  overallHealthy (getHealthSummary (resetAll reg)) = true /\
  size (resetAll reg) = size reg.
Proof.
  assert (Hall : forall r : Registry,
             overallHealthy (getHealthSummary r) = true <->
             map_Forall (fun (_ : string) cb => state cb = CLOSED) r).
  { intros r. unfold getHealthSummary. cbn [overallHealthy].
    destruct (healthy_count (map_to_list r)) as [_ Heq].
    rewrite Z.eqb_eq, Nat2Z.inj_iff, Heq.
    rewrite (map_Forall_to_list (fun (_ : string) cb => state cb = CLOSED) r).
    rewrite !Forall_forall.
    split; intros H [k cb] Hin; apply (H (k, cb) Hin). }
  cbn zeta.
  assert (Hlen : length ((fun entry => getStatus (snd entry)) <$> map_to_list reg)
                 = size reg).
  { rewrite length_fmap. apply (length_map_to_list reg). }
  destruct (healthy_count (map_to_list reg)) as [Hle _].
  split; [|split; [|split; [|split; [apply Hall|split]]]].
  - unfold getHealthSummary. cbn [total]. rewrite Hlen. reflexivity.
  - unfold getHealthSummary. cbn [total healthy]. lia.
  - unfold getHealthSummary. cbn [total healthy unhealthy]. lia.
  - apply Hall. unfold resetAll. apply map_Forall_fmap.
    intros k cb _. reflexivity.
  - unfold resetAll. apply map_size_fmap.
Qed.

Lemma resetCircuitBreakers_lookup sources : forall (reg : Registry) k,
  Engine.resetCircuitBreakers sources reg !! k =
    if bool_decide
         (k ∈ map (fun source => "scraper-" +:+ Engine.name source) sources)
    then Some (match reg !! k with
               | Some cb => reset cb
               | None => create k defaultConfig
               end)
    else reg !! k.
Proof.
  induction sources as [|source rest IH]; intros reg k; [reflexivity|].
  cbn [Engine.resetCircuitBreakers fold_left map].
  unfold Engine.resetCircuitBreakers in IH. rewrite IH. clear IH.
  set (nm := "scraper-" +:+ Engine.name source).
  set (names := map (fun source => "scraper-" +:+ Engine.name source) rest).
  assert (Hstep :
            (let '(circuitBreaker, reg') := getCircuitBreaker nm None reg in
             <[nm := reset circuitBreaker]> reg') =
            <[nm := match reg !! nm with
                    | Some cb => reset cb
                    | None => create nm defaultConfig
                    end]> reg).
  { unfold getCircuitBreaker. destruct (reg !! nm) as [cb|]; [reflexivity|].
    lazy beta iota zeta. cbn [default]. apply (insert_insert_eq reg). }
  rewrite Hstep. clear Hstep.
  destruct (decide (k = nm)) as [->|Hne].
  - rewrite (bool_decide_eq_true_2 (nm ∈ nm :: names)) by (left).
    rewrite (lookup_insert_eq reg).
    destruct (reg !! nm) as [cb|]; destruct (bool_decide (nm ∈ names));
      reflexivity.
  - assert (Hiff : bool_decide (k ∈ nm :: names) = bool_decide (k ∈ names)).
    { apply bool_decide_ext. rewrite elem_of_cons. tauto. }
    rewrite Hiff, !(lookup_insert_ne reg) by congruence. reflexivity.
Qed.

(** X15. The first registration of a breaker fixes its configuration:
    [getCircuitBreaker] for a registered name returns the registered
    breaker and ignores the configuration passed. So after
    [resetCircuitBreakers] every source has a CLOSED breaker with empty
    counters, and a source that had none before now has one with the
    manager's default thresholds (5 failures, 1 minute), which the
    scraper's later request with its own thresholds (3 failures, 5
    minutes) returns as it is. *)
Theorem first_registration_fixes_config (reg : Registry) :
  (forall nm cfg1 cfg2,
      let '(cb1, reg1) := getCircuitBreaker nm cfg1 reg in
      getCircuitBreaker nm cfg2 reg1 = (cb1, reg1)) /\
  (forall sources source,
      In source sources ->
      let nm := "scraper-" +:+ Engine.name source in
      let reg' := Engine.resetCircuitBreakers sources reg in
      exists cb,
        reg' !! nm = Some cb /\
        cb = reset cb /\
        (reg !! nm = None -> cb = create nm defaultConfig) /\
        getCircuitBreaker nm (Some scraperConfig) reg' = (cb, reg')).
Proof.
  split.
  - intros nm cfg1 cfg2. unfold getCircuitBreaker.
    destruct (reg !! nm) as [cb|] eqn:Hlook.
    + rewrite Hlook. reflexivity.
    + rewrite (lookup_insert_eq reg). reflexivity.
  - intros sources source Hin. cbn zeta.
    set (nm := "scraper-" +:+ Engine.name source).
    pose proof (resetCircuitBreakers_lookup sources reg nm) as Hlook.
    rewrite bool_decide_eq_true_2 in Hlook.
    2:{ apply list_elem_of_In, in_map_iff. exists source. auto. }
    eexists. split; [exact Hlook|]. split; [|split].
    + destruct (reg !! nm); reflexivity.
    + intros ->. reflexivity.
    + unfold getCircuitBreaker. rewrite Hlook. reflexivity.
Qed.

Lemma first_registration_fixes_config_witness :
  exists cb,
    Engine.resetCircuitBreakers [Sample.healthy] ∅ !!
      ("scraper-" +:+ Engine.name Sample.healthy) = Some cb /\
    failureThreshold (config cb) = 5.
Proof.
  destruct (proj2 (first_registration_fixes_config ∅) [Sample.healthy]
              Sample.healthy ltac:(left; reflexivity))
    as (cb & Hlook & _ & Hnew & _).
  exists cb. split; [exact Hlook|].
  rewrite (Hnew (lookup_empty _)). reflexivity.
Defined.

End BreakerRegistry.

Section BreakerInvariants.
Import CircuitBreaker.

Context (cfg : CircuitBreakerConfig).
Hypothesis failureThreshold_positive : 1 <= failureThreshold cfg.
Hypothesis successThreshold_positive : 1 <= successThreshold cfg.

(** What holds of the breaker when [onSuccess] or [onFailure] is entered
    ([entering]) and between two calls ([resting]); they differ in the
    success counter of HALF_OPEN, which a trial enters at 0. *)
Local Abbreviation common cb :=
  (config cb = cfg /\
   (state cb = CLOSED ->
    Z.of_nat (length (failureTimes cb)) < failureThreshold cfg) /\
   (state cb <> HALF_OPEN -> successes cb = 0) /\
   Forall (fun t => lastFailureTime cb - t <= monitoringPeriod cfg)
     (failureTimes cb) /\
   Z.of_nat (length (failureTimes cb)) <= failures cb).

Local Abbreviation entering cb :=
  (common cb /\ (state cb = HALF_OPEN -> 0 <= successes cb < successThreshold cfg)).

Local Abbreviation resting cb :=
  (common cb /\ (state cb = HALF_OPEN -> 1 <= successes cb < successThreshold cfg)).

Lemma onSuccess_resting cb : entering cb -> resting (onSuccess cb).
Proof.
  intros [(Hcfg & Hclosed & Hquiet & Hwin & Hlen) Hhalf].
  unfold onSuccess. rewrite Hcfg.
  destruct (state cb) eqn:Hs.
  - cbn. repeat split; try constructor; try lia; try congruence;
      intros; apply Hquiet; congruence.
  - cbn. repeat split; try constructor; try lia; try congruence;
      intros; apply Hquiet; congruence.
  - specialize (Hhalf eq_refl).
    destruct (Z.leb_spec (successThreshold cfg) (successes cb + 1)); cbn;
      repeat split; try constructor; try lia; try congruence.
Qed.

Lemma onFailure_resting now cb : entering cb -> resting (onFailure now cb).
Proof.
  intros [(Hcfg & Hclosed & Hquiet & Hwin & Hlen) Hhalf].
  unfold onFailure. rewrite Hcfg.
  set (ft := filter (fun time => now - time <= monitoringPeriod cfg)
               (failureTimes cb ++ [now])).
  assert (Hft : Forall (fun t => now - t <= monitoringPeriod cfg) ft).
  { apply Forall_forall. intros t Ht. apply list_elem_of_filter in Ht. apply Ht. }
  assert (Hftlen : Z.of_nat (length ft) <= failures cb + 1).
  { pose proof (length_filter (fun time => now - time <= monitoringPeriod cfg)
                  (failureTimes cb ++ [now])) as Hle.
    fold ft in Hle. rewrite length_app in Hle. cbn in Hle. lia. }
  destruct (state cb) eqn:Hs.
  - destruct (Z.leb_spec (failureThreshold cfg) (Z.of_nat (length ft))); cbn;
      repeat split; try assumption; try lia; try congruence;
      intros; apply Hquiet; congruence.
  - cbn. repeat split; try assumption; try lia; try congruence;
      intros; apply Hquiet; congruence.
  - cbn. repeat split; try assumption; try lia; try congruence.
Qed.

Lemma set_half_open_entering cb :
  resting cb -> state cb = OPEN -> entering (set_state HALF_OPEN cb).
Proof.
  intros [(Hcfg & Hclosed & Hquiet & Hwin & Hlen) Hhalf] Hs.
  unfold set_state. cbn. repeat split; try assumption; try congruence.
  - rewrite Hquiet by congruence. lia.
  - rewrite Hquiet by congruence. lia.
Qed.

Lemma executeCall_resting cb c : resting cb -> resting (executeCall cb c).
Proof.
  intros Hcb. unfold executeCall, execute, call_operation.
  assert (Henter : state cb <> OPEN -> entering cb).
  { intros _. destruct Hcb as [Hc Hh]. split; [exact Hc|]. intros Hs.
    specialize (Hh Hs). lia. }
  assert (Hcases : state cb = CLOSED \/ state cb = OPEN \/ state cb = HALF_OPEN)
    by (destruct (state cb); auto).
  destruct Hcases as [Hs | [Hs | Hs]]; rewrite Hs.
  - destruct (succeeds c); cbn [fst snd];
      [apply onSuccess_resting | apply onFailure_resting];
      apply Henter; congruence.
  - destruct (shouldAttemptReset (at_call c) cb); [|exact Hcb].
    destruct (succeeds c); cbn [fst snd];
      [apply onSuccess_resting | apply onFailure_resting];
      apply set_half_open_entering; assumption.
  - destruct (succeeds c); cbn [fst snd];
      [apply onSuccess_resting | apply onFailure_resting];
      apply Henter; congruence.
Qed.

(** X16. Invariants of the circuit breaker. After any sequence of calls
    on a fresh breaker (thresholds at least 1): while CLOSED it has fewer
    than [failureThreshold] failure instants on record; its success counter
    is between 1 and [successThreshold] - 1 in HALF_OPEN and 0 otherwise;
    every recorded failure instant lies within [monitoringPeriod] of the
    last failure; and there are never more instants than counted
    failures. *)
Theorem breaker_invariants (nm : string) (history : list Call) :
  let cb := executeCalls (create nm cfg) history in
  config cb = cfg /\
  (state cb = CLOSED ->
   Z.of_nat (length (failureTimes cb)) < failureThreshold cfg) /\
  (state cb = HALF_OPEN -> 1 <= successes cb < successThreshold cfg) /\
  (state cb <> HALF_OPEN -> successes cb = 0) /\
  Forall (fun t => lastFailureTime cb - t <= monitoringPeriod cfg)
    (failureTimes cb) /\
  Z.of_nat (length (failureTimes cb)) <= failures cb.
Proof.
  cbn zeta.
  assert (Hrest : resting (executeCalls (create nm cfg) history)).
  { unfold executeCalls.
    apply (fold_left_invariant executeCall (fun cb => resting cb)
             (fun _ => True)).
    - intros cb c _ Hcb. apply executeCall_resting, Hcb.
    - apply Forall_True.
    - cbn. repeat split; try constructor; try lia; try congruence. }
  destruct Hrest as [(Hcfg & Hclosed & Hquiet & Hwin & Hlen) Hhalf].
  repeat split; try assumption; apply Hhalf; assumption.
Qed.

End BreakerInvariants.

Section BreakerInvariantsWitness.
Import CircuitBreaker.

Lemma breaker_invariants_witness :
  let cb := executeCalls (create "scraper-a" scraperConfig)
              [mkCall 0 false 100; mkCall 1000 true 1100;
               mkCall 2000 false 2100] in
  state cb = CLOSED /\ Z.of_nat (length (failureTimes cb)) < 3.
Proof.
  cbn zeta. split; [reflexivity|].
  apply (proj1 (proj2
           (breaker_invariants scraperConfig ltac:(cbn; lia) ltac:(cbn; lia)
              "scraper-a"
              [mkCall 0 false 100; mkCall 1000 true 1100;
               mkCall 2000 false 2100]))).
  reflexivity.
Defined.

End BreakerInvariantsWitness.

Section ServiceBreaker.
Import ServiceCircuitBreaker.

Lemma executeCall_failure_service cb c :
  CircuitBreaker.succeeds c = false ->
  (state cb = OPEN -> state (executeCall cb c) = OPEN) /\
  (state cb = CLOSED ->
   executeCall cb c = onFailure (CircuitBreaker.at_return c) cb) /\
  failureThreshold (executeCall cb c) = failureThreshold cb.
Proof.
  intros Hc. unfold executeCall, execute, CircuitBreaker.call_operation.
  rewrite Hc. split; [|split].
  - intros Hs. rewrite Hs.
    destruct (recoveryTimeout cb <=? _); cbn; [reflexivity | exact Hs].
  - intros Hs. rewrite Hs. reflexivity.
  - destruct (state cb); [reflexivity | | reflexivity].
    destruct (recoveryTimeout cb <=? _); reflexivity.
Qed.

Lemma failing_calls_stay_open cs : forall cb,
  Forall (fun c => CircuitBreaker.succeeds c = false) cs ->
  state cb = OPEN -> state (executeCalls cb cs) = OPEN.
Proof.
  induction cs as [|c cs IH]; intros cb Hall Hs; [exact Hs|].
  apply Forall_cons in Hall as [Hc Hall]. cbn.
  apply IH; [exact Hall|]. apply (executeCall_failure_service cb c Hc), Hs.
Qed.

Lemma failing_calls_open_at_threshold cs : forall cb,
  Forall (fun c => CircuitBreaker.succeeds c = false) cs ->
  state cb = CLOSED -> failures cb < failureThreshold cb ->
  (state (executeCalls cb cs) = OPEN <->
   failureThreshold cb <= failures cb + Z.of_nat (length cs)).
Proof.
  induction cs as [|c cs IH]; intros cb Hall Hs Hlt.
  - cbn. rewrite Hs. split; [discriminate | lia].
  - apply Forall_cons in Hall as [Hc Hall].
    destruct (executeCall_failure_service cb c Hc) as (_ & Hstep & Hthr).
    specialize (Hstep Hs). cbn [executeCalls fold_left].
    fold (executeCalls (executeCall cb c) cs).
    rewrite length_cons, Nat2Z.inj_succ.
    destruct (Z.leb_spec (failureThreshold cb) (failures cb + 1)) as [Hle|Hgt].
    + assert (Ho : state (executeCall cb c) = OPEN).
      { rewrite Hstep. unfold onFailure. cbn.
        destruct (Z.leb_spec (failureThreshold cb) (failures cb + 1));
          [|lia]. rewrite orb_true_r. reflexivity. }
      rewrite (failing_calls_stay_open cs _ Hall Ho). split; [lia | reflexivity].
    + assert (Hc' : state (executeCall cb c) = CLOSED /\
                    failures (executeCall cb c) = failures cb + 1).
      { rewrite Hstep. unfold onFailure. cbn. rewrite Hs.
        destruct (Z.leb_spec (failureThreshold cb) (failures cb + 1));
          [lia|]. split; reflexivity. }
      destruct Hc' as [Hs' Hf'].
      rewrite (IH (executeCall cb c) Hall Hs') by (rewrite Hthr, Hf'; lia).
      rewrite Hthr, Hf'. lia.
Qed.

(** X17. The service breaker counts consecutive failures, whenever they
    happen. From a CLOSED breaker below its threshold, a run of failing
    calls leaves it OPEN exactly when the failures counted so far plus the
    run reach [failureThreshold]. While OPEN and before [recoveryTimeout]
    has passed since the last failure, [execute] throws the unavailable
    error without running the operation or changing anything. After the
    timeout it runs the operation: one success closes the breaker and
    clears the count, a failure leaves it OPEN. A success in CLOSED clears
    the count. *)
Theorem service_breaker_lifecycle (cb : ServiceCircuitBreaker) :
  (forall cs,
      state cb = CLOSED -> failures cb < failureThreshold cb ->
      Forall (fun c => CircuitBreaker.succeeds c = false) cs ->
      (state (executeCalls cb cs) = OPEN <->
       failureThreshold cb <= failures cb + Z.of_nat (length cs))) /\
  (forall (W T : Type) (dateNow : W -> Z) (operation : W -> Res T * W) w,
      state cb = OPEN ->
      dateNow w - lastFailureTime cb < recoveryTimeout cb ->
      execute dateNow operation cb w = (Throw (unavailableError cb), cb, w)) /\
  (forall (W T : Type) (dateNow : W -> Z) (operation : W -> Res T * W) w,
      state cb = OPEN ->
      recoveryTimeout cb <= dateNow w - lastFailureTime cb ->
      match operation w with
      | (Ok result, w') =>
          exists cb',
            execute dateNow operation cb w = (Ok result, cb', w') /\
            state cb' = CLOSED /\ failures cb' = 0
      | (Throw e, w') =>
          exists cb',
            execute dateNow operation cb w = (Throw e, cb', w') /\
            state cb' = OPEN /\ lastFailureTime cb' = dateNow w'
      end) /\
  (forall (W T : Type) (dateNow : W -> Z) (operation : W -> Res T * W) w
          result w',
      state cb = CLOSED -> operation w = (Ok result, w') ->
      exists cb',
        execute dateNow operation cb w = (Ok result, cb', w') /\
        state cb' = CLOSED /\ failures cb' = 0).
Proof.
  split; [|split; [|split]].
  - intros cs Hs Hlt Hall. apply failing_calls_open_at_threshold; assumption.
  - intros W T dateNow operation w Hs Ht. unfold execute. rewrite Hs.
    destruct (Z.leb_spec (recoveryTimeout cb) (dateNow w - lastFailureTime cb));
      [lia | reflexivity].
  - intros W T dateNow operation w Hs Ht. unfold execute. rewrite Hs.
    destruct (Z.leb_spec (recoveryTimeout cb) (dateNow w - lastFailureTime cb));
      [|lia].
    destruct (operation w) as [[result|e] w']; eexists;
      (split; [reflexivity|]); split; reflexivity.
  - intros W T dateNow operation w result w' Hs Hop. unfold execute.
    rewrite Hs, Hop. eexists. split; [reflexivity|].
    unfold onSuccess. rewrite Hs. split; reflexivity.
Qed.

Lemma service_breaker_lifecycle_witness :
  state (executeCalls (create "scraper")
           [CircuitBreaker.mkCall 0 false 100;
            CircuitBreaker.mkCall 10000000 false 10000100;
            CircuitBreaker.mkCall 20000000 false 20000100;
            CircuitBreaker.mkCall 30000000 false 30000100;
            CircuitBreaker.mkCall 40000000 false 40000100]) = OPEN.
Proof.
  apply (proj1 (service_breaker_lifecycle (create "scraper"))).
  - reflexivity.
  - cbn. lia.
  - repeat constructor.
  - cbn. lia.
Defined.

End ServiceBreaker.

Section Degradation.
Import SystemDegradationManager.

Local Abbreviation tracked m :=
  (NoDup (degradedServices m) /\
   degradationLevel m =
     if Nat.eqb (length (degradedServices m)) 0 then NONE
     else if Nat.leb (length (degradedServices m)) 2 then MINOR
     else if Nat.leb (length (degradedServices m)) 4 then MODERATE
     else SEVERE).

Lemma setAdd_spec x members :
  NoDup members ->
  NoDup (setAdd x members) /\
  forall y, y ∈ setAdd x members <-> y = x \/ y ∈ members.
Proof.
  intros Hnd. unfold setAdd. destruct (bool_decide_reflect (x ∈ members)) as [Hin|Hout].
  - split; [exact Hnd|]. intros y. split; [auto|]. intros [-> | H]; assumption.
  - split.
    + apply NoDup_app. split; [exact Hnd|]. split; [|apply NoDup_singleton].
      intros y Hy Hy'. apply list_elem_of_singleton in Hy'. congruence.
    + intros y. rewrite elem_of_app, list_elem_of_singleton. tauto.
Qed.

Lemma setDelete_spec x members :
  NoDup members ->
  NoDup (setDelete x members) /\
  forall y, y ∈ setDelete x members <-> y <> x /\ y ∈ members.
Proof.
  intros Hnd. unfold setDelete. split.
  - apply NoDup_ListNoDup, List.NoDup_filter, NoDup_ListNoDup, Hnd.
  - intros y. rewrite !list_elem_of_In, filter_In.
    destruct (String.eqb_spec y x); cbn; intuition congruence.
Qed.

Lemma report_tracked m r : tracked m -> tracked (report m r).
Proof.
  intros [Hnd Hlevel]. destruct r as [t [n severity | n]]; cbn.
  - split; [apply setAdd_spec, Hnd | reflexivity].
  - split; [apply setDelete_spec, Hnd | reflexivity].
Qed.

Lemma reports_snoc m rs r : reports m (rs ++ [r]) = report (reports m rs) r.
Proof. unfold reports. rewrite fold_left_app. reflexivity. Qed.

Lemma report_degraded m r y :
  NoDup (degradedServices m) ->
  (y ∈ degradedServices (report m r) <->
   match snd r with
   | Degraded n _ => y = n \/ y ∈ degradedServices m
   | Recovered n => y <> n /\ y ∈ degradedServices m
   end).
Proof.
  intros Hnd. destruct r as [t [n severity | n]]; cbn.
  - apply setAdd_spec, Hnd.
  - apply setDelete_spec, Hnd.
Qed.

(** X18. The degradation level follows the number of degraded services and
    nothing else; the severity passed with a report is not used. After any
    sequence of reports on a fresh manager: a service counts as degraded
    exactly when the latest report about it is a degradation; each such
    service is listed once; the level is none for 0 services, minor for 1
    or 2, moderate for 3 or 4 and severe from 5 on; the system is healthy
    exactly when no service is degraded. So reports about at most four
    different services never give the severe level. *)
Theorem degradation_level_counts_services (t0 : Z) (rs : list (Z * Report)) :
  let m := reports (create t0) rs in
  NoDup (degradedServices m) /\
  (forall n,
      isServiceDegraded n m = true <->
      exists severity,
        List.find (fun r => String.eqb (reportedName r) n) (rev (map snd rs))
        = Some (Degraded n severity)) /\
  degradationLevel m =
    (if (length (degradedServices m) =? 0)%nat then NONE
     else if (length (degradedServices m) <=? 2)%nat then MINOR
     else if (length (degradedServices m) <=? 4)%nat then MODERATE
     else SEVERE) /\
  (status_isHealthy (getSystemStatus m) = true <-> degradedServices m = []) /\
  (forall names : list string,
      (length names <= 4)%nat ->
      Forall (fun r => reportedName (snd r) ∈ names) rs ->
      degradationLevel m <> SEVERE).
Proof.
  cbn zeta.
  assert (Htracked : tracked (reports (create t0) rs)).
  { unfold reports.
    apply (fold_left_invariant report (fun m => tracked m) (fun _ => True)).
    - intros m r _ Hm. apply report_tracked, Hm.
    - apply Forall_True.
    - split; [constructor | reflexivity]. }
  destruct Htracked as [Hnd Hlevel].
  assert (Hlatest : forall n,
             n ∈ degradedServices (reports (create t0) rs) <->
             exists severity,
               List.find (fun r => String.eqb (reportedName r) n)
                 (rev (map snd rs)) = Some (Degraded n severity)).
  { intros n. clear Hnd Hlevel. induction rs as [|r rs' IH] using rev_ind.
    - cbn. split; [intros H; inversion H | intros [? H]; discriminate H].
    - rewrite reports_snoc, map_app, rev_app_distr. cbn [map rev app List.find].
      assert (Hnd' : NoDup (degradedServices (reports (create t0) rs'))).
      { unfold reports.
        apply (fold_left_invariant report (fun m => tracked m) (fun _ => True)).
        - intros m r0 _ Hm. apply report_tracked, Hm.
        - apply Forall_True.
        - split; [constructor | reflexivity]. }
      rewrite (report_degraded _ r n Hnd').
      destruct r as [t [n' severity | n']]; cbn [snd reportedName].
      + destruct (String.eqb_spec n' n) as [->|Hne].
        * split; [intros _; eauto | intros _; left; reflexivity].
        * rewrite IH. split; [intros [? | H]; [congruence | exact H] | auto].
      + destruct (String.eqb_spec n' n) as [->|Hne].
        * split; [intros [H _]; congruence | intros [? H]; discriminate H].
        * rewrite IH. split; [intros [_ H]; exact H | intros H; split; [congruence | exact H]]. }
  split; [exact Hnd|]. split; [|split; [exact Hlevel|split]].
  - intros n. unfold isServiceDegraded. rewrite bool_decide_eq_true. apply Hlatest.
  - unfold getSystemStatus. cbn [status_isHealthy].
    rewrite bool_decide_eq_true, Hlevel.
    destruct (degradedServices (reports (create t0) rs)) as [|x l];
      [split; reflexivity|].
    split; [|discriminate]. cbn [length Nat.eqb].
    repeat match goal with
           | |- context [if ?b then _ else _] => destruct b
           end; discriminate.
  - intros names Hnames Hall.
    assert (Hsub : degradedServices (reports (create t0) rs) ⊆ names).
    { intros n Hn. apply Hlatest in Hn as [severity Hfind].
      apply find_some in Hfind as [Hin _].
      apply in_rev, in_map_iff in Hin as (r & Hr & Hin).
      rewrite Forall_forall in Hall. apply list_elem_of_In in Hin.
      specialize (Hall r Hin). rewrite Hr in Hall. exact Hall. }
    pose proof (submseteq_length _ _ (NoDup_submseteq _ _ Hnd Hsub)) as Hle.
    rewrite Hlevel.
    destruct (degradedServices (reports (create t0) rs))
      as [|x1 [|x2 [|x3 [|x4 [|x5 l]]]]]; cbn in *; try discriminate. lia.
Qed.

Lemma degradation_level_counts_services_witness :
  degradationLevel
    (reports (create 0)
       [(1, Degraded "database" SEVERE); (2, Degraded "scraper" MINOR);
        (3, Degraded "external" MODERATE); (4, Recovered "scraper")])
  <> SEVERE.
Proof.
  apply (proj2 (proj2 (proj2 (proj2
           (degradation_level_counts_services 0
              [(1, Degraded "database" SEVERE); (2, Degraded "scraper" MINOR);
               (3, Degraded "external" MODERATE); (4, Recovered "scraper")]))))
           ["scraper"; "database"; "external"]).
  - cbn. lia.
  - repeat constructor; cbn; set_solver.
Defined.

(** X19. [getHealthRecommendations] never returns an empty list: it says
    that all systems operate normally exactly when the level is none and
    the scraper is healthy; otherwise it gives the two messages of the
    level, if any, followed by the three scraper messages when the scraper
    is not healthy. *)
Theorem health_recommendations_cover_all_cases (level : DegradationLevel)
        (scraperIsHealthy : bool) :
  let advice :=
    ResilienceService.getHealthRecommendations level scraperIsHealthy in
  advice <> [] /\
  (advice = ["All systems operating normally"] <->
   level = NONE /\ scraperIsHealthy = true) /\
  length advice =
    (if bool_decide (level = NONE) then
       if scraperIsHealthy then 1 else 3
     else if scraperIsHealthy then 2 else 5)%nat /\
  (In "Event scraping service is experiencing issues" advice <->
   scraperIsHealthy = false).
Proof.
  destruct level, scraperIsHealthy; cbn;
    (split; [discriminate|]);
    (split;
     [split;
      [intros H; first [split; reflexivity | discriminate H]
      |intros [H1 H2]; first [reflexivity | discriminate H1 | discriminate H2]]
     |]);
    (split; [reflexivity|]);
    (split;
     [intros H;
      first [reflexivity
            | exfalso; repeat destruct H as [H|H]; try discriminate H; exact H]
     |intros H; first [discriminate H | auto 10]]).
Qed.

End Degradation.

Section ErrorClassification.
Import ErrorHandler.

(** X20. The category fixes what is done with an error: [categorizeError]
    marks an error retryable exactly when it files it under network,
    timeout or rate limit, gives high severity exactly to network and rate
    limit, and low severity exactly to parsing and validation. The checks
    run in a fixed order, so an error with code ETIMEDOUT is always a
    network error, never a timeout, and an HTTP 429 response is always
    retryable. The message and the url are passed on unchanged. *)
Theorem categorizeError_table (now : Z) (error : Error) (url : option string) :
  let categorized := categorizeError now error url in
  let c := classify error in
  classification categorized = Some c /\
  message categorized = err_message error /\ errorUrl categorized = url /\
  (retryable c = true <->
   category c = NETWORK \/ category c = TIMEOUT \/ category c = RATE_LIMIT) /\
  (severity c = high <-> category c = NETWORK \/ category c = RATE_LIMIT) /\
  (severity c = low <-> category c = PARSING \/ category c = VALIDATION) /\
  (err_code error = Some "ETIMEDOUT" -> category c = NETWORK) /\
  (err_responseStatus error = Some 429 -> retryable c = true) /\
  (category c = UNKNOWN <->
   isNetworkError error = false /\ isTimeoutError error = false /\
   isRateLimitError error = false /\ isParsingError error = false /\
   isValidationError error = false).
Proof.
  cbn zeta. split; [reflexivity|]. split; [reflexivity|]. split; [reflexivity|].
  assert (Hcode : err_code error = Some "ETIMEDOUT" ->
                  isNetworkError error = true).
  { intros Hc. unfold isNetworkError, codeIn. rewrite Hc. reflexivity. }
  assert (Hrate : err_responseStatus error = Some 429 ->
                  isRateLimitError error = true).
  { intros Hr. unfold isRateLimitError. rewrite Hr. apply orb_true_r. }
  unfold classify.
  destruct (isNetworkError error) eqn:Hn; [|destruct (isTimeoutError error) eqn:Ht;
    [|destruct (isRateLimitError error) eqn:Hr;
      [|destruct (isParsingError error) eqn:Hp;
        [|destruct (isValidationError error) eqn:Hv]]]];
    cbn;
    repeat match goal with
           | |- _ /\ _ => split
           | |- _ <-> _ => split
           end;
    try (intros; reflexivity); try (intros; discriminate);
    try (intros; auto; fail);
    try (intros H; repeat destruct H as [H|H]; discriminate H);
    try (intros H; specialize (Hcode H); discriminate Hcode);
    try (intros H; specialize (Hrate H); discriminate Hrate);
    try (intros (H1 & H2 & H3 & H4 & H5); discriminate);
    try (intros; repeat split; reflexivity).
Qed.

Lemma categorizeError_table_witness :
  category (classify (mkError "connect ETIMEDOUT" (Some "ETIMEDOUT") None))
  = NETWORK.
Proof.
  apply (proj1 (proj2 (proj2 (proj2 (proj2 (proj2 (proj2
           (categorizeError_table 0
              (mkError "connect ETIMEDOUT" (Some "ETIMEDOUT") None)
              None)))))))).
  reflexivity.
Defined.

Local Abbreviation countIf p errors :=
  (Z.of_nat (length (List.filter p errors))).

Lemma createErrorSummary_from (errors : list Classification) :
  forall start : ErrorSummary,
    let summary :=
      fold_left
        (fun summary e =>
           mkErrorSummary (total summary)
             (fun c => if bool_decide (c = category e)
                       then byCategory summary c + 1 else byCategory summary c)
             (fun s => if bool_decide (s = severity e)
                       then bySeverity summary s + 1 else bySeverity summary s)
             (if retryable e then retryableCount summary + 1
              else retryableCount summary))
        errors start in
    total summary = total start /\
    (forall c, byCategory summary c =
               byCategory start c +
               countIf (fun e => bool_decide (category e = c)) errors) /\
    (forall s, bySeverity summary s =
               bySeverity start s +
               countIf (fun e => bool_decide (severity e = s)) errors) /\
    retryableCount summary = retryableCount start + countIf retryable errors.
Proof.
  induction errors as [|e rest IH]; intros start; cbn zeta.
  - cbn. repeat split; intros; lia.
  - cbn [fold_left].
    match goal with
    | |- context [fold_left ?f rest ?s] =>
        destruct (IH s) as (Ht & Hc & Hs & Hr)
    end.
    cbn zeta in Ht, Hc, Hs, Hr. rewrite Ht. split; [reflexivity|].
    split; [|split].
    + intros c. rewrite Hc. cbn [byCategory List.filter].
      destruct (bool_decide_reflect (c = category e)) as [->|Hne].
      * rewrite bool_decide_eq_true_2 by reflexivity. cbn [length]. lia.
      * rewrite bool_decide_eq_false_2 by congruence. lia.
    + intros s. rewrite Hs. cbn [bySeverity List.filter].
      destruct (bool_decide_reflect (s = severity e)) as [->|Hne].
      * rewrite bool_decide_eq_true_2 by reflexivity. cbn [length]. lia.
      * rewrite bool_decide_eq_false_2 by congruence. lia.
    + rewrite Hr. cbn [retryableCount List.filter].
      destruct (retryable e); cbn [length]; lia.
Qed.

Lemma count_by_category (errors : list Classification) :
  countIf (fun e => bool_decide (category e = NETWORK)) errors +
  countIf (fun e => bool_decide (category e = PARSING)) errors +
  countIf (fun e => bool_decide (category e = VALIDATION)) errors +
  countIf (fun e => bool_decide (category e = TIMEOUT)) errors +
  countIf (fun e => bool_decide (category e = RATE_LIMIT)) errors +
  countIf (fun e => bool_decide (category e = UNKNOWN)) errors =
  Z.of_nat (length errors).
Proof.
  induction errors as [|e rest IH]; [reflexivity|].
  cbn [List.filter length].
  destruct (category e); repeat case_bool_decide; try congruence;
    cbn [length] in *; lia.
Qed.

Lemma count_by_severity (errors : list Classification) :
  countIf (fun e => bool_decide (severity e = low)) errors +
  countIf (fun e => bool_decide (severity e = medium)) errors +
  countIf (fun e => bool_decide (severity e = high)) errors =
  Z.of_nat (length errors).
Proof.
  induction errors as [|e rest IH]; [reflexivity|].
  cbn [List.filter length].
  destruct (severity e); repeat case_bool_decide; try congruence;
    cbn [length] in *; lia.
Qed.

Lemma createErrorSummary_views (errors : list Classification) :
  let summary := createErrorSummary errors in
  total summary = Z.of_nat (length errors) /\
  (forall c, byCategory summary c =
             Z.of_nat (length (List.filter
                                 (fun e => bool_decide (category e = c)) errors))) /\
  (forall s, bySeverity summary s =
             Z.of_nat (length (List.filter
                                 (fun e => bool_decide (severity e = s)) errors))) /\
  retryableCount summary = Z.of_nat (length (List.filter retryable errors)).
Proof.
  cbn zeta. unfold createErrorSummary.
  destruct (createErrorSummary_from errors
              (mkErrorSummary (Z.of_nat (length errors)) (fun _ => 0)
                 (fun _ => 0) 0)) as (Ht & Hc & Hs & Hr).
  cbn zeta in Ht, Hc, Hs, Hr. cbn [total byCategory bySeverity retryableCount] in *.
  split; [exact Ht|]. split; [intros c; rewrite Hc; lia|].
  split; [intros s; rewrite Hs; lia|]. rewrite Hr; lia.
Qed.

(** X21. [createErrorSummary] counts every error once in each view: the
    count of a category (of a severity) is the number of errors of that
    category (severity), the six category counts and the three severity
    counts each add up to the total, which is the number of errors, and
    the retryable count is the number of retryable errors, hence at most
    the total. *)
Theorem createErrorSummary_counts (errors : list Classification) :
  let summary := createErrorSummary errors in
  total summary = Z.of_nat (length errors) /\
  (forall c, byCategory summary c =
             Z.of_nat (length (List.filter
                                 (fun e => bool_decide (category e = c)) errors))) /\
  (forall s, bySeverity summary s =
             Z.of_nat (length (List.filter
                                 (fun e => bool_decide (severity e = s)) errors))) /\
  retryableCount summary = Z.of_nat (length (List.filter retryable errors)) /\
  byCategory summary NETWORK + byCategory summary PARSING +
  byCategory summary VALIDATION + byCategory summary TIMEOUT +
  byCategory summary RATE_LIMIT + byCategory summary UNKNOWN = total summary /\
  bySeverity summary low + bySeverity summary medium + bySeverity summary high
  = total summary /\
  0 <= retryableCount summary <= total summary.
Proof.
  cbn zeta.
  destruct (createErrorSummary_views errors) as (Ht & Hc & Hs & Hr).
  cbn zeta in Ht, Hc, Hs, Hr.
  split; [exact Ht|]. split; [exact Hc|]. split; [exact Hs|].
  split; [exact Hr|].
  rewrite !Hc, !Hs, Hr, Ht.
  pose proof (count_by_category errors). pose proof (count_by_severity errors).
  pose proof (List.filter_length_le retryable errors).
  repeat split; lia.
Qed.

Lemma classify_high e :
  bool_decide (severity (classify e) = high) =
  isNetworkError e || (negb (isTimeoutError e) && isRateLimitError e).
Proof.
  unfold classify.
  destruct (isNetworkError e), (isTimeoutError e), (isRateLimitError e),
    (isParsingError e), (isValidationError e); reflexivity.
Qed.

Lemma classify_network e :
  bool_decide (category (classify e) = NETWORK) = isNetworkError e.
Proof.
  unfold classify.
  destruct (isNetworkError e), (isTimeoutError e), (isRateLimitError e),
    (isParsingError e), (isValidationError e); reflexivity.
Qed.

(** X22. [shouldContinueScraping] stops exactly when more than 5 errors
    have high severity or more than 10 are network errors. Adding errors
    never turns a stop into a continue. For errors as [categorizeError]
    classifies them, every network error has high severity, so the network
    limit never decides: scraping stops exactly when more than 5 errors are
    network or rate-limit errors, and parsing, validation, timeout and
    unknown errors, however many, never stop it. *)
Theorem shouldContinueScraping_limits (errors : list Classification) :
  (shouldContinueScraping errors = false <->
   5 < Z.of_nat (length (List.filter
                           (fun e => bool_decide (severity e = high)) errors)) \/
   10 < Z.of_nat (length (List.filter
                            (fun e => bool_decide (category e = NETWORK)) errors))) /\
  (forall more, shouldContinueScraping errors = false ->
                shouldContinueScraping (errors ++ more) = false) /\
  (forall thrown : list Error,
      errors = map classify thrown ->
      (shouldContinueScraping errors = false <->
       5 < Z.of_nat (length (List.filter
                               (fun e => isNetworkError e ||
                                         (negb (isTimeoutError e) &&
                                          isRateLimitError e)) thrown)))).
Proof.
  assert (Hiff : forall l,
             shouldContinueScraping l = false <->
             5 < countIf (fun e => bool_decide (severity e = high)) l \/
             10 < countIf (fun e => bool_decide (category e = NETWORK)) l).
  { intros l. unfold shouldContinueScraping.
    destruct (createErrorSummary_views l) as (_ & Hc & Hs & _).
    cbn zeta in Hc, Hs. rewrite Hc, Hs.
    destruct (Z.ltb_spec 5 (countIf (fun e => bool_decide (severity e = high)) l));
      [split; [auto | reflexivity]|].
    destruct (Z.ltb_spec 10
                (countIf (fun e => bool_decide (category e = NETWORK)) l));
      [split; [auto | reflexivity]|].
    split; [discriminate | lia]. }
  split; [apply Hiff|]. split.
  - intros more. rewrite !Hiff, !List.filter_app, !length_app. lia.
  - intros thrown ->. rewrite Hiff.
    assert (Hhigh : forall l : list Error,
               countIf (fun e => bool_decide (severity e = high)) (map classify l) =
               countIf (fun e => isNetworkError e ||
                                 (negb (isTimeoutError e) && isRateLimitError e)) l).
    { induction l as [|e l IH]; [reflexivity|].
      cbn [map List.filter]. rewrite classify_high.
      destruct (isNetworkError e || (negb (isTimeoutError e) && isRateLimitError e));
        cbn [length]; lia. }
    assert (Hnet : forall l : list Error,
               countIf (fun e => bool_decide (category e = NETWORK)) (map classify l)
               <= countIf (fun e => bool_decide (severity e = high)) (map classify l)).
    { induction l as [|e l IH]; [reflexivity|].
      cbn [map List.filter]. rewrite classify_high, classify_network.
      destruct (isNetworkError e); cbn [orb length]; [lia|].
      destruct (negb (isTimeoutError e) && isRateLimitError e); cbn [length]; lia. }
    specialize (Hnet thrown). rewrite <- Hhigh. lia.
Qed.

Lemma shouldContinueScraping_limits_witness :
  shouldContinueScraping
    (map classify (repeat Sample.connectionRefused 6 ++
                   [newError "selector not found"])) = false.
Proof.
  apply (proj1 (proj2 (shouldContinueScraping_limits
                         (map classify (repeat Sample.connectionRefused 6))))
           (map classify [newError "selector not found"])).
  vm_compute. reflexivity.
Defined.

End ErrorClassification.

Section RunLog.
Import ScrapingLog.

(** A run-log document that [save] accepts: it passes the field
    validators, its end is not before its start, and it has not processed
    more events than it found. *)
Local Abbreviation savable doc :=
  (validate doc = Ok tt /\
   (forall e, endTime doc = Some e -> startTime doc <= e) /\
   eventsProcessed doc <= eventsFound doc).

Lemma log_freshId_above coll :
  forall d, In d coll -> (_id d < freshId coll)%nat.
Proof.
  unfold freshId. induction coll as [|x rest IH]; intros d Hin;
    [destruct Hin|]. destruct Hin as [<- | Hin]; cbn.
  - lia.
  - specialize (IH d Hin). lia.
Qed.

Lemma store_fresh doc coll :
  (forall d, In d coll -> _id d <> _id doc) -> store doc coll = coll ++ [doc].
Proof.
  induction coll as [|d rest IH]; intros Hfresh; [reflexivity|]. cbn.
  destruct (Nat.eqb_spec (_id d) (_id doc)) as [Heq|Hne].
  - exfalso. apply (Hfresh d); [left; reflexivity | exact Heq].
  - f_equal. apply IH. intros d' Hd'. apply Hfresh. right. exact Hd'.
Qed.

Lemma validate_cases doc :
  validate doc = Ok tt <->
  Js.truthy (sourceWebsite doc) = true /\
  Js.httpUrlRegex_test (sourceWebsite doc) = true /\
  0 <= eventsFound doc /\ 0 <= eventsProcessed doc /\
  (length (scrapingErrors doc) <= 100)%nat.
Proof.
  unfold validate, fieldErrors, sourceWebsiteErrors, eventsFoundErrors,
    eventsProcessedErrors, scrapingErrorsErrors.
  destruct (Js.truthy (sourceWebsite doc)); cbn [negb];
    [|split; [discriminate | intros [H _]; discriminate H]].
  destruct (Js.httpUrlRegex_test (sourceWebsite doc)); cbn [negb];
    [|split; [discriminate | intros (_ & H & _); discriminate H]].
  destruct (Z.ltb_spec (eventsFound doc) 0);
    [split; [discriminate | intros (_ & _ & H' & _); lia]|].
  destruct (Z.ltb_spec (eventsProcessed doc) 0);
    [split; [discriminate | intros (_ & _ & _ & H' & _); lia]|].
  destruct (Nat.ltb_spec 100 (length (scrapingErrors doc)));
    [split; [discriminate | intros (_ & _ & _ & _ & H'); lia]|].
  split; [intros _; repeat split; assumption || lia | reflexivity].
Qed.

Lemma save_savable now doc coll :
  savable doc -> startTime doc <= now ->
  exists doc1,
    save now doc coll = (doc1, Ok tt, store doc1 coll) /\
    savable doc1 /\
    _id doc1 = _id doc /\ sourceWebsite doc1 = sourceWebsite doc /\
    startTime doc1 = startTime doc /\ status doc1 = status doc /\
    eventsFound doc1 = eventsFound doc /\
    eventsProcessed doc1 = eventsProcessed doc /\
    scrapingErrors doc1 = scrapingErrors doc /\
    endTime doc1 =
      match endTime doc, status doc with
      | Some e, _ => Some e
      | None, running => None
      | None, _ => Some now
      end.
Proof.
  intros (Hv & Hend & Hle) Hnow. unfold save. rewrite Hv. unfold preSave.
  destruct (endTime doc) as [e|] eqn:He.
  - specialize (Hend e eq_refl).
    destruct (Z.ltb_spec e (startTime doc)); [lia|].
    assert (Hd : (match status doc with
                  | running => doc | _ => doc end) = doc)
      by (destruct (status doc); reflexivity).
    rewrite Hd.
    destruct (Z.ltb_spec (eventsFound doc) (eventsProcessed doc)); [lia|].
    exists doc. split; [reflexivity|]. rewrite He.
    repeat split; try assumption. intros e' [= <-]. exact Hend.
  - destruct (status doc) eqn:Hst; cbn [set_endTime eventsFound eventsProcessed];
      (destruct (Z.ltb_spec (eventsFound doc) (eventsProcessed doc)); [lia|]);
      eexists; (split; [reflexivity|]); cbn; rewrite ?He, ?Hst;
      repeat split; try assumption; try reflexivity;
      try (intros e' [= <-]; exact Hnow); try (intros e' H'; discriminate H');
      apply validate_cases in Hv; apply validate_cases; exact Hv.
Qed.

Lemma createLog_cases (now : Z) (website : string) (coll : Collection) :
  let doc := mkLog (freshId coll) (Js.trim website) now None 0 0 [] running in
  (Js.httpUrlRegex_test (Js.trim website) = true ->
   createLog now website coll = (Ok doc, coll ++ [doc]) /\
   forall d, In d coll -> _id d <> _id doc) /\
  (Js.httpUrlRegex_test (Js.trim website) = false ->
   exists e, createLog now website coll = (Throw e, coll)).
Proof.
  cbn zeta. split.
  - intros Hurl.
    assert (Hfresh : forall d, In d coll -> _id d <> freshId coll).
    { intros d Hd. pose proof (log_freshId_above coll d Hd). lia. }
    split; [|exact Hfresh].
    unfold createLog.
    destruct (save_savable now
                (mkLog (freshId coll) (Js.trim website) now None 0 0 [] running)
                coll) as (doc1 & Hsave & _ & Hid & Hw & Hs & Hst & Hf & Hp & He & Hend).
    + split; [|split; [intros e H; discriminate H | reflexivity]].
      apply validate_cases. cbn. repeat split; try lia; [|exact Hurl].
      destruct (Js.trim website); [discriminate Hurl | reflexivity].
    + reflexivity.
    + rewrite Hsave. cbn in *. destruct doc1; cbn in *. subst.
      rewrite store_fresh by exact Hfresh. reflexivity.
  - intros Hurl. unfold createLog, save.
    destruct (validate (mkLog (freshId coll) (Js.trim website) now None 0 0 []
                          running)) as [[]|e] eqn:Hv; [|eauto].
    apply validate_cases in Hv as (_ & Hv & _). cbn in Hv. congruence.
Qed.

(** X23. [createLog] succeeds exactly for a source url that, trimmed, is
    an http or https url. Then it appends one document, under a fresh id,
    with status running, the current instant as start, no end, no events
    and no errors, and leaves the stored documents as they were; otherwise
    it throws and stores nothing. *)
Theorem createLog_outcome (now : Z) (website : string) (coll : Collection) :
  let doc := mkLog (freshId coll) (Js.trim website) now None 0 0 [] running in
  (Js.httpUrlRegex_test (Js.trim website) = true ->
   createLog now website coll = (Ok doc, coll ++ [doc]) /\
   forall d, In d coll -> _id d <> _id doc) /\
  (Js.httpUrlRegex_test (Js.trim website) = false ->
   exists e, createLog now website coll = (Throw e, coll)).
Proof. exact (createLog_cases now website coll). Qed.

Lemma createLog_outcome_witness :
  exists doc,
    createLog 1000 " https://events.example/listing " [] = (Ok doc, [doc]) /\
    status doc = running.
Proof.
  destruct (proj1 (createLog_outcome 1000 " https://events.example/listing " [])
              eq_refl) as [Hcreate _].
  eexists. split; [exact Hcreate | reflexivity].
Defined.

Lemma addError_accepted (now : Z) (error : string) (doc : IScrapingLog)
        (coll : Collection) :
  validate doc = Ok tt ->
  (forall e, endTime doc = Some e -> startTime doc <= e) ->
  eventsProcessed doc <= eventsFound doc ->
  startTime doc <= now ->
  exists doc1,
    addError now error doc coll = (doc1, Ok tt, store doc1 coll) /\
    scrapingErrors doc1 =
      (if (length (scrapingErrors doc) <? 100)%nat
       then scrapingErrors doc ++ [error] else scrapingErrors doc) /\
    (length (scrapingErrors doc1) <= 100)%nat /\
    validate doc1 = Ok tt /\
    (forall e, endTime doc1 = Some e -> startTime doc1 <= e) /\
    eventsProcessed doc1 <= eventsFound doc1 /\
    _id doc1 = _id doc /\ startTime doc1 = startTime doc /\
    status doc1 = status doc /\ eventsFound doc1 = eventsFound doc.
Proof.
  intros Hv Hend Hle Hnow. unfold addError.
  set (doc0 := if (length (scrapingErrors doc) <? 100)%nat
               then mkLog (_id doc) (sourceWebsite doc) (startTime doc)
                      (endTime doc) (eventsFound doc) (eventsProcessed doc)
                      (scrapingErrors doc ++ [error]) (status doc)
               else doc).
  assert (Hfields : _id doc0 = _id doc /\ sourceWebsite doc0 = sourceWebsite doc /\
                    startTime doc0 = startTime doc /\ endTime doc0 = endTime doc /\
                    eventsFound doc0 = eventsFound doc /\
                    eventsProcessed doc0 = eventsProcessed doc /\
                    status doc0 = status doc /\
                    scrapingErrors doc0 =
                      (if (length (scrapingErrors doc) <? 100)%nat
                       then scrapingErrors doc ++ [error]
                       else scrapingErrors doc)).
  { subst doc0. destruct (length (scrapingErrors doc) <? 100)%nat;
      repeat split; reflexivity. }
  destruct Hfields as (Hid & Hw & Hs & He & Hf & Hp & Hst & Herr).
  apply validate_cases in Hv as (Ht & Hu & Hf0 & Hp0 & Hlen).
  assert (Hlen0 : (length (scrapingErrors doc0) <= 100)%nat).
  { rewrite Herr. destruct (Nat.ltb_spec (length (scrapingErrors doc)) 100);
      [rewrite length_app; cbn; lia | exact Hlen]. }
  destruct (save_savable now doc0 coll)
    as (doc1 & Hsave & (Hv1 & Hend1 & Hle1) & Hid1 & _ & Hs1 & Hst1 & Hf1 & _ & Herr1 & _).
  - split; [|split].
    + apply validate_cases. rewrite Hw, Hf, Hp. repeat split; assumption.
    + intros e. rewrite He, Hs. apply Hend.
    + rewrite Hf, Hp. exact Hle.
  - rewrite Hs. exact Hnow.
  - exists doc1. split; [exact Hsave|]. rewrite Herr1.
    split; [exact Herr|]. split; [exact Hlen0|].
    repeat split; try assumption; congruence.
Qed.

(** X24. [addError] keeps at most 100 messages. On a log with fewer than
    100 it appends the message; on a log that has 100 it drops the message
    and saves the log as it is. A log that [save] accepts is accepted
    again after [addError], so the limit of the validator never rejects
    it, and the other fields are unchanged (only a missing end time of a
    finished run is set). *)
Theorem addError_keeps_hundred (now : Z) (error : string) (doc : IScrapingLog)
        (coll : Collection) :
  validate doc = Ok tt ->
  (forall e, endTime doc = Some e -> startTime doc <= e) ->
  eventsProcessed doc <= eventsFound doc ->
  startTime doc <= now ->
  exists doc1,
    addError now error doc coll = (doc1, Ok tt, store doc1 coll) /\
    scrapingErrors doc1 =
      (if (length (scrapingErrors doc) <? 100)%nat
       then scrapingErrors doc ++ [error] else scrapingErrors doc) /\
    (length (scrapingErrors doc1) <= 100)%nat /\
    validate doc1 = Ok tt /\
    (forall e, endTime doc1 = Some e -> startTime doc1 <= e) /\
    eventsProcessed doc1 <= eventsFound doc1 /\
    _id doc1 = _id doc /\ startTime doc1 = startTime doc /\
    status doc1 = status doc /\ eventsFound doc1 = eventsFound doc.
Proof. exact (addError_accepted now error doc coll). Qed.

Lemma addError_keeps_hundred_witness :
  let full := mkLog 1 "https://events.example/listing" 1000 None 0 0
                (repeat "timeout" 100) running in
  exists doc1,
    addError 2000 "one more" full [full] = (doc1, Ok tt, [doc1]) /\
    scrapingErrors doc1 = repeat "timeout" 100.
Proof.
  cbn zeta.
  destruct (addError_keeps_hundred 2000 "one more"
              (mkLog 1 "https://events.example/listing" 1000 None 0 0
                 (repeat "timeout" 100) running)
              [mkLog 1 "https://events.example/listing" 1000 None 0 0
                 (repeat "timeout" 100) running])
    as (doc1 & Hadd & Herr & _).
  - vm_compute. reflexivity.
  - intros e H. discriminate H.
  - cbn. lia.
  - cbn. lia.
  - exists doc1. split; [|exact Herr].
    rewrite Hadd. f_equal.
    replace doc1 with
      (fst (fst (addError 2000 "one more"
                   (mkLog 1 "https://events.example/listing" 1000 None 0 0
                      (repeat "timeout" 100) running)
                   [mkLog 1 "https://events.example/listing" 1000 None 0 0
                      (repeat "timeout" 100) running])))
      by (rewrite Hadd; reflexivity).
    vm_compute. reflexivity.
Defined.

Lemma markCompleted_accepted now found processed doc coll :
  validate doc = Ok tt -> 0 <= processed <= found -> startTime doc <= now ->
  exists doc',
    markCompleted now found processed doc coll =
      (doc', Ok tt, store doc' coll) /\
    savable doc' /\ _id doc' = _id doc /\ startTime doc' = startTime doc /\
    status doc' = completed /\ eventsFound doc' = found /\
    eventsProcessed doc' = processed /\
    getDuration doc' = Some (now - startTime doc).
Proof.
  intros Hv Hcounts Hnow. unfold markCompleted.
  apply validate_cases in Hv as (Ht & Hu & _ & _ & Hlen).
  destruct (save_savable now
              (mkLog (_id doc) (sourceWebsite doc) (startTime doc) (Some now)
                 found processed (scrapingErrors doc) completed) coll)
    as (doc1 & Hsave & Hsav & Hid1 & _ & Hs1 & Hst1 & Hf1 & Hp1 & _ & He1).
  - split; [|split].
    + apply validate_cases. cbn. repeat split; try assumption; lia.
    + cbn. intros e [= <-]. exact Hnow.
    + cbn. lia.
  - exact Hnow.
  - exists doc1. split; [exact Hsave|]. split; [exact Hsav|]. cbn in *.
    repeat split; try assumption.
    unfold getDuration. rewrite He1, Hs1. reflexivity.
Qed.

(** X25. A finished run has a duration that is not negative: after a
    successful [save], at an instant not before its start, of a log whose
    status is completed or failed, [getDuration] is defined and at least 0
    (for a running log without end time it is undefined). [markCompleted]
    succeeds on a log that passes the validators when the counts are not
    negative, the processed count does not exceed the found count and the
    clock has not gone back; the log then is completed with the counts
    given and its duration is the time since its start. *)
Theorem finished_log_has_duration (now : Z) (doc : IScrapingLog)
        (coll : Collection) :
  (forall doc' coll',
      save now doc coll = (doc', Ok tt, coll') ->
      (status doc = completed \/ status doc = failed) ->
      startTime doc <= now ->
      exists d, getDuration doc' = Some d /\ 0 <= d) /\
  (forall doc' coll',
      save now doc coll = (doc', Ok tt, coll') ->
      status doc = running -> endTime doc = None ->
      getDuration doc' = None) /\
  (forall found processed,
      validate doc = Ok tt -> 0 <= processed <= found ->
      startTime doc <= now ->
      exists doc',
        markCompleted now found processed doc coll =
          (doc', Ok tt, store doc' coll) /\
        status doc' = completed /\ eventsFound doc' = found /\
        eventsProcessed doc' = processed /\
        getDuration doc' = Some (now - startTime doc)).
Proof.
  split; [|split].
  - intros doc' coll' Hsave Hst Hnow. unfold save in Hsave.
    destruct (validate doc); [|discriminate].
    unfold preSave in Hsave.
    destruct (endTime doc) as [e|] eqn:He.
    + destruct (Z.ltb_spec e (startTime doc)); [discriminate|].
      assert (Hd : (match status doc with
                    | running => doc | _ => doc end) = doc)
        by (destruct (status doc); reflexivity).
      rewrite Hd in Hsave.
      destruct (eventsFound doc <? eventsProcessed doc); [discriminate|].
      injection Hsave as <- _. unfold getDuration. rewrite He.
      eexists. split; [reflexivity | lia].
    + destruct Hst as [Hst | Hst]; rewrite Hst in Hsave;
        cbn [set_endTime eventsFound eventsProcessed] in Hsave;
        (destruct (eventsFound doc <? eventsProcessed doc); [discriminate|]);
        injection Hsave as <- _; unfold getDuration; cbn;
        eexists; (split; [reflexivity | lia]).
  - intros doc' coll' Hsave Hst He. unfold save in Hsave.
    destruct (validate doc); [|discriminate].
    unfold preSave in Hsave. rewrite He, Hst in Hsave.
    destruct (eventsFound doc <? eventsProcessed doc); [discriminate|].
    injection Hsave as <- _. unfold getDuration. rewrite He. reflexivity.
  - intros found processed Hv Hcounts Hnow.
    destruct (markCompleted_accepted now found processed doc coll Hv Hcounts Hnow)
      as (doc' & Hmark & _ & _ & _ & Hst & Hf & Hp & Hd).
    exists doc'. repeat split; assumption.
Qed.

Lemma finished_log_has_duration_witness :
  let log := mkLog 1 "https://events.example/listing" 1000 None 0 0 [] running in
  exists doc',
    markCompleted 1500 3 3 log [log] = (doc', Ok tt, store doc' [log]) /\
    getDuration doc' = Some 500.
Proof.
  cbn zeta.
  destruct (proj2 (proj2 (finished_log_has_duration 1500
                            (mkLog 1 "https://events.example/listing" 1000 None
                               0 0 [] running)
                            [mkLog 1 "https://events.example/listing" 1000 None
                               0 0 [] running])) 3 3)
    as (doc' & Hmark & _ & _ & _ & Hd).
  - vm_compute. reflexivity.
  - lia.
  - cbn. lia.
  - exists doc'. split; [exact Hmark | exact Hd].
Defined.

End RunLog.

Section CycleAccounting.
Import Engine ScheduledScraper.

Local Abbreviation savable doc :=
  (ScrapingLog.validate doc = Ok tt /\
   (forall e, ScrapingLog.endTime doc = Some e -> ScrapingLog.startTime doc <= e) /\
   ScrapingLog.eventsProcessed doc <= ScrapingLog.eventsFound doc).

(** The url of the source, trimmed, is an http or https url. *)
Local Abbreviation validUrl source :=
  (Js.httpUrlRegex_test (Js.trim (url source))).

Local Abbreviation total f entries := (foldr Z.add 0 (map f entries)).

Local Abbreviation countIf f entries :=
  (Z.of_nat (length (List.filter f entries))).

(** A failed entry carries no events and one error. *)
Local Abbreviation wellCounted entry :=
  (0 <= eventsFound entry /\ 0 <= errors entry /\
   (success entry = false -> eventsFound entry = 0 /\ errors entry = 1)).

Lemma scrapeSourceWithStatusManagement_frame source w :
  exists result w',
    scrapeSourceWithStatusManagement source w = (Ok result, w') /\
    w_now w <= w_now w' /\ w_scrapingLogs w' = w_scrapingLogs w.
Proof.
  unfold scrapeSourceWithStatusManagement, bind.
  rewrite scrapeSource_spec. cbn zeta.
  set (basic := mkScraping _ _ _ _ _).
  destruct (events basic) as [|event rest].
  - unfold ret. eexists; eexists. split; [reflexivity|]. cbn. split; [lia | reflexivity].
  - unfold tryCatch, bind, processScrapedEvents, ret.
    destruct (StatusManager.processScrapedEvents _ _ _ _) as [[detection|err] st];
      cbn; eexists; eexists; (split; [reflexivity|]); cbn;
      (split; [lia | reflexivity]).
Qed.

Lemma addErrors_accepted messages : forall log w,
  savable log -> ScrapingLog.startTime log <= w_now w ->
  exists log' w',
    addErrors messages log w = (log', Ok tt, w') /\ w_now w' = w_now w.
Proof.
  induction messages as [|msg rest IH]; intros log w Hsav Hnow; cbn.
  - eauto.
  - unfold onLog.
    destruct Hsav as (Hv & Hend & Hle).
    destruct (addError_accepted (w_now w) msg log (w_scrapingLogs w) Hv Hend Hle Hnow)
      as (log1 & -> & _ & _ & Hv1 & Hend1 & Hle1 & _ & Hs1 & _).
    destruct (IH log1
                (mkWorld (w_now w) (w_events w) (w_changeLog w)
                   (ScrapingLog.store log1 (w_scrapingLogs w)) (w_breakers w)
                   (w_web w)))
      as (log' & w' & Hrest & Hnow').
    + repeat split; assumption.
    + cbn. rewrite Hs1. exact Hnow.
    + exists log', w'. split; [exact Hrest | exact Hnow'].
Qed.

(** One round of the loop never throws: it appends one entry for the
    source, successful exactly when the source's url is valid. *)
Lemma orchestrateOne_spec source totals w :
  exists entry totals' w',
    orchestrateOne source totals w = (Ok totals', w') /\
    t_sourceResults totals' = t_sourceResults totals ++ [entry] /\
    t_totalEvents totals' = t_totalEvents totals + eventsFound entry /\
    t_totalErrors totals' = t_totalErrors totals + errors entry /\
    t_successfulSources totals' =
      t_successfulSources totals + (if success entry then 1 else 0) /\
    sourceName entry = name source /\
    success entry = validUrl source /\
    wellCounted entry /\
    w_now w <= w_now w'.
Proof.
  unfold orchestrateOne, createLog.
  destruct (createLog_cases (w_now w) (url source) (w_scrapingLogs w))
    as [Hvalid Hinvalid].
  destruct (validUrl source) eqn:Hurl.
  - destruct (Hvalid eq_refl) as [-> _]. clear Hvalid Hinvalid.
    set (log := ScrapingLog.mkLog _ _ _ _ _ _ _ _).
    set (w1 := mkWorld _ _ _ _ _ _).
    destruct (scrapeSourceWithStatusManagement_frame source w1)
      as (result & w2 & -> & Hnow2 & Hlogs2).
    unfold onLog at 1.
    assert (Hv : ScrapingLog.validate log = Ok tt).
    { apply validate_cases. subst log. cbn. repeat split; try lia; [|exact Hurl].
      destruct (Js.trim (url source)); [discriminate Hurl | reflexivity]. }
    destruct (markCompleted_accepted (w_now w2)
                (Z.of_nat (length (events result)))
                (Z.of_nat (length (events result))) log (w_scrapingLogs w2) Hv)
      as (log1 & -> & Hsav1 & _ & Hs1 & _); [lia | exact Hnow2 |].
    set (w3 := mkWorld _ _ _ _ _ _).
    destruct (addErrors_accepted (map ErrorHandler.message (scrapingErrors result))
                log1 w3 Hsav1)
      as (log2 & w4 & -> & Hnow4).
    { rewrite Hs1. exact Hnow2. }
    eexists; eexists; eexists. split; [reflexivity|]. cbn.
    repeat split; cbn; try reflexivity; try lia; try discriminate.
    rewrite Hnow4. exact Hnow2.
  - destruct (Hinvalid eq_refl) as [e ->]. unfold sourceFailed.
    eexists; eexists; eexists. split; [reflexivity|]. cbn.
    repeat split; cbn; try reflexivity; lia.
Qed.

Lemma total_snoc (f : SourceResult -> Z) entries entry :
  total f (entries ++ [entry]) = total f entries + f entry.
Proof. induction entries as [|x rest IH]; cbn; [lia | rewrite IH; lia]. Qed.

Lemma countIf_cons (f : SourceResult -> bool) entry entries :
  countIf f (entry :: entries) = (if f entry then 1 else 0) + countIf f entries.
Proof. cbn. destruct (f entry); cbn [length]; lia. Qed.

Lemma countIf_complement (f : SourceResult -> bool) entries :
  countIf (fun entry => negb (f entry)) entries =
  Z.of_nat (length entries) - countIf f entries.
Proof.
  induction entries as [|x rest IH]; [reflexivity|].
  rewrite !countIf_cons, IH. cbn [length]. destruct (f x); cbn [negb]; lia.
Qed.

Lemma orchestrateLoop_spec remaining : forall totals w,
  exists entries totals' w',
    orchestrateLoop remaining totals w = (Ok totals', w') /\
    t_sourceResults totals' = t_sourceResults totals ++ entries /\
    t_totalEvents totals' = t_totalEvents totals + total eventsFound entries /\
    t_totalErrors totals' = t_totalErrors totals + total errors entries /\
    t_successfulSources totals' =
      t_successfulSources totals + countIf success entries /\
    map sourceName entries = map name remaining /\
    map success entries = map (fun source => validUrl source) remaining /\
    Forall (fun entry => wellCounted entry) entries /\
    w_now w <= w_now w'.
Proof.
  induction remaining as [|source rest IH]; intros totals w.
  - exists [], totals, w. cbn. rewrite app_nil_r.
    repeat split; try reflexivity; try lia. constructor.
  - cbn [orchestrateLoop]. unfold bind.
    destruct (orchestrateOne_spec source totals w)
      as (entry & totals1 & w1 & -> & Hres & Hev & Herr & Hsucc & Hname & Hok
          & Hcounted & Hnow).
    destruct (IH totals1 w1)
      as (entries & totals' & w' & -> & Hres' & Hev' & Herr' & Hsucc' & Hnames
          & Hoks & Hall & Hnow').
    exists (entry :: entries), totals', w'. split; [reflexivity|].
    rewrite Hres', Hres, Hev', Hev, Herr', Herr, Hsucc', Hsucc, countIf_cons.
    cbn [map foldr]. rewrite <- app_assoc, Hname, Hok, Hnames, Hoks.
    repeat split; try reflexivity; try lia.
    constructor; assumption.
Qed.

Lemma cycle_accounting (s : Scheduler) (w : World) :
  isRunning s = false ->
  let result := fst (fst (executeScrapingCycle s w)) in
  map sourceName (sourceResults result) = map name (sources s) /\
  map success (sourceResults result) =
    map (fun source => validUrl source) (sources s) /\
  Forall (fun entry => success entry = false ->
                       eventsFound entry = 0 /\ errors entry = 1)
         (sourceResults result) /\
  totalSources result = Z.of_nat (length (sources s)) /\
  successfulSources result = countIf success (sourceResults result) /\
  failedSources result =
    countIf (fun entry => negb (success entry)) (sourceResults result) /\
  successfulSources result + failedSources result = totalSources result /\
  totalEvents result = total eventsFound (sourceResults result) /\
  totalErrors result = total errors (sourceResults result) /\
  startTime result <= endTime result /\
  duration result = endTime result - startTime result.
Proof.
  intros Hidle. cbn zeta. unfold executeScrapingCycle. rewrite Hidle.
  cbn [enterCycle sources]. unfold orchestrateScrapingSources, bind, dateNow.
  destruct (sources s) as [|source rest] eqn:Hsources.
  - cbn. repeat split; try reflexivity; try lia. constructor.
  - rewrite <- Hsources.
    destruct (orchestrateLoop_spec (sources s) (mkTotals [] 0 0 0) w)
      as (entries & totals' & w' & -> & Hres & Hev & Herr & Hsucc & Hnames
          & Hoks & Hall & Hnow).
    cbn [t_sourceResults t_totalEvents t_totalErrors t_successfulSources app]
      in Hres, Hev, Herr, Hsucc.
    rewrite Z.add_0_l in Hev, Herr, Hsucc. subst entries. unfold ret.
    cbn [fst snd sourceResults totalSources successfulSources failedSources
         totalEvents totalErrors startTime endTime duration].
    assert (Hlen : length (t_sourceResults totals') = length (sources s)).
    { rewrite <- (length_map sourceName), Hnames, length_map. reflexivity. }
    rewrite countIf_complement, Hlen, <- Hsucc.
    repeat split; try assumption; try reflexivity; try lia.
    eapply Forall_impl; [exact Hall|]. cbn. intros entry (_ & _ & H). exact H.
Qed.

(** X26. A cycle of an idle scheduler, with the database reachable,
    accounts for every source: the result lists one entry per configured
    source, in order; an entry is successful exactly when the source's
    trimmed url is an http or https url (whatever the fetch did), and a
    failed entry has no events and one error; the numbers of successful
    and failed sources count these entries and add up to the number of
    sources; the event and error totals are the sums over the entries;
    and the cycle does not end before it starts. *)
Theorem cycle_accounts_for_every_source (s : Scheduler) (w : World) :
  isRunning s = false ->
  let result := fst (fst (executeScrapingCycle s w)) in
  map sourceName (sourceResults result) = map name (sources s) /\
  map success (sourceResults result) =
    map (fun source => validUrl source) (sources s) /\
  Forall (fun entry => success entry = false ->
                       eventsFound entry = 0 /\ errors entry = 1)
         (sourceResults result) /\
  totalSources result = Z.of_nat (length (sources s)) /\
  successfulSources result = countIf success (sourceResults result) /\
  failedSources result =
    countIf (fun entry => negb (success entry)) (sourceResults result) /\
  successfulSources result + failedSources result = totalSources result /\
  totalEvents result = total eventsFound (sourceResults result) /\
  totalErrors result = total errors (sourceResults result) /\
  startTime result <= endTime result /\
  duration result = endTime result - startTime result.
Proof. exact (cycle_accounting s w). Qed.

Lemma cycle_accounts_for_every_source_witness :
  map success
      (sourceResults
         (fst (fst (executeScrapingCycle Sample.twoSources Sample.freshWorld)))) =
  map (fun source => validUrl source) (sources Sample.twoSources).
Proof.
  exact (proj1 (proj2 (cycle_accounts_for_every_source Sample.twoSources
                         Sample.freshWorld eq_refl))).
Defined.

End CycleAccounting.

Section CycleOverlap.
Import Engine ScheduledScraper.

(** No cycle is suspended and the flag is clear, or one cycle is suspended
    and the flag is set. *)
Local Abbreviation oneAtMost sys :=
  ((sys_active sys = [] /\ isRunning (sys_scheduler sys) = false) \/
   (exists c, sys_active sys = [c] /\ isRunning (sys_scheduler sys) = true)).

(** What a skipped call returns at instant [t]. *)
Local Abbreviation previous s t :=
  (default (createEmptyResult t) (lastRunResult s)).

Lemma act_trigger_running sys :
  isRunning (sys_scheduler sys) = true ->
  act sys Trigger =
    mkSystem (sys_scheduler sys) (sys_world sys) (sys_active sys)
      (sys_returned sys ++
       [previous (sys_scheduler sys) (w_now (sys_world sys))]).
Proof. intros Hrun. unfold act, beginCycle. rewrite Hrun. reflexivity. Qed.

Lemma run_triggers_running n : forall sys,
  isRunning (sys_scheduler sys) = true ->
  run sys (replicate n Trigger) =
    mkSystem (sys_scheduler sys) (sys_world sys) (sys_active sys)
      (sys_returned sys ++
       replicate n (previous (sys_scheduler sys) (w_now (sys_world sys)))).
Proof.
  induction n as [|n IH]; intros sys Hrun.
  - cbn. rewrite app_nil_r. destruct sys; reflexivity.
  - cbn [replicate]. unfold run in *. cbn [fold_left].
    rewrite (act_trigger_running sys Hrun), IH by exact Hrun.
    cbn. rewrite <- app_assoc. reflexivity.
Qed.

Lemma act_oneAtMost sys a : oneAtMost sys -> oneAtMost (act sys a).
Proof.
  intros Hinv. destruct a as [|i].
  - destruct Hinv as [[Hact Hrun] | (c & Hact & Hrun)].
    + unfold act, beginCycle. rewrite Hrun, Hact. cbn. right. eauto.
    + rewrite (act_trigger_running sys Hrun). cbn. right. eauto.
  - unfold act. destruct Hinv as [[Hact Hrun] | (c & Hact & Hrun)]; rewrite Hact.
    + cbn. left. split; assumption.
    + destruct i as [|i]; cbn [lookup list_lookup];
        [|right; exists c; split; assumption].
      unfold resumeCycle. destruct (c_remaining c) as [|source rest].
      * cbn. left. split; reflexivity.
      * destruct (orchestrateOne source (c_totals c) (sys_world sys))
          as [[totals'|e] w']; cbn.
        -- right. eexists. split; [reflexivity | exact Hrun].
        -- left. split; reflexivity.
Qed.

Lemma run_oneAtMost actions : forall sys,
  oneAtMost sys -> oneAtMost (run sys actions).
Proof.
  induction actions as [|a rest IH]; intros sys Hinv; [exact Hinv|].
  apply IH, act_oneAtMost, Hinv.
Qed.

(** A suspended cycle, resumed at each of its awaits after the calls that
    arrive there, runs the whole loop once; the calls only add the result
    they are given to the results returned. *)
Lemma run_overlapped remaining : forall srcs t0 totals s1 w R gaps,
  isRunning s1 = true ->
  length gaps = S (length remaining) ->
  exists totals' w' skipped,
    orchestrateLoop remaining totals w = (Ok totals', w') /\
    run (mkSystem s1 w [mkCycle srcs t0 remaining totals] R) (overlapped gaps) =
      mkSystem
        (leaveCycle s1 (orchestrated (mkCycle srcs t0 [] totals') (w_now w')))
        w' []
        (R ++ skipped ++
         [orchestrated (mkCycle srcs t0 [] totals') (w_now w')]) /\
    length skipped = sum_list gaps /\
    Forall (fun r => exists t, r = previous s1 t) skipped.
Proof.
  induction remaining as [|source rest IH];
    intros srcs t0 totals s1 w R gaps Hrun Hlen.
  - destruct gaps as [|n [|? ?]]; try discriminate Hlen.
    exists totals, w, (replicate n (previous s1 (w_now w))).
    split; [reflexivity|]. split; [|split].
    + cbn [overlapped]. unfold run. rewrite fold_left_app.
      fold (run (mkSystem s1 w [mkCycle srcs t0 [] totals] R)
              (replicate n Trigger)).
      rewrite run_triggers_running by exact Hrun. cbn.
      rewrite <- app_assoc. reflexivity.
    + cbn. rewrite length_replicate. lia.
    + apply Forall_replicate. eauto.
  - destruct gaps as [|n gaps]; [discriminate Hlen|].
    destruct (orchestrateOne_spec source totals w)
      as (entry & totals1 & w1 & Hone & _).
    destruct (IH srcs t0 totals1 s1 w1
                (R ++ replicate n (previous s1 (w_now w))) gaps Hrun)
      as (totals' & w' & skipped & Hloop & Hrest & Hcount & Hall).
    { cbn in Hlen. lia. }
    exists totals', w', (replicate n (previous s1 (w_now w)) ++ skipped).
    split; [|split; [|split]].
    + cbn [orchestrateLoop]. unfold bind. rewrite Hone. exact Hloop.
    + cbn [overlapped]. unfold run. rewrite fold_left_app.
      fold (run (mkSystem s1 w [mkCycle srcs t0 (source :: rest) totals] R)
              (replicate n Trigger)).
      rewrite run_triggers_running by exact Hrun.
      cbn [fold_left act sys_active sys_scheduler sys_world sys_returned
           lookup list_lookup].
      unfold resumeCycle. cbn [c_remaining c_totals c_sources c_startTime].
      rewrite Hone. cbn [insert list_insert].
      fold (run (mkSystem s1 w1 [mkCycle srcs t0 rest totals1]
                   (R ++ replicate n (previous s1 (w_now w)))) (overlapped gaps)).
      rewrite Hrest, <- !app_assoc. reflexivity.
    + rewrite length_app, length_replicate, Hcount. reflexivity.
    + apply Forall_app. split; [apply Forall_replicate; eauto | exact Hall].
Qed.

(** C5 (amended). Start from a scheduler at rest and let calls of
    [executeScrapingCycle] and resumptions of suspended cycles follow in
    any order. Then never more than one cycle is in flight, and the flag
    is set exactly while one is: a call that arrives then returns at once
    the result of the last completed cycle (an empty result when there
    is none), starts nothing and changes neither the scheduler nor the
    world. So when one cycle is overlapped by any number of further calls
    at each of its awaits, the scheduler and the world end as one cycle
    run alone leaves them; the overlapping calls have returned the
    previous result, and the cycle returns its own result last and has
    stored it as the last one, with the flag cleared. *)
Theorem overlapping_trigger_is_skipped (s : Scheduler) (w : World) :
  isRunning s = false ->
  (forall actions,
      let sys := run (atRest s w) actions in
      (length (sys_active sys) <= 1)%nat /\
      (isRunning (sys_scheduler sys) = true <-> sys_active sys <> []) /\
      (sys_active sys <> [] ->
       act sys Trigger =
         mkSystem (sys_scheduler sys) (sys_world sys) (sys_active sys)
           (sys_returned sys ++
            [default (createEmptyResult (w_now (sys_world sys)))
               (lastRunResult (sys_scheduler sys))]))) /\
  (forall gaps,
      length gaps = S (length (sources s)) ->
      let sys := run (atRest s w) (Trigger :: overlapped gaps) in
      let result := fst (fst (executeScrapingCycle s w)) in
      sys_scheduler sys = snd (fst (executeScrapingCycle s w)) /\
      sys_world sys = snd (executeScrapingCycle s w) /\
      sys_active sys = [] /\
      exists skipped,
        sys_returned sys = skipped ++ [result] /\
        length skipped = sum_list gaps /\
        Forall (fun r => exists t,
                    r = default (createEmptyResult t) (lastRunResult s))
          skipped) /\
  isRunning (snd (fst (executeScrapingCycle s w))) = false /\
  lastRunResult (snd (fst (executeScrapingCycle s w))) =
    Some (fst (fst (executeScrapingCycle s w))).
Proof.
  intros Hidle. split; [|split].
  - intros actions. cbn zeta.
    assert (Hinv : oneAtMost (run (atRest s w) actions)).
    { apply run_oneAtMost. left. split; [reflexivity | exact Hidle]. }
    destruct Hinv as [[Hact Hrun] | (c & Hact & Hrun)].
    + rewrite Hact, Hrun. split; [cbn; lia|]. split; [|contradiction].
      split; [discriminate | contradiction].
    + split; [rewrite Hact; cbn; lia|]. split.
      * rewrite Hact, Hrun. split; [discriminate | reflexivity].
      * intros _. apply act_trigger_running, Hrun.
  - intros gaps Hlen. cbn zeta.
    destruct (run_overlapped (sources s) (sources s) (w_now w)
                (mkTotals [] 0 0 0) (enterCycle s) w [] gaps eq_refl Hlen)
      as (totals' & w' & skipped & Hloop & Hrun & Hcount & Hall).
    assert (Hstart : run (atRest s w) (Trigger :: overlapped gaps) =
                     run (mkSystem (enterCycle s) w
                            [mkCycle (sources s) (w_now w) (sources s)
                               (mkTotals [] 0 0 0)] [])
                         (overlapped gaps)).
    { unfold run. cbn [fold_left]. unfold act at 2, beginCycle, atRest.
      cbn [sys_scheduler sys_world sys_active sys_returned]. rewrite Hidle.
      reflexivity. }
    rewrite Hstart, Hrun.
    assert (Hcycle : executeScrapingCycle s w =
                     (orchestrated (mkCycle (sources s) (w_now w) [] totals')
                        (w_now w'),
                      leaveCycle (enterCycle s)
                        (orchestrated (mkCycle (sources s) (w_now w) [] totals')
                           (w_now w')),
                      w')).
    { unfold executeScrapingCycle. rewrite Hidle.
      cbn [enterCycle sources]. unfold orchestrateScrapingSources, bind, dateNow.
      unfold orchestrated. cbn [c_sources c_startTime c_totals].
      destruct (sources s) as [|source rest] eqn:Hsources.
      - cbn in Hloop. injection Hloop as <- <-. reflexivity.
      - rewrite Hloop. reflexivity. }
    rewrite Hcycle. cbn [fst snd sys_scheduler sys_world sys_active sys_returned].
    split; [reflexivity|]. split; [reflexivity|]. split; [reflexivity|].
    exists skipped. split; [reflexivity|]. split; [exact Hcount | exact Hall].
  - unfold executeScrapingCycle. rewrite Hidle.
    destruct (orchestrateScrapingSources (sources (enterCycle s)) w)
      as [[result|err] w']; split; reflexivity.
Qed.

Lemma overlapping_trigger_is_skipped_witness :
  let sys := run (atRest Sample.twoSources Sample.freshWorld)
               (Trigger :: overlapped [2; 0; 1]%nat) in
  sys_world sys =
    snd (executeScrapingCycle Sample.twoSources Sample.freshWorld) /\
  exists skipped,
    sys_returned sys =
      skipped ++
      [fst (fst (executeScrapingCycle Sample.twoSources Sample.freshWorld))] /\
    length skipped = 3%nat.
Proof.
  cbn zeta.
  destruct (proj1 (proj2 (overlapping_trigger_is_skipped Sample.twoSources
                            Sample.freshWorld eq_refl))
              [2; 0; 1]%nat eq_refl)
    as (_ & Hworld & _ & skipped & Hret & Hcount & _).
  split; [exact Hworld|]. exists skipped. split; [exact Hret | exact Hcount].
Defined.

End CycleOverlap.

Section PreSaveHook.
Import Event.

Local Abbreviation normalizeTag tag := (Js.toLowerCase (Js.trim tag)).

Lemma normalizeTag_idem tag : normalizeTag (normalizeTag tag) = normalizeTag tag.
Proof. rewrite trim_toLowerCase, trim_idem. apply toLowerCase_idem. Qed.

Lemma dedupe_In xs : forall seen x,
  In x (dedupe seen xs) <-> In x xs /\ ~ In x seen.
Proof.
  induction xs as [|y rest IH]; intros seen x; cbn [dedupe In].
  - tauto.
  - case_bool_decide as Hseen; rewrite list_elem_of_In in Hseen.
    + rewrite IH. split.
      * intros [H1 H2]. auto.
      * intros [[-> | H1] H2]; [contradiction | auto].
    + cbn [In]. rewrite IH. cbn [In]. split.
      * intros [-> | [H1 H2]]; [auto|].
        split; [right; exact H1 | intros H3; apply H2; right; exact H3].
      * intros [[-> | H1] H2]; [left; reflexivity|].
        destruct (decide (y = x)) as [-> | Hne]; [left; reflexivity|].
        right. split; [exact H1|]. intros [Heq | H3]; [congruence | contradiction].
Qed.

Lemma dedupe_NoDup xs : forall seen, List.NoDup (dedupe seen xs).
Proof.
  induction xs as [|y rest IH]; intros seen; cbn; [constructor|].
  case_bool_decide; [apply IH|]. constructor; [|apply IH].
  rewrite dedupe_In. cbn. tauto.
Qed.

Lemma dedupe_fixed xs : forall seen,
  List.NoDup xs -> (forall x, In x xs -> ~ In x seen) -> dedupe seen xs = xs.
Proof.
  induction xs as [|y rest IH]; intros seen Hnd Hdisj; [reflexivity|]. cbn.
  inversion Hnd as [|? ? Hy Hrest]; subst.
  case_bool_decide as Hseen.
  - exfalso. apply (Hdisj y); [left; reflexivity|].
    rewrite <- list_elem_of_In. exact Hseen.
  - f_equal. apply IH; [exact Hrest|].
    intros x Hx [<- | Hin]; [contradiction|].
    apply (Hdisj x); [right; exact Hx | exact Hin].
Qed.

Lemma normalizeTags_In tags tag :
  In tag (normalizeTags tags) <-> exists raw, In raw tags /\ tag = normalizeTag raw.
Proof.
  unfold normalizeTags. rewrite dedupe_In, in_map_iff. cbn. split.
  - intros [(raw & <- & Hraw) _]. eauto.
  - intros (raw & Hraw & ->). split; [eauto | tauto].
Qed.

Lemma normalizeTags_idem tags :
  normalizeTags (normalizeTags tags) = normalizeTags tags.
Proof.
  unfold normalizeTags at 1.
  assert (Hmap : map (fun tag => normalizeTag tag) (normalizeTags tags) =
                 normalizeTags tags).
  { rewrite <- (map_id (normalizeTags tags)) at 2. apply map_ext_in.
    intros tag Htag. apply normalizeTags_In in Htag as (raw & _ & ->).
    apply normalizeTag_idem. }
  rewrite Hmap. apply dedupe_fixed; [apply dedupe_NoDup | tauto].
Qed.

(** X27. The pre-save hook of an event normalises and is idempotent. After
    it the city is not empty; the tags are exactly the trimmed, lowercased
    tags given, each once, in order of first occurrence, and each is
    already in trimmed lowercase form; every other field is as it was; and
    running the hook again changes nothing. *)
Theorem preSave_hook_normalizes (d : EventData) :
  let d' := preSaveData d in
  Js.truthy (city d') = true /\
  (Js.truthy (city d) = true -> city d' = city d) /\
  categoryTags d' = normalizeTags (categoryTags d) /\
  List.NoDup (categoryTags d') /\
  (forall tag, In tag (categoryTags d') <->
               exists raw, In raw (categoryTags d) /\ tag = normalizeTag raw) /\
  (forall tag, In tag (categoryTags d') -> normalizeTag tag = tag) /\
  (length (categoryTags d') <= length (categoryTags d))%nat /\
  set_categoryTags (categoryTags d) (set_city (city d) d') = d /\
  preSaveData d' = d'.
Proof.
  cbn zeta.
  assert (Htags : categoryTags (preSaveData d) = normalizeTags (categoryTags d)).
  { unfold preSaveData. destruct (Js.truthy (city d)); cbn;
      destruct (categoryTags d) eqn:Ht; cbn; rewrite ?Ht; reflexivity. }
  assert (Hcity : Js.truthy (city (preSaveData d)) = true).
  { unfold preSaveData. destruct (Js.truthy (city d)) eqn:Hc; cbn;
      destruct (categoryTags d); cbn; rewrite ?Hc; reflexivity. }
  split; [exact Hcity|]. split.
  { intros Hc. unfold preSaveData. rewrite Hc.
    destruct (categoryTags d); reflexivity. }
  split; [exact Htags|]. rewrite Htags.
  split; [apply dedupe_NoDup|].
  split; [intros tag; apply normalizeTags_In|].
  split.
  { intros tag Htag. apply normalizeTags_In in Htag as (raw & _ & ->).
    apply normalizeTag_idem. }
  split.
  { unfold normalizeTags. etransitivity; [apply dedupe_length|].
    rewrite length_map. reflexivity. }
  split.
  { unfold preSaveData. destruct d as [t dt vn va c ds tags img sw ou ls]. cbn.
    destruct (Js.truthy c); cbn; destruct tags; reflexivity. }
  unfold preSaveData at 1. rewrite Hcity.
  destruct (categoryTags (preSaveData d)) as [|tag rest] eqn:Hn; [reflexivity|].
  lazy beta iota zeta. rewrite Htags, normalizeTags_idem, <- Htags, <- Hn.
  destruct (preSaveData d). reflexivity.
Qed.

End PreSaveHook.

Section Orchestrator.
Import Engine ScheduledScraper ScraperOrchestrator.

Local Abbreviation validUrl source :=
  (Js.httpUrlRegex_test (Js.trim (url source))).

(** The number of scrapers is within the configured maximum. *)
Local Abbreviation withinCapacity o :=
  (Z.of_nat (size (scheduledScrapers o)) <= Z.max 0 (maxConcurrentScrapers o)).

(** No request of the list removes the scraper called [nm]. *)
Local Abbreviation neverRemoved nm requests :=
  (Forall (fun request => request <> RemoveScraper nm) requests).

Lemma addScheduledScraper_cases nm scraper o :
  (scheduledScrapers o !! nm = None ->
   Z.of_nat (size (scheduledScrapers o)) < maxConcurrentScrapers o ->
   addScheduledScraper nm scraper o =
     (Ok tt,
      mkOrchestrator (objects o) (<[nm := scraper]> (scheduledScrapers o))
        (maxConcurrentScrapers o) (consecutiveFailures o)
        (lastSuccessfulRun o) (lastFailedRun o))) /\
  (is_Some (scheduledScrapers o !! nm) \/
   maxConcurrentScrapers o <= Z.of_nat (size (scheduledScrapers o)) ->
   exists e, addScheduledScraper nm scraper o = (Throw e, o)).
Proof.
  unfold addScheduledScraper. split.
  - intros Hnew Hroom. rewrite Hnew.
    case_bool_decide as Hsome; [destruct Hsome as [? Hsome]; discriminate Hsome|].
    destruct (Z.leb_spec (maxConcurrentScrapers o)
                (Z.of_nat (size (scheduledScrapers o)))); [lia | reflexivity].
  - intros Hfull. case_bool_decide as Hsome; [eauto|].
    destruct Hfull as [Hold | Hfull]; [contradiction|].
    destruct (Z.leb_spec (maxConcurrentScrapers o)
                (Z.of_nat (size (scheduledScrapers o)))); [eauto | lia].
Qed.

Lemma serve_withinCapacity o request :
  withinCapacity o ->
  withinCapacity (serve o request) /\
  maxConcurrentScrapers (serve o request) = maxConcurrentScrapers o.
Proof.
  intros Hcap. destruct request as [nm scraper | nm]; cbn [serve].
  - unfold addScheduledScraper.
    case_bool_decide as Hsome; [split; [exact Hcap | reflexivity]|].
    destruct (Z.leb_spec (maxConcurrentScrapers o)
                (Z.of_nat (size (scheduledScrapers o))));
      [split; [exact Hcap | reflexivity]|].
    cbn. split; [|reflexivity].
    rewrite (map_size_insert_None nm scraper (scheduledScrapers o)).
    + lia.
    + destruct (scheduledScrapers o !! nm) eqn:Hl; [|reflexivity].
      exfalso. apply Hsome. eauto.
  - unfold removeScheduledScraper.
    destruct (scheduledScrapers o !! nm) eqn:Hl; cbn;
      [|split; [exact Hcap | reflexivity]].
    split; [|reflexivity].
    assert (Hsome : is_Some (scheduledScrapers o !! nm)) by eauto.
    pose proof (map_size_delete_Some nm (scheduledScrapers o) Hsome). lia.
Qed.

Lemma serve_keeps_registered o request nm scraper :
  scheduledScrapers o !! nm = Some scraper ->
  request <> RemoveScraper nm ->
  scheduledScrapers (serve o request) !! nm = Some scraper.
Proof.
  intros Hreg Hother. destruct request as [nm' scraper' | nm']; cbn [serve].
  - unfold addScheduledScraper.
    case_bool_decide as Hsome; [exact Hreg|].
    destruct (maxConcurrentScrapers o <=? Z.of_nat (size (scheduledScrapers o)));
      [exact Hreg|].
    cbn. destruct (decide (nm' = nm)) as [-> | Hne].
    + exfalso. apply Hsome. eauto.
    + rewrite (lookup_insert_ne (scheduledScrapers o)) by exact Hne. exact Hreg.
  - unfold removeScheduledScraper.
    destruct (scheduledScrapers o !! nm') eqn:Hl; cbn; [|exact Hreg].
    rewrite (lookup_delete_ne (scheduledScrapers o)); [exact Hreg|].
    intros ->. apply Hother. reflexivity.
Qed.

(** X28. The orchestrator never holds more scrapers than configured and
    never replaces one. [addScheduledScraper] registers the scraper when
    the name is free and there is room, and otherwise throws and changes
    nothing; over any sequence of additions and removals the number of
    scrapers stays within [maxConcurrentScrapers], and a name once
    registered keeps its scraper until that name is removed. *)
Theorem orchestrator_keeps_capacity (o : Orchestrator) (requests : list Request) :
  withinCapacity o ->
  withinCapacity (serveAll o requests) /\
  (forall nm scraper,
      scheduledScrapers o !! nm = Some scraper ->
      neverRemoved nm requests ->
      scheduledScrapers (serveAll o requests) !! nm = Some scraper) /\
  (forall nm scraper,
      (scheduledScrapers o !! nm = None ->
       Z.of_nat (size (scheduledScrapers o)) < maxConcurrentScrapers o ->
       fst (addScheduledScraper nm scraper o) = Ok tt /\
       scheduledScrapers (snd (addScheduledScraper nm scraper o)) !! nm =
         Some scraper) /\
      (is_Some (scheduledScrapers o !! nm) \/
       maxConcurrentScrapers o <= Z.of_nat (size (scheduledScrapers o)) ->
       exists e, addScheduledScraper nm scraper o = (Throw e, o))).
Proof.
  intros Hcap. split; [|split].
  - unfold serveAll. revert o Hcap.
    induction requests as [|request rest IH]; intros o Hcap; [exact Hcap|].
    cbn [fold_left]. apply IH. apply serve_withinCapacity. exact Hcap.
  - intros nm scraper. unfold serveAll. clear Hcap. revert o.
    induction requests as [|request rest IH]; intros o Hreg Hkept; [exact Hreg|].
    cbn [fold_left]. inversion Hkept as [|? ? Hone Hrest]; subst.
    apply IH; [|exact Hrest]. apply serve_keeps_registered; assumption.
  - intros nm scraper.
    destruct (addScheduledScraper_cases nm scraper o) as [Hadd Hfull].
    split; [|exact Hfull].
    intros Hnew Hroom. rewrite (Hadd Hnew Hroom). cbn.
    split; [reflexivity|].
    apply (lookup_insert_eq (scheduledScrapers o)).
Qed.

Lemma orchestrator_keeps_capacity_witness :
  let requests := [AddScraper "nightly" 1%nat; AddScraper "default" 2%nat;
                   AddScraper "weekly" 3%nat; RemoveScraper "nightly"] in
  Z.of_nat (size (scheduledScrapers (serveAll Sample.orchestrator requests))) <= 2 /\
  scheduledScrapers (serveAll Sample.orchestrator requests) !! "default" =
    Some 0%nat.
Proof.
  cbn zeta.
  destruct (orchestrator_keeps_capacity Sample.orchestrator
              [AddScraper "nightly" 1%nat; AddScraper "default" 2%nat;
               AddScraper "weekly" 3%nat; RemoveScraper "nightly"])
    as (Hcap & Hkept & _).
  - vm_compute. discriminate.
  - split; [exact Hcap|]. apply Hkept; [reflexivity|].
    repeat constructor; discriminate.
Defined.

Lemma count_positive (f : SourceResult -> bool) entries :
  (0 <? Z.of_nat (length (List.filter f entries))) = existsb id (map f entries).
Proof.
  induction entries as [|x rest IH]; [reflexivity|]. cbn.
  destruct (f x); cbn; [|exact IH].
  destruct (Z.ltb_spec 0 (Z.pos (Pos.of_succ_nat (length (List.filter f rest)))));
    [reflexivity | lia].
Qed.

Lemma existsb_id_map {A} (f : A -> bool) l : existsb id (map f l) = existsb f l.
Proof. induction l as [|x rest IH]; [reflexivity|]. cbn. rewrite IH. reflexivity. Qed.

(** X29. A manual run through the orchestrator counts a failure only when
    no source of the scraper has a valid url. For an unknown name it
    returns null and changes nothing. For a registered, idle scraper it
    returns the result of the scraper's cycle and leaves that result as
    the scraper's last one; the failure counter is reset to 0, and the run
    recorded as the last successful one, when some source's trimmed url is
    an http or https url (whatever the fetches did), and otherwise the
    counter grows by one and the run is recorded as the last failed one.
    The other scrapers and the registrations are untouched. *)
Theorem manual_run_counts_failures (scraperName : string) (o : Orchestrator)
        (w : World) :
  (scheduledScrapers o !! scraperName = None ->
   executeManualScraping scraperName o w = (None, o, w)) /\
  (forall scraper,
      scheduledScrapers o !! scraperName = Some scraper ->
      isRunning (objects o scraper) = false ->
      let result := fst (fst (executeScrapingCycle (objects o scraper) w)) in
      let w' := snd (executeScrapingCycle (objects o scraper) w) in
      let o' := snd (fst (executeManualScraping scraperName o w)) in
      executeManualScraping scraperName o w = (Some result, o', w') /\
      lastRunResult (objects o' scraper) = Some result /\
      isRunning (objects o' scraper) = false /\
      (forall other, other <> scraper -> objects o' other = objects o other) /\
      scheduledScrapers o' = scheduledScrapers o /\
      (existsb (fun source => validUrl source) (sources (objects o scraper)) = true ->
       consecutiveFailures o' = 0 /\
       lastSuccessfulRun o' = Some (w_now w') /\
       lastFailedRun o' = lastFailedRun o) /\
      (existsb (fun source => validUrl source) (sources (objects o scraper)) = false ->
       consecutiveFailures o' = consecutiveFailures o + 1 /\
       lastSuccessfulRun o' = lastSuccessfulRun o /\
       lastFailedRun o' = Some (w_now w'))).
Proof.
  split.
  - intros Hnone. unfold executeManualScraping. rewrite Hnone. reflexivity.
  - intros scraper Hreg Hidle. cbn zeta.
    destruct (cycle_accounting (objects o scraper) w Hidle)
      as (_ & Hoks & _ & _ & Hsucc & _).
    assert (Hpos : (0 <? successfulSources
                           (fst (fst (executeScrapingCycle (objects o scraper) w)))) =
                   existsb (fun source => validUrl source)
                     (sources (objects o scraper))).
    { rewrite Hsucc, count_positive, Hoks. apply existsb_id_map. }
    assert (Hstate : snd (fst (executeScrapingCycle (objects o scraper) w)) =
                     leaveCycle (enterCycle (objects o scraper))
                       (fst (fst (executeScrapingCycle (objects o scraper) w)))).
    { unfold executeScrapingCycle. rewrite Hidle.
      destruct (orchestrateScrapingSources _ w) as [[result|e] w1]; reflexivity. }
    unfold executeManualScraping. rewrite Hreg.
    unfold ScheduledScraper.executeManualScraping.
    destruct (executeScrapingCycle (objects o scraper) w) as [[result scraper'] w']
      eqn:Hcycle.
    cbn [fst snd] in *. subst scraper'.
    destruct (existsb _ (sources (objects o scraper))); rewrite Hpos;
      cbn [fst snd objects scheduledScrapers consecutiveFailures lastSuccessfulRun
           lastFailedRun];
      rewrite Nat.eqb_refl;
      (split; [reflexivity|]); (split; [reflexivity|]); (split; [reflexivity|]);
      (split; [intros other Hother;
               destruct (Nat.eqb_spec other scraper); [contradiction | reflexivity]|]);
      (split; [reflexivity|]);
      (split; [intros H; try discriminate H; repeat split
              | intros H; try discriminate H; repeat split]).
Qed.

Lemma manual_run_counts_failures_witness :
  consecutiveFailures
    (snd (fst (executeManualScraping "default" Sample.orchestrator
                 Sample.freshWorld))) = 0.
Proof.
  destruct (proj2 (manual_run_counts_failures "default" Sample.orchestrator
                     Sample.freshWorld) 0%nat eq_refl eq_refl)
    as (_ & _ & _ & _ & _ & Hreset & _).
  exact (proj1 (Hreset eq_refl)).
Defined.

End Orchestrator.
